(** * Weighted context-free grammars and the generalized left-corner
      transformation: a shallow embedding of [leftcorner/cfg.py].

    The first half of the file embeds the program: symbols, rules, charts,
    grammars, derivations, the closure solver, the structural
    transformations, speculation and GLCT.  The second half states and
    proves properties of these definitions. *)

From Stdlib Require Import ZArith List String Ascii Bool Arith Lia.
From Stdlib Require DecimalString DecimalNat Permutation.
Import ListNotations.

Set Implicit Arguments.
Set Warnings "-register-all".

(* ===================================================================== *)
(** * Part I.  The embedding                                              *)
(* ===================================================================== *)

(** ** Python equality

    [x == y] on the values the program handles.  Only the test itself
    lives here; that it decides Leibniz equality is [EqbLaws] below. *)

Class Eqb (A : Type) := beq : A -> A -> bool.

Class EqbLaws (A : Type) {E : Eqb A} : Prop :=
  beq_eq : forall x y : A, beq x y = true <-> x = y.

Arguments EqbLaws A {E}.

#[export] Instance nat_Eqb : Eqb nat := Nat.eqb.
#[export] Instance string_Eqb : Eqb string := String.eqb.

Fixpoint list_beq {A} {E : Eqb A} (xs ys : list A) : bool :=
  match xs, ys with
  | [], [] => true
  | x :: xs', y :: ys' => beq x y && list_beq xs' ys'
  | _, _ => false
  end.

#[export] Instance list_Eqb {A} {E : Eqb A} : Eqb (list A) := list_beq.

#[export] Instance prod_Eqb {A B} {EA : Eqb A} {EB : Eqb B} : Eqb (A * B) :=
  fun p q => beq (fst p) (fst q) && beq (snd p) (snd q).

#[export] Instance option_Eqb {A} {E : Eqb A} : Eqb (option A) :=
  fun p q =>
    match p, q with
    | Some x, Some y => beq x y
    | None, None => true
    | _, _ => false
    end.

(** [x in xs] *)
Definition mem {A} {E : Eqb A} (x : A) (xs : list A) : bool :=
  existsb (beq x) xs.

(** Python sets are kept as duplicate-free lists; the list order stands for
    the (unspecified but fixed) iteration order of the set. *)
Definition set_add {A} {E : Eqb A} (x : A) (s : list A) : list A :=
  if mem x s then s else s ++ [x].

Definition set_of {A} {E : Eqb A} (xs : list A) : list A :=
  fold_left (fun s x => set_add x s) xs [].

(** [s | t], [s - t], [s & t], [s <= t] *)
Definition set_union {A} {E : Eqb A} (s t : list A) : list A :=
  fold_left (fun s x => set_add x s) t s.

Definition set_diff {A} {E : Eqb A} (s t : list A) : list A :=
  filter (fun x => negb (mem x t)) s.

Definition set_inter {A} {E : Eqb A} (s t : list A) : list A :=
  filter (fun x => mem x t) s.

Definition subset {A} {E : Eqb A} (s t : list A) : bool :=
  forallb (fun x => mem x t) s.

(** ** Symbols

    A symbol is a Python string, or one of the two invented kinds
    [Slash(Y, Z, id)] and [Frozen(X, id)], compared structurally. *)

Inductive Symbol : Type :=
| Str (name : string)
| Slash (Y : Symbol) (Z' : Symbol) (id : Z)
| Frozen (X : Symbol) (id : Z).

Fixpoint Symbol_eqb (a b : Symbol) : bool :=
  match a, b with
  | Str s, Str t => String.eqb s t
  | Slash y z i, Slash y' z' i' =>
      Symbol_eqb y y' && Symbol_eqb z z' && Z.eqb i i'
  | Frozen x i, Frozen x' i' => Symbol_eqb x x' && Z.eqb i i'
  | _, _ => false
  end.

#[export] Instance Symbol_Eqb : Eqb Symbol := Symbol_eqb.

Definition isSlash (x : Symbol) : bool :=
  match x with Slash _ _ _ => true | _ => false end.

Definition isFrozen (x : Symbol) : bool :=
  match x with Frozen _ _ => true | _ => false end.

Definition str_of_nat (n : nat) : string :=
  DecimalString.NilZero.string_of_uint (Nat.to_uint n).

Definition str_of_Z (z : Z) : string :=
  DecimalString.NilZero.string_of_int (Z.to_int z).

(** [__repr__] of a symbol, as used by f-strings. *)
Fixpoint repr (x : Symbol) : string :=
  match x with
  | Str s => s
  | Slash y z i =>
      if Z.eqb i 0 then repr y ++ "/" ++ repr z
      else repr y ++ "/" ++ repr z ++ "@" ++ str_of_Z i
  | Frozen x i =>
      if Z.eqb i 0 then "~" ++ repr x
      else "~" ++ repr x ++ "@" ++ str_of_Z i
  end.

(** ** Exceptions, and the global counter of [_gen_nt]

    Code that may fail an assertion returns an [outcome]; code that also
    draws fresh names threads the counter [_gen_nt.i]. *)

Inductive exn : Type :=
| AssertionError
| AttributeError
| TypeError
| IndexError
| KeyError
| ValueError.

Inductive outcome (A : Type) : Type :=
| Ok (a : A)
| Raise (e : exn).

Arguments Ok {A} a.
Arguments Raise {A} e.

Definition M (A : Type) : Type := nat -> outcome (A * nat).

Definition ret {A} (a : A) : M A := fun i => Ok (a, i).

Definition bind {A B} (m : M A) (k : A -> M B) : M B :=
  fun i => match m i with
           | Ok (a, i') => k a i'
           | Raise e => Raise e
           end.

Definition raise {A} (e : exn) : M A := fun _ => Raise e.

Definition lift {A} (o : outcome A) : M A :=
  fun i => match o with Ok a => Ok (a, i) | Raise e => Raise e end.

Definition assert (b : bool) : M unit :=
  if b then ret tt else raise AssertionError.

(** The same for code that draws no fresh name. *)
Definition obind {A B} (o : outcome A) (k : A -> outcome B) : outcome B :=
  match o with
  | Ok a => k a
  | Raise e => Raise e
  end.

Fixpoint sequence {A} (os : list (outcome A)) : outcome (list A) :=
  match os with
  | [] => Ok []
  | o :: os' =>
      obind o (fun a => obind (sequence os') (fun l => Ok (a :: l)))
  end.

Declare Scope monad_scope.
Delimit Scope monad_scope with monad.
Notation "x <- m ;; k" := (bind m (fun x => k))
  (at level 61, m at next level, right associativity) : monad_scope.
Notation "' pat <- m ;; k" :=
  (bind m (fun x => match x with pat => k end))
  (at level 61, pat pattern, m at next level, right associativity)
  : monad_scope.
Notation "m ;;; k" := (bind m (fun _ => k))
  (at level 61, right associativity) : monad_scope.
Notation "x <~ o ;; k" := (obind o (fun x => k))
  (at level 61, o at next level, right associativity) : monad_scope.
Notation "' pat <~ o ;; k" :=
  (obind o (fun x => match x with pat => k end))
  (at level 61, pat pattern, o at next level, right associativity)
  : monad_scope.
Open Scope monad_scope.

(** [_gen_nt(prefix)]: bump the counter, return [f'{prefix}@{i}']. *)
Definition gen_name (prefix : string) (i : nat) : Symbol :=
  Str (prefix ++ "@" ++ str_of_nat i).

Definition _gen_nt (prefix : string) : M Symbol :=
  fun i => Ok (gen_name prefix (S i), S i).

Fixpoint foldM {A B} (f : A -> B -> M A) (xs : list B) (a : A) : M A :=
  match xs with
  | [] => ret a
  | x :: xs' => a' <- f a x ;; foldM f xs' a'
  end.

Fixpoint mapM {A B} (f : A -> M B) (xs : list A) : M (list B) :=
  match xs with
  | [] => ret []
  | x :: xs' => y <- f x ;; ys <- mapM f xs' ;; ret (y :: ys)
  end.

(** ** Semirings

    Modelled from the spec: the [Semiring] interface of
    [leftcorner/semiring.py] (zero, one, ⊕, ⊗, star, [==], and the
    convergence test [a.metric(b) <= tol] of the agenda), which the
    grammar code is parameterized by. *)

Class Semiring (R : Type) : Type := {
  zero : R;
  one : R;
  plus : R -> R -> R;
  times : R -> R -> R;
  star : R -> R;
  weq : R -> R -> bool;
  converged : R -> R -> bool
}.

Declare Scope semiring_scope.
Delimit Scope semiring_scope with sr.
Infix "⊕" := plus (at level 50, left associativity) : semiring_scope.
Infix "⊗" := times (at level 40, left associativity) : semiring_scope.
Open Scope semiring_scope.

Class SemiringLaws (R : Type) {SR : Semiring R} : Prop := {
  plus_assoc : forall a b c : R, a ⊕ (b ⊕ c) = (a ⊕ b) ⊕ c;
  plus_comm : forall a b : R, a ⊕ b = b ⊕ a;
  plus_zero_l : forall a : R, zero ⊕ a = a;
  times_assoc : forall a b c : R, a ⊗ (b ⊗ c) = (a ⊗ b) ⊗ c;
  times_one_l : forall a : R, one ⊗ a = a;
  times_one_r : forall a : R, a ⊗ one = a;
  times_zero_l : forall a : R, zero ⊗ a = zero;
  times_zero_r : forall a : R, a ⊗ zero = zero;
  distr_l : forall a b c : R, a ⊗ (b ⊕ c) = (a ⊗ b) ⊕ (a ⊗ c);
  distr_r : forall a b c : R, (a ⊕ b) ⊗ c = (a ⊗ c) ⊕ (b ⊗ c);
  weq_eq : forall a b : R, weq a b = true <-> a = b
}.

Arguments SemiringLaws R {SR}.

(** The laws of the product alone, with the equality test: all that the
    mapping of derivations needs of the weights. *)
Class MonoidLaws (R : Type) {SR : Semiring R} : Prop := {
  mul_assoc : forall a b c : R, a ⊗ (b ⊗ c) = (a ⊗ b) ⊗ c;
  mul_one_l : forall a : R, one ⊗ a = a;
  mul_one_r : forall a : R, a ⊗ one = a;
  mul_weq_eq : forall a b : R, weq a b = true <-> a = b
}.

Arguments MonoidLaws R {SR}.

(** The Boolean semiring ([leftcorner.semiring.Boolean]); its metric is
    [0 if a == b else 1]. *)
#[export] Instance Boolean : Semiring bool := {
  zero := false;
  one := true;
  plus := orb;
  times := andb;
  star := fun _ => true;
  weq := Bool.eqb;
  converged := Bool.eqb
}.

(** ** Charts

    Modelled from the spec: the chart returned by [Semiring.chart()], a
    dictionary that reads [zero] at absent keys and drops a key when
    [zero] is assigned to it.  Entries are kept in insertion order, as a
    Python [dict] does. *)

Section Chart.
Context {R : Type} {SR : Semiring R} {K : Type} {EK : Eqb K}.

Definition Chart : Type := list (K * R).

Fixpoint get (c : Chart) (k : K) : R :=
  match c with
  | [] => zero
  | (k', v) :: c' => if beq k k' then v else get c' k
  end.

Fixpoint delete (c : Chart) (k : K) : Chart :=
  match c with
  | [] => []
  | (k', v) :: c' => if beq k k' then delete c' k else (k', v) :: delete c' k
  end.

Fixpoint replace (c : Chart) (k : K) (v : R) : Chart :=
  match c with
  | [] => [(k, v)]
  | (k', v') :: c' =>
      if beq k k' then (k', v) :: c' else (k', v') :: replace c' k v
  end.

(** [c[k] = v] *)
Definition set (c : Chart) (k : K) (v : R) : Chart :=
  if weq v zero then delete c k else replace c k v.

(** [c[k] += v] *)
Definition incr (c : Chart) (k : K) (v : R) : Chart :=
  set c k (get c k ⊕ v).

(** [c.popitem()]: the most recently inserted entry. *)
Definition popitem (c : Chart) : option ((K * R) * Chart) :=
  match rev c with
  | [] => None
  | kv :: c' => Some (kv, rev c')
  end.
End Chart.

Arguments Chart R K : clear implicits.

(** ** Rules *)

Record Rule (W : Type) : Type := mkRule {
  w : W;
  head : Symbol;
  body : list Symbol
}.

Section RuleEq.
Context {W : Type} {EW : Eqb W}.

(** [Rule.__hash__] is the hash of the pair [(head, body)]; [pyhash]
    stands for Python's (unspecified) tuple hash. *)
Variable pyhash : Symbol * list Symbol -> Z.

Definition Rule_hash (r : Rule W) : Z := pyhash (head r, body r).

(** [Rule.__eq__] *)
Definition Rule_eq (r other : Rule W) : bool :=
  beq (w r) (w other)
  && Z.eqb (Rule_hash r) (Rule_hash other)
  && beq (head other) (head r)
  && beq (body other) (body r).
End RuleEq.

(** The same test without the (redundant) hash comparison; this is the
    form used for [p in Ps] below. *)
#[export] Instance Rule_Eqb {W} {EW : Eqb W} : Eqb (Rule W) :=
  fun r other =>
    beq (w r) (w other) && beq (head other) (head r)
    && beq (body other) (body r).

(** ** Grammars *)

Section Grammar.
Context {R : Type} {SR : Semiring R}.

#[export] Instance weight_Eqb : Eqb R := weq.

Record CFG : Type := mkCFG {
  cfg_S : Symbol;            (* unique start symbol *)
  cfg_V : list Symbol;       (* alphabet *)
  cfg_N : list Symbol;       (* nonterminals *)
  cfg_rules : list (Rule R)  (* rules *)
}.

(** [CFG.__init__] *)
Definition new_CFG (S0 : Symbol) (V0 : list Symbol) : CFG :=
  mkCFG S0 V0 [S0] [].

Definition is_terminal (g : CFG) (x : Symbol) : bool := mem x (cfg_V g).
Definition is_nonterminal (g : CFG) (x : Symbol) : bool :=
  negb (is_terminal g x).

(** [spawn], with the keyword arguments that the callers use. *)
Definition spawn (g : CFG) : CFG := new_CFG (cfg_S g) (cfg_V g).
Definition spawn_S (g : CFG) (S0 : Symbol) : CFG := new_CFG S0 (cfg_V g).
Definition spawn_V (g : CFG) (V0 : list Symbol) : CFG :=
  new_CFG (cfg_S g) V0.

(** [add]: returns the grammar after the call and the value returned
    ([None] when the rule is skipped). *)
Definition add (g : CFG) (w0 : R) (head0 : Symbol) (body0 : list Symbol)
  : CFG * option (Rule R) :=
  if weq w0 zero then (g, None)     (* skip rules with weight zero *)
  else
    let r := mkRule w0 head0 body0 in
    (mkCFG (cfg_S g) (cfg_V g) (set_add head0 (cfg_N g))
           (cfg_rules g ++ [r]),
     Some r).

Definition add_ (g : CFG) (w0 : R) (head0 : Symbol) (body0 : list Symbol)
  : CFG := fst (add g w0 head0 body0).

(** [rhs[X]] *)
Definition rhs (g : CFG) (X : Symbol) : list (Rule R) :=
  filter (fun r => beq (head r) X) (cfg_rules g).

Definition size (g : CFG) : nat :=
  fold_right (fun r n => 1 + List.length (body r) + n) 0 (cfg_rules g).
End Grammar.

Arguments CFG R : clear implicits.

(** ** Derivations

    A child of a derivation is a derivation or a bare terminal.  The rule
    of a derivation carries a semiring weight when it is a rule of a
    grammar, and [None] when it is the scaffolding rule made by [tree]. *)

Section Derivations.
Context {R : Type} {SR : Semiring R}.

Inductive Tree : Type :=
| Leaf (a : Symbol)
| Derivation (r : Rule (option R)) (x : Symbol) (ys : list Tree).

Definition isDerivation (d : Tree) : bool :=
  match d with Derivation _ _ _ => true | Leaf _ => false end.

(** A grammar rule as it is stored in a derivation. *)
Definition as_drule (r : Rule R) : Rule (option R) :=
  mkRule (Some (w r)) (head r) (body r).

(** [Derivation.__eq__]: the rule is ignored. *)
Fixpoint Tree_eqb (d e : Tree) : bool :=
  match d, e with
  | Leaf a, Leaf b => beq a b
  | Derivation _ x ys, Derivation _ x' ys' =>
      beq x x'
      && (fix all2 (ys ys' : list Tree) : bool :=
            match ys, ys' with
            | [], [] => true
            | y :: l, y' :: l' => Tree_eqb y y' && all2 l l'
            | _, _ => false
            end) ys ys'
  | _, _ => false
  end.

(** [W * W'] where either side may be Python's [None]. *)
Definition py_times (a b : option R) : outcome (option R) :=
  match a, b with
  | Some x, Some y => Ok (Some (x ⊗ y))
  | _, _ => Raise TypeError
  end.

(** [Derivation.weight] *)
Fixpoint weight (d : Tree) : outcome (option R) :=
  match d with
  | Leaf _ => Raise AttributeError
  | Derivation r _ ys =>
      (fix loop (W : option R) (ys : list Tree) : outcome (option R) :=
         match ys with
         | [] => Ok W
         | Leaf _ :: ys' => loop W ys'
         | (Derivation _ _ _ as y) :: ys' =>
             match weight y with
             | Ok Wy =>
                 match py_times W Wy with
                 | Ok W' => loop W' ys'
                 | Raise e => Raise e
                 end
             | Raise e => Raise e
             end
         end) (w r) ys
  end.

(** [Derivation.Yield] *)
Fixpoint Yield (d : Tree) : list Symbol :=
  match d with
  | Leaf a => [a]
  | Derivation _ _ ys => flat_map Yield ys
  end.

(** [label] and [tree] *)
Definition label (d : Tree) : Symbol :=
  match d with Derivation _ x _ => x | Leaf a => a end.

Definition tree (x : Symbol) (ys : list Tree) : Tree :=
  Derivation (mkRule None x (map label ys)) x ys.

Definition ys_of (d : Tree) : list Tree :=
  match d with Derivation _ _ ys => ys | Leaf _ => [] end.

(** *** Enumeration of derivations

    The generators are embedded as the lists they produce. *)

Fixpoint derivations_list_with (der : Symbol -> list Tree)
  (X : list Symbol) : list (list Tree) :=
  match X with
  | [] => [[]]
  | x0 :: X' =>
      flat_map (fun x => map (cons x) (derivations_list_with der X'))
               (der x0)
  end.

(** [derivations(X, H)], by recursion on [H] once [H > 0]. *)
Fixpoint derivations_upto (g : CFG R) (H : nat) (X : Symbol) : list Tree :=
  if is_terminal g X then [Leaf X]
  else
    match H with
    | O => []
    | S H' =>
        flat_map
          (fun r =>
             map (Derivation (as_drule r) X)
                 (derivations_list_with (derivations_upto g H') (body r)))
          (rhs g X)
    end.

Definition derivations (g : CFG R) (X : option Symbol) (H : Z)
  : list Tree :=
  let X := match X with None => cfg_S g | Some X => X end in
  derivations_upto g (Z.to_nat H) X.

Definition _derivations_list (g : CFG R) (X : list Symbol) (H : Z)
  : list (list Tree) :=
  derivations_list_with (derivations_upto g (Z.to_nat H)) X.
End Derivations.

Arguments Tree R : clear implicits.

(** ** Lehmann's closure *)

Section Lehmann.
Context {R : Type} {SR : Semiring R} {K : Type} {EK : Eqb K}.

(** One pivot [j]: a fresh chart [V] filled from the previous one [U]. *)
Definition lehmann_pivot (N : list K) (U : Chart R (K * K)) (j : K)
  : Chart R (K * K) :=
  let s := star (get U (j, j)) in
  fold_left
    (fun V i =>
       fold_left
         (fun V k =>
            set V (i, k)
                (get U (i, k) ⊕ get U (i, j) ⊗ s ⊗ get U (j, k)))
         N V)
    N [].

Definition _lehmann (N : list K) (W : Chart R (K * K))
  : Chart R (K * K) :=
  let V := fold_left (lehmann_pivot N) N W in
  (* add paths of length zero *)
  fold_left (fun V i => incr V (i, i) one) N V.
End Lehmann.

(** [Σ_{j ∈ N} f j], summed in the order of the list. *)
Definition sum_over {R} {SR : Semiring R} {K} (N : list K) (f : K -> R) : R :=
  fold_right (fun j acc => f j ⊕ acc) zero N.

(** The loop invariant of [_lehmann]: after the pivots [P] have been
    processed, every entry is the edge itself plus the paths that end
    with an edge out of a pivot. *)
Definition pivoted {R} {SR : Semiring R} {K} {EK : Eqb K}
  (N : list K) (W V : Chart R (K * K)) (P : list K) : Prop :=
  forall i k, In i N -> In k N ->
    get V (i, k)
    = get W (i, k) ⊕ sum_over P (fun l => get V (i, l) ⊗ get W (l, k)).

(** A small non-commutative semiring used to test statements about
    closures: the upper triangular 2x2 Boolean matrices [[a, b], [0, d]],
    with a star that satisfies [star x = one ⊕ x ⊗ star x]. *)
Record Tri : Type := mkTri { tri_a : bool; tri_b : bool; tri_d : bool }.

Definition Tri_eqb (x y : Tri) : bool :=
  Bool.eqb (tri_a x) (tri_a y) && Bool.eqb (tri_b x) (tri_b y)
  && Bool.eqb (tri_d x) (tri_d y).

#[export] Instance Triangular : Semiring Tri := {
  zero := mkTri false false false;
  one := mkTri true false true;
  plus := fun x y =>
    mkTri (tri_a x || tri_a y) (tri_b x || tri_b y) (tri_d x || tri_d y);
  times := fun x y =>
    mkTri (tri_a x && tri_a y)
          (tri_a x && tri_b y || tri_b x && tri_d y)
          (tri_d x && tri_d y);
  star := fun x => mkTri true (tri_a x || tri_b x) true;
  weq := Tri_eqb;
  converged := Tri_eqb
}.

(** ** Transformations *)

Section Transformations.
Context {R : Type} {SR : Semiring R}.

Definition nullary (r : Rule R) : bool :=
  Nat.eqb (List.length (body r)) 0.

(** [len(p.body) == 1 and self.is_nonterminal(p.body[0])] *)
Definition unary_nonterminal (g : CFG R) (p : Rule R) : bool :=
  match body p with
  | [y] => is_nonterminal g y
  | _ => false
  end.

Definition unaryremove (g : CFG R) : CFG R :=
  (* compute unary chain weights *)
  let A : Chart R (Symbol * Symbol) :=
    fold_left
      (fun A p =>
         match body p with
         | [y] => if is_nonterminal g y then incr A (y, head p) (w p) else A
         | _ => A
         end)
      (cfg_rules g) [] in
  let W := _lehmann (cfg_N g) A in
  fold_left
    (fun new p =>
       if unary_nonterminal g p then new
       else
         fold_left
           (fun new Y => add_ new (get W (head p, Y) ⊗ w p) Y (body p))
           (cfg_N g) new)
    (cfg_rules g) (spawn g).

(** *** trim *)

Definition outgoing (g : CFG R) (x : Symbol) : list (Rule R) :=
  flat_map
    (fun e => map (fun _ => e) (filter (fun b => beq b x) (body e)))
    (cfg_rules g).

Definition incoming (g : CFG R) (x : Symbol) : list (Rule R) :=
  filter (fun e => beq (head e) x) (cfg_rules g).

(** The bottom-up [while agenda:] loop; a symbol enters the agenda at
    most once, so [fuel] bounds the number of pops. *)
Fixpoint trim_bottomup (g : CFG R) (fuel : nat)
  (C agenda : list Symbol) : list Symbol :=
  match fuel, agenda with
  | S fuel', x :: agenda' =>
      let '(C', agenda'') :=
        fold_left
          (fun '(C, ag) e =>
             if forallb (fun b => mem b C) (body e)
                && negb (mem (head e) C)
             then (set_add (head e) C, set_add (head e) ag)
             else (C, ag))
          (outgoing g x) (C, agenda') in
      trim_bottomup g fuel' C' agenda''
  | _, _ => C
  end.

Fixpoint trim_topdown (g : CFG R) (fuel : nat)
  (C T agenda : list Symbol) : list Symbol :=
  match fuel, agenda with
  | S fuel', x :: agenda' =>
      let '(T', agenda'') :=
        fold_left
          (fun st e =>
             fold_left
               (fun '(T, ag) b =>
                  if negb (mem b T) && mem b C
                  then (set_add b T, set_add b ag)
                  else (T, ag))
               (body e) st)
          (incoming g x) (T, agenda') in
      trim_topdown g fuel' C T' agenda''
  | _, _ => T
  end.

Definition _trim (g : CFG R) (symbols : list Symbol) : CFG R :=
  fold_left
    (fun new p =>
       if mem (head p) symbols && negb (weq (w p) zero)
          && subset (body p) symbols
       then add_ new (w p) (head p) (body p)
       else new)
    (cfg_rules g) (spawn g).

Definition trim_fuel (g : CFG R) : nat :=
  List.length (cfg_V g) + List.length (cfg_rules g) + 1.

Definition trim_with (g : CFG R) (bottomup_only : bool) : CFG R :=
  let C0 :=
    set_union (set_of (cfg_V g))
              (map (@head R) (filter nullary (cfg_rules g))) in
  let C := trim_bottomup g (trim_fuel g) C0 C0 in
  if bottomup_only then _trim g C
  else
    let T0 := [cfg_S g] in
    let T := trim_topdown g (trim_fuel g + 1) C T0 T0 in
    _trim g T.

Definition trim (g : CFG R) : CFG R := trim_with g false.
Definition cotrim (g : CFG R) : CFG R := trim_with g true.

(** *** The agenda *)

(** [routing[u]]: the pairs [(r, k)] with [r.body[k] == u]. *)
Definition routing (g : CFG R) (u : Symbol) : list (Rule R * nat) :=
  flat_map
    (fun r =>
       flat_map
         (fun '(k, b) => if beq b u then [(r, k)] else [])
         (combine (seq 0 (List.length (body r))) (body r)))
    (cfg_rules g).

(** The product sent to [r.head] when [u] changes by [v] at position
    [k]: [new] to the left of [k], [v] at [k], [old] to the right. *)
Definition delta_product (old : Chart R Symbol) (u : Symbol) (v new : R)
  (r : Rule R) (k : nat) : R :=
  fold_left
    (fun W '(j, b) =>
       if beq u b then
         if Nat.ltb j k then W ⊗ new
         else if Nat.eqb j k then W ⊗ v
         else W ⊗ get old u
       else W ⊗ get old b)
    (combine (seq 0 (List.length (body r))) (body r))
    (w r).

Fixpoint agenda_loop (g : CFG R) (iters : nat)
  (old change : Chart R Symbol) : Chart R Symbol :=
  match iters with
  | O => old
  | S iters' =>
      match popitem change with
      | None => old
      | Some ((u, v), change') =>
          let new := get old u ⊕ v in
          if converged (get old u) new then
            agenda_loop g iters' old change'
          else
            let change'' :=
              fold_left
                (fun ch '(r, k) =>
                   incr ch (head r) (delta_product old u v new r k))
                (routing g u) change' in
            agenda_loop g iters' (set old u new) change''
      end
  end.

Definition agenda_with (g : CFG R) (max_iters : nat) : Chart R Symbol :=
  let change := fold_left (fun ch a => incr ch a one) (cfg_V g) [] in
  let change :=
    fold_left (fun ch r => if nullary r then incr ch (head r) (w r) else ch)
              (cfg_rules g) change in
  agenda_loop g max_iters [] change.

Definition max_iters_default : nat := 100 * 100.

Definition agenda (g : CFG R) : Chart R Symbol :=
  agenda_with g max_iters_default.

Definition treesum (g : CFG R) : R := get (agenda g) (cfg_S g).

(** *** Nullary removal *)

Definition null_weight (g : CFG R) : Chart R Symbol :=
  let ecfg :=
    fold_left
      (fun ecfg p =>
         if negb (existsb (is_terminal g) (body p))
         then add_ ecfg (w p) (head p) (body p)
         else ecfg)
      (cfg_rules g) (spawn_V g []) in
  agenda ecfg.

(** [{y for r in self for y in r.body}] *)
Definition body_symbols (g : CFG R) : list Symbol :=
  flat_map (@body R) (cfg_rules g).

(** [product([0, 1], repeat=n)] *)
Fixpoint masks (n : nat) : list (list bool) :=
  match n with
  | O => [[]]
  | S n' => map (cons false) (masks n') ++ map (cons true) (masks n')
  end.

(** The default [rename]: [lambda x: f'${x}'] *)
Definition dollar (x : Symbol) : Symbol := Str ("$" ++ repr x).

Section PushNullWeights.
Variable g : CFG R.
Variable nw : Chart R Symbol.
Variable recovery : bool.
Variable rename : Symbol -> Symbol.

(** Rename nonterminal if necessary *)
Definition pnw_f (x : Symbol) : Symbol :=
  if weq (get nw x) zero || beq x (cfg_S g) then x else rename x.

(** The inner loop over one mask [B]. *)
Definition apply_mask (r : Rule R) (B : list bool) : R * list Symbol :=
  fold_left
    (fun '(v, new_body) '(b, y) =>
       if b : bool then (v ⊗ get nw y, new_body)
       else (v, new_body ++ [pnw_f y]))
    (combine B (body r)) (w r, []).

Definition _push_null_weights : outcome (CFG R) :=
  if mem (cfg_S g) (body_symbols g) then Raise AssertionError
  else
    let rcfg := spawn g in
    let rcfg := add_ rcfg (get nw (cfg_S g)) (cfg_S g) [] in
    let rcfg :=
      if recovery then
        fold_left
          (fun rcfg x =>
             if beq (pnw_f x) x then rcfg
             else
               let rcfg := add_ rcfg (get nw x) x [] in
               add_ rcfg one x [pnw_f x])
          (cfg_N g) rcfg
      else rcfg in
    Ok (fold_left
          (fun rcfg r =>
             if nullary r then rcfg          (* drop nullary rule *)
             else
               fold_left
                 (fun rcfg B =>
                    let '(v, new_body) := apply_mask r B in
                    (* exclude the cases that would be new nullary rules! *)
                    if Nat.ltb 0 (List.length new_body)
                    then add_ rcfg v (pnw_f (head r)) new_body
                    else rcfg)
                 (masks (List.length (body r))) rcfg)
          (cfg_rules g) rcfg).
End PushNullWeights.

(** *** separate_start *)

Definition separate_start (g : CFG R) : M (CFG R) :=
  if mem (cfg_S g) (body_symbols g) then
    S' <- _gen_nt (repr (cfg_S g)) ;;
    let new := spawn_S g S' in
    let new := add_ new one S' [cfg_S g] in
    ret (fold_left (fun new r => add_ new (w r) (head r) (body r))
                   (cfg_rules g) new)
  else ret g.

(** *** separate_terminals *)

(** [_preterminal.get(x)] over the dictionary kept as an association
    list; a stored value is what [add] returned. *)
Fixpoint pre_get (pre : list (Symbol * option (Rule R))) (x : Symbol)
  : option (Rule R) :=
  match pre with
  | [] => None
  | (k, y) :: pre' => if beq x k then y else pre_get pre' x
  end.

Definition st_state : Type :=
  (CFG R * list (Symbol * option (Rule R)))%type.

(** [preterminal(x).head] *)
Definition preterminal_head (st : st_state) (x : Symbol)
  : M (st_state * Symbol) :=
  let '(new, pre) := st in
  match pre_get pre x with
  | Some y => ret (st, head y)
  | None =>
      name <- _gen_nt "" ;;
      let '(new', y) := add new one name [x] in
      match y with
      | Some y' => ret ((new', (x, y) :: pre), head y')
      | None => raise AttributeError
      end
  end.

(** [len(r.body) == 1 and self.is_terminal(r.body[0])] *)
Definition preterminal_rule (g : CFG R) (r : Rule R) : bool :=
  match body r with
  | [y] => is_terminal g y
  | _ => false
  end.

(** The body [(preterminal(y).head if y in self.V else y) for y in
    r.body], built left to right. *)
Definition st_body (g : CFG R) (st : st_state) (ys : list Symbol)
  : M (st_state * list Symbol) :=
  foldM
    (fun '(st, acc) y =>
       if mem y (cfg_V g) then
         ' (st', h) <- preterminal_head st y ;;
         ret (st', acc ++ [h])
       else ret (st, acc ++ [y]))
    ys (st, []).

Definition separate_terminals (g : CFG R) : M (CFG R) :=
  st <- foldM
          (fun (st : st_state) r =>
             if preterminal_rule g r then
               ret (add_ (fst st) (w r) (head r) (body r), snd st)
             else
               ' (st', ys) <- st_body g st (body r) ;;
               ret (add_ (fst st') (w r) (head r) ys, snd st'))
          (cfg_rules g) (spawn g, []) ;;
  ret (fst st).

(** *** binarize *)

(** [l[i:j]] *)
Definition slice {A} (l : list A) (i j : nat) : list A :=
  firstn (j - i) (skipn i l).

Definition _fold (p : Rule R) (I : list (nat * nat)) : M (list (Rule R)) :=
  (* new productions *)
  heads <- mapM (fun _ => _gen_nt "") I ;;
  let P :=
    map (fun '((i, j), head0) => mkRule one head0 (slice (body p) i (j + 1)))
        (combine I heads) in
  (* new "head" production *)
  let '(body0, start) :=
    fold_left
      (fun '(body0, start) '((end_, n), head0) =>
         (body0 ++ slice (body p) start end_ ++ [head0], n + 1))
      (combine I heads) ([], 0) in
  let body0 := body0 ++ skipn start (body p) in
  ret (P ++ [mkRule (w p) (head p) body0]).

(** The [while stack:] loop.  The stack is kept with its top first, so
    [stack.pop()] is the head of the list and [stack.extend(P)] pushes
    the elements of [P] one after the other. *)
Fixpoint binarize_loop (fuel : nat) (new : CFG R) (stack : list (Rule R))
  : M (CFG R) :=
  match fuel, stack with
  | S fuel', p :: stack' =>
      if Nat.leb (List.length (body p)) 2 then
        binarize_loop fuel' (add_ new (w p) (head p) (body p)) stack'
      else
        P <- _fold p [(0, 1)] ;;
        binarize_loop fuel' new (List.rev P ++ stack')
  | _, _ => ret new
  end.

(** Every pop either emits a rule or shortens one by a symbol, so
    twice the size of the grammar bounds the number of pops. *)
Definition binarize_fuel (g : CFG R) : nat := 2 * size g.

Definition binarize (g : CFG R) : M (CFG R) :=
  binarize_loop (binarize_fuel g) (spawn g) (List.rev (cfg_rules g)).

Definition nullaryremove (g : CFG R) (binarize0 recovery : bool)
  (rename : Symbol -> Symbol) : M (CFG R) :=
  g <- (if binarize0 then binarize g else ret g) ;;
  g <- separate_start g ;;
  lift (_push_null_weights g (null_weight g) recovery rename).

(** *** CNF *)

Definition cnf_rule (g : CFG R) (r : Rule R) : bool :=
  match body r with
  | [] => beq (head r) (cfg_S g)
  | [y] => is_terminal g y
  | [y; z] =>
      forallb (fun y => is_nonterminal g y && negb (beq y (cfg_S g)))
              [y; z]
  | _ => false
  end.

Fixpoint in_cnf_rules (g : CFG R) (rs : list (Rule R)) : outcome bool :=
  match rs with
  | [] => Ok true
  | r :: rs' =>
      if mem (head r) (cfg_N g) then
        if cnf_rule g r then in_cnf_rules g rs' else Ok false
      else Raise AssertionError
  end.

Definition in_cnf (g : CFG R) : outcome bool :=
  in_cnf_rules g (cfg_rules g).

Definition cnf (g : CFG R) : M (CFG R) :=
  g1 <- separate_terminals g ;;
  g2 <- binarize g1 ;;
  g3 <- nullaryremove g2 true false dollar ;;
  let new := trim (unaryremove g3) in
  ok <- lift (in_cnf new) ;;
  assert ok ;;;
  ret new.
End Transformations.

(** ** Speculation and the generalized left-corner transformation

    [Speculation] and [GLCT] are grammars built from a [parent] grammar;
    both name their invented symbols through the [SlashNames] mixin. *)

Section LeftCorner.
Context {R : Type} {SR : Semiring R}.

Section SlashNames.
Variable parent : CFG R.
Variable Xs : list Symbol.
Variable Ps : list (Rule R).
Variable id : Z.

(** [self.V] is a copy of [parent.V], so [self.is_terminal] is the
    parent's test. *)
Definition _slash (X Y : Symbol) : Symbol :=
  let x := Slash X Y 0 in
  if negb (mem x (cfg_N parent)) then x else Slash X Y id.

Definition _frozen (X : Symbol) : Symbol :=
  if is_terminal parent X then X
  else
    let x := Frozen X 0 in
    if negb (mem x (cfg_N parent)) then x else Frozen X id.

(** [d.r in self.Ps] *)
Definition rule_in_Ps (r : Rule (option R)) : bool :=
  existsb (fun p => beq r (as_drule p)) Ps.

(** *** [Speculation.mapping] *)

Definition frozen_base (x : Symbol) (kids : list (Tree R)) : Tree R :=
  if mem x Xs then
    tree x [tree (_frozen x) kids; tree (_slash x x) []]
  else tree x [tree (_frozen x) kids].

Fixpoint spec_mapping (d : Tree R) : outcome (Tree R) :=
  match d with
  | Leaf a => if is_terminal parent a then Ok d else Raise AssertionError
  | Derivation r x ys =>
      let fys := map spec_mapping ys in
      if negb (rule_in_Ps r) then
        (* frozen base case *)
        rest <~ sequence fys ;;
        Ok (frozen_base x rest)
      else
        match fys with
        | [] => Raise IndexError
        | fdd :: frest =>
            dd <~ fdd ;;
            (* special handling for the case of a terminal *)
            let dd :=
              match dd with
              | Leaf o =>
                  if mem o Xs then tree o [Leaf o; tree (_slash o o) []]
                  else tree o [Leaf o]
              | Derivation _ _ _ => dd
              end in
            match ys_of dd with
            | [o] =>
                (* slash base case; this is the bottommost element of
                   Xs along the spine. *)
                rest <~ sequence frest ;;
                Ok (frozen_base x (o :: rest))
            | [o; s] =>
                let name :=
                  match o with
                  | Derivation _ (Frozen X0 _) _ => X0
                  | Derivation _ ox _ => ox
                  | Leaf a => a
                  end in
                rest <~ sequence frest ;;
                Ok (tree x [o; tree (_slash x name) (s :: rest)])
            | _ => Raise ValueError
            end
        end
  end.

(** *** [GLCT._mapping]: transposes the slash items *)

(** One turn of the [while len(curr.ys) != 0:] loop at a node with
    label [x] and first child [y0]; [tail] is the rest of the loop,
    run on [y0]. *)
Definition spine_turn (x : Symbol) (y0 : Tree R)
  (mapped_rest : outcome (list (Tree R)))
  (tail : outcome (list (Symbol * list (Tree R))))
  : outcome (list (Symbol * list (Tree R))) :=
  if isSlash x then
    match y0 with
    | Leaf _ => Raise AttributeError
    | Derivation _ s _ =>
        rest <~ mapped_rest ;;
        chain <~ tail ;;
        Ok ((s, rest) :: chain)
    end
  else Raise AssertionError.

(** [new = tree(slash(num, s.Y), *rest, new)] along the chain *)
Fixpoint transpose (num : Symbol) (chain : list (Symbol * list (Tree R)))
  (new : Tree R) : outcome (Tree R) :=
  match chain with
  | [] => Ok new
  | (Slash sY _ _, rest) :: chain' =>
      transpose num chain' (tree (_slash num sY) (rest ++ [new]))
  | _ :: _ => Raise AttributeError
  end.

Fixpoint _mapping (d : Tree R) : outcome (Tree R) :=
  match d with
  | Leaf _ => Ok d
  | Derivation _ x ys =>
      match x with
      | Slash num _ _ =>
          chain <~ match ys with
                   | [] => Ok []
                   | y0 :: rest =>
                       spine_turn x y0 (sequence (map _mapping rest))
                                  (spine y0)
                   end ;;
          transpose num chain (tree (_slash num num) [])
      | _ =>
          ys' <~ sequence (map _mapping ys) ;;
          Ok (tree x ys')
      end
  end
with spine (curr : Tree R)
  : outcome (list (Symbol * list (Tree R))) :=
  match curr with
  | Leaf _ => Raise AttributeError
  | Derivation _ x ys =>
      match ys with
      | [] => Ok []
      | y0 :: rest =>
          spine_turn x y0 (sequence (map _mapping rest)) (spine y0)
      end
  end.

(** *** The rules of [Speculation] *)

Definition ctor_asserts : bool :=
  subset Ps (cfg_rules parent)
  && forallb (fun r => Nat.ltb 0 (List.length (body r))) Ps.

Definition Speculation_rules (filter : bool) : CFG R :=
  let self := new_CFG (cfg_S parent) (cfg_V parent) in
  let slashXs :=
    if filter then Xs else set_union (cfg_V parent) (cfg_N parent) in
  (* slash base case *)
  let self :=
    fold_left (fun self X => add_ self one (_slash X X) []) slashXs self in
  (* make slashed and frozen rules *)
  let self :=
    fold_left
      (fun self p =>
         if negb (mem p Ps) then
           (* frozen base case *)
           add_ self (w p) (_frozen (head p)) (body p)
         else
           match body p with
           | [] => self
           | b0 :: rest =>
               (* slash recursive case *)
               let self :=
                 fold_left
                   (fun self X =>
                      add_ self (w p) (_slash (head p) X)
                           (_slash b0 X :: rest))
                   (if filter then Xs
                    else set_union (cfg_N parent) (cfg_V parent))
                   self in
               (* frozen recursive case *)
               if negb (mem b0 Xs) then
                 add_ self (w p) (_frozen (head p)) (_frozen b0 :: rest)
               else self
           end)
      (cfg_rules parent) self in
  (* recovery rules *)
  let self :=
    fold_left (fun self Y => add_ self one Y [_frozen Y])
              (set_diff (cfg_N parent) Xs) self in
  fold_left
    (fun self Y =>
       fold_left
         (fun self X => add_ self one Y [_frozen X; _slash Y X])
         Xs self)
    (cfg_N parent) self.

Definition Speculation (filter : bool) : outcome (CFG R) :=
  if ctor_asserts then Ok (Speculation_rules filter)
  else Raise AssertionError.

(** [GLCT.mapping]: the speculation mapping, of the [Speculation] that
    [_speculation] builds from the same arguments, followed by a
    transpose mapping on the slashed items. *)
Definition mapping (filter : bool) (d : Tree R) : outcome (Tree R) :=
  _speculation <~ Speculation filter ;;
  d' <~ spec_mapping d ;; _mapping d'.

(** *** The rules of [GLCT] *)

(** The left-corner graph of [Ps], reversed ([body[0] -> head]), and
    the nodes reachable from [den] in it (the out-edges of [den] in
    the reflexive transitive closure).  Each sweep over [Ps] adds a
    head or changes nothing, so [|Ps|] sweeps reach them all. *)
Fixpoint reach (sweeps : nat) (seen : list Symbol) : list Symbol :=
  match sweeps with
  | O => seen
  | S sweeps' =>
      reach sweeps'
        (fold_left
           (fun seen p =>
              match body p with
              | b0 :: _ => if mem b0 seen then set_add (head p) seen
                           else seen
              | [] => seen
              end)
           Ps seen)
  end.

(** [den2num[den]], a [KeyError] off [parent.N | parent.V] *)
Definition den2num (den : Symbol) : outcome (list Symbol) :=
  if mem den (set_union (cfg_N parent) (cfg_V parent))
  then Ok (reach (List.length Ps) [den])
  else Raise KeyError.

(** [den2num.get(den, set())] *)
Definition den2num_get (den : Symbol) : list Symbol :=
  match den2num den with Ok s => s | Raise _ => [] end.

Definition retained_filter : list Symbol :=
  fold_left
    (fun ret0 p =>
       fold_left
         (fun ret0 X =>
            if is_nonterminal parent X then set_add X ret0 else ret0)
         (skipn (if mem p Ps then 1 else 0) (body p)) ret0)
    (cfg_rules parent) [cfg_S parent].

Record Useful : Type := mkUseful {
  retained : list Symbol;
  num_given_den : Symbol -> list Symbol;
  useful_num : list Symbol;
  useful_mid : list Symbol
}.

Definition useful (filter : bool) : outcome Useful :=
  if filter then
    let retained := retained_filter in
    nums <~ sequence (map den2num Xs) ;;
    let useful_num :=
      set_of (List.filter (fun num => mem num retained) (List.concat nums)) in
    mids <~
      sequence
        (map (fun mid =>
                nums <~ den2num mid ;;
                Ok (if existsb (fun num => mem num retained) nums
                    then [mid] else []))
             (List.concat nums)) ;;
    Ok (mkUseful retained
                 (fun den => set_inter (den2num_get den) retained)
                 useful_num
                 (set_of (List.concat mids)))
  else
    Ok (mkUseful (cfg_N parent)
                 (fun _ => cfg_N parent)
                 (set_union (cfg_N parent) (cfg_V parent))
                 (set_union (cfg_N parent) (cfg_V parent))).

Definition GLCT_rules (u : Useful) : CFG R :=
  let self := new_CFG (cfg_S parent) (cfg_V parent) in
  (* base case *)
  let self :=
    fold_left (fun self X => add_ self one (_slash X X) [])
              (useful_num u) self in
  (* make slashed and frozen rules *)
  let self :=
    fold_left
      (fun self p =>
         if negb (mem p Ps) then
           add_ self (w p) (_frozen (head p)) (body p)
         else
           match body p with
           | [] => self
           | b0 :: rest =>
               let self :=
                 fold_left
                   (fun self Y =>
                      if negb (mem b0 (useful_mid u)) then self
                      else
                        add_ self (w p) (_slash Y b0)
                             (rest ++ [_slash Y (head p)]))
                   (num_given_den u b0) self in
               if negb (mem b0 Xs) then
                 add_ self (w p) (_frozen (head p)) (_frozen b0 :: rest)
               else self
           end)
      (cfg_rules parent) self in
  (* recovery rules *)
  let self :=
    fold_left (fun self Y => add_ self one Y [_frozen Y])
              (set_diff (retained u) Xs) self in
  fold_left
    (fun self X =>
       fold_left
         (fun self Y => add_ self one Y [_frozen X; _slash Y X])
         (num_given_den u X) self)
    Xs self.

Definition GLCT (filter : bool) : outcome (CFG R) :=
  if ctor_asserts then
    u <~ useful filter ;;
    Ok (GLCT_rules u)
  else Raise AssertionError.
End SlashNames.

(** [speculate], [lc_generalized] with their defaults *)
Definition speculate (g : CFG R) (Xs : list Symbol)
  (Ps : option (list (Rule R))) (filter : bool) (id : Z)
  : outcome (CFG R) :=
  Speculation g Xs (match Ps with None => cfg_rules g | Some Ps => Ps end)
              id filter.

Definition lc_generalized (g : CFG R) (Xs : list Symbol)
  (Ps : option (list (Rule R))) (filter : bool) (id : Z)
  : outcome (CFG R) :=
  GLCT g (set_of Xs) (match Ps with None => cfg_rules g | Some Ps => Ps end)
       id filter.

(** *** [GLCT.elim_nullary_slash] *)

Definition slash_charts (g : CFG R)
  : outcome (Chart R (Symbol * Symbol) * Chart R Symbol) :=
  fold_left
    (fun acc p =>
       ' (W, v) <~ acc ;;
       (* unary slash *)
       W <~ match body p with
            | [b0] =>
                if isSlash (head p) then
                  if isSlash b0 then Ok (incr W (head p, b0) (w p))
                  else Raise AssertionError
                else Ok W
            | _ => Ok W
            end ;;
       (* nullary slash *)
       let v := if nullary p && isSlash (head p)
                then incr v (head p) (w p) else v in
       if negb (nullary p) || isSlash (head p) then Ok (W, v)
       else Raise AssertionError)
    (cfg_rules g) (Ok ([], [])).

Definition elim_nullary_slash (g : CFG R) (binarize0 : bool) : M (CFG R) :=
  g <- (if binarize0 then binarize g else ret g) ;;
  ' (W, v) <- lift (slash_charts g) ;;
  let K := _lehmann (cfg_N g) W in
  let null_weight :=
    fold_left
      (fun nw X =>
         fold_left (fun nw Y => incr nw X (get K (X, Y) ⊗ get v Y))
                   (cfg_N g) nw)
      (cfg_N g) [] in
  lift (_push_null_weights g null_weight false dollar).
End LeftCorner.

(** ** The CNF pipeline in the order the specification words it

    [cnf = separate_terminals ∘ binarize ∘ nullaryremove ∘ unaryremove ∘
    trim], read as a composition of functions: [trim] is applied first
    and [separate_terminals] last.  This definition follows the
    specification, not the source; compare [cnf]. *)
Definition cnf_spec {R} {SR : Semiring R} (g : CFG R) : M (CFG R) :=
  let g1 := trim g in
  let g2 := unaryremove g1 in
  g3 <- nullaryremove g2 true false dollar ;;
  g4 <- binarize g3 ;;
  separate_terminals g4.

(** The CNF invariant of the specification. *)
Definition CNF_form {R} {SR : Semiring R} (g : CFG R) : Prop :=
  forall r, In r (cfg_rules g) ->
    (body r = [] /\ head r = cfg_S g)
    \/ (exists a, body r = [a] /\ In a (cfg_V g))
    \/ (exists y z, body r = [y; z]
                    /\ ~ In y (cfg_V g) /\ y <> cfg_S g
                    /\ ~ In z (cfg_V g) /\ z <> cfg_S g).

(** ** Grammars used as test inputs *)

(** A grammar from its rules, as [from_string] builds it. *)
Definition grammar {R} {SR : Semiring R} (S0 : Symbol) (V0 : list Symbol)
  (rs : list (Rule R)) : CFG R :=
  fold_left (fun g r => add_ g (w r) (head r) (body r)) rs (new_CFG S0 V0).

(** [1: S → A B], [1: A → a], [1: A →], [1: B → b] *)
Definition g_eps : CFG bool :=
  grammar (Str "S") [Str "a"; Str "b"]
    [mkRule true (Str "S") [Str "A"; Str "B"];
     mkRule true (Str "A") [Str "a"];
     mkRule true (Str "A") [];
     mkRule true (Str "B") [Str "b"]].

(** [1: S → A B], [1: A → a], [1: B →] *)
Definition g_nullable_tail : CFG bool :=
  grammar (Str "S") [Str "a"]
    [mkRule true (Str "S") [Str "A"; Str "B"];
     mkRule true (Str "A") [Str "a"];
     mkRule true (Str "B") []].

(** [1: S → a S b], [1: S →] *)
Definition g_anbn : CFG bool :=
  grammar (Str "S") [Str "a"; Str "b"]
    [mkRule true (Str "S") [Str "a"; Str "S"; Str "b"];
     mkRule true (Str "S") []].

(** [1: S → S S@1], where [S@1] is a terminal: the name that [_gen_nt]
    draws first for the prefix [S]. *)
Definition g_clash : CFG bool :=
  grammar (Str "S") [Str "a"; Str "S@1"]
    [mkRule true (Str "S") [Str "S"; Str "S@1"]].

(** [1: S → S a], [1: S → b] *)
Definition rule_Sa : Rule bool := mkRule true (Str "S") [Str "S"; Str "a"].
Definition rule_b : Rule bool := mkRule true (Str "S") [Str "b"].
Definition g_left : CFG bool :=
  grammar (Str "S") [Str "a"; Str "b"] [rule_Sa; rule_b].

(** [1: S → S S], [1: S → a] *)
Definition rule_SS : Rule bool := mkRule true (Str "S") [Str "S"; Str "S"].
Definition g_SS : CFG bool :=
  grammar (Str "S") [Str "a"] [rule_SS; mkRule true (Str "S") [Str "a"]].

(** [w: S → a] over the triangular semiring, with a weight other than
    [one]. *)
Definition g_weighted : CFG Tri :=
  grammar (Str "S") [Str "a"] [mkRule (mkTri true true true) (Str "S") [Str "a"]].

(** ** Nullary rules of a grammar *)

Definition nullary_rules {R} {SR : Semiring R} (g : CFG R) : list (Rule R) :=
  filter nullary (cfg_rules g).

(** The nullary rules that [_push_null_weights] gives back to the old
    names when [recovery] is on. *)
Definition recovered_nullary {R} {SR : Semiring R} (g : CFG R)
  (nw : Chart R Symbol) (rename : Symbol -> Symbol) : list (Rule R) :=
  flat_map
    (fun x =>
       if beq (pnw_f g nw rename x) x then []
       else if weq (get nw x) zero then []
       else [mkRule (get nw x) x []])
    (cfg_N g).

(** ** Invariants of [separate_terminals]

    What holds of the grammar under construction and of the dictionary
    [_preterminal] while the rules of [g] are copied: started with the
    counter at [i0], every terminal in a body is the whole body of a rule
    that is a rule of [g] or has weight [one], and the dictionary holds
    rules whose heads are names drawn after [i0]. *)
Definition terminals_isolated {R} {SR : Semiring R} (g new : CFG R) : Prop :=
  cfg_V new = cfg_V g
  /\ forall r, In r (cfg_rules new) ->
       forall y, In y (body r) -> In y (cfg_V new) ->
         body r = [y] /\ (w r = one \/ In r (cfg_rules g)).

Definition st_inv {R} {SR : Semiring R} (g : CFG R) (i0 : nat)
  (st : st_state) (i : nat) : Prop :=
  i0 <= i
  /\ terminals_isolated g (fst st)
  /\ forall x y, pre_get (snd st) x = Some y ->
       exists k, head y = gen_name "" k /\ i0 < k.

(** The only way [separate_terminals] fails. *)
Definition st_failure {R} {SR : Semiring R} (e : exn) : Prop :=
  e = AttributeError /\ weq (one : R) zero = true.

(** ** The charts of [elim_nullary_slash], without the assertions *)

Section SlashCharts.
Context {R : Type} {SR : Semiring R}.

(** The two assertions made on a rule [p]. *)
Definition unary_slash_ok (p : Rule R) : bool :=
  match body p with
  | [b0] => negb (isSlash (head p)) || isSlash b0
  | _ => true
  end.

Definition nullary_slash_ok (p : Rule R) : bool :=
  negb (nullary p) || isSlash (head p).

Definition slash_W_step (W : Chart R (Symbol * Symbol)) (p : Rule R)
  : Chart R (Symbol * Symbol) :=
  match body p with
  | [b0] => if isSlash (head p) then incr W (head p, b0) (w p) else W
  | _ => W
  end.

Definition slash_v_step (v : Chart R Symbol) (p : Rule R) : Chart R Symbol :=
  if nullary p && isSlash (head p) then incr v (head p) (w p) else v.

(** [null_weight[X] = Σ_Y K[X, Y] ⊗ v[Y]] with [K] the closure of [W] *)
Definition slash_null_weight (g : CFG R) : Chart R Symbol :=
  let W := fold_left slash_W_step (cfg_rules g) [] in
  let v := fold_left slash_v_step (cfg_rules g) [] in
  let K := _lehmann (cfg_N g) W in
  fold_left
    (fun nw X =>
       fold_left (fun nw Y => incr nw X (get K (X, Y) ⊗ get v Y))
                 (cfg_N g) nw)
    (cfg_N g) [].
End SlashCharts.

(** ** Derivations of a grammar, and what the GLCT mapping is to preserve *)

Section DerivationsOf.
Context {R : Type} {SR : Semiring R}.

(** [d] is a derivation of [g]: every node applies the rule of [g] that
    it stores, and every leaf is a terminal. *)
Inductive derivation_of (g : CFG R) : Tree R -> Prop :=
| dv_leaf (a : Symbol) :
    In a (cfg_V g) -> derivation_of g (Leaf a)
| dv_node (p : Rule R) (ys : list (Tree R)) :
    In p (cfg_rules g) ->
    body p = map label ys ->
    Forall (derivation_of g) ys ->
    derivation_of g (Derivation (as_drule p) (head p) ys).

(** [t] is a derivation of [g] whatever rules its nodes store, and [v]
    is the product of the weights of rules of [g] that apply at its
    nodes (the scaffolding rules made by [tree] carry no weight). *)
Inductive derives (g : CFG R) : Tree R -> R -> Prop :=
| dr_leaf (a : Symbol) :
    In a (cfg_V g) -> derives g (Leaf a) one
| dr_node (r : Rule (option R)) (x : Symbol) (ys : list (Tree R))
    (p : Rule R) (vs : list R) :
    In p (cfg_rules g) ->
    head p = x ->
    body p = map label ys ->
    Forall2 (derives g) ys vs ->
    derives g (Derivation r x ys) (fold_left times vs (w p)).

(** The weight of a derivation as a total function: the product that
    [weight] computes, with [one] for a terminal child. *)
Fixpoint tree_weight (d : Tree R) : R :=
  match d with
  | Leaf _ => one
  | Derivation r _ ys =>
      fold_left (fun W y => W ⊗ tree_weight y) ys
                (match w r with Some v => v | None => one end)
  end.

(** A derivation with its rules forgotten; [d == e] on derivations says
    that [d] and [e] have the same shape. *)
Fixpoint shape (d : Tree R) : Tree R :=
  match d with
  | Leaf a => Leaf a
  | Derivation _ x ys => tree x (map shape ys)
  end.

(** Symbols that are plain names, neither [Slash] nor [Frozen]. *)
Definition plain (x : Symbol) : Prop :=
  match x with Str _ => True | _ => False end.

(** The invariants of the data model that the mapping relies on; the
    nonterminals are plain names, the terminals are any symbols. *)
Record well_formed (g : CFG R) : Prop := {
  wf_start : In (cfg_S g) (cfg_N g);
  wf_heads : forall p, In p (cfg_rules g) -> In (head p) (cfg_N g);
  wf_disjoint : forall x, In x (cfg_N g) -> ~ In x (cfg_V g);
  wf_nonzero : forall p, In p (cfg_rules g) -> w p <> zero;
  wf_plain : forall x, In x (cfg_N g) -> plain x
}.

(** Left-corner paths along the rules of [Ps]: [lc_path Ps x y] when [x]
    is [y] or the left corner of a left corner ... of [y]. *)
Inductive lc_path (Ps : list (Rule R)) : Symbol -> Symbol -> Prop :=
| lc_refl (x : Symbol) : lc_path Ps x x
| lc_step (x : Symbol) (p : Rule R) (b0 : Symbol) (rest : list Symbol) :
    lc_path Ps x b0 -> In p Ps -> body p = b0 :: rest ->
    lc_path Ps x (head p).

(** The terminal wrapped by [Speculation.mapping] before it looks at the
    image of a first child. *)
Definition wrap (parent : CFG R) (Xs : list Symbol) (id : Z)
  (dd : Tree R) : Tree R :=
  match dd with
  | Leaf o =>
      if mem o Xs then tree o [Leaf o; tree (_slash parent id o o) []]
      else tree o [Leaf o]
  | Derivation _ _ _ => dd
  end.

(** One level of a transposed spine: the last child [k] continues the
    spine, the children before it are the images [rests] of the
    siblings. *)
Definition unwind (un : Tree R -> Tree R) (us : Tree R -> Tree R -> Tree R)
  (e : Tree R) : list (Tree R) -> list (Tree R) -> Tree R :=
  fix unwind (kids rests : list (Tree R)) {struct kids} : Tree R :=
    match kids with
    | [] => e
    | k :: kids' =>
        match kids' with
        | [] =>
            match label k with
            | Slash _ y _ => us k (tree y (e :: List.rev rests))
            | _ => e
            end
        | _ :: _ => unwind kids' (un k :: rests)
        end
    end.

(** An inverse of the GLCT mapping on the images of derivations of a
    grammar with plain nonterminals: frozen nodes are read back as the node
    they froze, and a transposed slash spine is unwound from the outside
    in, rebuilding the left spine around the derivation [e] of its tip. *)
Fixpoint unmap (t : Tree R) : Tree R :=
  match t with
  | Leaf a => Leaf a
  | Derivation _ x kids =>
      match x with
      | Frozen z _ => tree z (map unmap kids)
      | Str _ =>
          match kids with
          | [f] => unmap f
          | [f; s] => unslash s (unmap f)
          | _ => t
          end
      | Slash _ _ _ => t
      end
  end
with unslash (s : Tree R) (e : Tree R) : Tree R :=
  match s with
  | Leaf _ => e
  | Derivation _ _ kids => unwind unmap unslash e kids []
  end.
End DerivationsOf.

(** ** Grammars with invented symbols

    [Q → c], where the nonterminal [Q] is itself a [Slash] symbol, as in
    a grammar that was already transformed. *)
Definition sym_Q : Symbol := Slash (Str "A") (Str "B") 0.
Definition rule_Qc : Rule bool := mkRule true sym_Q [Str "c"].
Definition g_slashed : CFG bool :=
  grammar sym_Q [Str "c"] [rule_Qc].

(** [1: S → A b], [1: A → A a], [1: A → c] *)
Definition rule_Ab : Rule bool := mkRule true (Str "S") [Str "A"; Str "b"].
Definition rule_Aa : Rule bool := mkRule true (Str "A") [Str "A"; Str "a"].
Definition rule_c : Rule bool := mkRule true (Str "A") [Str "c"].
Definition g_spine : CFG bool :=
  grammar (Str "S") [Str "a"; Str "b"; Str "c"] [rule_Ab; rule_Aa; rule_c].

(** ** Invariants of the GLCT mapping

    The mapping is followed through [Speculation.mapping] and the
    transpose.  The image of a derivation [d] rooted at [x] under
    [Speculation.mapping] is [tree x [Fz]] or [tree x [Fz; S1]]: a frozen
    side [Fz] and, once the left spine has met a symbol [X] of [Xs], a
    slash side [S1].  [GImage] records what the transpose makes of the
    two sides in the transformed grammar [G']; [kept] are the symbols
    that keep their recovery rules in [G']. *)

Section MappingInvariants.
Context {R : Type} {SR : Semiring R}.
Variable g : CFG R.
Variable Xs : list Symbol.
Variable Ps : list (Rule R).
Variable id : Z.
Variable G' : CFG R.
Variable kept : Symbol -> Prop.

(** The name that [Speculation.mapping] reads off a frozen side. *)
Definition frozen_name (o : Tree R) : Symbol :=
  match o with
  | Derivation _ (Frozen X0 _) _ => X0
  | Derivation _ ox _ => ox
  | Leaf a => a
  end.

(** What holds of the image [t'] under the whole mapping of a derivation
    [d] whose root keeps its recovery rules. *)
Definition kept_image (d t' : Tree R) : Prop :=
  derives G' t' (tree_weight d)
  /\ label t' = label d
  /\ Yield t' = Yield d
  /\ unmap t' = shape d.

(** The slash spine [chain] below a node [x], down to the tip [X]: put
    on top of any transposed spine [T] that ends at [x], it gives a
    derivation of [G'] that ends at [X], multiplies the weight by [wS],
    puts [yS] in front of the yield, and is unwound by [up]. *)
Definition chain_ok (x X : Symbol) (chain : list (Symbol * list (Tree R)))
  (wS : R) (yS : list Symbol) (up : Tree R -> Tree R) : Prop :=
  forall Y T wT,
    kept Y -> lc_path Ps x Y ->
    derives G' T wT -> label T = Slash Y x 0 ->
    exists T',
      transpose g id Y chain T = Ok T'
      /\ derives G' T' (wT ⊗ wS)
      /\ label T' = Slash Y X 0
      /\ Yield T' = yS ++ Yield T
      /\ forall e, unslash T' e = unslash T (up e).

Inductive GImage (d : Tree R) : Tree R -> Prop :=
| GI_frozen (Fz Fz' : Tree R) :
    ~ In (label d) Xs ->
    _mapping g id Fz = Ok Fz' ->
    label Fz' = _frozen g id (label d) ->
    derives G' Fz' (tree_weight d) ->
    Yield Fz' = Yield d ->
    unmap Fz' = shape d ->
    GImage d (tree (label d) [Fz])
| GI_slash (Fz Fz' S1 : Tree R) (X : Symbol) (wF wS : R)
    (chain : list (Symbol * list (Tree R))) (yS : list Symbol)
    (up : Tree R -> Tree R) :
    In X Xs ->
    In X (cfg_N g) \/ In X (cfg_V g) ->
    lc_path Ps X (label d) ->
    frozen_name Fz = X ->
    _mapping g id Fz = Ok Fz' ->
    label Fz' = _frozen g id X ->
    derives G' Fz' wF ->
    isDerivation S1 = true ->
    label S1 = Slash (label d) X 0 ->
    spine g id S1 = Ok chain ->
    tree_weight d = wF ⊗ wS ->
    Yield d = Yield Fz' ++ yS ->
    shape d = up (unmap Fz') ->
    chain_ok (label d) X chain wS yS up ->
    GImage d (tree (label d) [Fz; S1]).

(** The rules that the mapping needs from [G']. *)
Record licensed : Prop := {
  lic_V : cfg_V G' = cfg_V g;
  lic_frozen_only : forall Y,
    kept Y -> ~ In Y Xs ->
    In (mkRule one Y [_frozen g id Y]) (cfg_rules G');
  lic_recover : forall X Y,
    kept Y -> In X Xs -> In X (cfg_N g) \/ In X (cfg_V g) ->
    lc_path Ps X Y ->
    In (mkRule one Y [_frozen g id X; _slash g id Y X]) (cfg_rules G');
  lic_base : forall X Y,
    kept Y -> In X Xs -> In X (cfg_N g) \/ In X (cfg_V g) ->
    lc_path Ps X Y ->
    In (mkRule one (_slash g id Y Y) []) (cfg_rules G');
  lic_slash : forall p b0 rest X Y,
    In p Ps -> body p = b0 :: rest ->
    kept Y -> lc_path Ps (head p) Y ->
    In X Xs -> In X (cfg_N g) \/ In X (cfg_V g) -> lc_path Ps X b0 ->
    In b0 (cfg_N g) \/ In b0 (cfg_V g) ->
    In (mkRule (w p) (_slash g id Y b0) (rest ++ [_slash g id Y (head p)]))
       (cfg_rules G');
  lic_frozen_base : forall p,
    In p (cfg_rules g) -> ~ In p Ps ->
    In (mkRule (w p) (_frozen g id (head p)) (body p)) (cfg_rules G');
  lic_frozen_rec : forall p b0 rest,
    In p Ps -> body p = b0 :: rest -> ~ In b0 Xs ->
    In (mkRule (w p) (_frozen g id (head p)) (_frozen g id b0 :: rest))
       (cfg_rules G');
  lic_children : forall p y,
    In p (cfg_rules g) ->
    In y (skipn (if mem p Ps then 1 else 0) (body p)) ->
    In y (cfg_N g) ->
    kept y
}.
End MappingInvariants.

(** One grammar extends another when it has all its rules and the same
    terminals. *)
Definition extends {R} {SR : Semiring R} (a b : CFG R) : Prop :=
  incl (cfg_rules a) (cfg_rules b) /\ cfg_V b = cfg_V a.

(** A product of weights. *)
Definition product {R} {SR : Semiring R} (vs : list R) : R :=
  fold_right times one vs.

(** ** The sweeps of [reach] *)

Section Sweeps.
Context {R : Type} {SR : Semiring R}.
Variable Ps : list (Rule R).

(** One rule of a sweep, and a whole sweep. *)
Definition reach_rule (seen : list Symbol) (p : Rule R) : list Symbol :=
  match body p with
  | b0 :: _ => if mem b0 seen then set_add (head p) seen else seen
  | [] => seen
  end.

Definition sweep (seen : list Symbol) : list Symbol :=
  fold_left reach_rule Ps seen.

(** A set that no sweep enlarges. *)
Definition lc_closed (seen : list Symbol) : Prop :=
  forall p b0 rest,
    In p Ps -> body p = b0 :: rest -> In b0 seen -> In (head p) seen.

(** The rules whose head is still unseen. *)
Definition unseen (seen : list Symbol) : list (Rule R) :=
  List.filter (fun p => negb (mem (head p) seen)) Ps.
End Sweeps.

Section ImageHypothesis.
Context {R : Type} {SR : Semiring R}.
Variable g : CFG R.
Variable Xs : list Symbol.
Variable Ps : list (Rule R).
Variable id : Z.
Variable G' : CFG R.
Variable kept : Symbol -> Prop.

(** A derivation has an image: what the induction over derivations
    assumes of the children of a node. *)
Definition has_image (y : Tree R) : Prop :=
  derivation_of g y -> isDerivation y = true ->
  exists t, spec_mapping g Xs Ps id y = Ok t
            /\ GImage g Xs Ps id G' kept y t.
End ImageHypothesis.

(** The symbols that get recovery rules from [GLCT]: the retained ones
    under the filter, every nonterminal without it. *)
Definition recoverable {R} {SR : Semiring R} (g : CFG R)
  (Ps : list (Rule R)) (filter : bool) (Y : Symbol) : Prop :=
  if filter then In Y (retained_filter g Ps) else In Y (cfg_N g).

(** [well_formed] as a test. *)
Definition plainb (x : Symbol) : bool :=
  match x with Str _ => true | _ => false end.

Definition well_formedb {R} {SR : Semiring R} (g : CFG R) : bool :=
  mem (cfg_S g) (cfg_N g)
  && forallb (fun p => mem (head p) (cfg_N g)) (cfg_rules g)
  && forallb (fun x => negb (mem x (cfg_V g))) (cfg_N g)
  && forallb (fun p => negb (weq (w p) zero)) (cfg_rules g)
  && forallb plainb (cfg_N g).

(** The derivation [S → (S → b) a] of [g_left]. *)
Definition d_ba : Tree bool :=
  Derivation (as_drule rule_Sa) (Str "S")
    [Derivation (as_drule rule_b) (Str "S") [Leaf (Str "b")];
     Leaf (Str "a")].

(** [u: S → S a], [v: S → b] with weights that do not commute:
    [u ⊗ v = v] and [v ⊗ u = zero]. *)
Definition tri_u : Tri := mkTri true false false.
Definition tri_v : Tri := mkTri false true false.
Definition rule_Sa_u : Rule Tri :=
  mkRule tri_u (Str "S") [Str "S"; Str "a"].
Definition rule_b_v : Rule Tri := mkRule tri_v (Str "S") [Str "b"].
Definition g_noncomm : CFG Tri :=
  grammar (Str "S") [Str "a"; Str "b"] [rule_Sa_u; rule_b_v].
Definition d_noncomm : Tree Tri :=
  Derivation (as_drule rule_Sa_u) (Str "S")
    [Derivation (as_drule rule_b_v) (Str "S") [Leaf (Str "b")];
     Leaf (Str "a")].

(** The derivation [A/B → c] of [g_slashed], and the derivation [A → c]
    of [g_spine], rooted below the start symbol. *)
Definition d_Qc : Tree bool :=
  Derivation (as_drule rule_Qc) sym_Q [Leaf (Str "c")].
Definition d_Ac : Tree bool :=
  Derivation (as_drule rule_c) (Str "A") [Leaf (Str "c")].

(** The product that only knows [one]: [one] is its unit and any two
    other weights multiply to [zero].  It commutes whatever [⊗] does; and
    since neither the constructor of [GLCT] nor the mapping multiplies
    weights, the grammars and the images built over it are those built
    over [⊗]. *)
Definition flat_times {R} {SR : Semiring R} (a b : R) : R :=
  if weq a one then b else if weq b one then a else zero.

Definition Flat {R} (SR : Semiring R) : Semiring R := {|
  zero := zero;
  one := one;
  plus := plus;
  times := flat_times;
  star := star;
  weq := weq;
  converged := converged
|}.

(** [1: S → A], [1: S → ~A], [1: A → ~A], [1: ~A → c], where the
    nonterminal [~A] is itself a [Frozen] symbol, and two derivations of
    [c]. *)
Definition sym_F : Symbol := Frozen (Str "A") 0.
Definition rule_SA : Rule bool := mkRule true (Str "S") [Str "A"].
Definition rule_SF : Rule bool := mkRule true (Str "S") [sym_F].
Definition rule_AF : Rule bool := mkRule true (Str "A") [sym_F].
Definition rule_Fc : Rule bool := mkRule true sym_F [Str "c"].
Definition g_frozen : CFG bool :=
  grammar (Str "S") [Str "c"] [rule_SA; rule_SF; rule_AF; rule_Fc].
Definition d_Fc : Tree bool :=
  Derivation (as_drule rule_Fc) sym_F [Leaf (Str "c")].
Definition d_SFc : Tree bool :=
  Derivation (as_drule rule_SF) (Str "S") [d_Fc].
Definition d_SAFc : Tree bool :=
  Derivation (as_drule rule_SA) (Str "S")
    [Derivation (as_drule rule_AF) (Str "A") [d_Fc]].

(** ** Heights and the language of a grammar *)

Section DerivationExtras.
Context {R : Type} {SR : Semiring R}.

(** The height of a derivation, as [derivations] counts it: a bare
    terminal has height 0. *)
Fixpoint height (d : Tree R) : nat :=
  match d with
  | Leaf _ => 0
  | Derivation _ _ ys =>
      S (fold_right (fun y m => Nat.max (height y) m) 0 ys)
  end.

(** [CFG.language]: [lang[d.Yield()] += d.weight()] over the
    derivations of the start symbol.  A bare terminal has no method
    [Yield]; the rules stored by [derivations] always carry a weight. *)
Definition language (g : CFG R) (depth : Z)
  : outcome (Chart R (list Symbol)) :=
  fold_left
    (fun acc d =>
       lang <~ acc ;;
       match d with
       | Leaf _ => Raise AttributeError
       | Derivation _ _ _ =>
           W <~ weight d ;;
           match W with
           | Some v => Ok (incr lang (Yield d) v)
           | None => Raise TypeError
           end
       end)
    (derivations g None depth) (Ok []).
End DerivationExtras.


(** ** Smaller operations on charts and grammars *)

Section SmallOps.
Context {R : Type} {SR : Semiring R}.

(** [keep_nonzero(semiring, chart)] *)
Definition keep_nonzero {K} {EK : Eqb K} (chart : Chart R K) : Chart R K :=
  fold_left
    (fun new '(k, v) => if weq v zero then new else set new k v)
    chart [].

(** [CFG.num_rules] *)
Definition num_rules (g : CFG R) : nat := List.length (cfg_rules g).

(** [CFG.rename] *)
Definition rename (g : CFG R) (f : Symbol -> Symbol) : CFG R :=
  fold_left
    (fun new r =>
       add_ new (w r) (f (head r))
            (map (fun y => if is_terminal g y then y else f y) (body r)))
    (cfg_rules g) (spawn_S g (f (cfg_S g))).

(** [l[i]], with Python's negative indices. *)
Definition py_index {A} (l : list A) (i : Z) : outcome A :=
  let n := Z.of_nat (List.length l) in
  let j := if (i <? 0)%Z then (i + n)%Z else i in
  if ((0 <=? j) && (j <? n))%Z then
    match nth_error l (Z.to_nat j) with
    | Some x => Ok x
    | None => Raise IndexError
    end
  else Raise IndexError.

(** The position that the bound [k] of a slice stands for in a list of
    length [n]: [l[:k]] is [firstn (py_bound n k) l] and [l[k:]] is
    [skipn (py_bound n k) l]. *)
Definition py_bound (n : nat) (k : Z) : nat :=
  if (k <? 0)%Z then Z.to_nat (Z.max 0 (k + Z.of_nat n))
  else Nat.min (Z.to_nat k) n.

(** [CFG.unfold] *)
Definition unfold (g : CFG R) (i k : Z) : outcome (CFG R) :=
  s <~ py_index (cfg_rules g) i ;;
  bk <~ py_index (body s) k ;;
  if is_nonterminal g bk then
    let new :=
      fold_left
        (fun new '(j, r) =>
           if Z.eqb (Z.of_nat j) i then new
           else add_ new (w r) (head r) (body r))
        (combine (seq 0 (List.length (cfg_rules g))) (cfg_rules g))
        (spawn g) in
    let n := List.length (body s) in
    Ok (fold_left
          (fun new r =>
             add_ new (w s ⊗ w r) (head s)
                  (firstn (py_bound n k) (body s) ++ body r
                   ++ skipn (py_bound n (k + 1)) (body s)))
          (rhs g bk) new)
  else Raise AssertionError.
End SmallOps.


(** ** The work left on the stack of [binarize] *)

(** The number of pops that a rule on the stack costs: one for a rule of
    at most two symbols, and two more for each further symbol. *)
Definition pops {R} (p : Rule R) : nat :=
  if Nat.leb (List.length (body p)) 2 then 1
  else 2 * List.length (body p) - 3.

Definition cost {R} (stack : list (Rule R)) : nat :=
  fold_right (fun p n => pops p + n) 0 stack.


(** ** Generating and reachable symbols

    What [trim] computes, said without its agendas: a symbol is
    generating when it is a terminal or the head of a rule whose body
    symbols all are; it is reachable when it is the start symbol or a
    generating symbol in the body of a rule with a reachable head. *)

Section UsefulSymbols.
Context {R : Type} {SR : Semiring R}.

Inductive generating (g : CFG R) : Symbol -> Prop :=
| gen_terminal (a : Symbol) : In a (cfg_V g) -> generating g a
| gen_rule (r : Rule R) :
    In r (cfg_rules g) ->
    (forall b, In b (body r) -> generating g b) ->
    generating g (head r).

Inductive reachable (g : CFG R) : Symbol -> Prop :=
| reachable_start : reachable g (cfg_S g)
| reachable_step (r : Rule R) (b : Symbol) :
    In r (cfg_rules g) -> reachable g (head r) ->
    In b (body r) -> generating g b ->
    reachable g b.

(** One rule of the inner loop of the bottom-up pass, and one body symbol
    of the inner loop of the top-down pass. *)
Definition bu_step (st : list Symbol * list Symbol) (e : Rule R)
  : list Symbol * list Symbol :=
  if forallb (fun b => mem b (fst st)) (body e)
     && negb (mem (head e) (fst st))
  then (set_add (head e) (fst st), set_add (head e) (snd st))
  else st.

Definition td_step (C : list Symbol) (st : list Symbol * list Symbol)
  (b : Symbol) : list Symbol * list Symbol :=
  if negb (mem b (fst st)) && mem b C
  then (set_add b (fst st), set_add b (snd st))
  else st.

(** The symbols that the passes can ever add, and how many of them a
    set [C] still misses. *)
Definition trim_universe (g : CFG R) : list Symbol :=
  set_of (cfg_V g ++ map (@head R) (cfg_rules g)).

Definition missing (U C : list Symbol) : nat :=
  List.length (List.filter (fun u => negb (mem u C)) U).
End UsefulSymbols.

(** Both inner loops push a symbol on the set and on the agenda when a
    test on the set passes and the symbol is new. *)
Definition cstep {X} (cond : list Symbol -> X -> bool) (elt : X -> Symbol)
  (st : list Symbol * list Symbol) (x : X) : list Symbol * list Symbol :=
  if cond (fst st) x && negb (mem (elt x) (fst st))
  then (set_add (elt x) (fst st), set_add (elt x) (snd st))
  else st.


(** ** Left-recursion analysis and elimination *)

Section LeftRecursion.
Context {R : Type} {SR : Semiring R}.

(** [lc_selective]: every symbol is a left corner recognition symbol. *)
Definition lc_selective (g : CFG R) (Ps : list (Rule R)) (filter : bool)
  : outcome (CFG R) :=
  lc_generalized g (set_union (cfg_V g) (cfg_N g)) (Some Ps) filter 0.

(** [f[x] == f[y]] for the mapping [f] of [nx.condensation] of the
    left-corner graph over all rules: [x] and [y] lie in one strongly
    connected component, that is, each is reachable from the other.
    (Reversing every edge does not change the components, so the reversed
    graph that [reach] walks serves as well.) *)
Definition same_scc (g : CFG R) (x y : Symbol) : bool :=
  let n := List.length (cfg_rules g) in
  mem y (reach (cfg_rules g) n [x]) && mem x (reach (cfg_rules g) n [y]).

(** [find_lr_rules]: the set of rules that lie in a left-recursive
    block. *)
Definition find_lr_rules (g : CFG R) : list (Rule R) :=
  set_of
    (List.filter
       (fun r =>
          match body r with
          | [] => false
          | b0 :: _ => same_scc g (head r) b0
          end)
       (cfg_rules g)).

Definition is_left_recursive (g : CFG R) : bool :=
  negb (Nat.eqb (List.length (find_lr_rules g)) 0).

(** [sufficient_Xs]; [p.body[0]] fails on a rule with an empty body. *)
Definition sufficient_Xs (g : CFG R) (Ps : list (Rule R))
  : outcome (list Symbol) :=
  let others := set_diff (set_of (cfg_rules g)) (set_of Ps) in
  let left := set_union (cfg_V g) (set_of (map (@head R) others)) in
  corners <~
    sequence
      (map (fun p => match body p with
                     | [] => Raise IndexError
                     | b0 :: _ => Ok b0
                     end)
           Ps) ;;
  Ok (set_inter left (set_of corners)).

(** [elim_left_recursion], with the keyword arguments [filter] and [id]
    that it hands to [lc_generalized]. *)
Definition elim_left_recursion (g : CFG R) (filter : bool) (id : Z)
  : outcome (CFG R) :=
  let Ps := find_lr_rules g in
  Xs <~ sufficient_Xs g Ps ;;
  lc_generalized g Xs (Some Ps) filter id.
End LeftRecursion.


(** ** Parsing with a grammar in Chomsky normal form *)

Section CKY.
Context {R : Type} {SR : Semiring R}.

(** The [defaultdict(list)] of [_cnf], kept as an association list:
    [terminal[a].append(r)] and [terminal[a]]. *)
Fixpoint dl_append (d : list (Symbol * list (Rule R))) (a : Symbol)
  (r : Rule R) : list (Symbol * list (Rule R)) :=
  match d with
  | [] => [(a, [r])]
  | (k, rs) :: d' =>
      if beq a k then (k, rs ++ [r]) :: d' else (k, rs) :: dl_append d' a r
  end.

Fixpoint dl_get (d : list (Symbol * list (Rule R))) (a : Symbol)
  : list (Rule R) :=
  match d with
  | [] => []
  | (k, rs) :: d' => if beq a k then rs else dl_get d' a
  end.

(** [CFG._cnf]: the total weight of the nullary rules, the unary rules
    by terminal, and the binary rules. *)
Definition _cnf (g : CFG R)
  : outcome (R * list (Symbol * list (Rule R)) * list (Rule R)) :=
  fold_left
    (fun acc r =>
       ' (nullary, terminal, binary) <~ acc ;;
       match body r with
       | [] =>
           if beq (head r) (cfg_S g)
           then Ok (nullary ⊕ w r, terminal, binary)
           else Raise AssertionError
       | [a] =>
           if is_terminal g a
           then Ok (nullary, dl_append terminal a r, binary)
           else Raise AssertionError
       | [y; z] =>
           if is_nonterminal g y && is_nonterminal g z
           then Ok (nullary, terminal, binary ++ [r])
           else Raise AssertionError
       | _ => Raise AssertionError
       end)
    (cfg_rules g) (Ok (zero, [], [])).

(** The rules with the body [a]. *)
Definition unary_on (a : Symbol) (r : Rule R) : bool :=
  match body r with [b] => beq a b | _ => false end.

Definition binary (r : Rule R) : bool :=
  Nat.eqb (List.length (body r)) 2.

(** [CFG._parse_chart]: the CKY algorithm, on the grammar itself when it
    is in normal form and on [self.cnf] otherwise. *)
Definition _parse_chart (g : CFG R) (input : list Symbol)
  : M (Chart R (nat * Symbol * nat)) :=
  ok <- lift (in_cnf g) ;;
  g <- (if ok then ret g else cnf g) ;;
  ' (nullary, terminal, binary) <- lift (_cnf g) ;;
  let N := List.length input in
  (* nullary rule *)
  let c :=
    fold_left (fun c i => incr c (i, cfg_S g, i) nullary) (seq 0 (N + 1)) [] in
  (* preterminal rules *)
  let c :=
    fold_left
      (fun c '(i, a) =>
         fold_left (fun c r => incr c (i, head r, i + 1) (w r))
                   (dl_get terminal a) c)
      (combine (seq 0 N) input) c in
  (* binary rules *)
  let c :=
    fold_left
      (fun c span =>
         fold_left
           (fun c i =>
              let k := i + span in
              fold_left
                (fun c j =>
                   fold_left
                     (fun c r =>
                        match body r with
                        | [Y; Z] =>
                            incr c (i, head r, k)
                                 (w r ⊗ get c (i, Y, j) ⊗ get c (j, Z, k))
                        | _ => c
                        end)
                     binary c)
                (seq (i + 1) (k - (i + 1))) c)
           (seq 0 (N - span + 1)) c)
      (seq 1 N) c in
  ret c.

(** [CFG.__call__]: the total weight of the [input] sequence. *)
Definition call (g : CFG R) (input : list Symbol) : M R :=
  c <- _parse_chart g input ;;
  ret (get c (0, cfg_S g, List.length input)).

(** *** Naive bottom-up evaluation *)

Definition _bottom_up_step (g : CFG R) (V : Chart R Symbol)
  : Chart R Symbol :=
  let U := fold_left (fun U a => set U a one) (cfg_V g) [] in
  fold_left
    (fun U p =>
       let update :=
         fold_left
           (fun update X =>
              if is_nonterminal g X then update ⊗ get V X else update)
           (body p) (w p) in
       incr U (head p) update)
    (cfg_rules g) U.

(** [_approx_equal(U, V)] *)
Definition _approx_equal (g : CFG R) (U V : Chart R Symbol) : bool :=
  forallb (fun X => converged (get U X) (get V X)) (cfg_N g).

(** The [while counter < timeout:] loop, by what is left of the
    timeout. *)
Fixpoint naive_bottom_up_loop (g : CFG R) (left : nat) (V : Chart R Symbol)
  : Chart R Symbol :=
  match left with
  | O => V
  | S left' =>
      let U := _bottom_up_step g V in
      if _approx_equal g U V then V else naive_bottom_up_loop g left' U
  end.

Definition naive_bottom_up (g : CFG R) (timeout : nat) : Chart R Symbol :=
  naive_bottom_up_loop g timeout [].
End CKY.

(** [1: S → a], a grammar in Chomsky normal form. *)
Definition g_Sa : CFG bool :=
  grammar (Str "S") [Str "a"] [mkRule true (Str "S") [Str "a"]].


(** ** Names, equality of grammars, and slash-free trees *)

(** A string without the character [@]. *)
Fixpoint no_at (s : string) : bool :=
  match s with
  | EmptyString => true
  | String c s' => negb (Ascii.eqb c "@") && no_at s'
  end.

Section MiscOps.
Context {R : Type} {SR : Semiring R}.

(** [Counter(rules)[r]] and [Counter(a) == Counter(b)] *)
Definition count_rule (r : Rule R) (l : list (Rule R)) : nat :=
  List.length (List.filter (beq r) l).

Definition Counter_eq (a b : list (Rule R)) : bool :=
  forallb (fun r => Nat.eqb (count_rule r a) (count_rule r b)) (a ++ b).

(** [CFG.assert_equal], given another grammar (not a string); what
    [verbose] prints is left out. *)
Definition assert_equal (g other : CFG R) (verbose throw : bool)
  : outcome unit :=
  if verbose || throw then
    if negb throw || Counter_eq (cfg_rules g) (cfg_rules other)
    then Ok tt
    else Raise AssertionError
  else Raise AssertionError.

(** [CFG.null_weight_start] *)
Definition null_weight_start (g : CFG R) : R :=
  get (null_weight g) (cfg_S g).

(** A tree none of whose nodes is labelled by a [Slash]. *)
Fixpoint slash_free (d : Tree R) : bool :=
  match d with
  | Leaf _ => true
  | Derivation _ x ys => negb (isSlash x) && forallb slash_free ys
  end.
End MiscOps.

(** Every entry of a chart over the Boolean semiring that holds [true]
    is at a key that satisfies [P]. *)
Definition chart_within {K : Type} (P : K -> Prop) (c : Chart bool K)
  : Prop :=
  forall k v, In (k, v) c -> v = true -> P k.

(** [input[i:k]] *)
Definition substring (s : list Symbol) (i k : nat) : list Symbol :=
  firstn (k - i) (skipn i s).

(** Every key that reads [true] in [c] reads [true] in [c']. *)
Definition chart_le {K : Type} {EK : Eqb K} (c c' : Chart bool K) : Prop :=
  forall q, get c q = true -> get c' q = true.

(** [x] is the root of a derivation, with rules of weight [true], whose
    yield is [input[i:k]]. *)
Definition spans (g : CFG bool) (s : list Symbol) (key : nat * Symbol * nat)
  : Prop :=
  let '(i, x, k) := key in
  exists d, isDerivation d = true /\ derives g d true
            /\ label d = x /\ Yield d = substring s i k.

(** The phases of [_parse_chart] on a grammar in normal form, over the
    Boolean semiring: the nullary rules, the preterminal rules, one rule
    at one split point, and one value of [span]. *)
Definition cky_nullary (g : CFG bool) (s : list Symbol)
  : Chart bool (nat * Symbol * nat) :=
  fold_left
    (fun c i =>
       incr c (i, cfg_S g, i)
            (sum_over (List.filter nullary (cfg_rules g)) (@w bool)))
    (seq 0 (List.length s + 1)) [].

Definition cky_preterminal (g : CFG bool) (s : list Symbol)
  (terminal : list (Symbol * list (Rule bool)))
  : Chart bool (nat * Symbol * nat) :=
  fold_left
    (fun c '(i, a) =>
       fold_left (fun c r => incr c (i, head r, i + 1) (w r))
                 (dl_get terminal a) c)
    (combine (seq 0 (List.length s)) s) (cky_nullary g s).

Definition cky_rule (i j k : nat) (c : Chart bool (nat * Symbol * nat))
  (r : Rule bool) : Chart bool (nat * Symbol * nat) :=
  match body r with
  | [Y; Z] => incr c (i, head r, k) (w r ⊗ get c (i, Y, j) ⊗ get c (j, Z, k))
  | _ => c
  end.

Definition cky_span (g : CFG bool) (s : list Symbol)
  (c : Chart bool (nat * Symbol * nat)) (span : nat)
  : Chart bool (nat * Symbol * nat) :=
  fold_left
    (fun c i =>
       fold_left
         (fun c j =>
            fold_left (cky_rule i j (i + span))
                      (List.filter binary (cfg_rules g)) c)
         (seq (i + 1) (i + span - (i + 1))) c)
    (seq 0 (List.length s - span + 1)) c.

(** The entries of the chart for the derivations of width at most [m]
    are set. *)
Definition filled (g : CFG bool) (s : list Symbol)
  (c : Chart bool (nat * Symbol * nat)) (m : nat) : Prop :=
  forall i X k d,
    isDerivation d = true -> derives g d true -> label d = X ->
    Yield d = substring s i k ->
    i < k -> k <= List.length s -> k - i <= m ->
    get c (i, X, k) = true.


(** ** The rules of the speculation transformation *)

Section SpeculationKinds.
Context {R : Type} {SR : Semiring R}.
Variable g : CFG R.
Variable Xs : list Symbol.
Variable Ps : list (Rule R).
Variable id : Z.
Variable filter : bool.

(** The six kinds of rules of [Speculation], as its constructor adds
    them. *)
Inductive spec_rule : Rule R -> Prop :=
| sr_slash_base (X : Symbol) :
    In X (if filter then Xs else set_union (cfg_V g) (cfg_N g)) ->
    spec_rule (mkRule one (_slash g id X X) [])
| sr_frozen_base (p : Rule R) :
    In p (cfg_rules g) -> ~ In p Ps ->
    spec_rule (mkRule (w p) (_frozen g id (head p)) (body p))
| sr_slash_rec (p : Rule R) (b0 : Symbol) (rest : list Symbol) (X : Symbol) :
    In p (cfg_rules g) -> In p Ps -> body p = b0 :: rest ->
    In X (if filter then Xs else set_union (cfg_N g) (cfg_V g)) ->
    spec_rule (mkRule (w p) (_slash g id (head p) X)
                      (_slash g id b0 X :: rest))
| sr_frozen_rec (p : Rule R) (b0 : Symbol) (rest : list Symbol) :
    In p (cfg_rules g) -> In p Ps -> body p = b0 :: rest -> ~ In b0 Xs ->
    spec_rule (mkRule (w p) (_frozen g id (head p))
                      (_frozen g id b0 :: rest))
| sr_recover_frozen (Y : Symbol) :
    In Y (cfg_N g) -> ~ In Y Xs ->
    spec_rule (mkRule one Y [_frozen g id Y])
| sr_recover_slash (Y X : Symbol) :
    In Y (cfg_N g) -> In X Xs ->
    spec_rule (mkRule one Y [_frozen g id X; _slash g id Y X]).
End SpeculationKinds.


(* ===================================================================== *)
(** * Part II.  Properties                                                *)
(* ===================================================================== *)

(** ** Python's [==] decides equality *)

Lemma Symbol_eqb_refl (a : Symbol) : Symbol_eqb a a = true.
Proof.
  induction a as [s | y IHy z IHz i | x IHx i]; simpl.
  - apply String.eqb_refl.
  - now rewrite IHy, IHz, Z.eqb_refl.
  - now rewrite IHx, Z.eqb_refl.
Qed.

Lemma Symbol_eqb_eq (a b : Symbol) : Symbol_eqb a b = true <-> a = b.
Proof.
  split; [| intros ->; apply Symbol_eqb_refl].
  revert b.
  induction a as [s | y IHy z IHz i | x IHx i]; intros [t | y' z' i' | x' i'];
    simpl; try discriminate.
  - intros H. apply String.eqb_eq in H. now subst.
  - intros H. apply andb_true_iff in H as [H Hi].
    apply andb_true_iff in H as [Hy Hz].
    apply Z.eqb_eq in Hi. now rewrite (IHy _ Hy), (IHz _ Hz), Hi.
  - intros H. apply andb_true_iff in H as [Hx Hi].
    apply Z.eqb_eq in Hi. now rewrite (IHx _ Hx), Hi.
Qed.

#[export] Instance Symbol_EqbLaws : EqbLaws Symbol := Symbol_eqb_eq.
#[export] Instance nat_EqbLaws : EqbLaws nat := Nat.eqb_eq.
#[export] Instance string_EqbLaws : EqbLaws string := String.eqb_eq.

Lemma list_beq_eq {A} {E : Eqb A} {L : EqbLaws A} (xs ys : list A) :
  list_beq xs ys = true <-> xs = ys.
Proof.
  revert ys. induction xs as [| x xs IH]; intros [| y ys]; simpl;
    try (split; discriminate); try tauto.
  rewrite andb_true_iff, IH, (beq_eq x y).
  split; [intros [-> ->] | intros [= -> ->]]; auto.
Qed.

#[export] Instance list_EqbLaws {A} {E : Eqb A} {L : EqbLaws A}
  : EqbLaws (list A) := list_beq_eq.

#[export] Instance prod_EqbLaws {A B} {EA : Eqb A} {EB : Eqb B}
  {LA : EqbLaws A} {LB : EqbLaws B} : EqbLaws (A * B).
Proof.
  intros [a b] [a' b']. unfold beq, prod_Eqb. simpl.
  rewrite andb_true_iff.
  rewrite (beq_eq a a'), (beq_eq b b').
  split; [intros [-> ->] | intros [= -> ->]]; auto.
Qed.

#[export] Instance option_EqbLaws {A} {E : Eqb A} {L : EqbLaws A}
  : EqbLaws (option A).
Proof.
  intros [a |] [b |]; unfold beq, option_Eqb; try (split; discriminate);
    try tauto.
  fold (beq a b). rewrite (beq_eq a b).
  split; [intros -> | intros [= ->]]; auto.
Qed.

#[export] Instance weight_EqbLaws {R} {SR : Semiring R} {L : SemiringLaws R}
  : EqbLaws R := weq_eq.

#[export] Instance SemiringLaws_MonoidLaws {R} {SR : Semiring R}
  {L : SemiringLaws R} : MonoidLaws R.
Proof.
  split; [apply times_assoc | apply times_one_l | apply times_one_r
         | apply weq_eq].
Qed.

#[export] Instance MonoidLaws_EqbLaws {R} {SR : Semiring R}
  {ML : MonoidLaws R} : EqbLaws R | 10 := mul_weq_eq.

#[export] Instance Rule_EqbLaws {W} {E : Eqb W} {L : EqbLaws W}
  : EqbLaws (Rule W).
Proof.
  intros [w1 h1 b1] [w2 h2 b2]. unfold beq at 1. unfold Rule_Eqb. simpl.
  rewrite !andb_true_iff.
  rewrite (beq_eq w1 w2), (beq_eq h2 h1), (beq_eq b2 b1).
  split; [intros [[-> ->] ->] | intros [= -> -> ->]]; auto.
Qed.

Lemma beq_refl {A} {E : Eqb A} {L : EqbLaws A} (x : A) : beq x x = true.
Proof. now apply beq_eq. Qed.

Lemma beq_false {A} {E : Eqb A} {L : EqbLaws A} (x y : A) :
  beq x y = false <-> x <> y.
Proof.
  rewrite <- (beq_eq x y). destruct (beq x y); split; congruence.
Qed.

Lemma beq_reflect {A} {E : Eqb A} {L : EqbLaws A} (x y : A) :
  reflect (x = y) (beq x y).
Proof. apply iff_reflect. symmetry. apply beq_eq. Qed.

Lemma mem_cons {A} {E : Eqb A} (x y : A) (l : list A) :
  mem x (y :: l) = beq x y || mem x l.
Proof. reflexivity. Qed.

Lemma beq_pair {A B} {EA : Eqb A} {EB : Eqb B} (a a' : A) (b b' : B) :
  beq (a, b) (a', b') = beq a a' && beq b b'.
Proof. reflexivity. Qed.

Lemma mem_In {A} {E : Eqb A} {L : EqbLaws A} (x : A) (xs : list A) :
  mem x xs = true <-> In x xs.
Proof.
  unfold mem. rewrite existsb_exists. split.
  - intros [y [Hy Hxy]]. apply beq_eq in Hxy. now subst.
  - intros H. exists x. split; [assumption | apply beq_refl].
Qed.

Lemma mem_false {A} {E : Eqb A} {L : EqbLaws A} (x : A) (xs : list A) :
  mem x xs = false <-> ~ In x xs.
Proof.
  rewrite <- mem_In. destruct (mem x xs); split; congruence.
Qed.

Lemma In_set_add {A} {E : Eqb A} {L : EqbLaws A} (x y : A) (s : list A) :
  In y (set_add x s) <-> y = x \/ In y s.
Proof.
  unfold set_add. destruct (mem x s) eqn:Hm.
  - apply mem_In in Hm. split; [tauto | intros [-> | H]; assumption].
  - rewrite in_app_iff. simpl. split; [intros [H | [-> | []]] | intros [-> | H]];
      auto.
Qed.

(** The Boolean semiring is a semiring. *)
#[export] Instance Boolean_laws : SemiringLaws bool.
Proof.
  split; simpl;
    try (intros [] [] []; reflexivity);
    try (intros [] []; reflexivity);
    try (intros []; reflexivity).
  intros [] []; simpl; split; congruence.
Qed.

Lemma weq_true {R} {SR : Semiring R} {L : SemiringLaws R} (a b : R) :
  weq a b = true -> a = b.
Proof. apply weq_eq. Qed.

Lemma weq_false {R} {SR : Semiring R} {L : SemiringLaws R} (a b : R) :
  weq a b = false -> a <> b.
Proof. intros H E. apply weq_eq in E. congruence. Qed.

Lemma weq_refl {R} {SR : Semiring R} {L : SemiringLaws R} (a : R) :
  weq a a = true.
Proof. now apply weq_eq. Qed.

(** ** Rules and the grammar container *)

(** C6, as stated, fails: two rules with the same head and body but
    different weights are not [==]. *)
Lemma Rule_eq_needs_weight :
  ~ (forall (pyhash : Symbol * list Symbol -> Z) (r1 r2 : Rule bool),
        head r1 = head r2 -> body r1 = body r2 ->
        Rule_eq pyhash r1 r2 = true).
Proof.
  intros H.
  specialize (H (fun _ => 0%Z)
                (mkRule true (Str "S") [Str "a"])
                (mkRule false (Str "S") [Str "a"]) eq_refl eq_refl).
  discriminate H.
Qed.

(** C6, amended: the hash of a rule is determined by (head, body) alone,
    while [==] holds exactly when the weights, the heads and the bodies
    are equal. *)
Theorem Rule_eq_spec {R} {SR : Semiring R} {L : SemiringLaws R}
  (pyhash : Symbol * list Symbol -> Z) (r1 r2 : Rule R) :
  (head r1 = head r2 -> body r1 = body r2 ->
   Rule_hash pyhash r1 = Rule_hash pyhash r2)
  /\ (Rule_eq pyhash r1 r2 = true <->
      w r1 = w r2 /\ head r1 = head r2 /\ body r1 = body r2).
Proof.
  split.
  - intros Hh Hb. unfold Rule_hash. now rewrite Hh, Hb.
  - unfold Rule_eq. rewrite !andb_true_iff, Z.eqb_eq.
    rewrite (beq_eq (w r1) (w r2)), (beq_eq (head r2) (head r1)),
      (beq_eq (body r2) (body r1)).
    split.
    + intros [[[Hw _] Hh] Hb]. auto.
    + intros [Hw [Hh Hb]]. unfold Rule_hash. rewrite Hh, Hb. auto.
Qed.

Lemma Rule_eq_spec_witness :
  Rule_eq (fun _ => 0%Z) (mkRule true (Str "S") [Str "a"])
          (mkRule true (Str "S") [Str "a"]) = true <->
  true = true /\ Str "S" = Str "S" /\ [Str "a"] = [Str "a"].
Proof.
  exact (proj2 (@Rule_eq_spec bool Boolean Boolean_laws (fun _ => 0%Z)
                  (mkRule true (Str "S") [Str "a"])
                  (mkRule true (Str "S") [Str "a"]))).
Defined.

(** The hash comparison inside [Rule.__eq__] is redundant. *)
Lemma Rule_eq_beq {W} {E : Eqb W} (pyhash : Symbol * list Symbol -> Z)
  (r1 r2 : Rule W) :
  Rule_eq pyhash r1 r2 = beq r1 r2.
Proof.
  unfold Rule_eq, beq at 4, Rule_Eqb.
  destruct (beq (w r1) (w r2)); simpl; [| reflexivity].
  destruct (beq (head r2) (head r1)) eqn:Hh;
    [| now rewrite andb_false_r].
  destruct (beq (body r2) (body r1)) eqn:Hb;
    [| now rewrite andb_false_r].
  apply Symbol_eqb_eq in Hh. apply list_beq_eq in Hb.
  unfold Rule_hash. rewrite Hh, Hb, Z.eqb_refl. reflexivity.
Qed.

(** C7, as stated, fails: a zero-weight [add] returns before the head is
    added to [N]. *)
Lemma add_zero_skips_head :
  let g := new_CFG (Str "S") [Str "a"] in
  let g' := add_ g false (Str "X") [Str "a"] in
  ~ (cfg_rules g' = cfg_rules g /\ In (Str "X") (cfg_N g')).
Proof.
  simpl. intros [_ [H | []]]. discriminate H.
Qed.

(** C7, amended: [add] with weight zero leaves the grammar as it is (no
    rule is appended and the head is not added to [N]); with any other
    weight it adds the head to [N] and appends the rule.  Hence no rule
    with weight zero is ever stored. *)
Theorem add_spec {R} {SR : Semiring R} {L : SemiringLaws R}
  (g : CFG R) (w0 : R) (X : Symbol) (body0 : list Symbol) :
  (w0 = zero -> add g w0 X body0 = (g, None))
  /\ (w0 <> zero ->
      snd (add g w0 X body0) = Some (mkRule w0 X body0)
      /\ cfg_rules (add_ g w0 X body0) = cfg_rules g ++ [mkRule w0 X body0]
      /\ In X (cfg_N (add_ g w0 X body0))
      /\ (forall Y, In Y (cfg_N g) -> In Y (cfg_N (add_ g w0 X body0))))
  /\ (Forall (fun r => w r <> zero) (cfg_rules g) ->
      Forall (fun r => w r <> zero) (cfg_rules (add_ g w0 X body0))).
Proof.
  unfold add_, add.
  destruct (weq w0 zero) eqn:Hz.
  - apply weq_true in Hz. split; [reflexivity |].
    split; [intros Hnz; contradiction | intros HF; exact HF].
  - apply weq_false in Hz. rename Hz into Hnz.
    simpl. split; [intros H; contradiction |]. split.
    + intros _. split; [reflexivity |]. split; [reflexivity |]. split.
      * apply In_set_add. now left.
      * intros Y HY. apply In_set_add. now right.
    + intros HF. apply Forall_app. split; [assumption |].
      constructor; [assumption | constructor].
Qed.

Lemma add_spec_witness :
  add (new_CFG (Str "S") []) (@zero bool Boolean) (Str "X") [Str "a"]
  = (new_CFG (Str "S") [], None).
Proof.
  exact (proj1 (@add_spec bool Boolean Boolean_laws
                  (new_CFG (Str "S") []) false (Str "X") [Str "a"])
               eq_refl).
Defined.

(** ** Enumeration of derivations *)

(** The recursion on the height unfolds as the source's [H - 1]. *)
Lemma derivations_unfold {R} {SR : Semiring R} (g : CFG R) (X : Symbol)
  (H : Z) :
  is_terminal g X = false -> (0 < H)%Z ->
  derivations g (Some X) H =
  flat_map (fun r => map (Derivation (as_drule r) X)
                         (_derivations_list g (body r) (H - 1)))
           (rhs g X).
Proof.
  intros Ht HH. unfold derivations, _derivations_list.
  replace (Z.to_nat H) with (S (Z.to_nat (H - 1))) by lia.
  simpl. now rewrite Ht.
Qed.

(** C10: a terminal is yielded whatever the height bound, even a
    non-positive one, while a nonterminal yields nothing once the bound
    is non-positive. *)
Theorem derivations_terminal_any_height {R} {SR : Semiring R}
  (g : CFG R) (a : Symbol) (H : Z) :
  (In a (cfg_V g) -> derivations g (Some a) H = [Leaf a])
  /\ (~ In a (cfg_V g) -> (H <= 0)%Z -> derivations g (Some a) H = []).
Proof.
  unfold derivations. split.
  - intros Ha. apply mem_In in Ha.
    destruct (Z.to_nat H); simpl; unfold is_terminal; now rewrite Ha.
  - intros Ha HH. apply mem_false in Ha.
    replace (Z.to_nat H) with O by lia.
    simpl. unfold is_terminal. now rewrite Ha.
Qed.

Lemma derivations_terminal_any_height_witness :
  derivations (new_CFG (Str "S") [Str "a"] : CFG bool) (Some (Str "a")) (-3)
  = [Leaf (Str "a")]
  /\ derivations (new_CFG (Str "S") [Str "a"] : CFG bool) (Some (Str "S")) 0
     = [].
Proof.
  split.
  - apply (proj1 (derivations_terminal_any_height
                    (new_CFG (Str "S") [Str "a"] : CFG bool)
                    (Str "a") (-3))).
    simpl. now left.
  - apply (proj2 (derivations_terminal_any_height
                    (new_CFG (Str "S") [Str "a"] : CFG bool)
                    (Str "S") 0)).
    + simpl. intros [H | []]. discriminate H.
    + lia.
Defined.

(** ** Charts *)

Section ChartFacts.
Context {R : Type} {SR : Semiring R} {L : SemiringLaws R}.
Context {K : Type} {EK : Eqb K} {LK : EqbLaws K}.

Lemma get_delete (c : Chart R K) (k q : K) :
  get (delete c k) q = if beq q k then zero else get c q.
Proof.
  induction c as [| [k' v] c IH]; simpl.
  - now destruct (beq q k).
  - destruct (beq_reflect k k') as [-> | Hk].
    + rewrite IH. now destruct (beq q k').
    + simpl. rewrite IH.
      destruct (beq_reflect q k') as [-> | Hq]; [| reflexivity].
      destruct (beq_reflect k' k) as [Heq | _]; [congruence | reflexivity].
Qed.

Lemma get_replace (c : Chart R K) (k q : K) (v : R) :
  get (replace c k v) q = if beq q k then v else get c q.
Proof.
  induction c as [| [k' v'] c IH]; simpl.
  - reflexivity.
  - destruct (beq_reflect k k') as [-> | Hk]; simpl.
    + now destruct (beq q k').
    + rewrite IH.
      destruct (beq_reflect q k') as [-> | Hq]; [| reflexivity].
      destruct (beq_reflect k' k) as [Heq | _]; [congruence | reflexivity].
Qed.

Lemma get_set (c : Chart R K) (k q : K) (v : R) :
  get (set c k v) q = if beq q k then v else get c q.
Proof.
  unfold set. destruct (weq v zero) eqn:Hv.
  - apply weq_true in Hv. subst v. apply get_delete.
  - apply get_replace.
Qed.

Lemma get_incr (c : Chart R K) (k q : K) (v : R) :
  get (incr c k v) q = if beq q k then get c k ⊕ v else get c q.
Proof. unfold incr. apply get_set. Qed.

(** A loop of assignments [V[k] = f k] over a list of keys. *)
Lemma get_fold_set (f : K -> R) (keys : list K) (c : Chart R K) (q : K) :
  get (fold_left (fun V k => set V k (f k)) keys c) q
  = if mem q keys then f q else get c q.
Proof.
  revert c. induction keys as [| k keys IH]; intros c; simpl.
  - reflexivity.
  - rewrite IH. unfold mem in *. simpl.
    destruct (existsb (beq q) keys); [now rewrite orb_true_r |].
    rewrite orb_false_r, get_set.
    destruct (beq_reflect q k) as [-> | _]; reflexivity.
Qed.
End ChartFacts.

(** ** Finite sums in a semiring *)

Section Sums.
Context {R : Type} {SR : Semiring R} {L : SemiringLaws R}.
Context {K : Type}.

Lemma plus_zero_r (a : R) : a ⊕ zero = a.
Proof. rewrite plus_comm. apply plus_zero_l. Qed.

Lemma sum_over_app (l1 l2 : list K) (f : K -> R) :
  sum_over (l1 ++ l2) f = sum_over l1 f ⊕ sum_over l2 f.
Proof.
  induction l1 as [| j l1 IH]; simpl.
  - now rewrite plus_zero_l.
  - now rewrite IH, plus_assoc.
Qed.

Lemma sum_over_ext (l : list K) (f g : K -> R) :
  (forall j, In j l -> f j = g j) -> sum_over l f = sum_over l g.
Proof.
  induction l as [| j l IH]; simpl; intros H; [reflexivity |].
  rewrite (H j) by now left. rewrite IH; [reflexivity |].
  intros j' Hj'. apply H. now right.
Qed.

Lemma sum_over_plus (l : list K) (f g : K -> R) :
  sum_over l (fun j => f j ⊕ g j) = sum_over l f ⊕ sum_over l g.
Proof.
  induction l as [| j l IH]; simpl.
  - now rewrite plus_zero_l.
  - rewrite IH. rewrite <- !plus_assoc. f_equal.
    rewrite !plus_assoc. f_equal. apply plus_comm.
Qed.

Lemma sum_over_times_l (l : list K) (a : R) (f : K -> R) :
  sum_over l (fun j => a ⊗ f j) = a ⊗ sum_over l f.
Proof.
  induction l as [| j l IH]; simpl.
  - now rewrite times_zero_r.
  - now rewrite IH, distr_l.
Qed.

Lemma sum_over_zero (l : list K) :
  sum_over l (fun _ => zero) = (zero : R).
Proof.
  induction l as [| j l IH]; simpl; [reflexivity |].
  now rewrite IH, plus_zero_l.
Qed.

(** Summing against a Kronecker delta picks the one matching term. *)
Lemma sum_over_delta {EK : Eqb K} {LK : EqbLaws K}
  (l : list K) (i : K) (f : K -> R) :
  NoDup l -> In i l ->
  sum_over l (fun j => (if beq i j then one else zero) ⊗ f j) = f i.
Proof.
  induction l as [| j l IH]; simpl; intros Hnd Hin; [contradiction |].
  inversion Hnd as [| ? ? Hj Hnd']; subst.
  destruct (beq_reflect i j) as [-> | Hij].
  - rewrite times_one_l.
    rewrite (sum_over_ext l _ (fun _ => zero)).
    + now rewrite sum_over_zero, plus_zero_r.
    + intros j' Hj'. destruct (beq_reflect j j') as [-> | _];
        [contradiction | apply times_zero_l].
  - rewrite times_zero_l, plus_zero_l. apply IH; [assumption |].
    destruct Hin as [-> | Hin]; [congruence | assumption].
Qed.
End Sums.

(** ** Lehmann's closure satisfies the fixpoint equation *)

Section LehmannFacts.
Context {R : Type} {SR : Semiring R} {L : SemiringLaws R}.
Context {K : Type} {EK : Eqb K} {LK : EqbLaws K}.

(** The inner loop [for k in N] at a fixed row [i0]. *)
Lemma get_row_loop (F : K -> K -> R) (i0 : K) (Nk : list K)
  (c : Chart R (K * K)) (i k : K) :
  get (fold_left (fun V k => set V (i0, k) (F i0 k)) Nk c) (i, k)
  = if beq i i0 && mem k Nk then F i0 k else get c (i, k).
Proof.
  revert c. induction Nk as [| k0 Nk IH]; intros c; cbn [fold_left].
  - now rewrite andb_false_r.
  - rewrite IH, mem_cons.
    destruct (beq i i0) eqn:Hi; simpl.
    + destruct (mem k Nk); [now rewrite orb_true_r |].
      rewrite orb_false_r, get_set.
      rewrite beq_pair, Hi. simpl.
      destruct (beq_reflect k k0) as [-> | _]; reflexivity.
    + rewrite get_set, beq_pair, Hi. reflexivity.
Qed.

(** The double loop [for i in N: for k in N]. *)
Lemma get_square_loop (F : K -> K -> R) (Ni Nk : list K)
  (c : Chart R (K * K)) (i k : K) :
  get (fold_left
         (fun V i => fold_left (fun V k => set V (i, k) (F i k)) Nk V) Ni c)
      (i, k)
  = if mem i Ni && mem k Nk then F i k else get c (i, k).
Proof.
  revert c. induction Ni as [| i0 Ni IH]; intros c; cbn [fold_left].
  - reflexivity.
  - rewrite IH, mem_cons, get_row_loop.
    destruct (beq_reflect i i0) as [-> | _];
      destruct (mem k Nk); [| | destruct (mem i Ni) ..];
      simpl; rewrite ?andb_false_r; try reflexivity.
    now destruct (mem i0 Ni).
Qed.

Lemma get_lehmann_pivot (N : list K) (U : Chart R (K * K)) (j i k : K) :
  In i N -> In k N ->
  get (lehmann_pivot N U j) (i, k)
  = get U (i, k) ⊕ get U (i, j) ⊗ star (get U (j, j)) ⊗ get U (j, k).
Proof.
  intros Hi Hk. unfold lehmann_pivot.
  rewrite (get_square_loop
             (fun i k => get U (i, k)
                         ⊕ get U (i, j) ⊗ star (get U (j, j)) ⊗ get U (j, k))).
  apply mem_In in Hi, Hk. now rewrite Hi, Hk.
Qed.

Lemma pivoted_nil (N : list K) (W : Chart R (K * K)) : pivoted N W W [].
Proof. intros i k _ _. simpl. now rewrite plus_zero_r. Qed.

Lemma pivoted_step
  (star_unfold_r : forall x : R, star x = one ⊕ star x ⊗ x)
  (N : list K) (W U : Chart R (K * K)) (P : list K) (j : K) :
  incl P N -> In j N ->
  pivoted N W U P -> pivoted N W (lehmann_pivot N U j) (P ++ [j]).
Proof.
  intros HP Hj Inv i k Hi Hk.
  set (s := star (get U (j, j))).
  rewrite sum_over_app. simpl. rewrite plus_zero_r.
  rewrite (sum_over_ext P _
             (fun l => get U (i, l) ⊗ get W (l, k)
                       ⊕ (get U (i, j) ⊗ s) ⊗ (get U (j, l) ⊗ get W (l, k)))).
  2:{ intros l Hl. rewrite get_lehmann_pivot by auto. fold s.
      rewrite distr_r. f_equal. now rewrite !times_assoc. }
  rewrite sum_over_plus, sum_over_times_l.
  rewrite !get_lehmann_pivot by auto. fold s.
  (* the entry at the pivot itself folds the star once *)
  assert (Hpiv : (get U (i, j) ⊕ get U (i, j) ⊗ s ⊗ get U (j, j))
                 ⊗ get W (j, k)
                 = (get U (i, j) ⊗ s) ⊗ get W (j, k)).
  { f_equal. rewrite <- (times_one_r (get U (i, j))) at 1.
    rewrite <- times_assoc, <- distr_l. f_equal.
    unfold s. symmetry. apply star_unfold_r. }
  rewrite Hpiv.
  rewrite (Inv i k Hi Hk) at 1. rewrite (Inv j k Hj Hk) at 1.
  rewrite distr_l.
  rewrite <- !plus_assoc. f_equal. f_equal.
  apply plus_comm.
Qed.

Lemma pivoted_all
  (star_unfold_r : forall x : R, star x = one ⊕ star x ⊗ x)
  (N : list K) (W : Chart R (K * K)) (P Q : list K) (U : Chart R (K * K)) :
  incl P N -> incl Q N ->
  pivoted N W U P ->
  pivoted N W (fold_left (lehmann_pivot N) Q U) (P ++ Q).
Proof.
  revert P U. induction Q as [| j Q IH]; intros P U HP HQ Inv; simpl.
  - now rewrite app_nil_r.
  - replace (P ++ j :: Q) with ((P ++ [j]) ++ Q)
      by now rewrite <- app_assoc.
    apply IH.
    + apply incl_app; [assumption |].
      intros x [-> | []]. apply HQ. now left.
    + intros x Hx. apply HQ. now right.
    + apply pivoted_step; auto. apply HQ. now left.
Qed.

(** The final loop [V[i, i] += one]. *)
Lemma get_identity_loop (Ni : list K) (V : Chart R (K * K)) (i k : K) :
  NoDup Ni ->
  get (fold_left (fun V i => incr V (i, i) one) Ni V) (i, k)
  = get V (i, k) ⊕ (if beq i k && mem i Ni then one else zero).
Proof.
  revert V. induction Ni as [| i0 Ni IH]; intros V Hnd; cbn [fold_left].
  - now rewrite andb_false_r, plus_zero_r.
  - inversion Hnd as [| ? ? Hi0 Hnd']; subst.
    rewrite IH by assumption. rewrite get_incr, mem_cons, beq_pair.
    destruct (beq_reflect i i0) as [-> | Hii]; simpl.
    + assert (Hm : mem i0 Ni = false) by now apply mem_false.
      rewrite Hm, andb_false_r, andb_true_r, plus_zero_r.
      destruct (beq_reflect k i0) as [Hk | Hk].
      * subst k. now rewrite beq_refl.
      * destruct (beq_reflect i0 k) as [Hk' | _]; [congruence |].
        now rewrite plus_zero_r.
    + reflexivity.
Qed.

(** What the two phases of [_lehmann] establish: the invariant over all
    of [N], and the identity added on the diagonal. *)
Lemma lehmann_phases
  (star_unfold_r : forall x : R, star x = one ⊕ star x ⊗ x)
  (N : list K) (W : Chart R (K * K)) :
  NoDup N ->
  exists V,
    pivoted N W V N
    /\ forall a b, In a N ->
         get (_lehmann N W) (a, b)
         = get V (a, b) ⊕ (if beq a b then one else zero).
Proof.
  intros Hnd. exists (fold_left (lehmann_pivot N) N W). split.
  - assert (H0 : incl (@nil K) N) by (intros x []).
    exact (pivoted_all star_unfold_r H0 (incl_refl N) (pivoted_nil N W)).
  - intros a b Ha. unfold _lehmann.
    rewrite get_identity_loop by assumption.
    apply mem_In in Ha. rewrite Ha. now rewrite andb_true_r.
Qed.
End LehmannFacts.

(** C4, amended: over a semiring whose star satisfies
    [star x = one ⊕ star x ⊗ x], the chart [V] returned by [_lehmann N W]
    for a node set [N] satisfies, for all [i], [k] in [N],
    [V[i,k] = (one if i = k else zero) ⊕ Σ_j V[i,j] ⊗ W[j,k]]. *)
Theorem lehmann_fixpoint {R} {SR : Semiring R} {L : SemiringLaws R}
  {K} {EK : Eqb K} {LK : EqbLaws K}
  (star_unfold_r : forall x : R, star x = one ⊕ star x ⊗ x)
  (N : list K) (W : Chart R (K * K)) (HN : NoDup N)
  (i k : K) (Hi : In i N) (Hk : In k N) :
  get (_lehmann N W) (i, k)
  = (if beq i k then one else zero)
    ⊕ sum_over N (fun j => get (_lehmann N W) (i, j) ⊗ get W (j, k)).
Proof.
  destruct (lehmann_phases star_unfold_r W HN) as [V [Inv Hid]].
  rewrite Hid by assumption.
  (* split the sum into the paths and the diagonal *)
  rewrite (sum_over_ext N _
             (fun j => get V (i, j) ⊗ get W (j, k)
                       ⊕ (if beq i j then one else zero) ⊗ get W (j, k))).
  2:{ intros j Hj. rewrite Hid by assumption. apply distr_r. }
  rewrite sum_over_plus, sum_over_delta by assumption.
  rewrite (Inv i k Hi Hk).
  rewrite (plus_comm _ (if beq i k then one else zero)).
  f_equal. apply plus_comm.
Qed.

Lemma lehmann_fixpoint_witness :
  get (_lehmann [0; 1] [((0, 1), true)]) (0, 1)
  = (if beq 0 1 then one else zero)
    ⊕ sum_over [0; 1]
        (fun j => get (_lehmann [0; 1] [((0, 1), true)]) (0, j)
                  ⊗ get [((0, 1), true)] (j, 1)).
Proof.
  apply (@lehmann_fixpoint bool Boolean Boolean_laws nat _ _).
  - intros []; reflexivity.
  - repeat constructor; simpl; intuition discriminate.
  - simpl. auto.
  - simpl. auto.
Defined.

(** When ⊗ is commutative the two unfoldings of the star agree, so the
    left unfolding is then enough. *)
Corollary lehmann_fixpoint_commutative {R} {SR : Semiring R}
  {L : SemiringLaws R} {K} {EK : Eqb K} {LK : EqbLaws K}
  (times_comm : forall a b : R, a ⊗ b = b ⊗ a)
  (star_unfold_l : forall x : R, star x = one ⊕ x ⊗ star x)
  (N : list K) (W : Chart R (K * K)) :
  NoDup N ->
  forall i k, In i N -> In k N ->
    get (_lehmann N W) (i, k)
    = (if beq i k then one else zero)
      ⊕ sum_over N (fun j => get (_lehmann N W) (i, j) ⊗ get W (j, k)).
Proof.
  intros HN i k Hi Hk.
  assert (star_unfold_r : forall x : R, star x = one ⊕ star x ⊗ x).
  { intros x. rewrite (times_comm (star x) x). apply star_unfold_l. }
  destruct (lehmann_phases star_unfold_r W HN) as [V [Inv Hid]].
  rewrite Hid by assumption.
  rewrite (sum_over_ext N _
             (fun j => get V (i, j) ⊗ get W (j, k)
                       ⊕ (if beq i j then one else zero) ⊗ get W (j, k))).
  2:{ intros j Hj. rewrite Hid by assumption. apply distr_r. }
  rewrite sum_over_plus, sum_over_delta by assumption.
  rewrite (Inv i k Hi Hk).
  rewrite (plus_comm _ (if beq i k then one else zero)).
  f_equal. apply plus_comm.
Qed.

(** The triangular matrices form a semiring whose star unfolds on the
    left. *)
#[export] Instance Triangular_laws : SemiringLaws Tri.
Proof.
  split;
    try (intros [[] [] []] [[] [] []] [[] [] []]; reflexivity);
    try (intros [[] [] []] [[] [] []]; reflexivity);
    try (intros [[] [] []]; reflexivity).
  intros [[] [] []] [[] [] []]; cbv; split; congruence.
Qed.

Lemma Triangular_star_unfold_l (x : Tri) : star x = one ⊕ x ⊗ star x.
Proof. destruct x as [[] [] []]; reflexivity. Qed.

(** C4, as stated, fails: with only [star x = one ⊕ x ⊗ star x] and a
    non-commutative ⊗ the closure need not satisfy the equation. *)
Lemma lehmann_left_unfold_insufficient :
  SemiringLaws Tri
  /\ (forall x : Tri, star x = one ⊕ x ⊗ star x)
  /\ NoDup [0; 1]
  /\ let N := [0; 1] in
     let W := [((0, 0), mkTri true false false);
               ((0, 1), mkTri false false true)] in
     let V := _lehmann N W in
     get V (0, 1)
     <> (if beq 0 1 then one else zero)
        ⊕ sum_over N (fun j => get V (0, j) ⊗ get W (j, 1)).
Proof.
  split; [exact Triangular_laws |].
  split; [exact Triangular_star_unfold_l |].
  split; [repeat constructor; simpl; intuition discriminate |].
  vm_compute. discriminate.
Qed.

(** ** separate_start *)

Lemma string_length_app (s t : string) :
  String.length (s ++ t) = String.length s + String.length t.
Proof. induction s as [| c s IH]; simpl; [reflexivity | now rewrite IH]. Qed.

Lemma string_app_neq (s t : string) : t <> EmptyString -> (s ++ t)%string <> s.
Proof.
  intros Ht H. apply (f_equal String.length) in H.
  rewrite string_length_app in H.
  destruct t; [congruence | simpl in H; lia].
Qed.

(** The name drawn by [_gen_nt(self.S)] is never [self.S] itself. *)
Lemma gen_name_repr_neq (x : Symbol) (i : nat) : gen_name (repr x) i <> x.
Proof.
  unfold gen_name. destruct x as [s | y z k | x k]; try discriminate.
  simpl. intros H. injection H as H.
  revert H. apply string_app_neq. discriminate.
Qed.

Lemma rules_add_ {R} {SR : Semiring R} (g : CFG R) (w0 : R) (h : Symbol)
  (b : list Symbol) :
  cfg_rules (add_ g w0 h b)
  = cfg_rules g ++ (if weq w0 zero then [] else [mkRule w0 h b]).
Proof.
  unfold add_, add. destruct (weq w0 zero); simpl;
    [now rewrite app_nil_r | reflexivity].
Qed.

Lemma cfg_S_add_ {R} {SR : Semiring R} (g : CFG R) (w0 : R) (h : Symbol)
  (b : list Symbol) : cfg_S (add_ g w0 h b) = cfg_S g.
Proof. unfold add_, add. now destruct (weq w0 zero). Qed.

Lemma cfg_V_add_ {R} {SR : Semiring R} (g : CFG R) (w0 : R) (h : Symbol)
  (b : list Symbol) : cfg_V (add_ g w0 h b) = cfg_V g.
Proof. unfold add_, add. now destruct (weq w0 zero). Qed.

(** Copying rules with [add] can only drop some of them. *)
Lemma copy_rules_bodies {R} {SR : Semiring R} (rs : list (Rule R))
  (new : CFG R) (y : Symbol) :
  In y (body_symbols
          (fold_left (fun new r => add_ new (w r) (head r) (body r)) rs new))
  -> In y (body_symbols new) \/ In y (flat_map (@body R) rs).
Proof.
  revert new. induction rs as [| r rs IH]; intros new; simpl; [tauto |].
  intros H. apply IH in H as [H | H]; [| right; apply in_or_app; tauto].
  unfold body_symbols in H. rewrite rules_add_, flat_map_app in H.
  apply in_app_or in H as [H | H]; [now left |].
  right. apply in_or_app. left.
  destruct (weq (w r) zero); simpl in H; [contradiction |].
  now rewrite app_nil_r in H.
Qed.

Lemma copy_rules_S {R} {SR : Semiring R} (rs : list (Rule R)) (new : CFG R) :
  cfg_S (fold_left (fun new r => add_ new (w r) (head r) (body r)) rs new)
  = cfg_S new.
Proof.
  revert new. induction rs as [| r rs IH]; intros new; simpl; [reflexivity |].
  now rewrite IH, cfg_S_add_.
Qed.

(** After [separate_start] the start symbol is in no rule body, unless
    the drawn name already occurs in one. *)
Lemma separate_start_separates {R} {SR : Semiring R} (g : CFG R) (i : nat) :
  ~ In (gen_name (repr (cfg_S g)) (S i)) (body_symbols g) ->
  exists g1 i1,
    separate_start g i = Ok (g1, i1)
    /\ mem (cfg_S g1) (body_symbols g1) = false.
Proof.
  intros Hfresh. unfold separate_start.
  destruct (mem (cfg_S g) (body_symbols g)) eqn:Hm.
  - unfold bind, _gen_nt, ret. eexists. eexists. split; [reflexivity |].
    apply mem_false. rewrite copy_rules_S, cfg_S_add_. simpl.
    intros H. apply copy_rules_bodies in H as [H | H].
    + unfold body_symbols in H. rewrite rules_add_ in H. simpl in H.
      destruct (weq one zero); simpl in H; [contradiction |].
      destruct H as [H | []].
      symmetry in H. revert H. apply gen_name_repr_neq.
    + now apply Hfresh.
  - exists g, i. split; [reflexivity | assumption].
Qed.

(** Idempotence of [separate_start] whenever the drawn name is fresh. *)
Lemma separate_start_idempotent_fresh {R} {SR : Semiring R}
  (g : CFG R) (i : nat) :
  ~ In (gen_name (repr (cfg_S g)) (S i)) (body_symbols g) ->
  exists g1 i1,
    separate_start g i = Ok (g1, i1)
    /\ separate_start g1 i1 = Ok (g1, i1).
Proof.
  intros Hfresh.
  destruct (separate_start_separates g i Hfresh) as [g1 [i1 [H1 Hm]]].
  exists g1, i1. split; [assumption |].
  unfold separate_start. now rewrite Hm.
Qed.

(** C8 at a failing input: when the grammar already uses the name that
    [_gen_nt] draws, the new start symbol still occurs in a rule body and
    a second application builds yet another grammar. *)
Theorem separate_start_clash :
  exists g1 i1 g2 i2,
    separate_start g_clash 0 = Ok (g1, i1)
    /\ In (cfg_S g1) (body_symbols g1)
    /\ separate_start g1 i1 = Ok (g2, i2)
    /\ g2 <> g1.
Proof.
  eexists. eexists. eexists. eexists.
  split; [vm_compute; reflexivity |].
  split; [vm_compute; tauto |].
  split; [vm_compute; reflexivity |].
  discriminate.
Qed.

(** ** Nullary removal *)

Lemma fold_left_inv {A B} (P : A -> Prop) (f : A -> B -> A) (l : list B)
  (a : A) :
  P a -> (forall a x, In x l -> P a -> P (f a x)) -> P (fold_left f l a).
Proof.
  revert a. induction l as [| x l IH]; intros a Ha Hf; simpl; [assumption |].
  apply IH.
  - apply Hf; [now left | assumption].
  - intros a' x' Hx'. apply Hf. now right.
Qed.

Section NullaryFacts.
Context {R : Type} {SR : Semiring R}.

Lemma nullary_rules_add_ (g : CFG R) (w0 : R) (h : Symbol) (b : list Symbol) :
  nullary_rules (add_ g w0 h b)
  = nullary_rules g
    ++ (if weq w0 zero then []
        else if Nat.eqb (List.length b) 0 then [mkRule w0 h b] else []).
Proof.
  unfold nullary_rules. rewrite rules_add_, filter_app.
  destruct (weq w0 zero); [reflexivity |].
  simpl. unfold nullary. simpl. now destruct (Nat.eqb (List.length b) 0).
Qed.

Lemma nullary_rules_add_nonempty (g : CFG R) (w0 : R) (h : Symbol)
  (b : list Symbol) :
  Nat.ltb 0 (List.length b) = true ->
  nullary_rules (add_ g w0 h b) = nullary_rules g.
Proof.
  intros Hb. rewrite nullary_rules_add_.
  destruct (weq w0 zero); [apply app_nil_r |].
  destruct b; [discriminate | apply app_nil_r].
Qed.

(** The replication loop of [_push_null_weights] emits no nullary rule
    and leaves the start symbol alone. *)
Lemma replicate_keeps_nullary (g : CFG R) (nw : Chart R Symbol)
  (rename : Symbol -> Symbol) (rs : list (Rule R)) (rcfg : CFG R) :
  let out :=
    fold_left
      (fun rcfg r =>
         if nullary r then rcfg
         else
           fold_left
             (fun rcfg B =>
                let '(v, new_body) := apply_mask g nw rename r B in
                if Nat.ltb 0 (List.length new_body)
                then add_ rcfg v (pnw_f g nw rename (head r)) new_body
                else rcfg)
             (masks (List.length (body r))) rcfg)
      rs rcfg in
  nullary_rules out = nullary_rules rcfg /\ cfg_S out = cfg_S rcfg.
Proof.
  cbv zeta.
  apply (fold_left_inv
           (fun out => nullary_rules out = nullary_rules rcfg
                       /\ cfg_S out = cfg_S rcfg)); [now split |].
  intros a r _ Ha. destruct (nullary r); [assumption |].
  apply (fold_left_inv
           (fun out => nullary_rules out = nullary_rules rcfg
                       /\ cfg_S out = cfg_S rcfg)); [assumption |].
  intros a' B _ [Hn HS].
  destruct (apply_mask g nw rename r B) as [v new_body].
  destruct (Nat.ltb 0 (List.length new_body)) eqn:Hlen; [| now split].
  rewrite nullary_rules_add_nonempty by assumption.
  now rewrite cfg_S_add_.
Qed.

Lemma recovery_loop_nullary (g : CFG R) (nw : Chart R Symbol)
  (rename : Symbol -> Symbol) (xs : list Symbol) (rcfg : CFG R) :
  let out :=
    fold_left
      (fun rcfg x =>
         if beq (pnw_f g nw rename x) x then rcfg
         else
           let rcfg := add_ rcfg (get nw x) x [] in
           add_ rcfg one x [pnw_f g nw rename x])
      xs rcfg in
  nullary_rules out
  = nullary_rules rcfg
    ++ flat_map
         (fun x =>
            if beq (pnw_f g nw rename x) x then []
            else if weq (get nw x) zero then []
            else [mkRule (get nw x) x []])
         xs
  /\ cfg_S out = cfg_S rcfg.
Proof.
  revert rcfg. induction xs as [| x xs IH]; intros rcfg; cbn [fold_left flat_map].
  - now rewrite app_nil_r.
  - destruct (IH (if beq (pnw_f g nw rename x) x then rcfg
                  else add_ (add_ rcfg (get nw x) x [])
                            one x [pnw_f g nw rename x])) as [Hn HS].
    cbv zeta in Hn, HS. rewrite Hn, HS. clear Hn HS IH.
    destruct (beq (pnw_f g nw rename x) x); [now split |].
    rewrite nullary_rules_add_nonempty by reflexivity.
    rewrite nullary_rules_add_, !cfg_S_add_. simpl.
    split; [| reflexivity].
    now rewrite <- app_assoc.
Qed.

(** [_push_null_weights] fails exactly on its assertion, and otherwise
    its nullary rules are the one at the start symbol, if its null weight
    is not zero, and the recovered ones. *)
Lemma push_null_weights_nullary (g : CFG R) (nw : Chart R Symbol)
  (recovery : bool) (rename : Symbol -> Symbol) :
  if mem (cfg_S g) (body_symbols g)
  then _push_null_weights g nw recovery rename = Raise AssertionError
  else exists g',
      _push_null_weights g nw recovery rename = Ok g'
      /\ cfg_S g' = cfg_S g
      /\ nullary_rules g'
         = (if weq (get nw (cfg_S g)) zero then []
            else [mkRule (get nw (cfg_S g)) (cfg_S g) []])
           ++ (if recovery then recovered_nullary g nw rename else []).
Proof.
  unfold _push_null_weights.
  destruct (mem (cfg_S g) (body_symbols g)); [reflexivity |].
  eexists. split; [reflexivity |].
  match goal with
  | |- cfg_S (fold_left ?f ?rs ?rcfg) = _ /\ _ =>
      destruct (replicate_keeps_nullary g nw rename rs rcfg) as [Hn HS]
  end.
  cbv zeta in Hn, HS. rewrite Hn, HS. clear Hn HS.
  destruct recovery.
  - match goal with
    | |- cfg_S (fold_left ?f ?xs ?rcfg) = _ /\ _ =>
        destruct (recovery_loop_nullary g nw rename xs rcfg) as [Hn HS]
    end.
    cbv zeta in Hn, HS. rewrite Hn, HS. clear Hn HS.
    rewrite cfg_S_add_, nullary_rules_add_. simpl.
    split; reflexivity.
  - rewrite cfg_S_add_, nullary_rules_add_. simpl.
    split; [reflexivity |].
    now rewrite app_nil_r.
Qed.
End NullaryFacts.

Section NullaryRemove.
Context {R : Type} {SR : Semiring R}.

Lemma fold_01 (p : Rule R) (i : nat) :
  _fold p [(0, 1)] i
  = Ok ([mkRule one (gen_name "" (S i)) (slice (body p) 0 2);
         mkRule (w p) (head p) (gen_name "" (S i) :: skipn 2 (body p))],
        S i).
Proof. reflexivity. Qed.

(** [binarize] raises nothing. *)
Lemma binarize_loop_ok (fuel : nat) (new : CFG R) (stack : list (Rule R))
  (i : nat) :
  exists g' i', binarize_loop fuel new stack i = Ok (g', i').
Proof.
  revert new stack i. induction fuel as [| fuel IH]; intros new stack i.
  - exists new, i. now destruct stack.
  - destruct stack as [| p stack]; [now exists new, i |].
    cbn [binarize_loop].
    destruct (Nat.leb (List.length (body p)) 2); [apply IH |].
    unfold bind. rewrite fold_01. apply IH.
Qed.

Lemma binarize_ok (g : CFG R) (i : nat) :
  exists g' i', binarize g i = Ok (g', i').
Proof. apply binarize_loop_ok. Qed.

Lemma separate_start_ok (g : CFG R) (i : nat) :
  exists g' i', separate_start g i = Ok (g', i').
Proof.
  unfold separate_start.
  destruct (mem (cfg_S g) (body_symbols g)); [| now exists g, i].
  unfold bind, _gen_nt, ret. eexists. eexists. reflexivity.
Qed.
End NullaryRemove.

(** C3, as stated, fails: when the start symbol is not nullable the
    grammar returned by [nullaryremove] has no nullary rule at all. *)
Lemma nullaryremove_no_nullary_rule :
  exists g' i',
    nullaryremove g_eps true false dollar 0 = Ok (g', i')
    /\ nullary_rules g' = [].
Proof.
  eexists. eexists. split; vm_compute; reflexivity.
Qed.

(** With [recovery] on, nullary rules survive at other heads as well. *)
Lemma nullaryremove_recovery_nullary :
  exists g' i',
    nullaryremove g_eps true true dollar 0 = Ok (g', i')
    /\ In (mkRule true (Str "A") []) (nullary_rules g').
Proof.
  eexists. eexists. split; [vm_compute; reflexivity |].
  vm_compute. tauto.
Qed.

(** C3, amended: [nullaryremove] works on the grammar [gs] obtained by
    binarizing (if asked) and separating the start symbol.  Unless the
    assertion of [_push_null_weights] fails (the start symbol of [gs]
    still occurs in a rule body), it returns a grammar with the start
    symbol of [gs] whose nullary rules are: the rule
    [(null_weight[S], S)], present exactly when [null_weight[S]] is not
    zero; and, only when [recovery] is on, one rule [(null_weight[x], x)]
    for each renamed nonterminal [x].  So without [recovery] there is at
    most one nullary rule, and its head is the start symbol. *)
Theorem nullaryremove_nullary_rules {R} {SR : Semiring R}
  (g : CFG R) (binarize0 recovery : bool) (rename : Symbol -> Symbol)
  (i : nat) :
  exists gs i',
    (gb <- (if binarize0 then binarize g else ret g) ;; separate_start gb) i
    = Ok (gs, i')
    /\ if mem (cfg_S gs) (body_symbols gs)
       then nullaryremove g binarize0 recovery rename i = Raise AssertionError
       else exists g',
           nullaryremove g binarize0 recovery rename i = Ok (g', i')
           /\ cfg_S g' = cfg_S gs
           /\ nullary_rules g'
              = (if weq (get (null_weight gs) (cfg_S gs)) zero then []
                 else [mkRule (get (null_weight gs) (cfg_S gs)) (cfg_S gs) []])
                ++ (if recovery
                    then recovered_nullary gs (null_weight gs) rename
                    else []).
Proof.
  assert (Hb : exists gb ib,
             (if binarize0 then binarize g else ret g) i = Ok (gb, ib)).
  { destruct binarize0; [apply binarize_ok | now exists g, i]. }
  destruct Hb as [gb [ib Hb]].
  destruct (separate_start_ok gb ib) as [gs [i' Hs]].
  exists gs, i'. unfold nullaryremove, bind. rewrite Hb, Hs.
  split; [reflexivity |].
  pose proof (push_null_weights_nullary gs (null_weight gs) recovery rename)
    as Hp.
  destruct (mem (cfg_S gs) (body_symbols gs)).
  - unfold lift. now rewrite Hp.
  - destruct Hp as [g' [Hp [HS Hn]]]. exists g'.
    unfold lift. rewrite Hp. auto.
Qed.

(** ** separate_terminals *)

(** A postcondition on a monadic loop: [P] on the state it ends in, [E]
    on the exception it raises. *)
Lemma foldM_post {A B} (P : A -> nat -> Prop) (E : exn -> Prop)
  (f : A -> B -> M A) (l : list B) (a : A) (i : nat) :
  P a i ->
  (forall a x i, In x l -> P a i ->
     match f a x i with Ok (a', i') => P a' i' | Raise e => E e end) ->
  match foldM f l a i with Ok (a', i') => P a' i' | Raise e => E e end.
Proof.
  revert a i. induction l as [| x l IH]; intros a i Ha Hf; simpl.
  - exact Ha.
  - unfold bind. specialize (Hf a x i (or_introl eq_refl) Ha) as Hx.
    destruct (f a x i) as [[a' i'] | e]; [| exact Hx].
    apply IH; [exact Hx |].
    intros a0 x0 i0 Hx0. apply Hf. now right.
Qed.

Section SeparateTerminals.
Context {R : Type} {SR : Semiring R}.
Variable g : CFG R.
Variable i0 : nat.
Hypothesis fresh : forall k, i0 < k -> ~ In (gen_name "" k) (cfg_V g).

Lemma terminals_isolated_add (new : CFG R) (w0 : R) (h : Symbol)
  (b : list Symbol) :
  terminals_isolated g new ->
  (forall y, In y b -> In y (cfg_V g) ->
     b = [y] /\ (w0 = one \/ In (mkRule w0 h b) (cfg_rules g))) ->
  terminals_isolated g (add_ new w0 h b).
Proof.
  intros [HV Hr] Hb. split; [now rewrite cfg_V_add_ |].
  intros r Hin y Hy HyV. rewrite cfg_V_add_ in HyV.
  rewrite rules_add_ in Hin. apply in_app_or in Hin as [Hin | Hin].
  - now apply Hr.
  - destruct (weq w0 zero); [contradiction |].
    destruct Hin as [<- | []]. simpl in *. apply Hb; [assumption |].
    now rewrite <- HV.
Qed.

(** [preterminal(x).head] is a drawn name, hence not a terminal. *)
Lemma preterminal_head_post (st : st_state) (x : Symbol) (i : nat) :
  st_inv g i0 st i ->
  match preterminal_head st x i with
  | Ok ((st', h), i') => st_inv g i0 st' i' /\ ~ In h (cfg_V g)
  | Raise e => @st_failure R SR e
  end.
Proof.
  destruct st as [new pre]. intros [Hi [Hiso Hpre]]. simpl in *.
  destruct (pre_get pre x) as [y |] eqn:Hget; simpl.
  - split; [unfold st_inv; simpl; auto |].
    destruct (Hpre x y Hget) as [k [-> Hk]]. now apply fresh.
  - unfold bind, _gen_nt. unfold add.
    destruct (weq one zero) eqn:H10; simpl; [now split |].
    split; [| apply fresh; lia].
    split; [lia |]. split; simpl.
    + pose proof (@terminals_isolated_add new one (gen_name "" (S i)) [x]
                    Hiso) as H.
      unfold add_, add in H. rewrite H10 in H. simpl in H. apply H.
      intros y [<- | []] _. auto.
    + intros x' y'. destruct (beq x' x).
      * intros [= <-]. simpl. exists (S i). split; [reflexivity | lia].
      * apply Hpre.
Qed.

Lemma st_body_post (ys : list Symbol) (st : st_state) (i : nat) :
  st_inv g i0 st i ->
  match st_body g st ys i with
  | Ok ((st', ys'), i') =>
      st_inv g i0 st' i' /\ forall y, In y ys' -> ~ In y (cfg_V g)
  | Raise e => @st_failure R SR e
  end.
Proof.
  intros Hst. unfold st_body.
  match goal with
  | |- match foldM ?f ?l ?a ?i with _ => _ end =>
      assert (H : match foldM f l a i with
                  | Ok (sa, i') =>
                      st_inv g i0 (fst sa) i'
                      /\ forall y, In y (snd sa) -> ~ In y (cfg_V g)
                  | Raise e => @st_failure R SR e
                  end);
      [| destruct (foldM f l a i) as [[[st' ys'] i'] | e]; exact H]
  end.
  apply (foldM_post
           (fun (sa : st_state * list Symbol) i' =>
              st_inv g i0 (fst sa) i'
              /\ forall y, In y (snd sa) -> ~ In y (cfg_V g))
           (@st_failure R SR)).
  - split; [exact Hst | intros y []].
  - intros [st1 acc] y i1 _ [Hst1 Hacc]. simpl in *.
    destruct (mem y (cfg_V g)) eqn:Hy.
    + unfold bind.
      pose proof (preterminal_head_post y Hst1) as Hp.
      destruct (preterminal_head st1 y i1) as [[[st2 h] i2] | e];
        [| exact Hp].
      destruct Hp as [Hst2 Hh]. simpl. split; [exact Hst2 |].
      intros z Hz. apply in_app_or in Hz as [Hz | [<- | []]]; auto.
    + simpl. split; [exact Hst1 |].
      intros z Hz. apply in_app_or in Hz as [Hz | [<- | []]]; auto.
      now apply mem_false.
Qed.

Lemma separate_terminals_post :
  match separate_terminals g i0 with
  | Ok (g', _) => terminals_isolated g g'
  | Raise e => @st_failure R SR e
  end.
Proof.
  unfold separate_terminals, bind.
  match goal with
  | |- match match foldM ?f ?l ?a ?i with _ => _ end with _ => _ end =>
      assert (H : match foldM f l a i with
                  | Ok (st, i') => st_inv g i0 st i'
                  | Raise e => @st_failure R SR e
                  end);
      [| destruct (foldM f l a i) as [[st i'] | e];
         [simpl; apply H | exact H]]
  end.
  apply (foldM_post (fun (st : st_state) i => st_inv g i0 st i)
                    (@st_failure R SR)).
  - split; [lia |]. split; [| intros x y; discriminate].
    split; [reflexivity | intros r []].
  - intros st1 r i1 Hr [Hi [Hiso Hpre]].
    destruct (preterminal_rule g r) eqn:Hpt.
    + simpl. split; [assumption |]. split; [| assumption].
      apply terminals_isolated_add; [assumption |].
      unfold preterminal_rule in Hpt.
      destruct r as [wr hr br]. simpl in *.
      destruct br as [| y0 [| ? ?]]; try discriminate.
      intros y [<- | []] _. auto.
    + unfold bind.
      pose proof (st_body_post (body r) (conj Hi (conj Hiso Hpre))) as Hb.
      destruct (st_body g st1 (body r) i1) as [[[st2 ys] i2] | e];
        [| exact Hb].
      destruct Hb as [[Hi2 [Hiso2 Hpre2]] Hys]. simpl.
      split; [assumption |]. split; [| assumption].
      apply terminals_isolated_add; [assumption |].
      intros y Hy HyV. exfalso. now apply (Hys y).
Qed.
End SeparateTerminals.

(** C5, as stated, fails: a preterminal rule of the input keeps its
    weight, which need not be [one]. *)
Lemma separate_terminals_keeps_weight :
  exists g' i',
    separate_terminals g_weighted 0 = Ok (g', i')
    /\ In (Str "a") (cfg_V g')
    /\ In (mkRule (mkTri true true true) (Str "S") [Str "a"]) (cfg_rules g')
    /\ mkTri true true true <> one.
Proof.
  eexists. eexists. split; [vm_compute; reflexivity |].
  split; [vm_compute; tauto |].
  split; [vm_compute; tauto | discriminate].
Qed.

(** C5, amended: provided no terminal is one of the names [@k] that
    [_gen_nt] draws from now on, in the grammar returned by
    [separate_terminals] every occurrence of a terminal in a rule body is
    as the sole body symbol of a preterminal rule, which either has
    weight [one] or is a preterminal rule of the input with its original
    weight.  (The call fails only in a semiring where [one == zero].) *)
Theorem separate_terminals_isolates {R} {SR : Semiring R}
  (g : CFG R) (i : nat)
  (fresh : forall k, i < k -> ~ In (gen_name "" k) (cfg_V g)) :
  match separate_terminals g i with
  | Ok (g', _) =>
      cfg_V g' = cfg_V g
      /\ forall r, In r (cfg_rules g') ->
           forall y, In y (body r) -> In y (cfg_V g') ->
             body r = [y] /\ (w r = one \/ In r (cfg_rules g))
  | Raise e => e = AttributeError /\ weq (one : R) zero = true
  end.
Proof.
  pose proof (separate_terminals_post g fresh) as H.
  destruct (separate_terminals g i) as [[g' i'] | e]; exact H.
Qed.

Lemma separate_terminals_isolates_witness :
  match separate_terminals g_anbn 0 with
  | Ok (g', _) =>
      cfg_V g' = cfg_V g_anbn
      /\ forall r, In r (cfg_rules g') ->
           forall y, In y (body r) -> In y (cfg_V g') ->
             body r = [y] /\ (w r = one \/ In r (cfg_rules g_anbn))
  | Raise e => e = AttributeError /\ weq (one : bool) zero = true
  end.
Proof.
  apply (@separate_terminals_isolates bool Boolean g_anbn 0).
  intros k _ [H | [H | []]]; discriminate H.
Defined.

(** ** CNF *)

Section CNF.
Context {R : Type} {SR : Semiring R}.

Lemma cnf_rule_form (g : CFG R) (r : Rule R) :
  cnf_rule g r = true ->
  (body r = [] /\ head r = cfg_S g)
  \/ (exists a, body r = [a] /\ In a (cfg_V g))
  \/ (exists y z, body r = [y; z]
                  /\ ~ In y (cfg_V g) /\ y <> cfg_S g
                  /\ ~ In z (cfg_V g) /\ z <> cfg_S g).
Proof.
  unfold cnf_rule. destruct (body r) as [| y [| z [| ? ?]]]; intros H.
  - left. split; [reflexivity |]. now apply beq_eq.
  - right. left. exists y. split; [reflexivity |]. now apply mem_In.
  - right. right. exists y, z. split; [reflexivity |].
    simpl in H. rewrite andb_true_r in H.
    apply andb_true_iff in H as [Hy Hz].
    apply andb_true_iff in Hy as [Hy1 Hy2].
    apply andb_true_iff in Hz as [Hz1 Hz2].
    unfold is_nonterminal, is_terminal in *.
    apply negb_true_iff in Hy1, Hy2, Hz1, Hz2.
    repeat split;
      try (now apply mem_false); now apply beq_false.
  - discriminate.
Qed.

Lemma in_cnf_rules_form (g : CFG R) (rs : list (Rule R)) :
  in_cnf_rules g rs = Ok true ->
  forall r, In r rs -> cnf_rule g r = true.
Proof.
  induction rs as [| r0 rs IH]; simpl; intros H r Hr; [contradiction |].
  destruct (mem (head r0) (cfg_N g)); [| discriminate].
  destruct (cnf_rule g r0) eqn:H0; [| discriminate].
  destruct Hr as [<- | Hr]; auto.
Qed.

Lemma in_cnf_form (g : CFG R) : in_cnf g = Ok true -> CNF_form g.
Proof.
  intros H r Hr. apply cnf_rule_form.
  now apply (in_cnf_rules_form g (cfg_rules g)).
Qed.

(** [cnf] is the pipeline in the order of the source, guarded by the
    assertion [new.in_cnf()]. *)
Lemma cnf_unfold (g new : CFG R) (i i' : nat) :
  cnf g i = Ok (new, i') <->
  exists g1 i1 g2 i2 g3,
    separate_terminals g i = Ok (g1, i1)
    /\ binarize g1 i1 = Ok (g2, i2)
    /\ nullaryremove g2 true false dollar i2 = Ok (g3, i')
    /\ new = trim (unaryremove g3)
    /\ in_cnf new = Ok true.
Proof.
  unfold cnf, bind. split.
  - destruct (separate_terminals g i) as [[g1 i1] | e] eqn:H1;
      [| discriminate].
    destruct (binarize g1 i1) as [[g2 i2] | e] eqn:H2; [| discriminate].
    destruct (nullaryremove g2 true false dollar i2) as [[g3 i3] | e] eqn:H3;
      [| discriminate].
    unfold lift.
    destruct (in_cnf (trim (unaryremove g3))) as [[] | e] eqn:Hcnf;
      simpl; try discriminate.
    intros [= <- <-]. exists g1, i1, g2, i2, g3. auto.
  - intros [g1 [i1 [g2 [i2 [g3 [H1 [H2 [H3 [-> H5]]]]]]]]].
    rewrite H1, H2, H3. unfold lift. rewrite H5. reflexivity.
Qed.
End CNF.

(** C2, as stated, fails: in the order of the specification ([trim]
    first, [separate_terminals] last) the pipeline gives another grammar,
    which is not even in CNF. *)
Lemma cnf_is_not_spec_order :
  exists new i' new_s i_s,
    cnf g_nullable_tail 0 = Ok (new, i')
    /\ cnf_spec g_nullable_tail 0 = Ok (new_s, i_s)
    /\ new <> new_s
    /\ in_cnf new_s = Ok false.
Proof.
  eexists. eexists. eexists. eexists.
  split; [vm_compute; reflexivity |].
  split; [vm_compute; reflexivity |].
  split; [discriminate | vm_compute; reflexivity].
Qed.

(** C2, amended: [cnf g] returns a grammar exactly when the composition
    [trim ∘ unaryremove ∘ nullaryremove ∘ binarize ∘ separate_terminals]
    applied to [g] ([separate_terminals] first, [trim] last) returns it
    and it passes [in_cnf]; a grammar returned by [cnf] satisfies the CNF
    invariant. *)
Theorem cnf_pipeline {R} {SR : Semiring R} (g new : CFG R) (i i' : nat) :
  (cnf g i = Ok (new, i') <->
   exists g1 i1 g2 i2 g3,
     separate_terminals g i = Ok (g1, i1)
     /\ binarize g1 i1 = Ok (g2, i2)
     /\ nullaryremove g2 true false dollar i2 = Ok (g3, i')
     /\ new = trim (unaryremove g3)
     /\ in_cnf new = Ok true)
  /\ (cnf g i = Ok (new, i') -> CNF_form new).
Proof.
  split; [apply cnf_unfold |].
  intros H. apply cnf_unfold in H.
  destruct H as [g1 [i1 [g2 [i2 [g3 [_ [_ [_ [_ H]]]]]]]]].
  now apply in_cnf_form.
Qed.

Lemma cnf_pipeline_witness :
  exists new i', cnf g_anbn 0 = Ok (new, i') /\ CNF_form new.
Proof.
  destruct (cnf g_anbn 0) as [[new i'] | e] eqn:H.
  - exists new, i'. split; [reflexivity |].
    exact (proj2 (@cnf_pipeline bool Boolean g_anbn new 0 i') H).
  - vm_compute in H. discriminate H.
Defined.

(** ** elim_nullary_slash *)

Section ElimNullarySlash.
Context {R : Type} {SR : Semiring R}.

Lemma slash_charts_raise (rs : list (Rule R)) (e : exn) :
  fold_left
    (fun acc p =>
       ' (W, v) <~ acc ;;
       W <~ match body p with
            | [b0] =>
                if isSlash (head p) then
                  if isSlash b0 then Ok (incr W (head p, b0) (w p))
                  else Raise AssertionError
                else Ok W
            | _ => Ok W
            end ;;
       let v := if nullary p && isSlash (head p)
                then incr v (head p) (w p) else v in
       if negb (nullary p) || isSlash (head p) then Ok (W, v)
       else Raise AssertionError)
    rs (Raise e)
  = Raise e.
Proof. induction rs as [| p rs IH]; simpl; [reflexivity | exact IH]. Qed.

(** The loop over the rules fails exactly when a rule breaks one of the
    two assertions, and otherwise builds the two charts. *)
Lemma slash_charts_fold (rs : list (Rule R))
  (W : Chart R (Symbol * Symbol)) (v : Chart R Symbol) :
  fold_left
    (fun acc p =>
       ' (W, v) <~ acc ;;
       W <~ match body p with
            | [b0] =>
                if isSlash (head p) then
                  if isSlash b0 then Ok (incr W (head p, b0) (w p))
                  else Raise AssertionError
                else Ok W
            | _ => Ok W
            end ;;
       let v := if nullary p && isSlash (head p)
                then incr v (head p) (w p) else v in
       if negb (nullary p) || isSlash (head p) then Ok (W, v)
       else Raise AssertionError)
    rs (Ok (W, v))
  = if forallb (fun p => unary_slash_ok p && nullary_slash_ok p) rs
    then Ok (fold_left slash_W_step rs W, fold_left slash_v_step rs v)
    else Raise AssertionError.
Proof.
  revert W v. induction rs as [| p rs IH]; intros W v; [reflexivity |].
  cbn [fold_left forallb]. cbn [obind].
  unfold unary_slash_ok, nullary_slash_ok, slash_W_step, slash_v_step.
  destruct (body p) as [| b0 [| b1 bs]] eqn:Hb; cbn [obind].
  - destruct (negb (nullary p) || isSlash (head p)); simpl;
      [apply IH | apply slash_charts_raise].
  - destruct (isSlash (head p)); simpl.
    + destruct (isSlash b0); simpl; [| apply slash_charts_raise].
      rewrite orb_true_r. simpl. apply IH.
    + destruct (negb (nullary p) || false); simpl;
        [apply IH | apply slash_charts_raise].
  - destruct (negb (nullary p) || isSlash (head p)); simpl;
      [apply IH | apply slash_charts_raise].
Qed.

Lemma slash_charts_spec (g : CFG R) :
  slash_charts g
  = if forallb (fun p => unary_slash_ok p && nullary_slash_ok p) (cfg_rules g)
    then Ok (fold_left slash_W_step (cfg_rules g) [],
             fold_left slash_v_step (cfg_rules g) [])
    else Raise AssertionError.
Proof. apply slash_charts_fold. Qed.
End ElimNullarySlash.

(** C9, as stated, fails: a GLCT grammar all of whose nullary rules have
    Slash heads, on which [elim_nullary_slash] still aborts, at the
    assertion of [_push_null_weights] that the start symbol is in no
    rule body. *)
Lemma elim_nullary_slash_aborts_on_slash_only :
  exists gl gb ib,
    lc_generalized g_SS [Str "S"] (Some [rule_SS]) true 0 = Ok gl
    /\ binarize gl 0 = Ok (gb, ib)
    /\ forallb (fun p => negb (nullary p) || isSlash (head p))
               (cfg_rules gb) = true
    /\ elim_nullary_slash gl true 0 = Raise AssertionError.
Proof.
  eexists. eexists. eexists.
  split; [vm_compute; reflexivity |].
  split; [vm_compute; reflexivity |].
  split; vm_compute; reflexivity.
Qed.

(** C9, amended: with [gb] the (binarized) input grammar,
    [elim_nullary_slash] aborts with an assertion failure if and only if
    [gb] has a nullary rule whose head is not a Slash, or a unary rule
    with a Slash head whose body symbol is not a Slash, or a rule body
    containing the start symbol; otherwise it returns what
    [_push_null_weights] makes of [gb] and the null weights computed from
    the unary and nullary Slash rules. *)
Theorem elim_nullary_slash_spec {R} {SR : Semiring R}
  (g : CFG R) (binarize0 : bool) (i : nat) :
  exists gb ib,
    (if binarize0 then binarize g else ret g) i = Ok (gb, ib)
    /\ if forallb nullary_slash_ok (cfg_rules gb)
          && forallb unary_slash_ok (cfg_rules gb)
          && negb (mem (cfg_S gb) (body_symbols gb))
       then exists g',
           elim_nullary_slash g binarize0 i = Ok (g', ib)
           /\ _push_null_weights gb (slash_null_weight gb) false dollar
              = Ok g'
       else elim_nullary_slash g binarize0 i = Raise AssertionError.
Proof.
  assert (Hb : exists gb ib,
             (if binarize0 then binarize g else ret g) i = Ok (gb, ib)).
  { destruct binarize0; [apply binarize_ok | now exists g, i]. }
  destruct Hb as [gb [ib Hb]]. exists gb, ib. split; [exact Hb |].
  unfold elim_nullary_slash, bind. rewrite Hb. unfold lift at 1.
  rewrite slash_charts_spec.
  assert (Hall : forallb (fun p => unary_slash_ok p && nullary_slash_ok p)
                         (cfg_rules gb)
                 = forallb nullary_slash_ok (cfg_rules gb)
                   && forallb unary_slash_ok (cfg_rules gb)).
  { induction (cfg_rules gb) as [| p rs IH]; simpl; [reflexivity |].
    rewrite IH. destruct (unary_slash_ok p), (nullary_slash_ok p); simpl;
      try reflexivity.
    now rewrite andb_false_r. }
  rewrite Hall.
  destruct (forallb nullary_slash_ok (cfg_rules gb)
            && forallb unary_slash_ok (cfg_rules gb)); simpl;
    [| reflexivity].
  fold (slash_null_weight gb).
  pose proof (push_null_weights_nullary gb (slash_null_weight gb) false dollar)
    as Hp.
  destruct (mem (cfg_S gb) (body_symbols gb)); simpl.
  - unfold lift. now rewrite Hp.
  - destruct Hp as [g' [Hp _]]. exists g'. unfold lift. rewrite Hp. auto.
Qed.

(** ** The GLCT mapping *)

Lemma Tree_ind_nested {R} (P : Tree R -> Prop) :
  (forall a, P (Leaf a)) ->
  (forall r x ys, Forall P ys -> P (Derivation r x ys)) ->
  forall d, P d.
Proof.
  intros HL HN. fix IH 1. intros [a | r x ys]; [apply HL | apply HN].
  induction ys as [| y ys IHys]; constructor; [apply IH | exact IHys].
Qed.

Lemma sequence_Forall2 {A B} (f : A -> outcome B) (l : list A) (l' : list B) :
  Forall2 (fun x y => f x = Ok y) l l' -> sequence (map f l) = Ok l'.
Proof.
  induction 1 as [| x y l l' Hxy _ IH]; simpl; [reflexivity |].
  now rewrite Hxy, IH.
Qed.

Lemma Forall2_exists {A B} (P : A -> Prop) (Q : A -> B -> Prop) (l : list A) :
  Forall (fun x => P x -> exists y, Q x y) l -> Forall P l ->
  exists l', Forall2 Q l l'.
Proof.
  induction 1 as [| x l Hx _ IH]; intros HP.
  - exists []. constructor.
  - inversion HP as [| ? ? Hpx HPl]; subst.
    destruct (Hx Hpx) as [y Hy]. destruct (IH HPl) as [l' Hl'].
    exists (y :: l'). now constructor.
Qed.

Lemma Forall2_map_eq {A B C} (f : A -> C) (h : B -> C) (l : list A)
  (l' : list B) :
  Forall2 (fun x y => h y = f x) l l' -> map h l' = map f l.
Proof. induction 1; simpl; [reflexivity | congruence]. Qed.

Lemma Forall2_flat_map_eq {A B C} (f : A -> list C) (h : B -> list C)
  (l : list A) (l' : list B) :
  Forall2 (fun x y => h y = f x) l l' -> flat_map h l' = flat_map f l.
Proof. induction 1; simpl; [reflexivity | congruence]. Qed.

Lemma Forall2_impl {A B} (P Q : A -> B -> Prop) (l : list A) (l' : list B) :
  (forall x y, P x y -> Q x y) -> Forall2 P l l' -> Forall2 Q l l'.
Proof. intros H. induction 1; constructor; auto. Qed.

Lemma Forall2_map_r {A B C} (P : A -> C -> Prop) (f : B -> C) (l : list A)
  (l' : list B) :
  Forall2 (fun x y => P x (f y)) l l' -> Forall2 P l (map f l').
Proof. induction 1; simpl; constructor; auto. Qed.

Lemma Forall2_diag_map {A C} (P : A -> C -> Prop) (f : A -> C) (l : list A) :
  Forall (fun x => P x (f x)) l -> Forall2 P l (map f l).
Proof. induction 1; simpl; constructor; auto. Qed.

Section Products.
Context {R : Type} {SR : Semiring R} {ML : MonoidLaws R}.
Hypothesis times_comm : forall a b : R, a ⊗ b = b ⊗ a.

Lemma fold_left_times (vs : list R) (a : R) :
  fold_left times vs a = a ⊗ product vs.
Proof.
  revert a. induction vs as [| v vs IH]; intros a; simpl.
  - now rewrite mul_one_r.
  - now rewrite IH, mul_assoc.
Qed.

Lemma product_app (us vs : list R) :
  product (us ++ vs) = product us ⊗ product vs.
Proof.
  induction us as [| u us IH]; simpl.
  - now rewrite mul_one_l.
  - now rewrite IH, mul_assoc.
Qed.

Lemma tree_weight_node (r : Rule (option R)) (x : Symbol)
  (ys : list (Tree R)) (v : R) :
  w r = Some v ->
  tree_weight (Derivation r x ys) = v ⊗ product (map tree_weight ys).
Proof.
  intros Hr. simpl. rewrite Hr. rewrite <- fold_left_times.
  generalize v. induction ys as [| y ys IH]; intros a; simpl;
    [reflexivity | apply IH].
Qed.

(** Reordering of the products met in the proof. *)
Lemma times_swap_l (a b c : R) : a ⊗ (b ⊗ c) = b ⊗ (a ⊗ c).
Proof. now rewrite !mul_assoc, (times_comm a b). Qed.
End Products.

Section PlainNames.
Context {R : Type} {SR : Semiring R}.
Variable g : CFG R.
Variable id : Z.
Hypothesis Hwf : well_formed g.

Lemma plain_not_in_N (x : Symbol) : ~ plain x -> ~ In x (cfg_N g).
Proof. intros Hx Hin. apply Hx. now apply (wf_plain Hwf). Qed.

Lemma slash_name (X Y : Symbol) : _slash g id X Y = Slash X Y 0.
Proof.
  unfold _slash.
  assert (H : mem (Slash X Y 0) (cfg_N g) = false).
  { apply mem_false. apply plain_not_in_N. simpl. tauto. }
  now rewrite H.
Qed.

Lemma frozen_terminal (X : Symbol) : In X (cfg_V g) -> _frozen g id X = X.
Proof.
  intros H. unfold _frozen, is_terminal. apply mem_In in H. now rewrite H.
Qed.

Lemma frozen_nonterminal (X : Symbol) :
  ~ In X (cfg_V g) -> _frozen g id X = Frozen X 0.
Proof.
  intros H. unfold _frozen, is_terminal. apply mem_false in H. rewrite H.
  assert (H' : mem (Frozen X 0) (cfg_N g) = false).
  { apply mem_false. apply plain_not_in_N. simpl. tauto. }
  now rewrite H'.
Qed.

Lemma frozen_N (X : Symbol) : In X (cfg_N g) -> _frozen g id X = Frozen X 0.
Proof. intros H. apply frozen_nonterminal. now apply (wf_disjoint Hwf). Qed.
End PlainNames.

Section MappingEquations.
Context {R : Type} {SR : Semiring R}.
Variable g : CFG R.
Variable Xs : list Symbol.
Variable Ps : list (Rule R).
Variable id : Z.

Lemma rule_in_Ps_drule (p : Rule R) : rule_in_Ps Ps (as_drule p) = mem p Ps.
Proof. reflexivity. Qed.

Lemma spec_mapping_leaf (a : Symbol) :
  In a (cfg_V g) -> spec_mapping g Xs Ps id (Leaf a) = Ok (Leaf a).
Proof.
  intros Ha. simpl. unfold is_terminal. apply mem_In in Ha. now rewrite Ha.
Qed.

(** The frozen base case. *)
Lemma spec_mapping_frozen (r : Rule (option R)) (x : Symbol)
  (ys rest : list (Tree R)) :
  rule_in_Ps Ps r = false ->
  sequence (map (spec_mapping g Xs Ps id) ys) = Ok rest ->
  spec_mapping g Xs Ps id (Derivation r x ys) = Ok (frozen_base g Xs id x rest).
Proof. intros Hr Hs. simpl. now rewrite Hr, Hs. Qed.

(** A rule of [Ps] over a first child whose (wrapped) image has only a
    frozen side. *)
Lemma spec_mapping_fold (r : Rule (option R)) (x : Symbol)
  (y0 : Tree R) (ys : list (Tree R)) (t0 : Tree R) (l : Symbol) (o : Tree R)
  (rest : list (Tree R)) :
  rule_in_Ps Ps r = true ->
  spec_mapping g Xs Ps id y0 = Ok t0 ->
  wrap g Xs id t0 = tree l [o] ->
  sequence (map (spec_mapping g Xs Ps id) ys) = Ok rest ->
  spec_mapping g Xs Ps id (Derivation r x (y0 :: ys))
  = Ok (frozen_base g Xs id x (o :: rest)).
Proof.
  intros Hr H0 Hw Hs. simpl. rewrite Hr. simpl. rewrite H0. simpl.
  unfold wrap in Hw. rewrite Hw. simpl. now rewrite Hs.
Qed.

(** ... and over a first child whose image has a slash side. *)
Lemma spec_mapping_slash (r : Rule (option R)) (x : Symbol)
  (y0 : Tree R) (ys : list (Tree R)) (t0 : Tree R) (l : Symbol)
  (o s : Tree R) (rest : list (Tree R)) :
  rule_in_Ps Ps r = true ->
  spec_mapping g Xs Ps id y0 = Ok t0 ->
  wrap g Xs id t0 = tree l [o; s] ->
  sequence (map (spec_mapping g Xs Ps id) ys) = Ok rest ->
  spec_mapping g Xs Ps id (Derivation r x (y0 :: ys))
  = Ok (tree x [o; tree (_slash g id x (frozen_name o)) (s :: rest)]).
Proof.
  intros Hr H0 Hw Hs. simpl. rewrite Hr. simpl. rewrite H0. simpl.
  unfold wrap in Hw. rewrite Hw. simpl. rewrite Hs. simpl.
  unfold frozen_name. reflexivity.
Qed.

Lemma mapping_leaf (a : Symbol) : _mapping g id (Leaf a) = Ok (Leaf a).
Proof. reflexivity. Qed.

(** Away from the slash items the transpose maps the children. *)
Lemma mapping_node (r : Rule (option R)) (x : Symbol)
  (ys ys' : list (Tree R)) :
  isSlash x = false ->
  sequence (map (_mapping g id) ys) = Ok ys' ->
  _mapping g id (Derivation r x ys) = Ok (tree x ys').
Proof.
  intros Hx Hs. destruct x; try discriminate; simpl; now rewrite Hs.
Qed.

(** At a slash item it transposes the spine. *)
Lemma mapping_slash (r : Rule (option R)) (num z : Symbol) (i : Z)
  (ys : list (Tree R)) :
  _mapping g id (Derivation r (Slash num z i) ys)
  = (chain <~ spine g id (Derivation r (Slash num z i) ys) ;;
     transpose g id num chain (tree (_slash g id num num) [])).
Proof. destruct ys; reflexivity. Qed.

Lemma spine_nil (r : Rule (option R)) (x : Symbol) :
  spine g id (Derivation r x []) = Ok [].
Proof. reflexivity. Qed.

Lemma spine_cons (r : Rule (option R)) (x : Symbol) (y0 : Tree R)
  (ys rest : list (Tree R)) (chain : list (Symbol * list (Tree R))) :
  isSlash x = true ->
  isDerivation y0 = true ->
  sequence (map (_mapping g id) ys) = Ok rest ->
  spine g id y0 = Ok chain ->
  spine g id (Derivation r x (y0 :: ys)) = Ok ((label y0, rest) :: chain).
Proof.
  intros Hx Hy Hs Hc. simpl. unfold spine_turn. rewrite Hx.
  destruct y0 as [a | r0 s ys0]; [discriminate |].
  rewrite Hs. simpl. simpl in Hc. rewrite Hc. reflexivity.
Qed.

Lemma transpose_cons (num sY z : Symbol) (i : Z) (rest : list (Tree R))
  (chain : list (Symbol * list (Tree R))) (new : Tree R) :
  transpose g id num ((Slash sY z i, rest) :: chain) new
  = transpose g id num chain (tree (_slash g id num sY) (rest ++ [new])).
Proof. reflexivity. Qed.

Lemma unwind_snoc (e prev : Tree R) (rest acc : list (Tree R))
  (Y y : Symbol) (i : Z) :
  label prev = Slash Y y i ->
  unwind unmap unslash e (rest ++ [prev]) acc
  = unslash prev (tree y (e :: List.rev acc ++ map unmap rest)).
Proof.
  intros Hl. revert acc. induction rest as [| k rest IH]; intros acc.
  - simpl. rewrite Hl. now rewrite app_nil_r.
  - change (unwind unmap unslash e ((k :: rest) ++ [prev]) acc)
      with (match rest ++ [prev] with
            | [] =>
                match label k with
                | Slash _ y0 _ => unslash k (tree y0 (e :: List.rev acc))
                | _ => e
                end
            | _ :: _ => unwind unmap unslash e (rest ++ [prev]) (unmap k :: acc)
            end).
    rewrite IH. simpl. rewrite <- app_assoc. simpl.
    destruct (rest ++ [prev]) eqn:Hrp; [destruct rest; discriminate |].
    reflexivity.
Qed.

(** Unwinding one level of a transposed spine. *)
Lemma unslash_snoc (r : Rule (option R)) (x : Symbol) (rest : list (Tree R))
  (prev e : Tree R) (Y y : Symbol) (i : Z) :
  label prev = Slash Y y i ->
  unslash (Derivation r x (rest ++ [prev])) e
  = unslash prev (tree y (e :: map unmap rest)).
Proof.
  intros Hl. simpl. now rewrite (unwind_snoc e prev rest [] Hl).
Qed.

Lemma unslash_nil (r : Rule (option R)) (x : Symbol) (e : Tree R) :
  unslash (Derivation r x []) e = e.
Proof. reflexivity. Qed.
End MappingEquations.

Section GLCTCore.
Context {R : Type} {SR : Semiring R} {ML : MonoidLaws R}.
Hypothesis times_comm : forall a b : R, a ⊗ b = b ⊗ a.
Variable g : CFG R.
Variable Xs : list Symbol.
Variable Ps : list (Rule R).
Variable id : Z.
Variable G' : CFG R.
Variable kept : Symbol -> Prop.
Hypothesis Hwf : well_formed g.
Hypothesis HPs_rules : forall p, In p Ps -> In p (cfg_rules g).
Hypothesis HPs_body : forall p, In p Ps -> body p <> [].
Hypothesis Hlic : licensed g Xs Ps id G' kept.

Lemma lc_path_trans (x y z : Symbol) :
  lc_path Ps x y -> lc_path Ps y z -> lc_path Ps x z.
Proof.
  intros Hxy Hyz. induction Hyz as [y | y p b0 rest _ IH Hp Hb].
  - exact Hxy.
  - eapply lc_step; [exact (IH Hxy) | exact Hp | exact Hb].
Qed.

Lemma N_plain (x : Symbol) : In x (cfg_N g) -> exists s, x = Str s.
Proof.
  intros Hx. assert (H : plain x) by now apply (wf_plain Hwf).
  destruct x; try contradiction. eauto.
Qed.

Lemma chain_ok_nil (x : Symbol) :
  chain_ok g Ps id G' kept x x [] one [] (fun e => e).
Proof.
  intros Y T wT _ _ HT Hl. exists T. simpl.
  rewrite mul_one_r. auto.
Qed.

Lemma derives_leaf (a : Symbol) : In a (cfg_V g) -> derives G' (Leaf a) one.
Proof. intros Ha. constructor. now rewrite (lic_V Hlic). Qed.

(** The image of a terminal first child, once wrapped. *)
Lemma leaf_image (a : Symbol) :
  In a (cfg_V g) -> GImage g Xs Ps id G' kept (Leaf a) (wrap g Xs id (Leaf a)).
Proof.
  intros Ha. unfold wrap. destruct (mem a Xs) eqn:HX.
  - apply mem_In in HX.
    apply (@GI_slash R SR g Xs Ps id G' kept (Leaf a) (Leaf a) (Leaf a)
             (tree (_slash g id a a) []) a one one [] []
             (fun e => e)); simpl; auto.
    + apply lc_refl.
    + symmetry. now apply frozen_terminal.
    + now apply derives_leaf.
    + now apply slash_name.
    + now rewrite mul_one_r.
    + apply chain_ok_nil.
  - apply mem_false in HX.
    apply (@GI_frozen R SR g Xs Ps id G' kept (Leaf a) (Leaf a) (Leaf a));
      simpl; auto.
    + symmetry. now apply frozen_terminal.
    + now apply derives_leaf.
Qed.

(** A node that keeps its recovery rules is mapped to a derivation of
    [G']. *)
Lemma assemble (d t : Tree R) :
  In (label d) (cfg_N g) -> kept (label d) ->
  GImage g Xs Ps id G' kept d t ->
  exists t', _mapping g id t = Ok t' /\ kept_image G' d t'.
Proof.
  intros HN Hk Him.
  destruct (N_plain _ HN) as [sx Hsx].
  destruct Him as [Fz Fz' HnX HFz Hl Hd Hy Hu
                  | Fz Fz' S1 X wF wS chain yS up HX HXNV Hpath Hname HFz Hl
                      Hd HS1 HlS Hsp Hw Hy Hu Hchain].
  - (* only a frozen side *)
    exists (tree (label d) [Fz']). split.
    + apply mapping_node; [now rewrite Hsx |]. simpl. now rewrite HFz.
    + unfold kept_image. split; [| split; [| split]].
      * replace (tree_weight d)
          with (fold_left times [tree_weight d] one)
          by (simpl; apply mul_one_l).
        apply (@dr_node R SR G' _ (label d) [Fz']
                 (mkRule one (label d) [_frozen g id (label d)]));
          simpl; auto.
        -- now apply (lic_frozen_only Hlic).
        -- now rewrite Hl.
      * reflexivity.
      * simpl. now rewrite app_nil_r.
      * rewrite Hsx. simpl. exact Hu.
  - (* a frozen side and a slash spine *)
    destruct S1 as [a | rS xS ysS]; [discriminate |].
    simpl in HlS. subst xS.
    assert (HT0 : derives G' (tree (_slash g id (label d) (label d)) []) one).
    { change one with (fold_left times [] (w (mkRule (one : R)
                         (_slash g id (label d) (label d)) []))).
      apply (@dr_node R SR G' _ _ []
               (mkRule one (_slash g id (label d) (label d)) []));
        simpl; auto.
      now apply (lic_base Hlic) with (X := X). }
    destruct (Hchain (label d) (tree (_slash g id (label d) (label d)) [])
                     one Hk (lc_refl Ps (label d)) HT0)
      as [T' [HT' [HdT' [HlT' [HyT' HuT']]]]].
    { simpl. apply slash_name. exact Hwf. }
    exists (tree (label d) [Fz'; T']). split.
    + apply mapping_node; [now rewrite Hsx |].
      cbn [map sequence]. rewrite HFz. cbn [obind].
      rewrite mapping_slash, Hsp. cbn [obind]. rewrite HT'. reflexivity.
    + unfold kept_image. split; [| split; [| split]].
      * replace (tree_weight d)
          with (fold_left times [wF; one ⊗ wS] one)
          by (simpl; rewrite Hw, !mul_one_l; reflexivity).
        apply (@dr_node R SR G' _ (label d) [Fz'; T']
                 (mkRule one (label d)
                    [_frozen g id X; _slash g id (label d) X]));
          simpl; auto.
        -- now apply (lic_recover Hlic).
        -- rewrite Hl, HlT'. now rewrite (slash_name id Hwf).
      * reflexivity.
      * simpl. rewrite app_nil_r, HyT'. simpl. rewrite app_nil_r.
        now symmetry.
      * rewrite Hsx. simpl. rewrite HuT'. simpl. now symmetry.
Qed.

Lemma ac_slash_weight (a f s r : R) :
  a ⊗ ((f ⊗ s) ⊗ r) = f ⊗ ((a ⊗ r) ⊗ s).
Proof.
  rewrite <- !mul_assoc. rewrite (times_swap_l times_comm a f).
  now rewrite (times_comm s r).
Qed.

Lemma ac_chain_weight (a r t s : R) :
  (a ⊗ (r ⊗ t)) ⊗ s = t ⊗ ((a ⊗ r) ⊗ s).
Proof.
  rewrite <- !mul_assoc. rewrite (times_swap_l times_comm r t).
  now rewrite (times_swap_l times_comm a t).
Qed.

Lemma node_label_N (y : Tree R) :
  derivation_of g y -> isDerivation y = true -> In (label y) (cfg_N g).
Proof.
  intros Hy Hd. destruct Hy as [a Ha | p ys Hp Hb Hys]; [discriminate |].
  simpl. now apply (wf_heads Hwf).
Qed.

Lemma label_NV (y : Tree R) :
  derivation_of g y -> In (label y) (cfg_N g) \/ In (label y) (cfg_V g).
Proof.
  intros Hy. destruct Hy as [a Ha | p ys Hp Hb Hys]; simpl.
  - now right.
  - left. now apply (wf_heads Hwf).
Qed.

Lemma child_first (y : Tree R) :
  derivation_of g y -> has_image g Xs Ps id G' kept y ->
  exists t, spec_mapping g Xs Ps id y = Ok t
            /\ GImage g Xs Ps id G' kept y (wrap g Xs id t).
Proof.
  intros Hy IH. destruct y as [a | r x ys].
  - inversion Hy as [a' Ha |]; subst. exists (Leaf a). split.
    + now apply spec_mapping_leaf.
    + now apply leaf_image.
  - destruct (IH Hy eq_refl) as [t [Ht Him]]. exists t. split; [exact Ht |].
    destruct Him; unfold wrap, tree.
    + eapply GI_frozen; eassumption.
    + eapply GI_slash; eassumption.
Qed.

Lemma child_kept (y : Tree R) :
  derivation_of g y -> has_image g Xs Ps id G' kept y ->
  (isDerivation y = true -> kept (label y)) ->
  exists t t', spec_mapping g Xs Ps id y = Ok t
               /\ _mapping g id t = Ok t'
               /\ kept_image G' y t'.
Proof.
  intros Hy IH Hk. destruct y as [a | r x ys].
  - inversion Hy as [a' Ha |]; subst. exists (Leaf a), (Leaf a).
    split; [now apply spec_mapping_leaf |]. split; [reflexivity |].
    unfold kept_image. simpl. split; [now apply derives_leaf | auto].
  - destruct (IH Hy eq_refl) as [t [Ht Him]].
    destruct (assemble (d := Derivation r x ys) (t := t)) as [t' [Ht' Hk']];
      auto.
    + now apply (node_label_N Hy).
    + exists t, t'. auto.
Qed.

Lemma children_kept (ys : list (Tree R)) :
  Forall (derivation_of g) ys ->
  Forall (has_image g Xs Ps id G' kept) ys ->
  (forall y, In y ys -> isDerivation y = true -> kept (label y)) ->
  exists ts ts',
    sequence (map (spec_mapping g Xs Ps id) ys) = Ok ts
    /\ sequence (map (_mapping g id) ts) = Ok ts'
    /\ Forall2 (kept_image G') ys ts'.
Proof.
  induction ys as [| y ys IHys]; intros Hys IH Hk.
  - exists [], []. repeat split. constructor.
  - inversion Hys as [| ? ? Hy Hys']; subst.
    inversion IH as [| ? ? IHy IH']; subst.
    destruct (child_kept Hy IHy) as [t [t' [Ht [Ht' Hk']]]].
    { apply Hk. now left. }
    destruct (IHys Hys' IH') as [ts [ts' [Hts [Hts' Hks]]]].
    { intros y' Hy'. apply Hk. now right. }
    exists (t :: ts), (t' :: ts'). simpl.
    rewrite Ht, Hts. simpl. rewrite Ht', Hts'. simpl.
    repeat split. now constructor.
Qed.

(** What [kept_image] gives for a list of children. *)
Lemma kept_images_facts (ys ts' : list (Tree R)) :
  Forall2 (kept_image G') ys ts' ->
  map label ts' = map label ys
  /\ Forall2 (derives G') ts' (map tree_weight ys)
  /\ flat_map Yield ts' = flat_map Yield ys
  /\ map unmap ts' = map shape ys.
Proof.
  induction 1 as [| y t' ys ts' [Hd [Hl [Hy Hu]]] _ [IHl [IHd [IHy IHu]]]];
    simpl.
  - repeat split. constructor.
  - repeat split; try congruence. now constructor.
Qed.

(** The frozen side built at a node [x], and the slash base case when
    [x] is in [Xs]. *)
Lemma frozen_side (d : Tree R) (x : Symbol) (kids kids' : list (Tree R))
  (pr : Rule R) (vs : list R) :
  label d = x -> In x (cfg_N g) ->
  sequence (map (_mapping g id) kids) = Ok kids' ->
  In pr (cfg_rules G') ->
  head pr = _frozen g id x ->
  body pr = map label kids' ->
  Forall2 (derives G') kids' vs ->
  fold_left times vs (w pr) = tree_weight d ->
  flat_map Yield kids' = Yield d ->
  tree x (map unmap kids') = shape d ->
  GImage g Xs Ps id G' kept d (frozen_base g Xs id x kids).
Proof.
  intros Hx HN Hk Hpr Hh Hb Hvs Hw Hy Hu.
  pose proof (frozen_N id Hwf _ HN) as HF.
  assert (Hmap : _mapping g id (tree (_frozen g id x) kids)
                 = Ok (tree (_frozen g id x) kids')).
  { apply mapping_node; [now rewrite HF | exact Hk]. }
  assert (Hder : derives G' (tree (_frozen g id x) kids') (tree_weight d)).
  { rewrite <- Hw. now apply (@dr_node R SR G' _ _ kids' pr vs). }
  assert (Hyield : Yield (tree (_frozen g id x) kids') = Yield d)
    by exact Hy.
  assert (Hun : unmap (tree (_frozen g id x) kids') = shape d).
  { rewrite HF. exact Hu. }
  unfold frozen_base. subst x. destruct (mem (label d) Xs) eqn:HX.
  - apply mem_In in HX.
    apply (@GI_slash R SR g Xs Ps id G' kept d
             (tree (_frozen g id (label d)) kids)
             (tree (_frozen g id (label d)) kids')
             (tree (_slash g id (label d) (label d)) [])
             (label d) (tree_weight d) one [] [] (fun e => e)); auto.
    + apply lc_refl.
    + rewrite HF. reflexivity.
    + apply slash_name. exact Hwf.
    + now rewrite mul_one_r.
    + rewrite Hyield. now rewrite app_nil_r.
    + apply chain_ok_nil.
  - apply mem_false in HX.
    apply (@GI_frozen R SR g Xs Ps id G' kept d
             (tree (_frozen g id (label d)) kids)
             (tree (_frozen g id (label d)) kids')); auto.
Qed.

Lemma skipn_map_label (k : nat) (ys : list (Tree R)) :
  skipn k (map label ys) = map label (skipn k ys).
Proof. apply skipn_map. Qed.

(** The children off the left corner keep their recovery rules. *)
Lemma children_are_kept (p : Rule R) (ys : list (Tree R)) (k : nat) :
  In p (cfg_rules g) -> body p = map label ys ->
  k = (if mem p Ps then 1 else 0) ->
  Forall (derivation_of g) ys ->
  forall y, In y (skipn k ys) -> isDerivation y = true -> kept (label y).
Proof.
  intros Hp Hb Hk Hys y Hy Hd.
  apply (lic_children Hlic) with (p := p); [exact Hp | |].
  - rewrite <- Hk, Hb, skipn_map_label. now apply in_map.
  - apply node_label_N; [| exact Hd].
    rewrite Forall_forall in Hys. apply Hys.
    revert Hy. clear. revert ys. induction k as [| k IH]; intros ys H.
    + exact H.
    + destruct ys as [| y0 ys]; [contradiction |]. right. now apply IH.
Qed.

(** The slash side built at a node [x] over a first child that has one. *)
Lemma slash_side (p : Rule R) (y0 : Tree R) (rest : list (Tree R))
  (Fz Fz' S0 : Tree R) (X : Symbol) (wF wS0 : R)
  (chain0 : list (Symbol * list (Tree R))) (yS0 : list Symbol)
  (up0 : Tree R -> Tree R) (ts ts' : list (Tree R)) :
  In p Ps -> body p = map label (y0 :: rest) ->
  derivation_of g y0 ->
  In X Xs -> In X (cfg_N g) \/ In X (cfg_V g) ->
  lc_path Ps X (label y0) ->
  frozen_name Fz = X ->
  _mapping g id Fz = Ok Fz' ->
  label Fz' = _frozen g id X ->
  derives G' Fz' wF ->
  isDerivation S0 = true ->
  label S0 = Slash (label y0) X 0 ->
  spine g id S0 = Ok chain0 ->
  tree_weight y0 = wF ⊗ wS0 ->
  Yield y0 = Yield Fz' ++ yS0 ->
  shape y0 = up0 (unmap Fz') ->
  chain_ok g Ps id G' kept (label y0) X chain0 wS0 yS0 up0 ->
  sequence (map (_mapping g id) ts) = Ok ts' ->
  Forall2 (kept_image G') rest ts' ->
  GImage g Xs Ps id G' kept (Derivation (as_drule p) (head p) (y0 :: rest))
         (tree (head p) [Fz; tree (_slash g id (head p) X) (S0 :: ts)]).
Proof.
  intros Hp Hb Hy0 HX HXNV Hpath Hname HFz Hl Hd HS0 HlS0 Hsp0 Hw0 Hyd0 Hu0
         Hchain0 Hts' Hks.
  destruct (kept_images_facts Hks) as [Hlab [Hder [Hyield Hun]]].
  set (d := Derivation (as_drule p) (head p) (y0 :: rest)).
  set (r := product (map tree_weight rest)).
  change (head p) with (label d).
  assert (Hstep : lc_path Ps (label y0) (label d)).
  { eapply lc_step; [apply lc_refl | exact Hp | exact Hb]. }
  apply (@GI_slash R SR g Xs Ps id G' kept d Fz Fz'
           (tree (_slash g id (label d) X) (S0 :: ts))
           X wF ((w p ⊗ r) ⊗ wS0)
           ((label S0, ts') :: chain0)
           (yS0 ++ flat_map Yield rest)
           (fun e => tree (label d) (up0 e :: map shape rest))); auto.
  - eapply lc_path_trans; eassumption.
  - apply slash_name. exact Hwf.
  - apply spine_cons; auto. now rewrite (slash_name id Hwf).
  - unfold d. rewrite tree_weight_node with (v := w p) by reflexivity.
    simpl. fold r. rewrite Hw0. apply ac_slash_weight.
  - simpl. rewrite Hyd0. now rewrite app_assoc.
  - simpl. now rewrite Hu0.
  - (* the spine, transposed on top of any [T] that ends at this node *)
    intros Y T wT HkY HpY HdT HlT.
    rewrite HlS0, transpose_cons.
    set (T1 := tree (_slash g id Y (label y0)) (ts' ++ [T])).
    assert (HdT1 : derives G' T1
                     (fold_left times (map tree_weight rest ++ [wT]) (w p))).
    { apply (@dr_node R SR G' _ _ (ts' ++ [T])
               (mkRule (w p) (_slash g id Y (label y0))
                  (map label rest ++ [_slash g id Y (label d)]))).
      - apply (lic_slash Hlic) with (X := X); auto.
        now apply label_NV.
      - reflexivity.
      - simpl. rewrite map_app, Hlab. simpl. rewrite HlT.
        now rewrite (slash_name id Hwf).
      - apply Forall2_app; [exact Hder |]. constructor; [exact HdT |].
        constructor. }
    destruct (Hchain0 Y T1 _ HkY (lc_path_trans Hstep HpY) HdT1)
      as [T' [HT' [HdT' [HlT' [HyT' HuT']]]]].
    { apply slash_name. exact Hwf. }
    exists T'. split; [exact HT' |]. split; [| split; [exact HlT' | split]].
    + replace (wT ⊗ ((w p ⊗ r) ⊗ wS0))
        with (fold_left times (map tree_weight rest ++ [wT]) (w p) ⊗ wS0);
        [exact HdT' |].
      rewrite fold_left_times, product_app. simpl. rewrite mul_one_r.
      fold r. apply ac_chain_weight.
    + rewrite HyT'. unfold T1. simpl. rewrite flat_map_app. simpl.
      rewrite app_nil_r, Hyield. now rewrite app_assoc.
    + intros e. rewrite HuT'. unfold T1, tree.
      rewrite unslash_snoc with (Y := Y) (y := label d) (i := 0%Z)
        by exact HlT.
      now rewrite Hun.
Qed.

(** The image of a derivation under [Speculation.mapping], by induction
    on the derivation. *)
Lemma spec_image (d : Tree R) : has_image g Xs Ps id G' kept d.
Proof.
  induction d as [a | r x ys IH] using Tree_ind_nested;
    intros Hd Hnode; [discriminate |].
  inversion Hd as [| p ys' Hp Hb Hys]; subst.
  pose proof (@children_are_kept p ys _ Hp Hb eq_refl Hys) as Hkept.
  pose proof (wf_heads Hwf _ Hp) as HN.
  rewrite <- (rule_in_Ps_drule Ps p) in Hkept.
  destruct (rule_in_Ps Ps (as_drule p)) eqn:HPs.
  - (* a rule of Ps: the spine goes on through the first child *)
    rewrite rule_in_Ps_drule in HPs. apply mem_In in HPs.
    destruct ys as [| y0 rest].
    { exfalso. now apply (HPs_body _ HPs). }
    inversion Hys as [| ? ? Hy0 Hrest]; subst.
    inversion IH as [| ? ? IH0 IHrest]; subst.
    destruct (child_first Hy0 IH0) as [t0 [Ht0 Him0]].
    destruct (children_kept Hrest IHrest Hkept) as [ts [ts' [Hts [Hts' Hks]]]].
    destruct (kept_images_facts Hks) as [Hlab [Hder [Hyield Hun]]].
    remember (wrap g Xs id t0) as wt0 eqn:Hwt0.
    destruct Him0 as [Fz Fz' HnX HFz Hl Hdv Hy Hu
                     | Fz Fz' S0 X wF wS0 chain0 yS0 up0 HX HXNV Hpath Hname
                         HFz Hl Hdv HS0 HlS0 Hsp0 Hw0 Hyd0 Hu0 Hchain0].
    + (* the first child has only a frozen side: fold it *)
      exists (frozen_base g Xs id (head p) (Fz :: ts)). split.
      * eapply spec_mapping_fold; eauto.
        now rewrite rule_in_Ps_drule; apply mem_In.
      * apply (@frozen_side _ (head p) (Fz :: ts) (Fz' :: ts')
                 (mkRule (w p) (_frozen g id (head p))
                    (_frozen g id (label y0) :: map label rest))
                 (tree_weight y0 :: map tree_weight rest)); auto.
        -- simpl. now rewrite HFz, Hts'.
        -- apply (lic_frozen_rec Hlic); auto.
        -- simpl. now rewrite Hl, Hlab.
        -- rewrite tree_weight_node with (v := w p) by reflexivity.
           now rewrite fold_left_times.
        -- simpl. now rewrite Hy, Hyield.
        -- simpl. now rewrite Hu, Hun.
    + (* the first child has a slash side: extend its spine *)
      exists (tree (head p)
                [Fz; tree (_slash g id (head p) (frozen_name Fz)) (S0 :: ts)]).
      split.
      * eapply spec_mapping_slash; eauto.
        now rewrite rule_in_Ps_drule; apply mem_In.
      * rewrite Hname. eapply slash_side; eauto.
  - (* a rule outside Ps: the frozen base case *)
    destruct (children_kept Hys IH Hkept) as [ts [ts' [Hts [Hts' Hks]]]].
    destruct (kept_images_facts Hks) as [Hlab [Hder [Hyield Hun]]].
    exists (frozen_base g Xs id (head p) ts). split.
    + now apply spec_mapping_frozen.
    + rewrite rule_in_Ps_drule in HPs. apply mem_false in HPs.
      apply (@frozen_side _ (head p) ts ts'
               (mkRule (w p) (_frozen g id (head p)) (body p))
               (map tree_weight ys)); auto.
      * now apply (lic_frozen_base Hlic).
      * simpl. now rewrite Hlab.
      * rewrite tree_weight_node with (v := w p) by reflexivity.
        now rewrite fold_left_times.
      * simpl. now rewrite Hun.
Qed.

(** The whole mapping on a derivation whose root keeps its recovery
    rules. *)
Lemma mapping_kept (d : Tree R) :
  derivation_of g d -> isDerivation d = true -> kept (label d) ->
  exists t',
    (d' <~ spec_mapping g Xs Ps id d ;; _mapping g id d') = Ok t'
    /\ kept_image G' d t'.
Proof.
  intros Hd Hnode Hk.
  destruct (spec_image Hd Hnode) as [t [Ht Him]].
  destruct (assemble (node_label_N Hd Hnode) Hk Him) as [t' [Ht' Hk']].
  exists t'. split; [| exact Hk'].
  rewrite Ht. exact Ht'.
Qed.

(** [weight] on a derivation of the grammar. *)
Lemma weight_tree_weight (d : Tree R) :
  derivation_of g d -> isDerivation d = true ->
  weight d = Ok (Some (tree_weight d)).
Proof.
  induction d as [a | r x ys IH] using Tree_ind_nested;
    intros Hd Hnode; [discriminate |].
  inversion Hd as [| p ys' Hp Hb Hys]; subst. clear Hd Hnode Hb.
  cbn [weight tree_weight as_drule w].
  generalize (w p) as v.
  induction ys as [| y ys IHys]; intros v; [reflexivity |].
  inversion Hys as [| ? ? Hy Hys']; subst.
  inversion IH as [| ? ? IHy IH']; subst.
  destruct y as [a | ry xy ysy].
  - cbn [fold_left tree_weight]. rewrite mul_one_r. now apply IHys.
  - rewrite (IHy Hy eq_refl). cbn [py_times fold_left]. now apply IHys.
Qed.
End GLCTCore.

Lemma shape_Tree_eqb {R} {SR : Semiring R} (d e : Tree R) :
  shape d = shape e -> Tree_eqb d e = true.
Proof.
  revert e. induction d as [a | r x ys IH] using Tree_ind_nested;
    intros [b | r' x' ys']; simpl; try discriminate.
  - intros [= ->]. apply (beq_refl b).
  - unfold tree. intros H.
    assert (Hx : x = x') by congruence.
    assert (Hkids : map shape ys = map shape ys') by congruence.
    clear H. subst x'. rewrite (beq_refl x). simpl.
    revert ys' Hkids. induction IH as [| y ys Hy _ IHys]; intros [| y' ys'];
      simpl; try discriminate; [reflexivity |].
    intros [= H1 H2]. rewrite (Hy _ H1). simpl. now apply IHys.
Qed.

(** ** The rules of the transformed grammar *)

Section Extends.
Context {R : Type} {SR : Semiring R} {L : SemiringLaws R}.

Lemma extends_refl (a : CFG R) : extends a a.
Proof. split; [apply incl_refl | reflexivity]. Qed.

Lemma extends_trans (a b c : CFG R) :
  extends a b -> extends b c -> extends a c.
Proof.
  intros [H1 V1] [H2 V2]. split; [eapply incl_tran; eassumption | congruence].
Qed.

Lemma extends_add (a : CFG R) (w0 : R) (h : Symbol) (b : list Symbol) :
  extends a (add_ a w0 h b).
Proof.
  split; [| apply cfg_V_add_].
  rewrite rules_add_. apply incl_appl, incl_refl.
Qed.

Lemma In_add (a : CFG R) (w0 : R) (h : Symbol) (b : list Symbol) :
  w0 <> zero -> In (mkRule w0 h b) (cfg_rules (add_ a w0 h b)).
Proof.
  intros Hw. rewrite rules_add_. apply in_or_app. right.
  destruct (weq w0 zero) eqn:E; [apply weq_true in E; contradiction |].
  now left.
Qed.

Lemma fold_extends {B} (f : CFG R -> B -> CFG R) (l : list B) (a : CFG R) :
  (forall a x, extends a (f a x)) -> extends a (fold_left f l a).
Proof.
  intros Hf. revert a. induction l as [| x l IH]; intros a; simpl.
  - apply extends_refl.
  - eapply extends_trans; [apply Hf | apply IH].
Qed.

(** A rule added at one turn of a loop is still there at the end. *)
Lemma fold_In {B} (f : CFG R -> B -> CFG R) (l : list B) (a : CFG R)
  (x : B) (r : Rule R) :
  (forall a x, extends a (f a x)) ->
  In x l ->
  (forall a, In r (cfg_rules (f a x))) ->
  In r (cfg_rules (fold_left f l a)).
Proof.
  intros Hf Hx Hr. revert a. induction l as [| y l IH]; intros a;
    [contradiction |].
  simpl. destruct Hx as [-> | Hx]; [| now apply IH].
  apply (fold_extends f l (f a x) Hf). apply Hr.
Qed.
End Extends.

Lemma In_set_of {A} {E : Eqb A} {LA : EqbLaws A} (x : A) (l : list A) :
  In x (set_of l) <-> In x l.
Proof.
  unfold set_of.
  assert (H : forall s, In x (fold_left (fun s y => set_add y s) l s)
                        <-> In x s \/ In x l).
  { induction l as [| y l IH]; intros s; simpl; [tauto |].
    rewrite IH, In_set_add. intuition congruence. }
  rewrite H. simpl. tauto.
Qed.

Lemma In_set_union {A} {E : Eqb A} {LA : EqbLaws A} (x : A) (s t : list A) :
  In x (set_union s t) <-> In x s \/ In x t.
Proof.
  unfold set_union. revert s.
  induction t as [| y t IH]; intros s; simpl; [tauto |].
  rewrite IH, In_set_add. intuition congruence.
Qed.

Lemma In_set_diff {A} {E : Eqb A} {LA : EqbLaws A} (x : A) (s t : list A) :
  In x (set_diff s t) <-> In x s /\ ~ In x t.
Proof.
  unfold set_diff. rewrite filter_In, negb_true_iff, mem_false. tauto.
Qed.

Lemma In_set_inter {A} {E : Eqb A} {LA : EqbLaws A} (x : A) (s t : list A) :
  In x (set_inter s t) <-> In x s /\ In x t.
Proof. unfold set_inter. rewrite filter_In, mem_In. tauto. Qed.

Lemma forallb_false {A} (f : A -> bool) (l : list A) :
  forallb f l = false -> exists x, In x l /\ f x = false.
Proof.
  induction l as [| y l IH]; simpl; [discriminate |].
  destruct (f y) eqn:E; simpl.
  - intros H. destruct (IH H) as [x [Hx Hf]]. exists x. auto.
  - intros _. exists y. auto.
Qed.

Lemma filter_length_mono {A} (f f' : A -> bool) (l : list A) :
  (forall x, f' x = true -> f x = true) ->
  List.length (List.filter f' l) <= List.length (List.filter f l).
Proof.
  intros H. induction l as [| y l IH]; simpl; [lia |].
  destruct (f' y) eqn:E'; [rewrite (H _ E'); simpl; lia |].
  destruct (f y); simpl; lia.
Qed.

Lemma filter_length_lt {A} (f f' : A -> bool) (l : list A) (x : A) :
  (forall x, f' x = true -> f x = true) ->
  In x l -> f x = true -> f' x = false ->
  List.length (List.filter f' l) < List.length (List.filter f l).
Proof.
  intros H Hx Hf Hf'. induction l as [| y l IH]; [contradiction |].
  simpl. destruct Hx as [-> | Hx].
  - rewrite Hf, Hf'. simpl.
    pose proof (filter_length_mono f f' l H). lia.
  - specialize (IH Hx). destruct (f' y) eqn:E'.
    + rewrite (H _ E'). simpl. lia.
    + destruct (f y); simpl; lia.
Qed.

(** ** Reachability in the left-corner graph *)

Section ReachComplete.
Context {R : Type} {SR : Semiring R}.
Variable Ps : list (Rule R).

Lemma reach_S (n : nat) (seen : list Symbol) :
  reach Ps (S n) seen = reach Ps n (sweep Ps seen).
Proof. reflexivity. Qed.

Lemma reach_rule_incl (seen : list Symbol) (p : Rule R) (x : Symbol) :
  In x seen -> In x (reach_rule seen p).
Proof.
  intros Hx. unfold reach_rule. destruct (body p) as [| b0 ?]; [exact Hx |].
  destruct (mem b0 seen); [| exact Hx]. apply In_set_add. now right.
Qed.

Lemma fold_reach_incl (l : list (Rule R)) (seen : list Symbol) (x : Symbol) :
  In x seen -> In x (fold_left reach_rule l seen).
Proof.
  revert seen. induction l as [| p l IH]; intros seen Hx; [exact Hx |].
  simpl. apply IH. now apply reach_rule_incl.
Qed.

Lemma reach_incl (n : nat) (seen : list Symbol) (x : Symbol) :
  In x seen -> In x (reach Ps n seen).
Proof.
  revert seen. induction n as [| n IH]; intros seen Hx; [exact Hx |].
  rewrite reach_S. apply IH. now apply fold_reach_incl.
Qed.

(** A sweep adds the head of every rule whose left corner was seen. *)
Lemma sweep_step (seen : list Symbol) (p : Rule R) (b0 : Symbol)
  (rest : list Symbol) :
  In p Ps -> body p = b0 :: rest -> In b0 seen ->
  In (head p) (sweep Ps seen).
Proof.
  unfold sweep. generalize Ps as l. intros l Hp Hb Hb0. revert seen Hb0.
  induction l as [| q l IH]; intros seen Hb0; [contradiction |].
  simpl. destruct Hp as [-> | Hp].
  - apply fold_reach_incl. unfold reach_rule. rewrite Hb.
    apply mem_In in Hb0. rewrite Hb0. apply In_set_add. now left.
  - apply IH; [exact Hp |]. now apply reach_rule_incl.
Qed.

(** ... and nothing but heads of rules. *)
Lemma sweep_heads (l : list (Rule R)) (seen : list Symbol) (x : Symbol) :
  In x (fold_left reach_rule l seen) ->
  In x seen \/ exists p, In p l /\ head p = x.
Proof.
  revert seen. induction l as [| q l IH]; intros seen Hx; [now left |].
  simpl in Hx. apply IH in Hx as [Hx | [p [Hp Hh]]].
  - unfold reach_rule in Hx. destruct (body q) as [| b0 ?]; [now left |].
    destruct (mem b0 seen); [| now left].
    apply In_set_add in Hx as [-> | Hx]; [| now left].
    right. exists q. split; [now left | reflexivity].
  - right. exists p. split; [now right | exact Hh].
Qed.

Lemma lc_closed_path (seen : list Symbol) (x z : Symbol) :
  lc_closed Ps seen -> In x seen -> lc_path Ps x z -> In z seen.
Proof.
  intros Hc Hx Hp. induction Hp as [x | x p b0 rest _ IH Hp Hb].
  - exact Hx.
  - eapply Hc; eauto.
Qed.

(** A closed set is left as it is. *)
Lemma lc_closed_sweep (seen : list Symbol) :
  lc_closed Ps seen -> sweep Ps seen = seen.
Proof.
  intros Hc. unfold sweep.
  assert (H : forall l, incl l Ps -> fold_left reach_rule l seen = seen).
  { induction l as [| p l IH]; intros Hl; [reflexivity |].
    simpl.
    assert (Hp : reach_rule seen p = seen).
    { unfold reach_rule. destruct (body p) as [| b0 rest] eqn:Hb;
        [reflexivity |].
      destruct (mem b0 seen) eqn:Hm; [| reflexivity].
      unfold set_add.
      assert (Hh : In (head p) seen).
      { apply (Hc p b0 rest); [apply Hl; now left | exact Hb |].
        now apply mem_In. }
      apply mem_In in Hh. now rewrite Hh. }
    rewrite Hp. apply IH. intros q Hq. apply Hl. now right. }
  apply H, incl_refl.
Qed.

Lemma lc_closed_reach (n : nat) (seen : list Symbol) :
  lc_closed Ps seen -> reach Ps n seen = seen.
Proof.
  intros Hc. induction n as [| n IH]; [reflexivity |].
  rewrite reach_S, lc_closed_sweep; assumption.
Qed.

(** Sweeping as often as there are unseen heads closes the set. *)
Lemma reach_closed (n : nat) (seen : list Symbol) :
  List.length (unseen Ps seen) <= n -> lc_closed Ps (reach Ps n seen).
Proof.
  revert seen. induction n as [| n IH]; intros seen Hn.
  - simpl. intros p b0 rest Hp Hb _.
    destruct (mem (head p) seen) eqn:Hm; [now apply mem_In |].
    assert (Hin : In p (unseen Ps seen)).
    { unfold unseen. apply filter_In. now rewrite Hm. }
    destruct (unseen Ps seen); [contradiction | simpl in Hn; lia].
  - rewrite reach_S.
    destruct (subset (sweep Ps seen) seen) eqn:Hsub.
    + (* nothing new: the set was closed already *)
      assert (Hc : lc_closed Ps seen).
      { intros p b0 rest Hp Hb Hb0.
        unfold subset in Hsub. rewrite forallb_forall in Hsub.
        apply mem_In. apply Hsub. eapply sweep_step; eauto. }
      rewrite (lc_closed_sweep Hc), (lc_closed_reach n Hc). exact Hc.
    + apply forallb_false in Hsub as [x [Hx Hm]].
      apply mem_false in Hm. pose proof Hx as Hx'.
      apply sweep_heads in Hx as [Hx | [p [Hp Hh]]]; [contradiction |].
      subst x. apply IH.
      assert (Hlt : List.length (unseen Ps (sweep Ps seen))
                    < List.length (unseen Ps seen)); [| lia].
      unfold unseen. apply filter_length_lt with (x := p).
      * intros q Hq. apply negb_true_iff in Hq. apply negb_true_iff.
        apply mem_false. apply mem_false in Hq.
        intros Hin. apply Hq. now apply fold_reach_incl.
      * exact Hp.
      * apply negb_true_iff. now apply mem_false.
      * apply negb_false_iff. now apply mem_In.
Qed.

(** [reach] finds the whole left-corner closure of a symbol. *)
Lemma reach_complete (x z : Symbol) :
  lc_path Ps x z -> In z (reach Ps (List.length Ps) [x]).
Proof.
  intros Hp. apply lc_closed_path with (x := x); [| | exact Hp].
  - apply reach_closed. unfold unseen. apply List.filter_length_le.
  - apply reach_incl. now left.
Qed.
End ReachComplete.

Lemma sequence_In {A B} (f : A -> outcome B) (l : list A) (rs : list B)
  (x : A) :
  sequence (map f l) = Ok rs -> In x l -> exists r, f x = Ok r /\ In r rs.
Proof.
  revert rs. induction l as [| y l IH]; intros rs Hs Hx; [contradiction |].
  simpl in Hs. destruct (f y) as [r |] eqn:Hy; [| discriminate].
  simpl in Hs. destruct (sequence (map f l)) as [rs' |]; [| discriminate].
  simpl in Hs. injection Hs as <-.
  destruct Hx as [-> | Hx].
  - exists r. split; [exact Hy | now left].
  - destruct (IH rs' eq_refl Hx) as [r' [Hr' Hin]].
    exists r'. split; [exact Hr' | now right].
Qed.

Lemma fold_set_incl {A B} (f : list A -> B -> list A) (l : list B)
  (s : list A) (y : A) :
  (forall s x, In y s -> In y (f s x)) ->
  In y s -> In y (fold_left f l s).
Proof.
  intros Hf. revert s. induction l as [| x l IH]; intros s Hy; [exact Hy |].
  simpl. apply IH. now apply Hf.
Qed.

Lemma fold_set_In {A B} (f : list A -> B -> list A) (l : list B)
  (s : list A) (x : B) (y : A) :
  (forall s x, In y s -> In y (f s x)) ->
  In x l -> (forall s, In y (f s x)) ->
  In y (fold_left f l s).
Proof.
  intros Hf Hx Hy. revert s. induction l as [| x' l IH]; intros s;
    [contradiction |].
  simpl. destruct Hx as [-> | Hx]; [| now apply IH].
  apply fold_set_incl; [exact Hf | apply Hy].
Qed.

Ltac extends_step :=
  intros;
  repeat first
    [ apply extends_refl
    | apply extends_add
    | apply fold_extends; intros
    | match goal with
      | |- extends _ (if ?c then _ else _) => destruct c
      | |- extends _ (match ?b with _ => _ end) => destruct b
      end
    | eapply extends_trans; [| apply extends_add] ].

Section GLCTRules.
Context {R : Type} {SR : Semiring R} {L : SemiringLaws R}.
Variable g : CFG R.
Variable Xs : list Symbol.
Variable Ps : list (Rule R).
Variable id : Z.
Variable u : Useful.
Hypothesis Hone : (one : R) <> zero.
Hypothesis Hnz : forall p, In p (cfg_rules g) -> w p <> zero.
Hypothesis HPs_rules : forall p, In p Ps -> In p (cfg_rules g).

Lemma fold_later {B} (f : CFG R -> B -> CFG R) (l : list B) (a : CFG R)
  (r : Rule R) :
  (forall a x, extends a (f a x)) ->
  In r (cfg_rules a) -> In r (cfg_rules (fold_left f l a)).
Proof. intros Hf. apply (fold_extends f l a Hf). Qed.

Lemma GLCT_V : cfg_V (GLCT_rules g Xs Ps id u) = cfg_V g.
Proof.
  unfold GLCT_rules. cbv zeta.
  repeat match goal with
         | |- cfg_V (fold_left ?f ?l ?a) = _ =>
             transitivity (cfg_V a);
             [apply (fold_extends f l a); extends_step |]
         end.
  reflexivity.
Qed.

Lemma GLCT_base (X : Symbol) :
  In X (useful_num u) ->
  In (mkRule one (_slash g id X X) []) (cfg_rules (GLCT_rules g Xs Ps id u)).
Proof.
  intros HX. unfold GLCT_rules. cbv zeta.
  do 3 (apply fold_later; [extends_step |]).
  apply fold_In with (x := X); [extends_step | exact HX |].
  intros a. now apply In_add.
Qed.

Lemma GLCT_frozen_base (p : Rule R) :
  In p (cfg_rules g) -> ~ In p Ps ->
  In (mkRule (w p) (_frozen g id (head p)) (body p))
     (cfg_rules (GLCT_rules g Xs Ps id u)).
Proof.
  intros Hp HPs. unfold GLCT_rules. cbv zeta.
  do 2 (apply fold_later; [extends_step |]).
  apply fold_In with (x := p); [extends_step | exact Hp |].
  intros a. apply mem_false in HPs. rewrite HPs. simpl.
  apply In_add. now apply Hnz.
Qed.

Lemma GLCT_slash (p : Rule R) (b0 : Symbol) (rest : list Symbol)
  (Y : Symbol) :
  In p Ps -> body p = b0 :: rest ->
  In Y (num_given_den u b0) -> In b0 (useful_mid u) ->
  In (mkRule (w p) (_slash g id Y b0) (rest ++ [_slash g id Y (head p)]))
     (cfg_rules (GLCT_rules g Xs Ps id u)).
Proof.
  intros Hp Hb HY Hmid. unfold GLCT_rules. cbv zeta.
  do 2 (apply fold_later; [extends_step |]).
  apply fold_In with (x := p); [extends_step | now apply HPs_rules |].
  intros a. pose proof Hp as Hm. apply mem_In in Hm. rewrite Hm, Hb. simpl.
  match goal with
  | |- In _ (cfg_rules (if ?c then _ else _)) =>
      destruct c; [apply extends_add |]
  end;
    (apply fold_In with (x := Y); [extends_step | exact HY |];
     intros a'; apply mem_In in Hmid; rewrite Hmid; simpl;
     apply In_add; apply Hnz; now apply HPs_rules).
Qed.

Lemma GLCT_frozen_rec (p : Rule R) (b0 : Symbol) (rest : list Symbol) :
  In p Ps -> body p = b0 :: rest -> ~ In b0 Xs ->
  In (mkRule (w p) (_frozen g id (head p)) (_frozen g id b0 :: rest))
     (cfg_rules (GLCT_rules g Xs Ps id u)).
Proof.
  intros Hp Hb HX. unfold GLCT_rules. cbv zeta.
  do 2 (apply fold_later; [extends_step |]).
  apply fold_In with (x := p); [extends_step | now apply HPs_rules |].
  intros a. pose proof Hp as Hm. apply mem_In in Hm. rewrite Hm, Hb. simpl.
  apply mem_false in HX. rewrite HX. simpl.
  apply In_add. apply Hnz. now apply HPs_rules.
Qed.

Lemma GLCT_frozen_only (Y : Symbol) :
  In Y (retained u) -> ~ In Y Xs ->
  In (mkRule one Y [_frozen g id Y]) (cfg_rules (GLCT_rules g Xs Ps id u)).
Proof.
  intros HY HX. unfold GLCT_rules. cbv zeta.
  apply fold_later; [extends_step |].
  apply fold_In with (x := Y); [extends_step | now apply In_set_diff |].
  intros a. now apply In_add.
Qed.

Lemma GLCT_recover (X Y : Symbol) :
  In X Xs -> In Y (num_given_den u X) ->
  In (mkRule one Y [_frozen g id X; _slash g id Y X])
     (cfg_rules (GLCT_rules g Xs Ps id u)).
Proof.
  intros HX HY. unfold GLCT_rules. cbv zeta.
  apply fold_In with (x := X); [extends_step | exact HX |].
  intros a. apply fold_In with (x := Y); [extends_step | exact HY |].
  intros a'. now apply In_add.
Qed.
End GLCTRules.

(** ** [GLCT] has every rule that the mapping uses *)

Section GLCTLicensed.
Context {R : Type} {SR : Semiring R} {L : SemiringLaws R}.
Variable g : CFG R.
Variable Xs Xs' : list Symbol.
Variable Ps : list (Rule R).
Variable id : Z.
Hypothesis Hwf : well_formed g.
Hypothesis Hone : (one : R) <> zero.
Hypothesis HPs_rules : forall p, In p Ps -> In p (cfg_rules g).
Hypothesis HXs : forall x, In x Xs' <-> In x Xs.

Lemma In_NV (x : Symbol) :
  In x (cfg_N g) \/ In x (cfg_V g) ->
  mem x (set_union (cfg_N g) (cfg_V g)) = true.
Proof. intros Hx. apply mem_In. now apply In_set_union. Qed.

(** Without the filter every nonterminal keeps its recovery rules. *)
Lemma licensed_unfiltered (u : Useful) :
  useful g Xs' Ps false = Ok u ->
  licensed g Xs Ps id (GLCT_rules g Xs' Ps id u)
           (fun Y => In Y (cfg_N g)).
Proof.
  intros [= <-].
  pose proof (wf_nonzero Hwf) as Hnz.
  split.
  - now apply GLCT_V.
  - intros Y HY HX. apply GLCT_frozen_only; auto.
    now rewrite HXs.
  - intros X Y HY HX _ _. apply GLCT_recover; auto. now apply HXs.
  - intros X Y HY _ _ _. apply GLCT_base; auto. simpl.
    apply In_set_union. now left.
  - intros p b0 rest X Y Hp Hb HY _ _ _ _ Hb0. apply GLCT_slash; auto.
    simpl. now apply In_set_union.
  - intros p Hp HPs. now apply GLCT_frozen_base.
  - intros p b0 rest Hp Hb HX. apply GLCT_frozen_rec; auto.
    now rewrite HXs.
  - intros p y _ _ Hy. exact Hy.
Qed.

Lemma retained_start : In (cfg_S g) (retained_filter g Ps).
Proof.
  unfold retained_filter. apply fold_set_incl; [| now left].
  intros s p Hs. apply fold_set_incl; [| exact Hs].
  intros s' x Hs'. destruct (is_nonterminal g x); [| exact Hs'].
  apply In_set_add. now right.
Qed.

Lemma retained_children (p : Rule R) (y : Symbol) :
  In p (cfg_rules g) ->
  In y (skipn (if mem p Ps then 1 else 0) (body p)) ->
  In y (cfg_N g) ->
  In y (retained_filter g Ps).
Proof.
  intros Hp Hy HN. unfold retained_filter.
  assert (Hmono : forall (s : list Symbol) (x : Symbol),
             In y s ->
             In y (if is_nonterminal g x then set_add x s else s)).
  { intros s x Hs. destruct (is_nonterminal g x); [| exact Hs].
    apply In_set_add. now right. }
  apply fold_set_In with (x := p); [| exact Hp |].
  - intros s q Hs. apply fold_set_incl; [exact Hmono | exact Hs].
  - intros s. apply fold_set_In with (x := y); [exact Hmono | exact Hy |].
    intros s'. unfold is_nonterminal, is_terminal.
    assert (Hm : mem y (cfg_V g) = false).
    { apply mem_false. now apply (wf_disjoint Hwf). }
    rewrite Hm. simpl. apply In_set_add. now left.
Qed.

Lemma den2num_reach (x : Symbol) :
  In x (cfg_N g) \/ In x (cfg_V g) ->
  den2num g Ps x = Ok (reach Ps (List.length Ps) [x]).
Proof. intros Hx. unfold den2num. now rewrite In_NV. Qed.

(** With the filter, the retained nonterminals do. *)
Lemma licensed_filtered (u : Useful) :
  useful g Xs' Ps true = Ok u ->
  licensed g Xs Ps id (GLCT_rules g Xs' Ps id u)
           (fun Y => In Y (retained_filter g Ps)).
Proof.
  unfold useful.
  destruct (sequence (map (den2num g Ps) Xs')) as [nums |] eqn:Hnums;
    [| discriminate].
  cbn [obind].
  match goal with
  | |- context [sequence (map ?f (List.concat nums))] =>
      set (fmid := f);
      destruct (sequence (map fmid (List.concat nums))) as [mids |] eqn:Hmids;
      [| discriminate]
  end.
  cbn [obind]. intros [= <-].
  pose proof (wf_nonzero Hwf) as Hnz.
  (* what is reachable from a member of [Xs] is in [nums] *)
  assert (Hreach : forall X z,
             In X Xs -> In X (cfg_N g) \/ In X (cfg_V g) ->
             lc_path Ps X z -> In z (List.concat nums)).
  { intros X z HX HNV Hp. apply HXs in HX.
    destruct (@sequence_In _ _ _ _ _ _ Hnums HX) as [r [Hr Hin]].
    rewrite (den2num_reach _ HNV) in Hr. injection Hr as <-.
    apply in_concat. eexists. split; [exact Hin |].
    now apply reach_complete. }
  assert (Hnum : forall b0 Y,
             In b0 (cfg_N g) \/ In b0 (cfg_V g) ->
             lc_path Ps b0 Y -> In Y (retained_filter g Ps) ->
             In Y (set_inter (den2num_get g Ps b0) (retained_filter g Ps))).
  { intros b0 Y HNV Hp HY. apply In_set_inter. split; [| exact HY].
    unfold den2num_get. rewrite (den2num_reach _ HNV).
    now apply reach_complete. }
  split.
  - now apply GLCT_V.
  - intros Y HY HX. apply GLCT_frozen_only; auto.
    now rewrite HXs.
  - intros X Y HY HX HNV Hp. apply GLCT_recover; auto; [now apply HXs |].
    simpl. now apply Hnum.
  - intros X Y HY HX HNV Hp. apply GLCT_base; auto. simpl.
    apply In_set_of. apply filter_In. split.
    + now apply (Hreach X).
    + now apply mem_In.
  - intros p b0 rest X Y Hp Hb HY HpY HX HNV HXb Hb0.
    assert (Hb0Y : lc_path Ps b0 Y).
    { apply lc_path_trans with (y := head p); [| exact HpY].
      eapply lc_step; [apply lc_refl | exact Hp | exact Hb]. }
    apply GLCT_slash; auto; simpl.
    + now apply Hnum.
    + apply In_set_of.
      assert (Hin : In b0 (List.concat nums)) by now apply (Hreach X).
      destruct (@sequence_In _ _ _ _ _ _ Hmids Hin) as [r [Hr Hr']].
      apply in_concat. exists r. split; [exact Hr' |].
      unfold fmid in Hr. rewrite (den2num_reach _ Hb0) in Hr.
      cbn [obind] in Hr.
      assert (Hex : existsb (fun num => mem num (retained_filter g Ps))
                            (reach Ps (List.length Ps) [b0]) = true).
      { apply existsb_exists. exists Y. split.
        - now apply reach_complete.
        - now apply mem_In. }
      rewrite Hex in Hr. injection Hr as <-. now left.
  - intros p Hp HPs. now apply GLCT_frozen_base.
  - intros p b0 rest Hp Hb HX. apply GLCT_frozen_rec; auto.
    now rewrite HXs.
  - intros p y. apply retained_children.
Qed.

Lemma retained_nonterminal (Y : Symbol) :
  In Y (retained_filter g Ps) -> ~ In Y (cfg_V g).
Proof.
  unfold retained_filter. revert Y.
  apply fold_left_inv
    with (P := fun s : list Symbol => forall Y, In Y s -> ~ In Y (cfg_V g)).
  - intros Y [<- | []]. apply (wf_disjoint Hwf), (wf_start Hwf).
  - intros s p _ Hs.
    apply fold_left_inv
      with (P := fun s : list Symbol => forall Y, In Y s -> ~ In Y (cfg_V g));
      [exact Hs |].
    intros s' x _ Hs' Y. unfold is_nonterminal, is_terminal.
    destruct (mem x (cfg_V g)) eqn:Hm; simpl; [apply Hs' |].
    intros HY. apply In_set_add in HY as [-> | HY]; [| now apply Hs'].
    now apply mem_false.
Qed.

Lemma recoverable_start (filter : bool) :
  recoverable g Ps filter (cfg_S g).
Proof.
  destruct filter; simpl; [apply retained_start | apply (wf_start Hwf)].
Qed.

Lemma recoverable_nonterminal (filter : bool) (Y : Symbol) :
  recoverable g Ps filter Y -> ~ In Y (cfg_V g).
Proof.
  destruct filter; simpl;
    [apply retained_nonterminal | apply (wf_disjoint Hwf)].
Qed.

(** Either way [GLCT] has the rules for the recoverable symbols. *)
Lemma GLCT_licensed (filter : bool) (G' : CFG R) :
  GLCT g Xs' Ps id filter = Ok G' ->
  licensed g Xs Ps id G' (recoverable g Ps filter).
Proof.
  unfold GLCT. destruct (ctor_asserts g Ps); [| discriminate].
  destruct (useful g Xs' Ps filter) as [u |] eqn:Hu; [| discriminate].
  cbn [obind]. intros [= <-]. destruct filter.
  - now apply licensed_filtered.
  - now apply licensed_unfiltered.
Qed.

Lemma ctor_asserts_rules :
  ctor_asserts g Ps = true ->
  (forall p, In p Ps -> In p (cfg_rules g))
  /\ (forall p, In p Ps -> body p <> []).
Proof.
  unfold ctor_asserts. intros H. apply andb_prop in H as [H1 H2].
  unfold subset in H1. rewrite forallb_forall in H1, H2.
  split; intros p Hp.
  - apply mem_In. now apply H1.
  - specialize (H2 p Hp). destruct (body p); [discriminate | discriminate].
Qed.
End GLCTLicensed.

(** ** The GLCT mapping *)

Lemma one_nonzero {R} {SR : Semiring R} {L : SemiringLaws R} (v : R) :
  v <> zero -> (one : R) <> zero.
Proof.
  intros Hv H1. apply Hv.
  rewrite <- (times_one_r v), H1. apply times_zero_r.
Qed.

Lemma GLCT_asserts {R} {SR : Semiring R} (g G' : CFG R)
  (Xs : list Symbol) (Ps : list (Rule R)) (id : Z) (filter : bool) :
  GLCT g Xs Ps id filter = Ok G' -> ctor_asserts g Ps = true.
Proof. unfold GLCT. destruct (ctor_asserts g Ps); [reflexivity | discriminate]. Qed.

(** The image of a derivation rooted at a recoverable symbol. *)
Lemma GLCT_image {R} {SR : Semiring R} {L : SemiringLaws R}
  (g G' : CFG R) (Xs : list Symbol) (Ps : list (Rule R)) (filter : bool)
  (id : Z) (d : Tree R) :
  (forall a b : R, a ⊗ b = b ⊗ a) ->
  well_formed g ->
  lc_generalized g Xs (Some Ps) filter id = Ok G' ->
  derivation_of g d ->
  recoverable g Ps filter (label d) ->
  exists t,
    mapping g Xs Ps id filter d = Ok t
    /\ kept_image G' d t
    /\ weight d = Ok (Some (tree_weight d)).
Proof.
  intros Hcomm Hwf HG Hd Hrec. unfold lc_generalized in HG.
  assert (Hc : ctor_asserts g Ps = true)
    by (eapply GLCT_asserts; exact HG).
  pose proof Hc as Hspec.
  apply ctor_asserts_rules in Hc as [HPs Hbody].
  assert (Hnode : isDerivation d = true).
  { destruct Hd as [a Ha | p ys Hp Hb Hys]; [| reflexivity].
    exfalso. eapply recoverable_nonterminal; eassumption. }
  assert (Hone : (one : R) <> zero).
  { destruct Hd as [a Ha | p ys Hp Hb Hys]; [discriminate |].
    eapply one_nonzero. eapply wf_nonzero; eassumption. }
  assert (Hlic : licensed g Xs Ps id G' (recoverable g Ps filter)).
  { apply GLCT_licensed with (Xs' := set_of Xs); auto.
    intros x. apply In_set_of. }
  edestruct (@mapping_kept R SR _ Hcomm g Xs Ps id G'
               (recoverable g Ps filter)) as [t [Ht Hk]]; eauto.
  exists t. split.
  { unfold mapping, Speculation. rewrite Hspec. exact Ht. }
  split; [exact Hk |].
  eapply weight_tree_weight; eassumption.
Qed.

(** *** The structure of the image, whatever the product

    Neither the constructor of [GLCT] nor the mapping multiplies weights,
    so both are the same over [Flat SR], whose product commutes: what was
    shown above of the image holds there, and everything in it but the
    weight is a statement about [SR] too. *)

Section FlatProduct.
Context {R : Type} {SR : Semiring R} {L : SemiringLaws R}.
Hypothesis Hone : (one : R) <> zero.

Lemma flat_times_comm (a b : R) : flat_times a b = flat_times b a.
Proof.
  unfold flat_times.
  destruct (weq a one) eqn:Ea, (weq b one) eqn:Eb; try reflexivity.
  apply weq_true in Ea, Eb. congruence.
Qed.

Lemma flat_times_one_l (a : R) : flat_times one a = a.
Proof. unfold flat_times. now rewrite weq_refl. Qed.

Lemma flat_times_one_r (a : R) : flat_times a one = a.
Proof. now rewrite flat_times_comm, flat_times_one_l. Qed.

Lemma flat_times_other (a b : R) :
  a <> one -> b <> one -> flat_times a b = zero.
Proof.
  intros Ha Hb. unfold flat_times.
  destruct (weq a one) eqn:Ea; [apply weq_true in Ea; contradiction |].
  destruct (weq b one) eqn:Eb; [apply weq_true in Eb; contradiction |].
  reflexivity.
Qed.

Lemma flat_times_zero_r (a : R) : a <> one -> flat_times a zero = zero.
Proof. intros Ha. apply flat_times_other; [exact Ha | congruence]. Qed.

Lemma flat_times_assoc (a b c : R) :
  flat_times a (flat_times b c) = flat_times (flat_times a b) c.
Proof.
  assert (Hdec : forall x : R, x = one \/ x <> one).
  { intros x. destruct (weq x one) eqn:E;
      [left; now apply weq_true | right; now apply weq_false]. }
  destruct (Hdec a) as [-> | Ha]; [now rewrite !flat_times_one_l |].
  destruct (Hdec b) as [-> | Hb];
    [now rewrite flat_times_one_l, flat_times_one_r |].
  destruct (Hdec c) as [-> | Hc]; [now rewrite !flat_times_one_r |].
  rewrite (flat_times_other Hb Hc), (flat_times_other Ha Hb).
  rewrite (flat_times_zero_r Ha).
  rewrite flat_times_comm. symmetry. now apply flat_times_zero_r.
Qed.

Lemma Flat_laws : @MonoidLaws R (Flat SR).
Proof.
  split.
  - exact flat_times_assoc.
  - exact flat_times_one_l.
  - exact flat_times_one_r.
  - exact (@weq_eq R SR L).
Qed.
End FlatProduct.

Lemma Flat_well_formed {R} {SR : Semiring R} (g : CFG R) :
  well_formed g -> @well_formed R (Flat SR) g.
Proof. intros [H1 H2 H3 H4 H5]. now split. Qed.

Lemma Flat_licensed {R} {SR : Semiring R} (g G' : CFG R)
  (Xs : list Symbol) (Ps : list (Rule R)) (id : Z) (kept : Symbol -> Prop) :
  licensed g Xs Ps id G' kept -> @licensed R (Flat SR) g Xs Ps id G' kept.
Proof. intros [H1 H2 H3 H4 H5 H6 H7 H8]. now split. Qed.

(** A derivation tree over [Flat SR] is one over [SR], with another
    weight. *)
Lemma Flat_derives {R} {SR : Semiring R} (G : CFG R) (t : Tree R) :
  forall v, @derives R (Flat SR) G t v -> exists v', derives G t v'.
Proof.
  induction t as [a | r x ys IH] using Tree_ind_nested; intros v H.
  - inversion H; subst. exists one. now apply dr_leaf.
  - inversion H as [| r' x' ys' p vs Hp Hh Hb Hys]; subst.
    assert (Hkids : exists vs', Forall2 (derives G) ys vs').
    { clear - IH Hys. induction Hys as [| y v ys vs Hy _ IHys].
      - exists []. constructor.
      - inversion IH as [| ? ? IHy IH']; subst.
        destruct (IHy _ Hy) as [v' Hv'].
        destruct (IHys IH') as [vs' Hvs'].
        exists (v' :: vs'). now constructor. }
    destruct Hkids as [vs' Hvs'].
    exists (fold_left times vs' (w p)).
    now apply dr_node with (p := p).
Qed.

(** The image of a derivation rooted at a recoverable symbol, without
    its weight. *)
Lemma GLCT_image_structure {R} {SR : Semiring R} {L : SemiringLaws R}
  (g G' : CFG R) (Xs : list Symbol) (Ps : list (Rule R)) (filter : bool)
  (id : Z) (d : Tree R) :
  well_formed g ->
  lc_generalized g Xs (Some Ps) filter id = Ok G' ->
  derivation_of g d ->
  recoverable g Ps filter (label d) ->
  exists t,
    mapping g Xs Ps id filter d = Ok t
    /\ (exists v, derives G' t v)
    /\ label t = label d
    /\ Yield t = Yield d
    /\ unmap t = shape d.
Proof.
  intros Hwf HG Hd Hrec. unfold lc_generalized in HG.
  assert (Hc : ctor_asserts g Ps = true)
    by (eapply GLCT_asserts; exact HG).
  pose proof Hc as Hspec.
  apply ctor_asserts_rules in Hc as [HPs Hbody].
  assert (Hnode : isDerivation d = true).
  { destruct Hd as [a Ha | p ys Hp Hb Hys]; [| reflexivity].
    exfalso. eapply recoverable_nonterminal; eassumption. }
  assert (Hone : (one : R) <> zero).
  { destruct Hd as [a Ha | p ys Hp Hb Hys]; [discriminate |].
    eapply one_nonzero. eapply wf_nonzero; eassumption. }
  assert (Hlic : licensed g Xs Ps id G' (recoverable g Ps filter)).
  { apply GLCT_licensed with (Xs' := set_of Xs); auto.
    intros x. apply In_set_of. }
  destruct (@mapping_kept R (Flat SR) (Flat_laws Hone) flat_times_comm
              g Xs Ps id G' (recoverable g Ps filter)
              (Flat_well_formed Hwf) Hbody (Flat_licensed Hlic)
              d Hd Hnode Hrec)
    as [t [Ht [Hder [Hlab [Hy Hu]]]]].
  exists t. split.
  { unfold mapping, Speculation. rewrite Hspec. exact Ht. }
  split; [eapply Flat_derives; exact Hder |].
  auto.
Qed.

(** C1 (amended).  For a well-formed grammar [g] on which
    [lc_generalized g Xs Ps] returns the grammar [G'], every derivation
    [d] of [g] rooted at a recoverable symbol (the start symbol is one) is
    mapped by [GLCT.mapping] to a derivation tree of [G'] with the same
    root and the same yield; if the product of the semiring commutes,
    the weights of the rules of [G'] multiply in it to the weight of [d];
    and two such derivations with the same image are equal as
    [Derivation]s.  Only the weight needs the product to commute. *)
Theorem GLCT_mapping_correct {R} {SR : Semiring R} {L : SemiringLaws R}
  (g G' : CFG R) (Xs : list Symbol) (Ps : list (Rule R)) (filter : bool)
  (id : Z) :
  well_formed g ->
  lc_generalized g Xs (Some Ps) filter id = Ok G' ->
  recoverable g Ps filter (cfg_S g)
  /\ (forall d,
        derivation_of g d -> recoverable g Ps filter (label d) ->
        exists t v,
          mapping g Xs Ps id filter d = Ok t
          /\ weight d = Ok (Some v)
          /\ (exists v', derives G' t v')
          /\ label t = label d
          /\ Yield t = Yield d
          /\ ((forall a b : R, a ⊗ b = b ⊗ a) -> derives G' t v))
  /\ (forall d1 d2 t,
        derivation_of g d1 -> recoverable g Ps filter (label d1) ->
        derivation_of g d2 -> recoverable g Ps filter (label d2) ->
        mapping g Xs Ps id filter d1 = Ok t ->
        mapping g Xs Ps id filter d2 = Ok t ->
        Tree_eqb d1 d2 = true).
Proof.
  intros Hwf HG. split; [| split].
  - now apply recoverable_start.
  - intros d Hd Hrec.
    destruct (@GLCT_image_structure R SR L g G' Xs Ps filter id d Hwf HG Hd
                Hrec)
      as [t [Ht [Hder [Hlab [Hy _]]]]].
    assert (Hnode : isDerivation d = true).
    { destruct Hd as [a Ha | p ys Hp Hb Hys]; [| reflexivity].
      exfalso. eapply recoverable_nonterminal; eassumption. }
    exists t, (tree_weight d).
    split; [exact Ht |].
    split; [eapply weight_tree_weight; eassumption |].
    split; [exact Hder |]. split; [exact Hlab |]. split; [exact Hy |].
    intros Hcomm.
    destruct (@GLCT_image R SR L g G' Xs Ps filter id d Hcomm Hwf HG Hd Hrec)
      as [t' [Ht' [[Hder' _] _]]].
    rewrite Ht in Ht'. injection Ht' as <-. exact Hder'.
  - intros d1 d2 t Hd1 Hrec1 Hd2 Hrec2 Ht1 Ht2.
    destruct (@GLCT_image_structure R SR L g G' Xs Ps filter id d1 Hwf HG
                Hd1 Hrec1)
      as [t1 [Ht1' [_ [_ [_ Hu1]]]]].
    destruct (@GLCT_image_structure R SR L g G' Xs Ps filter id d2 Hwf HG
                Hd2 Hrec2)
      as [t2 [Ht2' [_ [_ [_ Hu2]]]]].
    rewrite Ht1 in Ht1'. rewrite Ht2 in Ht2'.
    injection Ht1' as <-. injection Ht2' as <-.
    apply shape_Tree_eqb. now rewrite <- Hu1, <- Hu2.
Qed.

Lemma well_formedb_ok {R} {SR : Semiring R} {L : SemiringLaws R}
  (g : CFG R) :
  well_formedb g = true -> well_formed g.
Proof.
  unfold well_formedb. intros H.
  apply andb_prop in H as [H Hplain]. apply andb_prop in H as [H Hnz].
  apply andb_prop in H as [H Hdis]. apply andb_prop in H as [HS Hheads].
  rewrite forallb_forall in Hheads, Hdis, Hnz, Hplain.
  split.
  - now apply mem_In.
  - intros p Hp. apply mem_In. now apply Hheads.
  - intros x Hx. apply mem_false. apply negb_true_iff. now apply Hdis.
  - intros p Hp Hw. specialize (Hnz p Hp). apply negb_true_iff in Hnz.
    apply weq_false in Hnz. contradiction.
  - intros x Hx. specialize (Hplain x Hx). now destruct x.
Qed.

(** Membership in a list that computes to a literal. *)
Ltac in_list := vm_compute; repeat (first [left; reflexivity | right]).

(** C1, witness: the left-recursive grammar [g_left] with [Xs = {S}] and
    [Ps = {S → S a}], and its derivation of [b a]. *)
Lemma GLCT_mapping_correct_witness :
  exists G' t v,
    lc_generalized g_left [Str "S"] (Some [rule_Sa]) true 0 = Ok G'
    /\ mapping g_left [Str "S"] [rule_Sa] 0 true d_ba = Ok t
    /\ weight d_ba = Ok (Some v)
    /\ derives G' t v
    /\ label t = label d_ba
    /\ Yield t = Yield d_ba.
Proof.
  destruct (lc_generalized g_left [Str "S"] (Some [rule_Sa]) true 0)
    as [G' | e] eqn:HG; [| vm_compute in HG; discriminate HG].
  assert (Hwf : well_formed g_left) by (apply well_formedb_ok; reflexivity).
  assert (Hd : derivation_of g_left d_ba).
  { unfold d_ba. apply dv_node with (p := rule_Sa);
      [in_list | reflexivity |].
    apply Forall_cons; [| apply Forall_cons; [| apply Forall_nil]].
    - apply dv_node with (p := rule_b); [in_list | reflexivity |].
      apply Forall_cons; [| apply Forall_nil].
      apply dv_leaf. in_list.
    - apply dv_leaf. in_list. }
  destruct (@GLCT_mapping_correct bool Boolean Boolean_laws g_left G'
              [Str "S"] [rule_Sa] true 0 Hwf HG)
    as [HS [Himg _]].
  destruct (Himg d_ba Hd HS) as [t [v [H1 [H2 [_ [H4 [H5 H6]]]]]]].
  exists G', t, v. split; [reflexivity |].
  split; [exact H1 |]. split; [exact H2 |].
  split; [exact (H6 Bool.andb_comm) |]. split; [exact H4 | exact H5].
Defined.

(** Inversion of [derives] on a tree and a grammar that are literals. *)
Ltac inv_derives :=
  repeat match goal with
    | H : derives _ (Leaf _) _ |- _ => inversion H; subst; clear H
    | H : derives _ (Derivation _ _ _) _ |- _ => inversion H; subst; clear H
    | H : Forall2 _ (_ :: _) _ |- _ => inversion H; subst; clear H
    | H : Forall2 _ [] _ |- _ => inversion H; subst; clear H
    | H : In _ (cfg_rules _) |- _ => simpl in H
    | H : _ \/ _ |- _ => destruct H as [H | H]
    | H : False |- _ => destruct H
    | H : mkRule _ _ _ = ?p |- _ => subst p
    | H : head _ = _ |- _ => simpl in H; try discriminate H; clear H
    | H : body _ = _ |- _ => simpl in H; try discriminate H; clear H
    end.

(** ... and its construction. *)
Ltac in_any := (left; reflexivity) + (right; in_any).

Ltac derives_tac :=
  lazymatch goal with
  | |- derives _ (Leaf _) _ => apply dr_leaf; in_list
  | |- derives _ (Derivation _ _ _) _ =>
      eapply dr_node;
      [simpl; in_any | reflexivity | reflexivity | derives_kids]
  end
with derives_kids :=
  lazymatch goal with
  | |- Forall2 _ [] _ => apply Forall2_nil
  | |- Forall2 _ (_ :: _) _ => apply Forall2_cons; [derives_tac | derives_kids]
  end.

(** C1 as stated fails: the image has the same weight only if [⊗]
    commutes.  With [u: S → S a] and [v: S → b] over the triangular
    matrices, the derivation of [b a] weighs [u ⊗ v = v]; its image
    applies [~S → b] before [S/S → a S/S], so the rules of the new grammar
    multiply to [v ⊗ u = zero] in it.  ([Derivation.weight] itself fails
    on the image, whose nodes are made by [tree] and carry no weight.) *)
Lemma GLCT_mapping_weight_noncommutative :
  well_formed g_noncomm
  /\ derivation_of g_noncomm d_noncomm
  /\ label d_noncomm = cfg_S g_noncomm
  /\ weight d_noncomm = Ok (Some tri_v)
  /\ tri_v <> zero
  /\ exists G' t,
       lc_generalized g_noncomm [Str "S"] (Some [rule_Sa_u]) true 0 = Ok G'
       /\ mapping g_noncomm [Str "S"] [rule_Sa_u] 0 true d_noncomm = Ok t
       /\ label t = label d_noncomm
       /\ Yield t = Yield d_noncomm
       /\ weight t = Raise TypeError
       /\ (exists v, derives G' t v)
       /\ (forall v, derives G' t v -> v = zero).
Proof.
  split; [apply well_formedb_ok; reflexivity |].
  split.
  { unfold d_noncomm. apply dv_node with (p := rule_Sa_u);
      [in_list | reflexivity |].
    apply Forall_cons; [| apply Forall_cons; [| apply Forall_nil]].
    - apply dv_node with (p := rule_b_v); [in_list | reflexivity |].
      apply Forall_cons; [| apply Forall_nil].
      apply dv_leaf. in_list.
    - apply dv_leaf. in_list. }
  split; [reflexivity |]. split; [reflexivity |].
  split; [discriminate |].
  eexists. eexists.
  split; [vm_compute; reflexivity |].
  split; [vm_compute; reflexivity |].
  split; [reflexivity |]. split; [reflexivity |].
  split; [reflexivity |].
  split.
  - eexists. derives_tac.
  - intros v H. inv_derives. reflexivity.
Qed.

(** A nonterminal that is itself a [Slash] is taken for a spine by the
    transpose, which then fails. *)
Example GLCT_mapping_slash_symbol_raises :
  derivation_of g_slashed d_Qc
  /\ label d_Qc = cfg_S g_slashed
  /\ (exists G',
        lc_generalized g_slashed [Str "c"] (Some [rule_Qc]) true 0 = Ok G')
  /\ mapping g_slashed [Str "c"] [rule_Qc] 0 true d_Qc = Raise AttributeError.
Proof.
  split.
  { unfold d_Qc. apply dv_node with (p := rule_Qc);
      [in_list | reflexivity |].
    apply Forall_cons; [| apply Forall_nil]. apply dv_leaf. in_list. }
  split; [reflexivity |].
  split; [eexists; vm_compute; reflexivity |].
  reflexivity.
Qed.

(** Under the filter, a derivation rooted at a nonterminal that is not
    retained has an image whose root has no rule in the new grammar. *)
Example GLCT_mapping_unrecoverable_root :
  well_formed g_spine
  /\ derivation_of g_spine d_Ac
  /\ ~ recoverable g_spine [rule_Ab; rule_Aa; rule_c] true (label d_Ac)
  /\ exists G' t,
       lc_generalized g_spine [Str "c"] (Some [rule_Ab; rule_Aa; rule_c])
                      true 0 = Ok G'
       /\ mapping g_spine [Str "c"] [rule_Ab; rule_Aa; rule_c] 0 true d_Ac = Ok t
       /\ forall v, ~ derives G' t v.
Proof.
  split; [apply well_formedb_ok; reflexivity |].
  split.
  { unfold d_Ac. apply dv_node with (p := rule_c);
      [in_list | reflexivity |].
    apply Forall_cons; [| apply Forall_nil]. apply dv_leaf. in_list. }
  split.
  { vm_compute. intros [H | []]. discriminate H. }
  eexists. eexists.
  split; [vm_compute; reflexivity |].
  split; [vm_compute; reflexivity |].
  intros v H. inv_derives.
Qed.


(** A nonterminal that is itself a [Frozen] symbol can be taken for the
    frozen side of another: with the default [id = 0] the name that
    [_frozen] gives to [A] is the nonterminal [~A] of the grammar, and the
    derivations [S → (~A → c)] and [S → (A → (~A → c))], which differ,
    have the same image. *)
Example GLCT_mapping_frozen_symbol_collides :
  In (cfg_S g_frozen) (cfg_N g_frozen)
  /\ (forall p, In p (cfg_rules g_frozen) ->
                In (head p) (cfg_N g_frozen) /\ w p <> zero)
  /\ (forall x, In x (cfg_N g_frozen) -> ~ In x (cfg_V g_frozen))
  /\ derivation_of g_frozen d_SFc
  /\ derivation_of g_frozen d_SAFc
  /\ label d_SFc = cfg_S g_frozen
  /\ label d_SAFc = cfg_S g_frozen
  /\ Tree_eqb d_SFc d_SAFc = false
  /\ exists G' t,
       lc_generalized g_frozen [] (Some [rule_SA; rule_AF]) true 0 = Ok G'
       /\ mapping g_frozen [] [rule_SA; rule_AF] 0 true d_SFc = Ok t
       /\ mapping g_frozen [] [rule_SA; rule_AF] 0 true d_SAFc = Ok t.
Proof.
  assert (HFc : derivation_of g_frozen d_Fc).
  { unfold d_Fc. apply dv_node with (p := rule_Fc);
      [in_list | reflexivity |].
    apply Forall_cons; [| apply Forall_nil]. apply dv_leaf. in_list. }
  split; [in_list |].
  split.
  { intros p Hp. vm_compute in Hp.
    destruct Hp as [<- | [<- | [<- | [<- | []]]]];
      (split; [in_list | discriminate]). }
  split.
  { intros x Hx. vm_compute in Hx.
    destruct Hx as [<- | [<- | [<- | []]]];
      vm_compute; intros [H | []]; discriminate H. }
  split.
  { unfold d_SFc. apply dv_node with (p := rule_SF);
      [in_list | reflexivity |].
    apply Forall_cons; [exact HFc | apply Forall_nil]. }
  split.
  { unfold d_SAFc. apply dv_node with (p := rule_SA);
      [in_list | reflexivity |].
    apply Forall_cons; [| apply Forall_nil].
    apply dv_node with (p := rule_AF); [in_list | reflexivity |].
    apply Forall_cons; [exact HFc | apply Forall_nil]. }
  split; [reflexivity |]. split; [reflexivity |]. split; [reflexivity |].
  eexists. eexists.
  split; [vm_compute; reflexivity |].
  split; [vm_compute; reflexivity |].
  vm_compute. reflexivity.
Qed.


(* ===================================================================== *)
(** * Part III.  Further properties of the program                        *)
(* ===================================================================== *)

(** ** Equality of derivations *)

Section DerivationEq.
Context {R : Type} {SR : Semiring R}.

Lemma Tree_eqb_node (r r' : Rule (option R)) (x x' : Symbol)
  (ys ys' : list (Tree R)) :
  Tree_eqb (Derivation r x ys) (Derivation r' x' ys')
  = beq x x' && list_beq (E := @Tree_eqb R) ys ys'.
Proof.
  simpl. f_equal. revert ys'.
  induction ys as [| y ys IH]; intros [| y' ys']; simpl; try reflexivity.
  now rewrite IH.
Qed.

Lemma Tree_eqb_shape (d e : Tree R) :
  Tree_eqb d e = true -> shape d = shape e.
Proof.
  revert e. induction d as [a | r x ys IH] using Tree_ind_nested;
    intros [b | r' x' ys']; try discriminate.
  - simpl. intros H. apply Symbol_eqb_eq in H. now subst.
  - rewrite Tree_eqb_node. intros H. apply andb_prop in H as [Hx Hys].
    apply Symbol_eqb_eq in Hx. subst x'. simpl. unfold tree. f_equal.
    + f_equal. revert ys' Hys.
      induction IH as [| y ys Hy _ IHys]; intros [| y' ys']; simpl;
        try discriminate; [reflexivity |].
      intros H. apply andb_prop in H as [H1 H2].
      assert (Hl : label (shape y) = label (shape y'))
        by now rewrite (Hy _ H1).
      rewrite Hl. f_equal. now apply IHys.
    + revert ys' Hys.
      induction IH as [| y ys Hy _ IHys]; intros [| y' ys']; simpl;
        try discriminate; [reflexivity |].
      intros H. apply andb_prop in H as [H1 H2].
      rewrite (Hy _ H1). f_equal. now apply IHys.
Qed.

Lemma shape_label (d : Tree R) : label (shape d) = label d.
Proof. now destruct d. Qed.

Lemma shape_Yield (d : Tree R) : Yield (shape d) = Yield d.
Proof.
  induction d as [a | r x ys IH] using Tree_ind_nested; [reflexivity |].
  simpl. induction IH as [| y ys Hy _ IHys]; [reflexivity |].
  simpl. now rewrite Hy, IHys.
Qed.

(** X1.  [Derivation.__eq__] is an equivalence relation that does not
    look at the stored rules: two derivations are equal exactly when they
    are the same tree once the rules are forgotten. *)
Theorem Derivation_eq_ignores_rules (d e : Tree R) :
  Tree_eqb d e = true <-> shape d = shape e.
Proof. split; [apply Tree_eqb_shape | apply shape_Tree_eqb]. Qed.

(** X2.  Derivations that compare equal have the same root and the same
    yield (whatever their rules and weights are). *)
Theorem Derivation_eq_same_yield (d e : Tree R) :
  Tree_eqb d e = true -> label d = label e /\ Yield d = Yield e.
Proof.
  intros H. apply Tree_eqb_shape in H. split.
  - now rewrite <- (shape_label d), H, shape_label.
  - now rewrite <- (shape_Yield d), H, shape_Yield.
Qed.
End DerivationEq.

Lemma Derivation_eq_same_yield_witness :
  label (Derivation (as_drule rule_b) (Str "S") [Leaf (Str "b")])
  = label (tree (Str "S") [Leaf (Str "b")] : Tree bool)
  /\ Yield (Derivation (as_drule rule_b) (Str "S") [Leaf (Str "b")])
     = Yield (tree (Str "S") [Leaf (Str "b")] : Tree bool).
Proof.
  apply Derivation_eq_same_yield. reflexivity.
Defined.

(** ** The enumeration of derivations *)

Section Enumeration.
Context {R : Type} {SR : Semiring R}.

Lemma In_derivations_list_with (der : Symbol -> list (Tree R))
  (X : list Symbol) (ys : list (Tree R)) :
  In ys (derivations_list_with der X)
  <-> Forall2 (fun x y => In y (der x)) X ys.
Proof.
  revert ys. induction X as [| x0 X IH]; intros ys; simpl.
  - split.
    + intros [<- | []]. constructor.
    + intros H. inversion H. now left.
  - rewrite in_flat_map. split.
    + intros [y [Hy Hin]]. apply in_map_iff in Hin as [ys' [<- Hys']].
      constructor; [exact Hy | now apply IH].
    + intros H. inversion H as [| ? y ? ys' Hy Hys']; subst.
      exists y. split; [exact Hy |]. apply in_map. now apply IH.
Qed.

Lemma height_children (r : Rule (option R)) (x : Symbol)
  (ys : list (Tree R)) (n : nat) :
  height (Derivation r x ys) <= S n <-> Forall (fun y => height y <= n) ys.
Proof.
  simpl. rewrite <- Nat.succ_le_mono.
  induction ys as [| y ys IH]; simpl.
  - split; [constructor | lia].
  - rewrite Nat.max_lub_iff, IH. split.
    + intros [H1 H2]. now constructor.
    + intros H. inversion H. auto.
Qed.

Lemma In_rhs (g : CFG R) (X : Symbol) (r : Rule R) :
  In r (rhs g X) <-> In r (cfg_rules g) /\ head r = X.
Proof.
  unfold rhs. rewrite filter_In.
  split; intros [H1 H2]; (split; [exact H1 |]); now apply Symbol_eqb_eq.
Qed.

Lemma derivations_upto_sound (g : CFG R) (n : nat) :
  forall X d,
    In d (derivations_upto g n X) ->
    derivation_of g d /\ label d = X /\ height d <= n.
Proof.
  induction n as [| n IH]; intros X d; simpl;
    destruct (is_terminal g X) eqn:HX.
  - intros [<- | []]. repeat split; [| simpl; lia].
    constructor. now apply mem_In.
  - intros [].
  - intros [<- | []]. repeat split; [| simpl; lia].
    constructor. now apply mem_In.
  - rewrite in_flat_map. intros [r [Hr Hd]].
    apply in_map_iff in Hd as [ys [<- Hys]].
    apply In_rhs in Hr as [Hr <-].
    apply In_derivations_list_with in Hys.
    assert (Hall : Forall2 (fun x y => derivation_of g y /\ label y = x
                                       /\ height y <= n) (body r) ys).
    { eapply Forall2_impl; [| exact Hys]. intros x y. apply IH. }
    clear Hys. repeat split.
    + apply dv_node; [exact Hr | |].
      * induction Hall as [| x y xs ys [_ [Hl _]] _ IHxs]; [reflexivity |].
        simpl. now rewrite Hl, IHxs.
      * induction Hall as [| x y xs ys [Hy _] _ IHxs]; constructor; auto.
    + apply height_children.
      induction Hall as [| x y xs ys [_ [_ Hh]] _ IHxs]; constructor; auto.
Qed.

Lemma derivations_upto_complete (g : CFG R) (n : nat) :
  (forall p, In p (cfg_rules g) -> ~ In (head p) (cfg_V g)) ->
  forall X d,
    derivation_of g d -> label d = X -> height d <= n ->
    In d (derivations_upto g n X).
Proof.
  intros Hheads. induction n as [| n IH]; intros X d Hd Hl Hh.
  - destruct Hd as [a Ha | p ys Hp Hb Hys]; [| simpl in Hh; lia].
    simpl in Hl. subst X. simpl.
    apply mem_In in Ha. unfold is_terminal. rewrite Ha. now left.
  - destruct Hd as [a Ha | p ys Hp Hb Hys].
    + simpl in Hl. subst X. simpl.
      apply mem_In in Ha. unfold is_terminal. rewrite Ha. now left.
    + simpl in Hl. subst X. cbn [derivations_upto].
      assert (HX : is_terminal g (head p) = false).
      { apply mem_false. now apply Hheads. }
      rewrite HX. apply in_flat_map. exists p. split.
      * now apply In_rhs.
      * apply in_map. apply In_derivations_list_with.
        apply height_children in Hh. rewrite Hb. clear Hb Hp.
        induction ys as [| y ys IHys]; [constructor |].
        inversion Hys; subst. inversion Hh; subst.
        simpl. constructor; [| now apply IHys].
        now apply IH.
Qed.

Lemma derivations_characterized (g : CFG R) (X : Symbol) (H : Z)
  (d : Tree R) :
  (In d (derivations g (Some X) H) ->
   derivation_of g d /\ label d = X /\ (Z.of_nat (height d) <= Z.max 0 H)%Z)
  /\ ((forall p, In p (cfg_rules g) -> ~ In (head p) (cfg_V g)) ->
      derivation_of g d -> label d = X ->
      (Z.of_nat (height d) <= Z.max 0 H)%Z ->
      In d (derivations g (Some X) H)).
Proof.
  unfold derivations. split.
  - intros Hd. apply derivations_upto_sound in Hd as [H1 [H2 H3]].
    repeat split; auto. lia.
  - intros Hheads Hd Hl Hh. apply derivations_upto_complete; auto. lia.
Qed.

(** X3.  [derivations(X, H)] yields only derivations of the grammar that
    are rooted at [X] and have height at most [H]; and, when no rule has
    a terminal for its head, it yields every one of them. *)
Theorem derivations_sound_complete (g : CFG R) (X : Symbol) (H : Z)
  (d : Tree R) :
  (In d (derivations g (Some X) H) ->
   derivation_of g d /\ label d = X /\ (Z.of_nat (height d) <= Z.max 0 H)%Z)
  /\ ((forall p, In p (cfg_rules g) -> ~ In (head p) (cfg_V g)) ->
      derivation_of g d -> label d = X ->
      (Z.of_nat (height d) <= Z.max 0 H)%Z ->
      In d (derivations g (Some X) H)).
Proof. apply derivations_characterized. Qed.
End Enumeration.

Lemma derivations_sound_complete_witness :
  In d_ba (derivations g_left (Some (Str "S")) 2).
Proof.
  apply (proj2 (@derivations_sound_complete bool g_left (Str "S") 2
                  d_ba)).
  - intros p Hp. vm_compute in Hp. vm_compute.
    destruct Hp as [<- | [<- | []]]; intros [H | [H | []]]; discriminate H.
  - unfold d_ba. apply dv_node with (p := rule_Sa);
      [in_list | reflexivity |].
    apply Forall_cons; [| apply Forall_cons; [| apply Forall_nil]].
    + apply dv_node with (p := rule_b); [in_list | reflexivity |].
      apply Forall_cons; [| apply Forall_nil].
      apply dv_leaf. in_list.
    + apply dv_leaf. in_list.
  - reflexivity.
  - vm_compute. discriminate.
Defined.


(** ** Accumulation in a chart *)

Section Accumulate.
Context {R : Type} {SR : Semiring R} {L : SemiringLaws R}.
Context {K : Type} {EK : Eqb K} {LK : EqbLaws K}.

(** A loop of updates [c[key a] += val a]. *)
Lemma get_fold_incr {A} (key : A -> K) (val : A -> R) (l : list A)
  (c : Chart R K) (q : K) :
  get (fold_left (fun c a => incr c (key a) (val a)) l c) q
  = get c q ⊕ sum_over (List.filter (fun a => beq (key a) q) l) val.
Proof.
  revert c. induction l as [| a l IH]; intros c; simpl.
  - now rewrite plus_zero_r.
  - rewrite IH, get_incr.
    destruct (beq_reflect q (key a)) as [-> | Hq].
    + rewrite (beq_refl (key a)). simpl. now rewrite plus_assoc.
    + destruct (beq_reflect (key a) q) as [Heq | _]; [congruence |].
      reflexivity.
Qed.
End Accumulate.

(** ** Weights of enumerated derivations, and the language *)

Section Language.
Context {R : Type} {SR : Semiring R} {L : SemiringLaws R}.

Lemma weight_of_derivations (g : CFG R) (X : Symbol) (H : Z) (d : Tree R) :
  ~ In X (cfg_V g) ->
  In d (derivations g (Some X) H) ->
  isDerivation d = true /\ weight d = Ok (Some (tree_weight d)).
Proof.
  intros HX Hd.
  apply derivations_characterized in Hd as [Hd [Hl _]].
  assert (Hnode : isDerivation d = true).
  { destruct Hd as [a Ha | p ys Hp Hb Hys]; [| reflexivity].
    simpl in Hl. subst a. contradiction. }
  split; [exact Hnode |]. now apply (@weight_tree_weight R SR _ g).
Qed.

(** X4.  [weight] never fails on what [derivations] yields for a
    nonterminal: it returns the weight of the root rule multiplied, from
    left to right, by the weights of the children that are derivations. *)
Theorem derivations_weight (g : CFG R) (X : Symbol) (H : Z) (d : Tree R) :
  ~ In X (cfg_V g) ->
  In d (derivations g (Some X) H) ->
  isDerivation d = true /\ weight d = Ok (Some (tree_weight d)).
Proof. apply weight_of_derivations. Qed.

Lemma language_fold (ds : list (Tree R)) (c : Chart R (list Symbol)) :
  (forall d, In d ds ->
     isDerivation d = true /\ weight d = Ok (Some (tree_weight d))) ->
  fold_left
    (fun acc d =>
       lang <~ acc ;;
       match d with
       | Leaf _ => Raise AttributeError
       | Derivation _ _ _ =>
           W <~ weight d ;;
           match W with
           | Some v => Ok (incr lang (Yield d) v)
           | None => Raise TypeError
           end
       end)
    ds (Ok c)
  = Ok (fold_left (fun c d => incr c (Yield d) (tree_weight d)) ds c).
Proof.
  revert c. induction ds as [| d ds IH]; intros c Hds; [reflexivity |].
  cbn [fold_left].
  destruct (Hds d (or_introl eq_refl)) as [Hnode Hw].
  destruct d as [a | r x ys]; [discriminate |].
  cbn [obind]. rewrite Hw. cbn [obind].
  apply IH. intros d' Hd'. apply Hds. now right.
Qed.

(** X5.  [language(depth)] fails with an [AttributeError] when the start
    symbol is a terminal; otherwise it returns a chart that maps a string
    [s] to the sum of the weights of the derivations of the start symbol,
    of height at most [depth], whose yield is [s]. *)
Theorem language_spec (g : CFG R) (depth : Z) :
  (In (cfg_S g) (cfg_V g) -> language g depth = Raise AttributeError)
  /\ (~ In (cfg_S g) (cfg_V g) ->
      exists lang,
        language g depth = Ok lang
        /\ forall s,
             get lang s
             = sum_over
                 (List.filter (fun d => beq (Yield d) s)
                              (derivations g None depth))
                 (@tree_weight R SR)).
Proof.
  split.
  - intros HS. unfold language, derivations.
    assert (Hd : forall n, derivations_upto g n (cfg_S g) = [Leaf (cfg_S g)]).
    { intros n. apply mem_In in HS.
      destruct n; simpl; unfold is_terminal; now rewrite HS. }
    rewrite Hd. reflexivity.
  - intros HS. unfold language. rewrite language_fold.
    + eexists. split; [reflexivity |]. intros s.
      rewrite get_fold_incr. simpl. apply plus_zero_l.
    + intros d Hd. now apply (@weight_of_derivations g (cfg_S g) depth).
Qed.
End Language.

Lemma derivations_weight_witness :
  isDerivation d_ba = true /\ weight d_ba = Ok (Some (tree_weight d_ba)).
Proof.
  apply (@derivations_weight bool Boolean Boolean_laws g_left (Str "S") 2).
  - vm_compute. intros [H | [H | []]]; discriminate H.
  - vm_compute. auto.
Defined.

Lemma language_spec_witness :
  exists lang,
    language g_left 2 = Ok lang
    /\ forall s,
         get lang s
         = sum_over
             (List.filter (fun d => beq (Yield d) s)
                          (derivations g_left None 2))
             (@tree_weight bool Boolean).
Proof.
  apply (proj2 (@language_spec bool Boolean Boolean_laws g_left 2)).
  vm_compute. intros [H | [H | []]]; discriminate H.
Defined.


(** ** keep_nonzero *)

Section KeepNonzero.
Context {R : Type} {SR : Semiring R} {L : SemiringLaws R}.
Context {K : Type} {EK : Eqb K} {LK : EqbLaws K}.

Lemma get_absent (c : Chart R K) (k : K) :
  ~ In k (map fst c) -> get c k = zero.
Proof.
  induction c as [| [k' v] c IH]; simpl; [reflexivity |].
  intros H. destruct (beq_reflect k k') as [-> | _]; [tauto |].
  apply IH. tauto.
Qed.

Lemma keep_nonzero_get_loop (c acc : Chart R K) (q : K) :
  NoDup (map fst c) ->
  (forall k, In k (map fst c) -> get acc k = zero) ->
  get (fold_left
         (fun new '(k, v) => if weq v zero then new else set new k v)
         c acc) q
  = if mem q (map fst c) then get c q else get acc q.
Proof.
  revert acc. induction c as [| [k v] c IH]; intros acc Hnd Hacc;
    [reflexivity |].
  simpl in Hnd. inversion Hnd as [| ? ? Hk Hnd']; subst.
  cbn [fold_left map fst get]. rewrite mem_cons.
  assert (Hq : mem k (map fst c) = false) by now apply mem_false.
  destruct (weq v zero) eqn:Hv.
  - apply weq_true in Hv. subst v. rewrite IH; auto.
    2:{ intros k' Hk'. apply Hacc. now right. }
    destruct (beq_reflect q k) as [-> | _]; [| reflexivity].
    rewrite Hq. simpl. apply Hacc. now left.
  - rewrite IH; auto.
    + destruct (beq_reflect q k) as [-> | Hneq]; simpl.
      * rewrite Hq, get_set. now rewrite (beq_refl k).
      * destruct (mem q (map fst c)); [reflexivity |].
        rewrite get_set.
        destruct (beq_reflect q k) as [Heq | _]; [congruence | reflexivity].
    + intros k' Hk'. rewrite get_set.
      destruct (beq_reflect k' k) as [-> | _]; [contradiction |].
      apply Hacc. now right.
Qed.

Lemma In_delete (c : Chart R K) (k q : K) (v : R) :
  In (q, v) (delete c k) -> In (q, v) c.
Proof.
  induction c as [| [k' v'] c IH]; simpl; [tauto |].
  destruct (beq k k'); simpl; intuition.
Qed.

Lemma In_replace (c : Chart R K) (k q : K) (v v' : R) :
  In (q, v') (replace c k v) -> In (q, v') c \/ v' = v.
Proof.
  induction c as [| [k' v0] c IH]; simpl.
  - intros [[= _ <-] | []]. now right.
  - destruct (beq k k'); simpl.
    + intros [[= _ <-] | H]; [now right | left; now right].
    + intros [H | H]; [left; now left |].
      destruct (IH H); [left; now right | now right].
Qed.

(** X6.  [keep_nonzero] does not change what the chart reads at any
    key, and the chart it returns stores no zero. *)
Theorem keep_nonzero_spec (c : Chart R K) :
  NoDup (map fst c) ->
  (forall q, get (keep_nonzero c) q = get c q)
  /\ (forall q v, In (q, v) (keep_nonzero c) -> v <> zero).
Proof.
  intros Hnd. split.
  - intros q. unfold keep_nonzero. rewrite keep_nonzero_get_loop; auto.
    destruct (mem q (map fst c)) eqn:Hm; [reflexivity |].
    apply mem_false in Hm. simpl. now rewrite get_absent.
  - unfold keep_nonzero. clear Hnd.
    apply fold_left_inv
      with (P := fun new : Chart R K =>
                   forall q v, In (q, v) new -> v <> zero).
    + intros q v [].
    + intros new [k v] _ Hnew q v'.
      destruct (weq v zero) eqn:Hv; [apply Hnew |].
      unfold set. rewrite Hv. intros H.
      apply In_replace in H as [H | ->]; [now apply (Hnew q) |].
      now apply weq_false.
Qed.
End KeepNonzero.

Lemma keep_nonzero_spec_witness :
  (forall q : nat,
     get (keep_nonzero [(0, true); (1, false)]) q
     = get [(0, true); (1, false)] q)
  /\ (forall (q : nat) (v : bool),
        In (q, v) (keep_nonzero [(0, true); (1, false)]) -> v <> zero).
Proof.
  apply (@keep_nonzero_spec bool Boolean Boolean_laws nat _ _).
  repeat constructor; simpl; intuition discriminate.
Defined.

(** ** rename *)

Section Rename.
Context {R : Type} {SR : Semiring R} {L : SemiringLaws R}.

(** A loop of [add]s, spelled out. *)
Lemma fold_add_explicit {A} (wf : A -> R) (hf : A -> Symbol)
  (bf : A -> list Symbol) (l : list A) (new : CFG R) :
  fold_left (fun new a => add_ new (wf a) (hf a) (bf a)) l new
  = mkCFG (cfg_S new) (cfg_V new)
      (fold_left (fun N x => set_add x N)
         (map hf (List.filter (fun a => negb (weq (wf a) zero)) l))
         (cfg_N new))
      (cfg_rules new
       ++ map (fun a => mkRule (wf a) (hf a) (bf a))
              (List.filter (fun a => negb (weq (wf a) zero)) l)).
Proof.
  revert new. induction l as [| a l IH]; intros new; simpl.
  - rewrite app_nil_r. now destruct new.
  - rewrite IH. unfold add_, add.
    destruct (weq (wf a) zero); simpl; [reflexivity |].
    now rewrite <- app_assoc.
Qed.

Lemma filter_map_nonzero {A} (wf : A -> R) (mk : A -> Rule R) (l : list A) :
  (forall a, w (mk a) = wf a) ->
  List.filter (fun r => negb (weq (w r) zero))
    (map mk (List.filter (fun a => negb (weq (wf a) zero)) l))
  = map mk (List.filter (fun a => negb (weq (wf a) zero)) l).
Proof.
  intros Hw. induction l as [| a l IH]; simpl; [reflexivity |].
  destruct (negb (weq (wf a) zero)) eqn:Ha; [| exact IH].
  simpl. rewrite Hw, Ha. now rewrite IH.
Qed.

(** X7.  Renaming twice is renaming with the composed function, as long
    as the first function maps no nonterminal onto a terminal. *)
Theorem rename_compose (g : CFG R) (f1 f2 : Symbol -> Symbol) :
  (forall y, ~ In y (cfg_V g) -> ~ In (f1 y) (cfg_V g)) ->
  rename (rename g f1) f2 = rename g (fun x => f2 (f1 x)).
Proof.
  intros Hf. unfold rename at 1 3.
  rewrite !fold_add_explicit. simpl.
  assert (HV : cfg_V (rename g f1) = cfg_V g).
  { unfold rename. now rewrite fold_add_explicit. }
  assert (HS : cfg_S (rename g f1) = f1 (cfg_S g)).
  { unfold rename. now rewrite fold_add_explicit. }
  assert (Hrules : cfg_rules (rename g f1)
                   = map (fun r => mkRule (w r) (f1 (head r))
                            (map (fun y => if is_terminal g y then y
                                           else f1 y) (body r)))
                         (List.filter (fun r => negb (weq (w r) zero))
                                      (cfg_rules g))).
  { unfold rename. now rewrite fold_add_explicit. }
  rewrite HV, HS, Hrules.
  rewrite (filter_map_nonzero (fun r => w r)) by reflexivity.
  rewrite !map_map. cbn [w head body].
  f_equal. apply map_ext. intros r. f_equal.
  rewrite map_map. apply map_ext. intros y.
  unfold is_terminal. rewrite HV.
  destruct (mem y (cfg_V g)) eqn:Hy; [now rewrite Hy |].
  apply mem_false in Hy. specialize (Hf y Hy). apply mem_false in Hf.
  now rewrite Hf.
Qed.
End Rename.

Lemma rename_compose_witness :
  rename (rename g_left dollar) dollar
  = rename g_left (fun x => dollar (dollar x)).
Proof.
  apply (@rename_compose bool Boolean).
  intros y _. vm_compute. intros [H | [H | []]]; discriminate H.
Defined.


(** ** unfold *)

Section Unfold.
Context {R : Type} {SR : Semiring R} {L : SemiringLaws R}.

Lemma py_index_out {A} (l : list A) (i : Z) :
  (i < - Z.of_nat (List.length l) \/ Z.of_nat (List.length l) <= i)%Z ->
  py_index l i = Raise IndexError.
Proof.
  intros Hi. unfold py_index.
  destruct (i <? 0)%Z eqn:Hneg;
    [apply Z.ltb_lt in Hneg | apply Z.ltb_ge in Hneg].
  - destruct (0 <=? i + Z.of_nat (List.length l))%Z eqn:H0; [| reflexivity].
    apply Z.leb_le in H0. lia.
  - destruct (i <? Z.of_nat (List.length l))%Z eqn:H1;
      [apply Z.ltb_lt in H1; lia |].
    now rewrite andb_false_r.
Qed.

Lemma py_index_in {A} (l : list A) (i : Z) :
  (- Z.of_nat (List.length l) <= i < Z.of_nat (List.length l))%Z ->
  exists x,
    py_index l i = Ok x
    /\ nth_error l (Z.to_nat (i mod Z.of_nat (List.length l))) = Some x.
Proof.
  intros Hi. unfold py_index.
  set (n := Z.of_nat (List.length l)) in *.
  assert (Hj : ((if (i <? 0)%Z then i + n else i) = i mod n)%Z).
  { destruct (i <? 0)%Z eqn:Hneg;
      [apply Z.ltb_lt in Hneg | apply Z.ltb_ge in Hneg].
    - rewrite <- (Z.mod_small (i + n) n) by lia.
      rewrite <- (Z.mul_1_l n) at 1. now rewrite Z.mod_add by lia.
    - now rewrite Z.mod_small by lia. }
  rewrite Hj.
  assert (Hr : (0 <= i mod n < n)%Z) by (apply Z.mod_pos_bound; lia).
  assert (Hb : ((0 <=? i mod n) && (i mod n <? n))%Z = true).
  { apply andb_true_intro. split; [apply Z.leb_le | apply Z.ltb_lt]; lia. }
  rewrite Hb.
  destruct (nth_error l (Z.to_nat (i mod n))) as [x |] eqn:Hx.
  - exists x. auto.
  - apply nth_error_None in Hx. unfold n in Hr. lia.
Qed.

(** X8.  [unfold(i, k)] fails with an [IndexError] when [i] is not an
    index of the list of rules or [k] is not an index of the body of
    rule [i] (negative indices count from the end), fails its assertion
    when the symbol at position [k] is a terminal, and returns a grammar
    otherwise. *)
Theorem unfold_outcome (g : CFG R) (i k : Z) :
  let n := Z.of_nat (List.length (cfg_rules g)) in
  ((i < - n \/ n <= i)%Z -> unfold g i k = Raise IndexError)
  /\ (forall s,
        (- n <= i < n)%Z ->
        nth_error (cfg_rules g) (Z.to_nat (i mod n)) = Some s ->
        let m := Z.of_nat (List.length (body s)) in
        ((k < - m \/ m <= k)%Z -> unfold g i k = Raise IndexError)
        /\ (forall bk,
              (- m <= k < m)%Z ->
              nth_error (body s) (Z.to_nat (k mod m)) = Some bk ->
              (In bk (cfg_V g) -> unfold g i k = Raise AssertionError)
              /\ (~ In bk (cfg_V g) -> exists new, unfold g i k = Ok new))).
Proof.
  intros n. split.
  - intros Hi. unfold unfold. now rewrite py_index_out.
  - intros s Hi Hs m.
    destruct (@py_index_in _ (cfg_rules g) i Hi) as [s' [Hs1 Hs2]].
    fold n in Hs2. rewrite Hs in Hs2. injection Hs2 as <-.
    split.
    + intros Hk. unfold unfold. rewrite Hs1. cbn [obind].
      now rewrite py_index_out.
    + intros bk Hk Hbk.
      destruct (@py_index_in _ (body s) k Hk) as [bk' [Hb1 Hb2]].
      fold m in Hb2. rewrite Hbk in Hb2. injection Hb2 as <-.
      unfold unfold. rewrite Hs1. cbn [obind]. rewrite Hb1. cbn [obind].
      unfold is_nonterminal, is_terminal. split; intros HV.
      * apply mem_In in HV. now rewrite HV.
      * apply mem_false in HV. rewrite HV. simpl. eauto.
Qed.




Lemma mkRule_eta (r : Rule R) : mkRule (w r) (head r) (body r) = r.
Proof. now destruct r. Qed.

End Unfold.

Lemma unfold_outcome_witness : unfold g_left 5 0 = Raise IndexError.
Proof.
  apply (proj1 (@unfold_outcome bool Boolean g_left 5 0)).
  right. vm_compute. discriminate.
Defined.



(** ** unaryremove *)

Section UnaryRemove.
Context {R : Type} {SR : Semiring R}.

Lemma In_rules_add_ (g : CFG R) (w0 : R) (h : Symbol) (b : list Symbol)
  (r : Rule R) :
  In r (cfg_rules (add_ g w0 h b)) ->
  In r (cfg_rules g) \/ r = mkRule w0 h b.
Proof.
  rewrite rules_add_. intros H. apply in_app_or in H as [H | H]; [now left |].
  destruct (weq w0 zero); [contradiction |].
  destruct H as [<- | []]. now right.
Qed.

Lemma cfg_N_add_ {L : SemiringLaws R} (g : CFG R) (w0 : R) (h : Symbol)
  (b : list Symbol) (x : Symbol) :
  In x (cfg_N (add_ g w0 h b)) -> In x (cfg_N g) \/ x = h.
Proof.
  unfold add_, add. destruct (weq w0 zero); simpl; [now left |].
  intros H. apply In_set_add in H. tauto.
Qed.

(** X10.  [unaryremove] returns a grammar over the same terminals and
    start symbol with no unary rule onto a nonterminal; every rule it
    has carries the body of a rule of the input that is not such a unary
    rule, under a head that is a nonterminal of the input. *)
Theorem unaryremove_no_unary (g : CFG R) :
  cfg_S (unaryremove g) = cfg_S g
  /\ cfg_V (unaryremove g) = cfg_V g
  /\ forall r, In r (cfg_rules (unaryremove g)) ->
       unary_nonterminal (unaryremove g) r = false
       /\ In (head r) (cfg_N g)
       /\ exists p, In p (cfg_rules g)
                    /\ unary_nonterminal g p = false
                    /\ body r = body p.
Proof.
  set (P := fun new : CFG R =>
              cfg_S new = cfg_S g /\ cfg_V new = cfg_V g
              /\ forall r, In r (cfg_rules new) ->
                   In (head r) (cfg_N g)
                   /\ exists p, In p (cfg_rules g)
                                /\ unary_nonterminal g p = false
                                /\ body r = body p).
  assert (HP : P (unaryremove g)).
  { unfold unaryremove. apply fold_left_inv.
    - split; [reflexivity |]. split; [reflexivity |]. intros r [].
    - intros new p Hp Hnew.
      destruct (unary_nonterminal g p) eqn:Hu; [exact Hnew |].
      apply fold_left_inv; [exact Hnew |].
      intros new' Y HY [HS [HV Hr]].
      split; [now rewrite cfg_S_add_ |].
      split; [now rewrite cfg_V_add_ |].
      intros r Hin.
      apply In_rules_add_ in Hin as [Hin | ->]; [now apply Hr |].
      split; [exact HY |]. exists p. auto. }
  destruct HP as [HS [HV Hr]].
  split; [exact HS |]. split; [exact HV |].
  intros r Hin. destruct (Hr r Hin) as [HN [p [Hp [Hu Hb]]]].
  split; [| split; [exact HN | exists p; auto]].
  unfold unary_nonterminal, is_nonterminal, is_terminal in *.
  now rewrite HV, Hb.
Qed.
End UnaryRemove.

Lemma unaryremove_no_unary_witness :
  cfg_S (unaryremove g_nullable_tail) = cfg_S g_nullable_tail
  /\ cfg_V (unaryremove g_nullable_tail) = cfg_V g_nullable_tail
  /\ forall r, In r (cfg_rules (unaryremove g_nullable_tail)) ->
       unary_nonterminal (unaryremove g_nullable_tail) r = false
       /\ In (head r) (cfg_N g_nullable_tail)
       /\ exists p, In p (cfg_rules g_nullable_tail)
                    /\ unary_nonterminal g_nullable_tail p = false
                    /\ body r = body p.
Proof. apply (@unaryremove_no_unary bool Boolean g_nullable_tail). Defined.

(** ** binarize *)

Section Binarize.
Context {R : Type} {SR : Semiring R} {L : SemiringLaws R}.

Lemma cost_le_size (rs : list (Rule R)) :
  cost rs <= 2 * fold_right (fun r n => 1 + List.length (body r) + n) 0 rs.
Proof.
  induction rs as [| r rs IH]; [simpl; lia |].
  change (cost (r :: rs)) with (pops r + cost rs).
  cbn [fold_right]. unfold pops.
  destruct (Nat.leb (List.length (body r)) 2) eqn:Hlen;
    [| apply Nat.leb_gt in Hlen]; lia.
Qed.

Lemma cost_app (l1 l2 : list (Rule R)) : cost (l1 ++ l2) = cost l1 + cost l2.
Proof. induction l1 as [| p l1 IH]; simpl; [reflexivity | lia]. Qed.

Lemma cost_rev (l : list (Rule R)) : cost (List.rev l) = cost l.
Proof.
  induction l as [| p l IH]; simpl; [reflexivity |].
  rewrite cost_app, IH. simpl. lia.
Qed.

(** The loop, given fuel for every pop: it returns a grammar that has
    the rules it started with, every rule of the stack (with a nonzero
    weight) under its head and weight, the short ones unchanged, and
    otherwise only rules of at most two symbols. *)
Lemma binarize_loop_spec (fuel : nat) :
  forall (stack : list (Rule R)) (new : CFG R) (i : nat),
    cost stack <= fuel ->
    exists g' i',
      binarize_loop fuel new stack i = Ok (g', i')
      /\ cfg_S g' = cfg_S new /\ cfg_V g' = cfg_V new
      /\ incl (cfg_rules new) (cfg_rules g')
      /\ (forall r, In r (cfg_rules g') ->
            In r (cfg_rules new) \/ List.length (body r) <= 2)
      /\ (forall p, In p stack -> w p <> zero ->
            (List.length (body p) <= 2 -> In p (cfg_rules g'))
            /\ exists r, In r (cfg_rules g')
                         /\ head r = head p /\ w r = w p).
Proof.
  induction fuel as [| fuel IH]; intros stack new i Hfuel.
  - destruct stack as [| p stack].
    + exists new, i. split; [reflexivity |].
      split; [reflexivity |]. split; [reflexivity |].
      split; [apply incl_refl |]. split; [intros r Hr; now left |].
      intros p [].
    + simpl in Hfuel. unfold pops in Hfuel.
      destruct (Nat.leb (List.length (body p)) 2) eqn:Hlen;
        [lia |]. apply Nat.leb_gt in Hlen. lia.
  - destruct stack as [| p stack].
    + exists new, i. split; [reflexivity |].
      split; [reflexivity |]. split; [reflexivity |].
      split; [apply incl_refl |]. split; [intros r Hr; now left |].
      intros p [].
    + cbn [binarize_loop]. simpl in Hfuel. unfold pops in Hfuel.
      destruct (Nat.leb (List.length (body p)) 2) eqn:Hlen.
      * apply Nat.leb_le in Hlen.
        destruct (IH stack (add_ new (w p) (head p) (body p)) i)
          as [g' [i' [Hrun [HS [HV [Hincl [Hshort Hstack]]]]]]]; [lia |].
        exists g', i'. split; [exact Hrun |].
        rewrite cfg_S_add_ in HS. rewrite cfg_V_add_ in HV.
        split; [exact HS |]. split; [exact HV |].
        split.
        { intros r Hr. apply Hincl. rewrite rules_add_.
          apply in_or_app. now left. }
        split.
        { intros r Hr. destruct (Hshort r Hr) as [Hr' | Hr']; [| now right].
          apply In_rules_add_ in Hr' as [Hr' | ->]; [now left |].
          right. exact Hlen. }
        intros q [<- | Hin] Hq; [| now apply Hstack].
        assert (Hp : In p (cfg_rules g')).
        { apply Hincl. rewrite <- (mkRule_eta p) at 1. now apply In_add. }
        split; [intros _; exact Hp |]. exists p. auto.
      * apply Nat.leb_gt in Hlen.
        unfold bind. rewrite fold_01. cbn [List.rev app].
        set (fresh := gen_name "" (S i)).
        set (hd := mkRule (w p) (head p) (fresh :: skipn 2 (body p))).
        set (nw := mkRule one fresh (slice (body p) 0 2)).
        assert (Hhd : List.length (body hd) = List.length (body p) - 1).
        { unfold hd. cbn [body List.length]. rewrite length_skipn. lia. }
        assert (Hnw : List.length (body nw) <= 2).
        { unfold nw, slice. cbn [body]. rewrite length_firstn. lia. }
        destruct (IH (hd :: nw :: stack) new (S i))
          as [g' [i' [Hrun [HS [HV [Hincl [Hshort Hstack]]]]]]].
        { simpl. unfold pops. rewrite Hhd.
          apply Nat.leb_le in Hnw. rewrite Hnw.
          destruct (Nat.leb (List.length (body p) - 1) 2) eqn:Hlen';
            [apply Nat.leb_le in Hlen' | apply Nat.leb_gt in Hlen']; lia. }
        exists g', i'. split; [exact Hrun |].
        split; [exact HS |]. split; [exact HV |].
        split; [exact Hincl |]. split; [exact Hshort |].
        intros q [<- | Hin] Hq.
        -- split; [intros Hle; lia |].
           destruct (Hstack hd (or_introl eq_refl) Hq)
             as [_ [r [Hr [Hh Hw]]]].
           exists r. auto.
        -- apply Hstack; [right; right; exact Hin | exact Hq].
Qed.

(** X11.  [binarize] returns a grammar over the same terminals and start
    symbol in which every rule has at most two body symbols; it keeps
    every rule of the input that has at most two body symbols, and for
    each longer rule it has a rule with the same head and weight.  (Rules
    of weight zero are dropped, as [add] does.) *)
Theorem binarize_spec (g : CFG R) (i : nat) :
  exists g' i',
    binarize g i = Ok (g', i')
    /\ cfg_S g' = cfg_S g /\ cfg_V g' = cfg_V g
    /\ (forall r, In r (cfg_rules g') -> List.length (body r) <= 2)
    /\ (forall p, In p (cfg_rules g) -> w p <> zero ->
          (List.length (body p) <= 2 -> In p (cfg_rules g'))
          /\ exists r, In r (cfg_rules g')
                       /\ head r = head p /\ w r = w p).
Proof.
  unfold binarize.
  destruct (@binarize_loop_spec (binarize_fuel g) (List.rev (cfg_rules g))
              (spawn g) i)
    as [g' [i' [Hrun [HS [HV [_ [Hshort Hstack]]]]]]].
  { rewrite cost_rev. unfold binarize_fuel, size. apply cost_le_size. }
  exists g', i'. split; [exact Hrun |].
  split; [exact HS |]. split; [exact HV |]. split.
  - intros r Hr. destruct (Hshort r Hr) as [[] | Hlen]. exact Hlen.
  - intros p Hp. apply Hstack. now apply in_rev in Hp.
Qed.
End Binarize.

Lemma binarize_spec_witness :
  exists g' i',
    binarize g_anbn 0 = Ok (g', i')
    /\ forall r, In r (cfg_rules g') -> List.length (body r) <= 2.
Proof.
  destruct (@binarize_spec bool Boolean Boolean_laws g_anbn 0)
    as [g' [i' [Hrun [_ [_ [Hshort _]]]]]].
  exists g', i'. split; [exact Hrun | exact Hshort].
Defined.


(** ** trim *)

Section SetFacts.
Context {A : Type} {E : Eqb A} {LA : EqbLaws A}.

Lemma NoDup_set_add (x : A) (s : list A) : NoDup s -> NoDup (set_add x s).
Proof.
  intros Hs. unfold set_add. destruct (mem x s) eqn:Hm; [exact Hs |].
  apply mem_false in Hm. apply NoDup_app; [exact Hs | | ].
  - constructor; [intros [] | constructor].
  - intros a Ha [<- | []]. contradiction.
Qed.

Lemma NoDup_set_union (s t : list A) : NoDup s -> NoDup (set_union s t).
Proof.
  unfold set_union. revert s.
  induction t as [| y t IH]; intros s Hs; [exact Hs |].
  simpl. apply IH. now apply NoDup_set_add.
Qed.

Lemma NoDup_set_of (l : list A) : NoDup (set_of l).
Proof. apply (@NoDup_set_union [] l). constructor. Qed.

Lemma length_set_add (x : A) (s : list A) :
  List.length (set_add x s) <= S (List.length s).
Proof.
  unfold set_add. destruct (mem x s); [lia |].
  rewrite length_app. simpl. lia.
Qed.

Lemma length_set_of (l : list A) : List.length (set_of l) <= List.length l.
Proof.
  unfold set_of.
  assert (H : forall s, List.length (fold_left (fun s x => set_add x s) l s)
                        <= List.length s + List.length l).
  { induction l as [| x l IH]; intros s; simpl; [lia |].
    specialize (IH (set_add x s)). pose proof (length_set_add x s). lia. }
  apply (H []).
Qed.

(** A duplicate-free part of [U] and what [U] has outside it. *)
Lemma length_missing (U C : list A) :
  NoDup C -> incl C U ->
  List.length C
  + List.length (List.filter (fun u => negb (mem u C)) U)
  <= List.length U.
Proof.
  intros Hnd Hincl.
  rewrite <- (List.filter_length (fun u => mem u C) U).
  apply Nat.add_le_mono_r.
  apply NoDup_incl_length; [exact Hnd |].
  intros x Hx. apply filter_In. split; [now apply Hincl | now apply mem_In].
Qed.
End SetFacts.

Lemma fold_left_ext {A B} (f f' : A -> B -> A) (l : list B) (a : A) :
  (forall a b, f a b = f' a b) -> fold_left f l a = fold_left f' l a.
Proof.
  intros H. revert a. induction l as [| b l IH]; intros a; simpl;
    [reflexivity |]. now rewrite H, IH.
Qed.

Lemma fold_left_flat_map {A B C} (f : A -> C -> A) (h : B -> list C)
  (l : list B) (a : A) :
  fold_left (fun a b => fold_left f (h b) a) l a
  = fold_left f (flat_map h l) a.
Proof.
  revert a. induction l as [| b l IH]; intros a; simpl; [reflexivity |].
  now rewrite fold_left_app, IH.
Qed.

Section Passes.
Context {X : Type}.
Variable cond : list Symbol -> X -> bool.
Variable elt : X -> Symbol.
Variable U : list Symbol.

Lemma missing_le (C C' : list Symbol) :
  incl C C' -> missing U C' <= missing U C.
Proof.
  intros H. unfold missing. apply filter_length_mono.
  intros u Hu. apply negb_true_iff in Hu. apply negb_true_iff.
  apply mem_false. apply mem_false in Hu. auto.
Qed.

Lemma missing_push (C : list Symbol) (y : Symbol) :
  In y U -> ~ In y C -> missing U (set_add y C) < missing U C.
Proof.
  intros HU HC. unfold missing. apply filter_length_lt with (x := y).
  - intros u Hu. apply negb_true_iff in Hu. apply negb_true_iff.
    apply mem_false. apply mem_false in Hu.
    intros Hin. apply Hu. apply In_set_add. now right.
  - exact HU.
  - apply negb_true_iff. now apply mem_false.
  - apply negb_false_iff. apply mem_In. apply In_set_add. now left.
Qed.

(** What a run of the inner loop keeps and gives. *)
Lemma cstep_fold (xs : list X) :
  forall T ag,
    (forall x T, In x xs -> cond T x = true -> In (elt x) U) ->
    NoDup ag -> incl ag T ->
    let st' := fold_left (cstep cond elt) xs (T, ag) in
    NoDup (snd st') /\ incl (snd st') (fst st')
    /\ incl T (fst st') /\ incl ag (snd st')
    /\ List.length (snd st') + missing U (fst st')
       <= List.length ag + missing U T
    /\ (forall y, In y (fst st') -> In y T \/ In y (snd st')).
Proof.
  induction xs as [| x xs IH]; intros T ag HU Hnd Hincl; simpl.
  - repeat split; auto using incl_refl.
  - assert (HUx : forall x' T', In x' xs -> cond T' x' = true ->
                               In (elt x') U)
      by (intros x' T' Hx'; apply HU; now right).
    destruct (cond T x && negb (mem (elt x) T)) eqn:Hc.
    + assert (Hst : cstep cond elt (T, ag) x
                    = (set_add (elt x) T, set_add (elt x) ag)).
      { unfold cstep. cbn [fst snd]. now rewrite Hc. }
      rewrite Hst. clear Hst.
      apply andb_prop in Hc as [Hcx Hm]. apply negb_true_iff in Hm.
      apply mem_false in Hm.
      assert (Hag : ~ In (elt x) ag) by (intros Hin; apply Hm; auto).
      destruct (IH (set_add (elt x) T) (set_add (elt x) ag) HUx)
        as [H1 [H2 [H3 [H4 [H5 H6]]]]].
      * now apply NoDup_set_add.
      * intros y Hy. apply In_set_add. apply In_set_add in Hy.
        destruct Hy; [now left | right; auto].
      * split; [exact H1 |]. split; [exact H2 |].
        split.
        { intros y Hy. apply H3. apply In_set_add. now right. }
        split.
        { intros y Hy. apply H4. apply In_set_add. now right. }
        split.
        { pose proof (@missing_push T (elt x)
                        (HU x T (or_introl eq_refl) Hcx) Hm).
          pose proof (length_set_add (elt x) ag). lia. }
        intros y Hy. destruct (H6 y Hy) as [Hy' | Hy']; [| now right].
        apply In_set_add in Hy' as [-> | Hy']; [| now left].
        right. apply H4. apply In_set_add. now left.
    + assert (Hst : cstep cond elt (T, ag) x = (T, ag)).
      { unfold cstep. cbn [fst snd]. now rewrite Hc. }
      rewrite Hst. now apply IH.
Qed.

(** Nothing enters the set without the licence of the test. *)
Lemma cstep_fold_sound (P : Symbol -> Prop) (xs : list X) :
  forall st,
    (forall y, In y (fst st) -> P y) ->
    (forall x T, In x xs -> (forall y, In y T -> P y) ->
       cond T x = true -> P (elt x)) ->
    forall y, In y (fst (fold_left (cstep cond elt) xs st)) -> P y.
Proof.
  induction xs as [| x xs IH]; intros st HT Hstep; simpl; [exact HT |].
  apply IH.
  - unfold cstep. destruct (cond (fst st) x && negb (mem (elt x) (fst st)))
      eqn:Hc; [| exact HT].
    apply andb_prop in Hc as [Hc _]. cbn [fst].
    intros y Hy. apply In_set_add in Hy as [-> | Hy]; [| now apply HT].
    apply (Hstep x (fst st)); auto. now left.
  - intros x' T Hx'. apply Hstep. now right.
Qed.

(** Whatever passes the test (a test that a larger set still passes) is
    in the set afterwards. *)
Lemma cstep_fold_complete (xs : list X) :
  (forall T T' x, incl T T' -> cond T x = true -> cond T' x = true) ->
  forall st x,
    In x xs -> cond (fst st) x = true ->
    In (elt x) (fst (fold_left (cstep cond elt) xs st)).
Proof.
  intros Hmono. induction xs as [| x0 xs IH]; intros st x Hx Hc;
    [contradiction |].
  simpl.
  assert (Hgrow : forall st xs',
             incl (fst st) (fst (fold_left (cstep cond elt) xs' st))).
  { intros st' xs'. revert st'.
    induction xs' as [| x' xs' IH']; intros st'; simpl; [apply incl_refl |].
    eapply incl_tran; [| apply IH'].
    unfold cstep. destruct (cond (fst st') x' && _); [| apply incl_refl].
    cbn [fst]. intros y Hy. apply In_set_add. now right. }
  assert (Hone : incl (fst st) (fst (cstep cond elt st x0))).
  { apply (Hgrow st [x0]). }
  destruct Hx as [-> | Hx].
  - apply Hgrow. unfold cstep. rewrite Hc. simpl.
    destruct (mem (elt x) (fst st)) eqn:Hm; simpl.
    + now apply mem_In.
    + apply In_set_add. now left.
  - apply IH; [exact Hx |]. eapply Hmono; [exact Hone | exact Hc].
Qed.
End Passes.


Section TrimFacts.
Context {R : Type} {SR : Semiring R} {L : SemiringLaws R}.
Variable g : CFG R.

Lemma In_outgoing (x : Symbol) (e : Rule R) :
  In e (outgoing g x) <-> In e (cfg_rules g) /\ In x (body e).
Proof.
  unfold outgoing. rewrite in_flat_map. split.
  - intros [e' [He' Hin]]. apply in_map_iff in Hin as [b [<- Hb]].
    apply filter_In in Hb as [Hb Heq]. apply Symbol_eqb_eq in Heq.
    subst. auto.
  - intros [He Hx]. exists e. split; [exact He |].
    apply in_map_iff. exists x. split; [reflexivity |].
    apply filter_In. split; [exact Hx | apply (beq_refl x)].
Qed.

Lemma In_incoming (x : Symbol) (e : Rule R) :
  In e (incoming g x) <-> In e (cfg_rules g) /\ head e = x.
Proof.
  unfold incoming. rewrite filter_In.
  split; intros [H1 H2]; (split; [exact H1 |]); now apply Symbol_eqb_eq.
Qed.

Lemma generating_universe (x : Symbol) :
  generating g x -> In x (trim_universe g).
Proof.
  intros [a Ha | r Hr _]; unfold trim_universe; apply In_set_of;
    apply in_or_app; [now left | right; now apply in_map].
Qed.

Lemma length_universe :
  List.length (trim_universe g)
  <= List.length (cfg_V g) + List.length (cfg_rules g).
Proof.
  unfold trim_universe.
  eapply Nat.le_trans; [apply length_set_of |].
  rewrite length_app, length_map. lia.
Qed.

(** The bottom-up pass ends with the generating symbols. *)
Lemma trim_bottomup_spec (fuel : nat) :
  forall C ag,
    NoDup ag -> incl ag C ->
    (forall x, In x C -> generating g x) ->
    (forall a, In a (cfg_V g) -> In a C) ->
    (forall e, In e (cfg_rules g) ->
       (forall b, In b (body e) -> In b C) ->
       In (head e) C \/ exists b, In b (body e) /\ In b ag) ->
    List.length ag + missing (trim_universe g) C <= fuel ->
    forall x, In x (trim_bottomup g fuel C ag) <-> generating g x.
Proof.
  induction fuel as [| fuel IH]; intros C ag Hnd Hincl Hsound HV Hpend Hfuel x.
  - destruct ag as [| y ag]; [| simpl in Hfuel; lia].
    simpl. split; [apply Hsound |].
    induction 1 as [a Ha | r Hr _ IHb]; [now apply HV |].
    destruct (Hpend r Hr IHb) as [Hh | [b [_ []]]]. exact Hh.
  - destruct ag as [| y ag].
    + simpl. split; [apply Hsound |].
      induction 1 as [a Ha | r Hr _ IHb]; [now apply HV |].
      destruct (Hpend r Hr IHb) as [Hh | [b [_ []]]]. exact Hh.
    + cbn [trim_bottomup].
      set (condbu := fun (C : list Symbol) (e : Rule R) =>
                       forallb (fun b => mem b C) (body e)).
      rewrite (@fold_left_ext _ _ _ (cstep condbu (@head R))).
      2:{ intros [C1 a1] e. reflexivity. }
      inversion Hnd as [| ? ? Hy Hnd']; subst.
      assert (Hincl' : incl ag C) by (intros z Hz; apply Hincl; now right).
      assert (Hmono : forall T T' e, incl T T' -> condbu T e = true ->
                                     condbu T' e = true).
      { intros T T' e HT Hc. unfold condbu in *.
        rewrite forallb_forall in *. intros b Hb.
        apply mem_In. apply HT. apply mem_In. now apply Hc. }
      assert (HU : forall e T, In e (outgoing g y) -> condbu T e = true ->
                               In (head e) (trim_universe g)).
      { intros e T He _. apply In_outgoing in He as [He _].
        unfold trim_universe. apply In_set_of. apply in_or_app. right.
        now apply in_map. }
      pose proof (@cstep_fold _ condbu (@head R) (trim_universe g)
                    (outgoing g y) C ag HU Hnd' Hincl') as Hfold.
      pose proof (@cstep_fold_sound _ condbu (@head R) (generating g)
                    (outgoing g y) (C, ag) Hsound) as Hsnd.
      pose proof (@cstep_fold_complete _ condbu (@head R) (outgoing g y)
                    Hmono (C, ag)) as Hcmp.
      destruct (fold_left (cstep condbu (@head R)) (outgoing g y) (C, ag))
        as [C' ag'] eqn:Hst.
      cbn [fst snd] in Hfold, Hsnd, Hcmp.
      destruct Hfold as [F1 [F2 [F3 [F4 [F5 F6]]]]].
      apply IH; auto.
      * apply Hsnd. intros e T He HT Hc.
        apply In_outgoing in He as [He _].
        apply gen_rule; [exact He |]. intros b Hb. apply HT.
        unfold condbu in Hc. rewrite forallb_forall in Hc.
        apply mem_In. now apply Hc.
      * intros e He Hbody.
        destruct (mem (head e) C') eqn:Hh; [left; now apply mem_In |].
        apply mem_false in Hh. right.
        destruct (condbu C e) eqn:Hc.
        -- assert (HbC : forall b, In b (body e) -> In b C).
           { intros b Hb. unfold condbu in Hc.
             rewrite forallb_forall in Hc. apply mem_In. now apply Hc. }
           destruct (Hpend e He HbC) as [HhC | [b [Hb [-> | Hb']]]].
           ++ exfalso. apply Hh. now apply F3.
           ++ exfalso. apply Hh. apply Hcmp; [| exact Hc].
              now apply In_outgoing.
           ++ exists b. split; [exact Hb | now apply F4].
        -- unfold condbu in Hc. apply forallb_false in Hc as [b [Hb Hm]].
           apply mem_false in Hm. exists b. split; [exact Hb |].
           destruct (F6 b (Hbody b Hb)) as [HbC | Hbag];
             [contradiction | exact Hbag].
      * simpl in Hfuel. lia.
Qed.

(** The top-down pass ends with the reachable symbols. *)
Lemma trim_topdown_spec (C : list Symbol) (fuel : nat) :
  (forall x, In x C <-> generating g x) ->
  forall T ag,
    NoDup ag -> incl ag T ->
    (forall x, In x T -> reachable g x) ->
    In (cfg_S g) T ->
    (forall e, In e (cfg_rules g) -> In (head e) T ->
       In (head e) ag \/ forall b, In b (body e) -> In b C -> In b T) ->
    List.length ag + missing (trim_universe g) T <= fuel ->
    forall x, In x (trim_topdown g fuel C T ag) <-> reachable g x.
Proof.
  intros HC.
  induction fuel as [| fuel IH]; intros T ag Hnd Hincl Hsound HS Hpend Hfuel x.
  - destruct ag as [| y ag]; [| simpl in Hfuel; lia].
    simpl. split; [apply Hsound |].
    induction 1 as [| r b Hr _ IHh Hb Hgen]; [exact HS |].
    destruct (Hpend r Hr IHh) as [[] | Hdone].
    apply Hdone; [exact Hb | now apply HC].
  - destruct ag as [| y ag].
    + simpl. split; [apply Hsound |].
      induction 1 as [| r b Hr _ IHh Hb Hgen]; [exact HS |].
      destruct (Hpend r Hr IHh) as [[] | Hdone].
      apply Hdone; [exact Hb | now apply HC].
    + cbn [trim_topdown].
      set (condtd := fun (_ : list Symbol) (b : Symbol) => mem b C).
      rewrite (@fold_left_ext _ _ _
                 (fun st e => fold_left (cstep condtd (fun b => b))
                                        (body e) st)).
      2:{ intros st e. apply fold_left_ext. intros [T1 a1] b.
          unfold cstep, condtd. cbn [fst snd]. now rewrite andb_comm. }
      rewrite fold_left_flat_map.
      set (xs := flat_map (@body R) (incoming g y)).
      inversion Hnd as [| ? ? Hy Hnd']; subst.
      assert (Hincl' : incl ag T) by (intros z Hz; apply Hincl; now right).
      assert (Hyr : reachable g y) by (apply Hsound, Hincl; now left).
      assert (Hxs : forall b, In b xs <->
                exists e, In e (cfg_rules g) /\ head e = y /\ In b (body e)).
      { intros b. unfold xs. rewrite in_flat_map. split.
        - intros [e [He Hb]]. apply In_incoming in He as [He Hh]. eauto.
        - intros [e [He [Hh Hb]]]. exists e. split; [| exact Hb].
          now apply In_incoming. }
      assert (HU : forall b T', In b xs -> condtd T' b = true ->
                                In b (trim_universe g)).
      { intros b T' _ Hc. apply generating_universe, HC. now apply mem_In. }
      pose proof (@cstep_fold _ condtd (fun b => b) (trim_universe g)
                    xs T ag HU Hnd' Hincl') as Hfold.
      pose proof (@cstep_fold_sound _ condtd (fun b => b) (reachable g)
                    xs (T, ag) Hsound) as Hsnd.
      pose proof (@cstep_fold_complete _ condtd (fun b => b) xs
                    (fun _ _ _ _ H => H) (T, ag)) as Hcmp.
      destruct (fold_left (cstep condtd (fun b => b)) xs (T, ag))
        as [T' ag'] eqn:Hst.
      cbn [fst snd] in Hfold, Hsnd, Hcmp.
      destruct Hfold as [F1 [F2 [F3 [F4 [F5 F6]]]]].
      apply IH; auto.
      * apply Hsnd. intros b T1 Hb _ Hc.
        apply Hxs in Hb as [e [He [Hh Hb]]]. rewrite <- Hh in Hyr.
        apply reachable_step with (r := e); auto.
        apply HC. now apply mem_In.
      * intros e He Hh.
        destruct (mem (head e) ag') eqn:Hm; [left; now apply mem_In |].
        apply mem_false in Hm. right. intros b Hb HbC.
        destruct (F6 _ Hh) as [HhT | Hhag]; [| contradiction].
        destruct (Hpend e He HhT) as [[Heq | Hin] | Hdone].
        -- apply (Hcmp b); [| now apply mem_In].
           apply Hxs. exists e. auto.
        -- exfalso. apply Hm. now apply F4.
        -- apply F3. now apply Hdone.
      * simpl in Hfuel. lia.
Qed.

Lemma In_trim_rules (syms : list Symbol) (r : Rule R) :
  In r (cfg_rules (_trim g syms))
  <-> In r (cfg_rules g) /\ In (head r) syms /\ w r <> zero
      /\ forall b, In b (body r) -> In b syms.
Proof.
  unfold _trim.
  assert (H : forall l new,
             cfg_rules
               (fold_left
                  (fun new p =>
                     if mem (head p) syms && negb (weq (w p) zero)
                        && subset (body p) syms
                     then add_ new (w p) (head p) (body p) else new)
                  l new)
             = cfg_rules new
               ++ List.filter
                    (fun p => mem (head p) syms && negb (weq (w p) zero)
                              && subset (body p) syms) l).
  { induction l as [| p l IH]; intros new; simpl;
      [now rewrite app_nil_r |].
    rewrite IH.
    destruct (mem (head p) syms && negb (weq (w p) zero)
              && subset (body p) syms) eqn:Hc; [| reflexivity].
    rewrite rules_add_. apply andb_prop in Hc as [Hc _].
    apply andb_prop in Hc as [_ Hw]. apply negb_true_iff in Hw.
    rewrite Hw, mkRule_eta, <- app_assoc. reflexivity. }
  rewrite H. simpl. rewrite filter_In. unfold subset.
  rewrite !andb_true_iff, negb_true_iff, forallb_forall, mem_In.
  split.
  - intros [Hr [[Hh Hw] Hb]]. repeat split; auto.
    + now apply weq_false.
    + intros b Hb'. apply mem_In. now apply Hb.
  - intros [Hr [Hh [Hw Hb]]]. repeat split; auto.
    + destruct (weq (w r) zero) eqn:E; [| reflexivity].
      apply weq_true in E. contradiction.
    + intros b Hb'. apply mem_In. now apply Hb.
Qed.

Lemma trim_generating_set :
  let C0 := set_union (set_of (cfg_V g))
                      (map (@head R) (List.filter nullary (cfg_rules g))) in
  forall x, In x (trim_bottomup g (trim_fuel g) C0 C0) <-> generating g x.
Proof.
  intros C0.
  assert (HC0 : forall x, In x C0 <->
                  In x (cfg_V g)
                  \/ exists r, In r (cfg_rules g) /\ body r = [] /\ head r = x).
  { intros x. unfold C0. rewrite In_set_union, In_set_of, in_map_iff.
    split; (intros [H | H]; [now left | right]).
    - destruct H as [r [Hh Hr]]. apply filter_In in Hr as [Hr Hn].
      exists r. repeat split; auto. unfold nullary in Hn.
      apply Nat.eqb_eq in Hn. now destruct (body r).
    - destruct H as [r [Hr [Hb Hh]]]. exists r. split; [exact Hh |].
      apply filter_In. split; [exact Hr |]. unfold nullary. now rewrite Hb. }
  assert (Hgen0 : forall x, In x C0 -> generating g x).
  { intros x Hx. apply HC0 in Hx as [Hx | [r [Hr [Hb <-]]]].
    - now apply gen_terminal.
    - apply gen_rule; [exact Hr |]. rewrite Hb. intros b []. }
  apply trim_bottomup_spec.
  - apply NoDup_set_union, NoDup_set_of.
  - apply incl_refl.
  - exact Hgen0.
  - intros a Ha. apply HC0. now left.
  - intros e He Hbody. destruct (body e) as [| b0 rest] eqn:Hb.
    + left. apply HC0. right. exists e. auto.
    + right. exists b0. split; [now left |]. apply Hbody. now left.
  - pose proof (@length_missing _ _ _ (trim_universe g) C0) as Hlen.
    unfold missing, trim_fuel. pose proof length_universe.
    assert (List.length C0
            + List.length (List.filter (fun u => negb (mem u C0))
                                       (trim_universe g))
            <= List.length (trim_universe g)); [| lia].
    apply Hlen.
    + apply NoDup_set_union, NoDup_set_of.
    + intros x Hx. now apply generating_universe, Hgen0.
Qed.

(** X12.  [cotrim] keeps exactly the rules of nonzero weight whose body
    symbols are all generating: terminals, or heads of rules whose body
    symbols are all generating. *)
Theorem cotrim_spec (r : Rule R) :
  In r (cfg_rules (cotrim g))
  <-> In r (cfg_rules g) /\ w r <> zero
      /\ forall b, In b (body r) -> generating g b.
Proof.
  unfold cotrim, trim_with. rewrite In_trim_rules.
  pose proof trim_generating_set as HC. cbv zeta in HC.
  split.
  - intros [Hr [_ [Hw Hb]]]. repeat split; auto.
    intros b Hb'. apply HC. now apply Hb.
  - intros [Hr [Hw Hb]]. repeat split; auto.
    + apply HC. now apply gen_rule.
    + intros b Hb'. apply HC. now apply Hb.
Qed.

(** X13.  [trim] keeps exactly the rules of nonzero weight whose head and
    body symbols are all reachable: the start symbol, and the generating
    symbols met in rule bodies on the way down from it. *)
Theorem trim_spec (r : Rule R) :
  In r (cfg_rules (trim g))
  <-> In r (cfg_rules g) /\ w r <> zero
      /\ reachable g (head r)
      /\ forall b, In b (body r) -> reachable g b.
Proof.
  unfold trim, trim_with. rewrite In_trim_rules.
  pose proof trim_generating_set as HC. cbv zeta in HC.
  set (C := trim_bottomup g (trim_fuel g) _ _) in *.
  assert (HT : forall x,
             In x (trim_topdown g (trim_fuel g + 1) C [cfg_S g] [cfg_S g])
             <-> reachable g x).
  { apply trim_topdown_spec.
    - exact HC.
    - repeat constructor. intros [].
    - apply incl_refl.
    - intros x [<- | []]. constructor.
    - now left.
    - intros e _ [Hh | []]. left. now left.
    - unfold missing, trim_fuel. pose proof length_universe.
      pose proof (List.filter_length_le
                    (fun u => negb (mem u [cfg_S g])) (trim_universe g)).
      cbn [List.length]. lia. }
  split.
  - intros [Hr [Hh [Hw Hb]]]. repeat split; auto.
    + now apply HT.
    + intros b Hb'. apply HT. now apply Hb.
  - intros [Hr [Hw [Hh Hb]]]. repeat split; auto.
    + now apply HT.
    + intros b Hb'. apply HT. now apply Hb.
Qed.
End TrimFacts.

Lemma cotrim_spec_witness : In rule_b (cfg_rules (cotrim g_left)).
Proof.
  apply (proj2 (@cotrim_spec bool Boolean Boolean_laws g_left rule_b)).
  split; [in_list |]. split; [discriminate |].
  intros b [<- | []]. apply gen_terminal. in_list.
Defined.

Lemma trim_spec_witness : In rule_b (cfg_rules (trim g_left)).
Proof.
  apply (proj2 (@trim_spec bool Boolean Boolean_laws g_left rule_b)).
  split; [in_list |]. split; [discriminate |].
  split; [apply reachable_start |].
  intros b [<- | []].
  apply reachable_step with (r := rule_b).
  - in_list.
  - apply reachable_start.
  - now left.
  - apply gen_terminal. in_list.
Defined.


(** ** When the left-corner transformations return *)

Section ReachSound.
Context {R : Type} {SR : Semiring R}.
Variable Ps : list (Rule R).

Lemma sweep_sound (seen0 : list Symbol) (l : list (Rule R))
  (seen : list Symbol) :
  incl l Ps ->
  (forall z, In z seen -> exists x, In x seen0 /\ lc_path Ps x z) ->
  forall z, In z (fold_left reach_rule l seen) ->
            exists x, In x seen0 /\ lc_path Ps x z.
Proof.
  revert seen. induction l as [| p l IH]; intros seen Hl Hseen; [exact Hseen |].
  simpl. apply IH; [intros q Hq; apply Hl; now right |].
  intros z Hz. unfold reach_rule in Hz.
  destruct (body p) as [| b0 rest] eqn:Hb; [now apply Hseen |].
  destruct (mem b0 seen) eqn:Hm; [| now apply Hseen].
  apply In_set_add in Hz as [-> | Hz]; [| now apply Hseen].
  apply mem_In in Hm. destruct (Hseen b0 Hm) as [x [Hx Hp]].
  exists x. split; [exact Hx |].
  eapply lc_step; [exact Hp | apply Hl; now left | exact Hb].
Qed.

(** [reach] finds nothing but the left-corner closure. *)
Lemma reach_sound (n : nat) (seen0 : list Symbol) :
  forall seen,
    (forall z, In z seen -> exists x, In x seen0 /\ lc_path Ps x z) ->
    forall z, In z (reach Ps n seen) ->
              exists x, In x seen0 /\ lc_path Ps x z.
Proof.
  induction n as [| n IH]; intros seen Hseen; [exact Hseen |].
  rewrite reach_S. apply IH. unfold sweep.
  apply sweep_sound; [apply incl_refl | exact Hseen].
Qed.

Lemma In_reach (x z : Symbol) :
  In z (reach Ps (List.length Ps) [x]) <-> lc_path Ps x z.
Proof.
  split; [| apply reach_complete].
  intros Hz.
  destruct (@reach_sound (List.length Ps) [x] [x]) with (z := z)
    as [x' [[<- | []] Hp]]; auto.
  intros z' [<- | []]. exists x. split; [now left | constructor].
Qed.

Lemma lc_path_head (x z : Symbol) :
  lc_path Ps x z -> z = x \/ exists p, In p Ps /\ head p = z.
Proof.
  intros [| ? p b0 rest _ Hp _]; [now left | right; eauto].
Qed.
End ReachSound.

Lemma sequence_all_ok {A B} (f : A -> outcome B) (l : list A) :
  (forall x, In x l -> exists y, f x = Ok y) ->
  exists ys, sequence (map f l) = Ok ys.
Proof.
  induction l as [| x l IH]; intros H; [exists []; reflexivity |].
  destruct (H x (or_introl eq_refl)) as [y Hy].
  destruct IH as [ys Hys]; [intros x' Hx'; apply H; now right |].
  exists (y :: ys). simpl. now rewrite Hy, Hys.
Qed.

Lemma sequence_raise {A B} (f : A -> outcome B) (l : list A) (e : exn) :
  (forall x, In x l -> (exists y, f x = Ok y) \/ f x = Raise e) ->
  (exists x, In x l /\ f x = Raise e) ->
  sequence (map f l) = Raise e.
Proof.
  induction l as [| x l IH]; intros Hall [x0 [Hx0 Hr]]; [contradiction |].
  simpl. destruct (Hall x (or_introl eq_refl)) as [[y Hy] | Hy];
    [| now rewrite Hy].
  rewrite Hy. simpl. rewrite IH; [reflexivity | |].
  - intros x' Hx'. apply Hall. now right.
  - destruct Hx0 as [<- | Hx0]; [congruence |]. eauto.
Qed.

Section Outcomes.
Context {R : Type} {SR : Semiring R} {L : SemiringLaws R}.
Variable g : CFG R.
Hypothesis Hheads : forall p, In p (cfg_rules g) -> In (head p) (cfg_N g).

Lemma ctor_asserts_iff (Ps : list (Rule R)) :
  ctor_asserts g Ps = true
  <-> forall p, In p Ps -> In p (cfg_rules g) /\ body p <> [].
Proof.
  split.
  - intros H p Hp. apply ctor_asserts_rules in H as [H1 H2]. auto.
  - intros H. unfold ctor_asserts. apply andb_true_intro. split.
    + unfold subset. apply forallb_forall. intros p Hp.
      apply mem_In. now apply H.
    + apply forallb_forall. intros p Hp.
      destruct (H p Hp) as [_ Hb]. now destruct (body p).
Qed.

Lemma den2num_outcome (Ps : list (Rule R)) (x : Symbol) :
  (In x (cfg_N g) \/ In x (cfg_V g) ->
   den2num g Ps x = Ok (reach Ps (List.length Ps) [x]))
  /\ (~ (In x (cfg_N g) \/ In x (cfg_V g)) ->
      den2num g Ps x = Raise KeyError).
Proof.
  unfold den2num. split; intros H.
  - assert (Hm : mem x (set_union (cfg_N g) (cfg_V g)) = true)
      by (apply mem_In; now apply In_set_union).
    now rewrite Hm.
  - assert (Hm : mem x (set_union (cfg_N g) (cfg_V g)) = false)
      by (apply mem_false; now rewrite In_set_union).
    now rewrite Hm.
Qed.

Lemma NV_dec (x : Symbol) :
  {In x (cfg_N g) \/ In x (cfg_V g)} + {~ (In x (cfg_N g) \/ In x (cfg_V g))}.
Proof.
  destruct (mem x (set_union (cfg_N g) (cfg_V g))) eqn:Hm.
  - left. apply mem_In in Hm. now apply In_set_union in Hm.
  - right. apply mem_false in Hm. now rewrite In_set_union in Hm.
Qed.

(** The filter looks every member of [Xs] up in [den2num]. *)
Lemma useful_outcome (Xs : list Symbol) (Ps : list (Rule R)) :
  (forall p, In p Ps -> In p (cfg_rules g)) ->
  ((forall x, In x Xs -> In x (cfg_N g) \/ In x (cfg_V g)) ->
   exists u, useful g Xs Ps true = Ok u)
  /\ ((exists x, In x Xs /\ ~ (In x (cfg_N g) \/ In x (cfg_V g))) ->
      useful g Xs Ps true = Raise KeyError).
Proof.
  intros HPs. unfold useful. split.
  - intros HXs.
    destruct (@sequence_all_ok _ _ (den2num g Ps) Xs) as [nums Hnums].
    { intros x Hx. eexists. now apply den2num_outcome, HXs. }
    rewrite Hnums. cbn [obind].
    match goal with
    | |- context [sequence (map ?f (List.concat nums))] =>
        destruct (@sequence_all_ok _ _ f (List.concat nums)) as [mids Hmids]
    end.
    { intros mid Hmid. apply in_concat in Hmid as [s [Hs Hmid]].
      assert (Hs' : exists X, In X Xs /\ s = reach Ps (List.length Ps) [X]).
      { clear - Hnums Hs HXs. revert nums Hnums Hs.
        induction Xs as [| X Xs' IH]; intros nums Hnums Hs; simpl in Hnums.
        - injection Hnums as <-. contradiction.
        - rewrite (proj1 (den2num_outcome Ps X)) in Hnums
            by (apply HXs; now left).
          cbn [obind] in Hnums.
          destruct (sequence (map (den2num g Ps) Xs')) as [nums' |] eqn:Hn;
            [| discriminate].
          cbn [obind] in Hnums. injection Hnums as <-.
          destruct Hs as [<- | Hs].
          + exists X. split; [now left | reflexivity].
          + destruct (IH (fun x Hx => HXs x (or_intror Hx)) nums' eq_refl Hs)
              as [X' [HX' Hs']].
            exists X'. split; [now right | exact Hs']. }
      destruct Hs' as [X [HX ->]].
      apply In_reach in Hmid. apply lc_path_head in Hmid.
      assert (HNV : In mid (cfg_N g) \/ In mid (cfg_V g)).
      { destruct Hmid as [-> | [p [Hp <-]]]; [now apply HXs |].
        left. now apply Hheads, HPs. }
      rewrite (proj1 (den2num_outcome Ps mid) HNV). cbn [obind]. eauto. }
    rewrite Hmids. cbn [obind]. eauto.
  - intros Hbad.
    rewrite (@sequence_raise _ _ (den2num g Ps) Xs KeyError); [reflexivity | |].
    + intros x _. destruct (NV_dec x) as [H | H].
      * left. eexists. now apply den2num_outcome.
      * right. now apply den2num_outcome.
    + destruct Hbad as [x [Hx Hn]]. exists x. split; [exact Hx |].
      now apply den2num_outcome.
Qed.

Lemma fold_S {B} (f : CFG R -> B -> CFG R) (l : list B) (a : CFG R) :
  (forall a x, cfg_S (f a x) = cfg_S a) ->
  cfg_S (fold_left f l a) = cfg_S a.
Proof.
  intros Hf. revert a. induction l as [| x l IH]; intros a; simpl;
    [reflexivity |]. now rewrite IH, Hf.
Qed.

Lemma GLCT_S (Xs : list Symbol) (Ps : list (Rule R)) (id : Z) (u : Useful) :
  cfg_S (GLCT_rules g Xs Ps id u) = cfg_S g.
Proof.
  unfold GLCT_rules. cbv zeta.
  rewrite fold_S.
  2:{ intros a X. apply fold_S. intros a' Y. apply cfg_S_add_. }
  rewrite fold_S by (intros; apply cfg_S_add_).
  rewrite fold_S.
  2:{ intros a p. destruct (negb (mem p Ps)); [apply cfg_S_add_ |].
      destruct (body p) as [| b0 rest]; [reflexivity |].
      assert (Hin : forall l a0,
                cfg_S (fold_left
                         (fun self Y =>
                            if negb (mem b0 (useful_mid u)) then self
                            else add_ self (w p) (_slash g id Y b0)
                                      (rest ++ [_slash g id Y (head p)]))
                         l a0) = cfg_S a0).
      { intros l a0. apply fold_S. intros a' Y.
        destruct (negb (mem b0 (useful_mid u)));
          [reflexivity | apply cfg_S_add_]. }
      destruct (negb (mem b0 Xs)); [rewrite cfg_S_add_ |]; apply Hin. }
  rewrite fold_S by (intros; apply cfg_S_add_).
  reflexivity.
Qed.

Lemma lc_generalized_cases (Xs : list Symbol) (Ps : list (Rule R))
  (filter : bool) (id : Z) :
  match lc_generalized g Xs (Some Ps) filter id with
  | Ok G' =>
      (forall p, In p Ps -> In p (cfg_rules g) /\ body p <> [])
      /\ (filter = true ->
          forall x, In x Xs -> In x (cfg_N g) \/ In x (cfg_V g))
      /\ cfg_S G' = cfg_S g /\ cfg_V G' = cfg_V g
  | Raise e =>
      (e = AssertionError
       /\ ~ (forall p, In p Ps -> In p (cfg_rules g) /\ body p <> []))
      \/ (e = KeyError
          /\ (forall p, In p Ps -> In p (cfg_rules g) /\ body p <> [])
          /\ filter = true
          /\ exists x, In x Xs /\ ~ (In x (cfg_N g) \/ In x (cfg_V g)))
  end.
Proof.
  unfold lc_generalized, GLCT.
  destruct (ctor_asserts g Ps) eqn:Hc.
  2:{ left. split; [reflexivity |]. intros H.
      pose proof (proj2 (ctor_asserts_iff Ps) H). congruence. }
  pose proof (proj1 (ctor_asserts_iff Ps) Hc) as Hok. clear Hc.
  rename Hok into Hc.
  assert (HPs : forall p, In p Ps -> In p (cfg_rules g))
    by (intros p Hp; now apply Hc).
  destruct filter.
  - destruct (forallb (fun x => mem x (set_union (cfg_N g) (cfg_V g))) Xs)
      eqn:HXs.
    + rewrite forallb_forall in HXs.
      assert (HNV : forall x, In x Xs -> In x (cfg_N g) \/ In x (cfg_V g)).
      { intros x Hx. apply In_set_union, mem_In. now apply HXs. }
      destruct (proj1 (@useful_outcome (set_of Xs) Ps HPs)) as [u Hu].
      { intros x Hx. apply HNV. now apply In_set_of. }
      rewrite Hu. cbn [obind].
      split; [exact Hc |]. split; [intros _; exact HNV |].
      split; [apply GLCT_S | apply GLCT_V].
    + apply forallb_false in HXs as [x [Hx Hm]].
      apply mem_false in Hm. rewrite In_set_union in Hm.
      rewrite (proj2 (@useful_outcome (set_of Xs) Ps HPs)).
      * right. cbn [obind]. split; [reflexivity |].
        split; [exact Hc |]. split; [reflexivity |]. eauto.
      * exists x. split; [now apply In_set_of | exact Hm].
  - cbn [useful obind]. split; [exact Hc |].
    split; [discriminate |].
    split; [apply GLCT_S | apply GLCT_V].
Qed.

(** X14.  On a grammar whose rule heads are among its nonterminals,
    [lc_generalized] returns a grammar, over the same terminals and
    start symbol, exactly when every rule of [Ps] is a rule of the
    grammar with a nonempty body and, under the filter, every member of
    [Xs] is a symbol of the grammar; it fails the assertion of the
    constructor in the first case and raises a [KeyError] in the
    second. *)
Theorem lc_generalized_outcome (Xs : list Symbol) (Ps : list (Rule R))
  (filter : bool) (id : Z) :
  match lc_generalized g Xs (Some Ps) filter id with
  | Ok G' =>
      (forall p, In p Ps -> In p (cfg_rules g) /\ body p <> [])
      /\ (filter = true ->
          forall x, In x Xs -> In x (cfg_N g) \/ In x (cfg_V g))
      /\ cfg_S G' = cfg_S g /\ cfg_V G' = cfg_V g
  | Raise e =>
      (e = AssertionError
       /\ ~ (forall p, In p Ps -> In p (cfg_rules g) /\ body p <> []))
      \/ (e = KeyError
          /\ (forall p, In p Ps -> In p (cfg_rules g) /\ body p <> [])
          /\ filter = true
          /\ exists x, In x Xs /\ ~ (In x (cfg_N g) \/ In x (cfg_V g)))
  end.
Proof. apply lc_generalized_cases. Qed.

(** X15.  On a grammar whose rule heads are among its nonterminals,
    [lc_selective] returns a grammar exactly when every rule of [Ps] is
    a rule of the grammar with a nonempty body: its [Xs] are the symbols
    of the grammar, so the filter finds each of them. *)
Theorem lc_selective_returns (Ps : list (Rule R)) (filter : bool) :
  (exists G', lc_selective g Ps filter = Ok G')
  <-> forall p, In p Ps -> In p (cfg_rules g) /\ body p <> [].
Proof.
  unfold lc_selective.
  pose proof (lc_generalized_cases (set_union (cfg_V g) (cfg_N g)) Ps
                filter 0) as H.
  destruct (lc_generalized g (set_union (cfg_V g) (cfg_N g)) (Some Ps)
                           filter 0) as [G' | e].
  - split; [intros _; apply H | eauto].
  - split; [intros [G' HG']; discriminate |].
    intros Hok. exfalso.
    destruct H as [[_ Hbad] | [_ [_ [_ [x [Hx Hn]]]]]]; [auto |].
    apply Hn. apply In_set_union in Hx. tauto.
Qed.
End Outcomes.


Lemma lc_generalized_outcome_witness :
  match lc_generalized g_left [Str "S"] (Some [rule_Sa]) true 0 with
  | Ok G' =>
      (forall p, In p [rule_Sa] -> In p (cfg_rules g_left) /\ body p <> [])
      /\ (true = true ->
          forall x, In x [Str "S"] ->
                    In x (cfg_N g_left) \/ In x (cfg_V g_left))
      /\ cfg_S G' = cfg_S g_left /\ cfg_V G' = cfg_V g_left
  | Raise e =>
      (e = AssertionError
       /\ ~ (forall p, In p [rule_Sa] ->
                       In p (cfg_rules g_left) /\ body p <> []))
      \/ (e = KeyError
          /\ (forall p, In p [rule_Sa] ->
                        In p (cfg_rules g_left) /\ body p <> [])
          /\ true = true
          /\ exists x, In x [Str "S"]
                       /\ ~ (In x (cfg_N g_left) \/ In x (cfg_V g_left)))
  end.
Proof.
  apply (@lc_generalized_outcome bool Boolean Boolean_laws g_left).
  intros p Hp. vm_compute in Hp.
  destruct Hp as [<- | [<- | []]]; in_list.
Defined.

Lemma lc_selective_returns_witness :
  exists G', lc_selective g_left [rule_Sa] true = Ok G'.
Proof.
  apply (proj2 (@lc_selective_returns bool Boolean Boolean_laws g_left
                  ltac:(intros p Hp; vm_compute in Hp;
                        destruct Hp as [<- | [<- | []]]; in_list)
                  [rule_Sa] true)).
  intros p [<- | []]. split; [in_list | discriminate].
Defined.

(** ** Left-recursive rules and their elimination *)

Lemma sequence_In_inv {A B} (f : A -> outcome B) (l : list A) (rs : list B)
  (r : B) :
  sequence (map f l) = Ok rs -> In r rs -> exists x, In x l /\ f x = Ok r.
Proof.
  revert rs. induction l as [| y l IH]; intros rs Hs Hr; simpl in Hs.
  - injection Hs as <-. contradiction.
  - destruct (f y) as [r0 |] eqn:Hy; [| discriminate]. simpl in Hs.
    destruct (sequence (map f l)) as [rs' |]; [| discriminate].
    simpl in Hs. injection Hs as <-.
    destruct Hr as [<- | Hr].
    + exists y. split; [now left | exact Hy].
    + destruct (IH rs' eq_refl Hr) as [x [Hx Hfx]].
      exists x. split; [now right | exact Hfx].
Qed.

Section LeftRecursionFacts.
Context {R : Type} {SR : Semiring R} {L : SemiringLaws R}.
Variable g : CFG R.

Lemma sufficient_Xs_cases (Ps : list (Rule R)) :
  ((exists p, In p Ps /\ body p = []) ->
   sufficient_Xs g Ps = Raise IndexError)
  /\ ((forall p, In p Ps -> body p <> []) ->
      exists Xs,
        sufficient_Xs g Ps = Ok Xs
        /\ forall x,
             In x Xs
             <-> (In x (cfg_V g)
                  \/ exists p, In p (cfg_rules g) /\ ~ In p Ps /\ head p = x)
                 /\ exists p rest, In p Ps /\ body p = x :: rest).
Proof.
  unfold sufficient_Xs.
  set (first := fun p : Rule R =>
                  match body p with
                  | [] => Raise IndexError
                  | b0 :: _ => Ok b0
                  end).
  split.
  - intros [p [Hp Hb]].
    rewrite (@sequence_raise _ _ first Ps IndexError); [reflexivity | |].
    + intros q _. unfold first. destruct (body q); [now right | left; eauto].
    + exists p. split; [exact Hp |]. unfold first. now rewrite Hb.
  - intros Hbody.
    destruct (@sequence_all_ok _ _ first Ps) as [corners Hc].
    { intros p Hp. unfold first. specialize (Hbody p Hp).
      destruct (body p); [contradiction | eauto]. }
    rewrite Hc. cbn [obind]. eexists. split; [reflexivity |].
    intros x.
    rewrite In_set_inter, In_set_union, !In_set_of, in_map_iff.
    assert (Hcorner : In x corners
                      <-> exists p rest, In p Ps /\ body p = x :: rest).
    { split.
      - intros Hx. destruct (@sequence_In_inv _ _ first Ps corners x Hc Hx) as [p [Hp Hf]].
        unfold first in Hf. destruct (body p) as [| b0 rest] eqn:Hb;
          [discriminate |]. injection Hf as ->. eauto.
      - intros [p [rest [Hp Hb]]].
        destruct (@sequence_In _ _ first Ps corners p Hc Hp) as [c [Hf Hin]].
        unfold first in Hf. rewrite Hb in Hf. now injection Hf as <-. }
    rewrite Hcorner.
    assert (Hleft : (exists p, head p = x
                               /\ In p (set_diff (set_of (cfg_rules g))
                                                 (set_of Ps)))
                    <-> exists p, In p (cfg_rules g) /\ ~ In p Ps
                                  /\ head p = x).
    { split; intros [p H]; exists p.
      - destruct H as [Hh Hp]. apply In_set_diff in Hp as [Hp Hn].
        rewrite In_set_of in Hp, Hn. auto.
      - destruct H as [Hp [Hn Hh]]. split; [exact Hh |].
        apply In_set_diff. now rewrite !In_set_of. }
    rewrite Hleft. reflexivity.
Qed.

(** X16.  [sufficient_Xs(Ps)] raises an [IndexError] when a rule of [Ps]
    has an empty body; otherwise it returns the left corners of the
    rules of [Ps] that are terminals or heads of rules outside [Ps]. *)
Theorem sufficient_Xs_spec (Ps : list (Rule R)) :
  ((exists p, In p Ps /\ body p = []) ->
   sufficient_Xs g Ps = Raise IndexError)
  /\ ((forall p, In p Ps -> body p <> []) ->
      exists Xs,
        sufficient_Xs g Ps = Ok Xs
        /\ forall x,
             In x Xs
             <-> (In x (cfg_V g)
                  \/ exists p, In p (cfg_rules g) /\ ~ In p Ps /\ head p = x)
                 /\ exists p rest, In p Ps /\ body p = x :: rest).
Proof. apply sufficient_Xs_cases. Qed.

Lemma same_scc_rule (r : Rule R) (b0 : Symbol) (rest : list Symbol) :
  In r (cfg_rules g) -> body r = b0 :: rest ->
  same_scc g (head r) b0 = true <-> lc_path (cfg_rules g) (head r) b0.
Proof.
  intros Hr Hb. unfold same_scc.
  rewrite andb_true_iff, !mem_In, !In_reach. split; [tauto |].
  intros H. split; [exact H |].
  eapply lc_step; [apply lc_refl | exact Hr | exact Hb].
Qed.

Lemma find_lr_rules_cases :
  (forall r,
     In r (find_lr_rules g)
     <-> In r (cfg_rules g)
         /\ exists b0 rest,
              body r = b0 :: rest /\ lc_path (cfg_rules g) (head r) b0)
  /\ (is_left_recursive g = true
      <-> exists r b0 rest,
            In r (cfg_rules g) /\ body r = b0 :: rest
            /\ lc_path (cfg_rules g) (head r) b0).
Proof.
  assert (H1 : forall r,
             In r (find_lr_rules g)
             <-> In r (cfg_rules g)
                 /\ exists b0 rest,
                      body r = b0 :: rest
                      /\ lc_path (cfg_rules g) (head r) b0).
  { intros r. unfold find_lr_rules. rewrite In_set_of, filter_In.
    split.
    - intros [Hr Hc]. split; [exact Hr |].
      destruct (body r) as [| b0 rest] eqn:Hb; [discriminate |].
      exists b0, rest. split; [reflexivity |].
      now apply (same_scc_rule r Hr Hb).
    - intros [Hr [b0 [rest [Hb Hp]]]]. split; [exact Hr |].
      rewrite Hb. now apply (same_scc_rule r Hr Hb). }
  split; [exact H1 |].
  unfold is_left_recursive. rewrite negb_true_iff, Nat.eqb_neq. split.
  - intros Hlen. destruct (find_lr_rules g) as [| r l] eqn:Hf;
      [contradiction |].
    destruct (proj1 (H1 r) (or_introl eq_refl)) as [Hr [b0 [rest H]]].
    exists r, b0, rest. tauto.
  - intros [r [b0 [rest [Hr H]]]].
    assert (Hin : In r (find_lr_rules g)) by (apply H1; eauto).
    destruct (find_lr_rules g); [contradiction | discriminate].
Qed.

(** X17.  [find_lr_rules] returns exactly the rules [X → Y β] whose head
    [X] is a left corner, of a left corner, ..., of [Y] (so that the rule
    closes a left-corner cycle); [is_left_recursive] says whether there
    is one. *)
Theorem find_lr_rules_spec :
  (forall r,
     In r (find_lr_rules g)
     <-> In r (cfg_rules g)
         /\ exists b0 rest,
              body r = b0 :: rest /\ lc_path (cfg_rules g) (head r) b0)
  /\ (is_left_recursive g = true
      <-> exists r b0 rest,
            In r (cfg_rules g) /\ body r = b0 :: rest
            /\ lc_path (cfg_rules g) (head r) b0).
Proof. apply find_lr_rules_cases. Qed.

(** X18.  On a grammar whose rule heads are nonterminals,
    [elim_left_recursion] always returns a grammar, over the same
    terminals and start symbol: the rules it selects are rules of the
    grammar with nonempty bodies, and the symbols it selects are symbols
    of the grammar. *)
Theorem elim_left_recursion_returns (filter : bool) (id : Z) :
  (forall p, In p (cfg_rules g) -> In (head p) (cfg_N g)) ->
  exists G',
    elim_left_recursion g filter id = Ok G'
    /\ cfg_S G' = cfg_S g /\ cfg_V G' = cfg_V g.
Proof.
  intros Hheads. unfold elim_left_recursion.
  assert (HPs : forall p, In p (find_lr_rules g) ->
                          In p (cfg_rules g) /\ body p <> []).
  { intros p Hp. apply find_lr_rules_cases in Hp as [Hp [b0 [rest [Hb _]]]].
    split; [exact Hp | now rewrite Hb]. }
  destruct (proj2 (sufficient_Xs_cases (find_lr_rules g)))
    as [Xs [HXs Hmem]]; [intros p Hp; now apply HPs |].
  rewrite HXs. cbn [obind].
  pose proof (@lc_generalized_cases R SR L g Hheads Xs (find_lr_rules g)
                filter id) as H.
  destruct (lc_generalized g Xs (Some (find_lr_rules g)) filter id)
    as [G' | e].
  - exists G'. split; [reflexivity | apply H].
  - exfalso. destruct H as [[_ Hbad] | [_ [_ [_ [x [Hx Hn]]]]]]; [auto |].
    apply Hn. apply Hmem in Hx as [[HV | [p [Hp [_ <-]]]] _];
      [now right | left; now apply Hheads].
Qed.
End LeftRecursionFacts.

Lemma sufficient_Xs_spec_witness :
  exists Xs,
    sufficient_Xs g_left [rule_Sa] = Ok Xs
    /\ forall x,
         In x Xs
         <-> (In x (cfg_V g_left)
              \/ exists p, In p (cfg_rules g_left) /\ ~ In p [rule_Sa]
                           /\ head p = x)
             /\ exists p rest, In p [rule_Sa] /\ body p = x :: rest.
Proof.
  apply (proj2 (@sufficient_Xs_spec bool Boolean Boolean_laws g_left
                  [rule_Sa])).
  intros p [<- | []]. discriminate.
Defined.

Lemma find_lr_rules_spec_witness : In rule_Sa (find_lr_rules g_left).
Proof.
  apply (proj1 (@find_lr_rules_spec bool Boolean Boolean_laws g_left)).
  split; [in_list |].
  exists (Str "S"), [Str "a"]. split; [reflexivity | apply lc_refl].
Defined.

Lemma elim_left_recursion_returns_witness :
  exists G',
    elim_left_recursion g_left true 0 = Ok G'
    /\ cfg_S G' = cfg_S g_left /\ cfg_V G' = cfg_V g_left.
Proof.
  apply (@elim_left_recursion_returns bool Boolean Boolean_laws g_left).
  intros p Hp. vm_compute in Hp.
  destruct Hp as [<- | [<- | []]]; in_list.
Defined.


(** ** Chomsky normal form and parsing *)

Section CNFParts.
Context {R : Type} {SR : Semiring R} {L : SemiringLaws R}.

Lemma fold_left_plus {A} (f : A -> R) (l : list A) (a : R) :
  fold_left (fun a x => a ⊕ f x) l a = a ⊕ sum_over l f.
Proof.
  revert a. induction l as [| x l IH]; intros a; simpl.
  - now rewrite plus_zero_r.
  - now rewrite IH, plus_assoc.
Qed.

Lemma dl_get_append (d : list (Symbol * list (Rule R))) (a q : Symbol)
  (r : Rule R) :
  dl_get (dl_append d a r) q
  = if beq q a then dl_get d a ++ [r] else dl_get d q.
Proof.
  induction d as [| [k rs] d IH]; simpl.
  - destruct (beq_reflect q a) as [-> | Hq]; [| reflexivity].
    reflexivity.
  - destruct (beq_reflect a k) as [-> | Ha]; simpl.
    + destruct (beq_reflect q k) as [-> | Hq]; [reflexivity | reflexivity].
    + rewrite IH. destruct (beq_reflect q k) as [-> | Hq].
      * destruct (beq_reflect k a) as [Heq | _]; [congruence | reflexivity].
      * reflexivity.
Qed.

Lemma cnf_loop (g : CFG R) (rs : list (Rule R)) :
  (forall r, In r rs -> cnf_rule g r = true) ->
  forall n t b,
    exists t',
      fold_left
        (fun acc r =>
           ' (nullary, terminal, binary) <~ acc ;;
           match body r with
           | [] =>
               if beq (head r) (cfg_S g)
               then Ok (nullary ⊕ w r, terminal, binary)
               else Raise AssertionError
           | [a] =>
               if is_terminal g a
               then Ok (nullary, dl_append terminal a r, binary)
               else Raise AssertionError
           | [y; z] =>
               if is_nonterminal g y && is_nonterminal g z
               then Ok (nullary, terminal, binary ++ [r])
               else Raise AssertionError
           | _ => Raise AssertionError
           end)
        rs (Ok (n, t, b))
      = Ok (n ⊕ sum_over (List.filter nullary rs) (@w R), t',
            b ++ List.filter binary rs)
      /\ forall a, dl_get t' a = dl_get t a ++ List.filter (unary_on a) rs.
Proof.
  induction rs as [| r rs IH]; intros Hcnf n t b.
  - exists t. simpl. rewrite plus_zero_r, !app_nil_r.
    split; [reflexivity |]. intros a. now rewrite app_nil_r.
  - assert (Hr : cnf_rule g r = true) by (apply Hcnf; now left).
    assert (Hrs : forall r', In r' rs -> cnf_rule g r' = true)
      by (intros r' Hr'; apply Hcnf; now right).
    cbn [fold_left obind]. unfold cnf_rule in Hr.
    unfold nullary, binary, unary_on. cbn [List.filter].
    destruct (body r) as [| y [| z [| z' rest]]] eqn:Hb;
      cbn [List.length Nat.eqb] in *; try discriminate.
    + rewrite Hr.
      destruct (IH Hrs (n ⊕ w r) t b) as [t' [Hrun Hget]].
      exists t'. rewrite Hrun. split; [| exact Hget].
      cbn [sum_over fold_right]. fold (sum_over (List.filter nullary rs) (@w R)).
      now rewrite plus_assoc.
    + rewrite Hr.
      destruct (IH Hrs n (dl_append t y r) b) as [t' [Hrun Hget]].
      exists t'. rewrite Hrun. split; [reflexivity |].
      intros a. rewrite Hget, dl_get_append.
      destruct (beq_reflect a y) as [-> | Ha].
      * now rewrite <- app_assoc.
      * reflexivity.
    + cbn [forallb] in Hr. rewrite andb_true_r in Hr.
      apply andb_prop in Hr as [Hy Hz].
      apply andb_prop in Hy as [Hy _]. apply andb_prop in Hz as [Hz _].
      rewrite Hy, Hz. cbn [andb].
      destruct (IH Hrs n t (b ++ [r])) as [t' [Hrun Hget]].
      exists t'. rewrite Hrun. split; [| exact Hget].
      now rewrite <- app_assoc.
Qed.

Lemma cnf_parts (g : CFG R) :
  in_cnf g = Ok true ->
  exists terminal,
    _cnf g
    = Ok (sum_over (List.filter nullary (cfg_rules g)) (@w R), terminal,
          List.filter binary (cfg_rules g))
    /\ forall a, dl_get terminal a = List.filter (unary_on a) (cfg_rules g).
Proof.
  intros Hin. unfold _cnf.
  destruct (@cnf_loop g (cfg_rules g) (in_cnf_rules_form g _ Hin) zero [] [])
    as [t' [Hrun Hget]].
  exists t'. rewrite Hrun, plus_zero_l. split; [reflexivity | exact Hget].
Qed.

(** X19.  Every grammar that [in_cnf] accepts passes the assertions of
    [_cnf], which returns the sum of the weights of its nullary rules,
    its rules onto each terminal, and its rules with two body symbols. *)
Theorem in_cnf_then_cnf (g : CFG R) :
  in_cnf g = Ok true ->
  exists terminal,
    _cnf g
    = Ok (sum_over (List.filter nullary (cfg_rules g)) (@w R), terminal,
          List.filter binary (cfg_rules g))
    /\ forall a, dl_get terminal a = List.filter (unary_on a) (cfg_rules g).
Proof. apply cnf_parts. Qed.
End CNFParts.


Section Call.
Context {R : Type} {SR : Semiring R} {L : SemiringLaws R}.

Lemma call_in_cnf (g : CFG R) (input : list Symbol) (i : nat)
  (terminal : list (Symbol * list (Rule R))) (nullw : R)
  (bin : list (Rule R)) :
  in_cnf g = Ok true ->
  _cnf g = Ok (nullw, terminal, bin) ->
  exists c,
    _parse_chart g input i = Ok (c, i)
    /\ call g input i = Ok (get c (0, cfg_S g, List.length input), i)
    /\ c
       = fold_left
           (fun c span =>
              fold_left
                (fun c i =>
                   let k := i + span in
                   fold_left
                     (fun c j =>
                        fold_left
                          (fun c r =>
                             match body r with
                             | [Y; Z] =>
                                 incr c (i, head r, k)
                                      (w r ⊗ get c (i, Y, j)
                                       ⊗ get c (j, Z, k))
                             | _ => c
                             end)
                          bin c)
                     (seq (i + 1) (k - (i + 1))) c)
                (seq 0 (List.length input - span + 1)) c)
           (seq 1 (List.length input))
           (fold_left
              (fun c '(i, a) =>
                 fold_left (fun c r => incr c (i, head r, i + 1) (w r))
                           (dl_get terminal a) c)
              (combine (seq 0 (List.length input)) input)
              (fold_left (fun c i => incr c (i, cfg_S g, i) nullw)
                         (seq 0 (List.length input + 1)) [])).
Proof.
  intros Hin Hcnf. eexists. split; [| split; [| reflexivity]].
  - unfold _parse_chart, bind, lift, ret. rewrite Hin, Hcnf. reflexivity.
  - unfold call, _parse_chart, bind, lift, ret. rewrite Hin, Hcnf.
    reflexivity.
Qed.

(** X20.  On a grammar in Chomsky normal form, [__call__] gives the empty
    input the sum of the weights of the nullary rules, and an input of
    one symbol [a] the sum of the weights of the rules [S → a]. *)
Theorem call_short_inputs (g : CFG R) (i : nat) :
  in_cnf g = Ok true ->
  call g [] i = Ok (sum_over (List.filter nullary (cfg_rules g)) (@w R), i)
  /\ forall a,
       call g [a] i
       = Ok (sum_over
               (List.filter (fun r => beq (head r) (cfg_S g))
                            (List.filter (unary_on a) (cfg_rules g)))
               (@w R), i).
Proof.
  intros Hin.
  destruct (cnf_parts g Hin) as [terminal [Hcnf Hget]].
  split.
  - destruct (call_in_cnf g [] i Hin Hcnf) as [c [_ [Hcall Hc]]].
    rewrite Hcall. f_equal. f_equal. subst c.
    cbn [List.length seq combine fold_left Nat.add].
    rewrite get_incr. rewrite (beq_refl (0, cfg_S g, 0)).
    apply plus_zero_l.
  - intros a.
    destruct (call_in_cnf g [a] i Hin Hcnf) as [c [_ [Hcall Hc]]].
    rewrite Hcall. f_equal. f_equal. subst c.
    cbn [List.length seq combine fold_left Nat.add Nat.sub].
    rewrite (get_fold_incr (fun r : Rule R => (0, head r, 1)) (@w R)).
    rewrite !get_incr.
    destruct (beq_reflect (0, cfg_S g, 1) (1, cfg_S g, 1)) as [Heq | _];
      [discriminate Heq |].
    destruct (beq_reflect (0, cfg_S g, 1) (0, cfg_S g, 0)) as [Heq | _];
      [discriminate Heq |].
    cbn [get]. rewrite plus_zero_l, Hget.
    f_equal. apply filter_ext. intros r.
    destruct (beq_reflect (0, head r, 1) (0, cfg_S g, 1)) as [Heq | Hneq];
      destruct (beq_reflect (head r) (cfg_S g)) as [Heq' | Hneq'];
      try reflexivity; [congruence | exfalso; apply Hneq; congruence].
Qed.
End Call.


Lemma call_short_inputs_witness :
  call g_Sa [] 0
  = Ok (sum_over (List.filter nullary (cfg_rules g_Sa)) (@w bool), 0).
Proof.
  apply (@call_short_inputs bool Boolean Boolean_laws g_Sa 0). reflexivity.
Defined.

Lemma in_cnf_then_cnf_witness :
  exists terminal,
    _cnf g_Sa
    = Ok (sum_over (List.filter nullary (cfg_rules g_Sa)) (@w bool),
          terminal, List.filter binary (cfg_rules g_Sa))
    /\ forall a,
         dl_get terminal a = List.filter (unary_on a) (cfg_rules g_Sa).
Proof.
  apply (@in_cnf_then_cnf bool Boolean Boolean_laws g_Sa). reflexivity.
Defined.

(** ** Naive bottom-up evaluation *)

Section BottomUp.
Context {R : Type} {SR : Semiring R} {L : SemiringLaws R}.

Lemma fold_left_factors (g : CFG R) (V : Chart R Symbol)
  (ys : list Symbol) (a : R) :
  fold_left
    (fun update X => if is_nonterminal g X then update ⊗ get V X else update)
    ys a
  = a ⊗ product (map (get V) (List.filter (is_nonterminal g) ys)).
Proof.
  revert a. induction ys as [| y ys IH]; intros a; simpl.
  - now rewrite times_one_r.
  - rewrite IH. destruct (is_nonterminal g y); [| reflexivity].
    simpl. now rewrite times_assoc.
Qed.

(** X21.  One step of the naive iteration: the new value of a symbol is
    [one] if it is a terminal, plus, for each of its rules in turn, the
    weight of the rule times the old values of the nonterminals of its
    body. *)
Theorem bottom_up_step_spec (g : CFG R) (V : Chart R Symbol) (X : Symbol) :
  get (_bottom_up_step g V) X
  = (if mem X (cfg_V g) then one else zero)
    ⊕ sum_over (rhs g X)
        (fun p =>
           w p ⊗ product (map (get V)
                              (List.filter (is_nonterminal g) (body p)))).
Proof.
  unfold _bottom_up_step. cbv zeta.
  rewrite (get_fold_incr (@head R)
             (fun p => fold_left
                         (fun update X =>
                            if is_nonterminal g X then update ⊗ get V X
                            else update)
                         (body p) (w p))).
  rewrite (get_fold_set (fun _ => one)). cbn [get].
  f_equal. unfold rhs. apply sum_over_ext. intros p _.
  apply fold_left_factors.
Qed.

Lemma naive_loop_spec (g : CFG R) (left : nat) :
  forall V,
    exists n,
      n <= left
      /\ naive_bottom_up_loop g left V = Nat.iter n (_bottom_up_step g) V
      /\ (n < left ->
          _approx_equal g
            (_bottom_up_step g (Nat.iter n (_bottom_up_step g) V))
            (Nat.iter n (_bottom_up_step g) V) = true)
      /\ forall m, m < n ->
           _approx_equal g
             (_bottom_up_step g (Nat.iter m (_bottom_up_step g) V))
             (Nat.iter m (_bottom_up_step g) V) = false.
Proof.
  induction left as [| left IH]; intros V.
  - exists 0. split; [lia |]. split; [reflexivity |].
    split; intros; lia.
  - cbn [naive_bottom_up_loop].
    destruct (_approx_equal g (_bottom_up_step g V) V) eqn:Ha.
    + exists 0. split; [lia |]. split; [reflexivity |].
      split; [intros _; exact Ha | intros; lia].
    + destruct (IH (_bottom_up_step g V)) as [n [Hn [Hrun [Hfix Hbefore]]]].
      exists (S n). split; [lia |].
      rewrite Nat.iter_succ_r. split; [exact Hrun |].
      split.
      * intros Hlt. apply Hfix. lia.
      * intros [| m] Hm; [exact Ha |].
        rewrite Nat.iter_succ_r. apply Hbefore. lia.
Qed.

(** X22.  [naive_bottom_up] returns the first iterate of the step, from
    the empty chart, that the next step leaves approximately unchanged on
    the nonterminals, or the iterate number [timeout] when there is none
    before. *)
Theorem naive_bottom_up_spec (g : CFG R) (timeout : nat) :
  exists n,
    n <= timeout
    /\ naive_bottom_up g timeout = Nat.iter n (_bottom_up_step g) []
    /\ (n < timeout ->
        _approx_equal g (_bottom_up_step g (naive_bottom_up g timeout))
                      (naive_bottom_up g timeout) = true)
    /\ forall m, m < n ->
         _approx_equal g
           (_bottom_up_step g (Nat.iter m (_bottom_up_step g) []))
           (Nat.iter m (_bottom_up_step g) []) = false.
Proof.
  unfold naive_bottom_up.
  destruct (naive_loop_spec g timeout []) as [n [Hn [Hrun [Hfix Hbefore]]]].
  exists n. split; [exact Hn |]. split; [exact Hrun |].
  split; [| exact Hbefore]. rewrite Hrun. exact Hfix.
Qed.
End BottomUp.

Lemma naive_bottom_up_spec_witness :
  exists n,
    n <= 10
    /\ naive_bottom_up g_left 10 = Nat.iter n (_bottom_up_step g_left) []
    /\ (n < 10 ->
        _approx_equal g_left (_bottom_up_step g_left (naive_bottom_up g_left 10))
                      (naive_bottom_up g_left 10) = true)
    /\ forall m, m < n ->
         _approx_equal g_left
           (_bottom_up_step g_left (Nat.iter m (_bottom_up_step g_left) []))
           (Nat.iter m (_bottom_up_step g_left) []) = false.
Proof. apply (@naive_bottom_up_spec bool Boolean g_left 10). Defined.

Lemma bottom_up_step_spec_witness :
  get (_bottom_up_step g_left [] ) (Str "S")
  = (if mem (Str "S") (cfg_V g_left) then one else zero)
    ⊕ sum_over (rhs g_left (Str "S"))
        (fun p =>
           w p ⊗ product (map (get [])
                              (List.filter (is_nonterminal g_left) (body p)))).
Proof. apply (@bottom_up_step_spec bool Boolean Boolean_laws g_left). Defined.


(** ** The names that [_gen_nt] draws *)

Lemma to_uint_nonnil (n : nat) : Nat.to_uint n <> Decimal.Nil.
Proof.
  intros H. pose proof (DecimalNat.Unsigned.of_to n) as Hn.
  rewrite H in Hn. simpl in Hn. subst n. discriminate H.
Qed.

Lemma str_of_nat_inj (i j : nat) : str_of_nat i = str_of_nat j -> i = j.
Proof.
  unfold str_of_nat. intros H.
  apply DecimalNat.Unsigned.to_uint_inj.
  pose proof (DecimalString.NilZero.usu (Nat.to_uint i) (to_uint_nonnil i))
    as Hi.
  pose proof (DecimalString.NilZero.usu (Nat.to_uint j) (to_uint_nonnil j))
    as Hj.
  rewrite H in Hi. congruence.
Qed.

Lemma no_at_uint (d : Decimal.uint) :
  no_at (DecimalString.NilEmpty.string_of_uint d) = true.
Proof. induction d; simpl; auto. Qed.

Lemma no_at_str_of_nat (n : nat) : no_at (str_of_nat n) = true.
Proof.
  unfold str_of_nat, DecimalString.NilZero.string_of_uint.
  destruct (Nat.to_uint n); try apply no_at_uint. reflexivity.
Qed.

Lemma no_at_app (p d : string) : no_at (p ++ "@" ++ d) = false.
Proof.
  induction p as [| c p IH]; simpl in *; [reflexivity |].
  rewrite IH. apply andb_false_r.
Qed.

Lemma at_split (p1 p2 d1 d2 : string) :
  no_at d1 = true -> no_at d2 = true ->
  (p1 ++ "@" ++ d1 = p2 ++ "@" ++ d2)%string ->
  p1 = p2 /\ d1 = d2.
Proof.
  intros H1 H2. revert p2.
  induction p1 as [| c p1 IH]; intros [| c' p2] H; simpl in H.
  - injection H as ->. auto.
  - injection H as _ H. pose proof (no_at_app p2 d2) as Hn. simpl in Hn.
    rewrite <- H in Hn. congruence.
  - injection H as _ H. pose proof (no_at_app p1 d1) as Hn. simpl in Hn.
    rewrite H in Hn. congruence.
  - injection H as -> H. destruct (IH p2 H) as [-> ->]. auto.
Qed.

(** X23.  [_gen_nt] bumps the counter by one, and no two of its names are
    the same: the prefix and the number can be read back from a name. *)
Theorem gen_nt_injective (p1 p2 : string) (i j : nat) :
  exists x y,
    _gen_nt p1 i = Ok (x, S i) /\ _gen_nt p2 j = Ok (y, S j)
    /\ (x = y -> p1 = p2 /\ i = j).
Proof.
  exists (gen_name p1 (S i)), (gen_name p2 (S j)).
  split; [reflexivity |]. split; [reflexivity |].
  unfold gen_name. intros [= H].
  apply at_split in H as [Hp Hd]; try apply no_at_str_of_nat.
  split; [exact Hp |]. apply str_of_nat_inj in Hd. lia.
Qed.

(** ** The transpose without slashes *)

Section SlashFree.
Context {R : Type} {SR : Semiring R}.

(** X24.  On a tree none of whose nodes is labelled by a [Slash],
    [GLCT._mapping] changes nothing but the stored rules, which it
    replaces by the scaffolding of [tree]. *)
Theorem mapping_slash_free (g : CFG R) (id : Z) (d : Tree R) :
  slash_free d = true -> _mapping g id d = Ok (shape d).
Proof.
  induction d as [a | r x ys IH] using Tree_ind_nested; intros Hd;
    [reflexivity |].
  cbn [slash_free] in Hd. apply andb_prop in Hd as [Hx Hys].
  apply negb_true_iff in Hx. rewrite forallb_forall in Hys.
  assert (Hkids : sequence (map (_mapping g id) ys) = Ok (map shape ys)).
  { apply sequence_Forall2. apply Forall2_diag_map.
    rewrite Forall_forall in *. intros y Hy. apply IH; auto. }
  destruct x as [s | Y Z' i | X0 i]; [| discriminate |];
    cbn [_mapping shape]; fold (_mapping g id); rewrite Hkids; reflexivity.
Qed.
End SlashFree.

Lemma mapping_slash_free_witness :
  _mapping g_left 0 d_ba = Ok (shape d_ba).
Proof. apply mapping_slash_free. reflexivity. Defined.


(** ** Equality of grammars *)

Section AssertEqual.
Context {R : Type} {SR : Semiring R} {L : SemiringLaws R}.

Lemma Rule_eq_dec (x y : Rule R) : {x = y} + {x <> y}.
Proof.
  destruct (beq x y) eqn:E.
  - left. now apply beq_eq.
  - right. now apply beq_false.
Qed.

Lemma count_rule_occ (r : Rule R) (l : list (Rule R)) :
  count_rule r l = count_occ Rule_eq_dec l r.
Proof.
  unfold count_rule. induction l as [| x l IH]; [reflexivity |].
  cbn [List.filter count_occ].
  destruct (Rule_eq_dec x r) as [-> | Hn].
  - rewrite beq_refl. cbn [List.length]. now rewrite IH.
  - assert (E : beq r x = false) by (apply beq_false; congruence).
    now rewrite E.
Qed.

Lemma Counter_eq_spec (a b : list (Rule R)) :
  Counter_eq a b = true <-> Permutation.Permutation a b.
Proof.
  unfold Counter_eq. rewrite forallb_forall.
  rewrite (Permutation.Permutation_count_occ Rule_eq_dec). split.
  - intros H r. rewrite <- !count_rule_occ.
    destruct (in_dec Rule_eq_dec r (a ++ b)) as [Hin | Hout].
    + now apply Nat.eqb_eq, H.
    + rewrite !count_rule_occ.
      rewrite (proj1 (count_occ_not_In Rule_eq_dec a r)),
              (proj1 (count_occ_not_In Rule_eq_dec b r)); auto;
        intros Hr; apply Hout, in_or_app; auto.
  - intros H r _. apply Nat.eqb_eq. rewrite !count_rule_occ. apply H.
Qed.

(** X25.  [assert_equal] looks at nothing but the rules, and compares
    them as multisets: with [throw] it passes exactly when the lists of
    rules are permutations of each other, without [throw] it passes as
    long as [verbose] is set, and with neither it fails its first
    assertion. *)
Theorem assert_equal_spec (g other : CFG R) (verbose : bool) :
  (assert_equal g other verbose true = Ok tt
   <-> Permutation.Permutation (cfg_rules g) (cfg_rules other))
  /\ (assert_equal g other verbose true = Raise AssertionError
      <-> ~ Permutation.Permutation (cfg_rules g) (cfg_rules other))
  /\ assert_equal g other true false = Ok tt
  /\ assert_equal g other false false = Raise AssertionError.
Proof.
  unfold assert_equal. rewrite orb_true_r. cbn [negb orb].
  rewrite <- Counter_eq_spec.
  destruct (Counter_eq (cfg_rules g) (cfg_rules other));
    repeat split; intros; try reflexivity; try discriminate; congruence.
Qed.
End AssertEqual.

Lemma assert_equal_spec_witness :
  assert_equal g_left (mkCFG (Str "T") [] [] (rev (cfg_rules g_left)))
               false true = Ok tt.
Proof.
  apply (proj1 (@assert_equal_spec bool Boolean _ g_left
                  (mkCFG (Str "T") [] [] (rev (cfg_rules g_left))) false)).
  apply Permutation.Permutation_rev.
Defined.


(** ** The agenda over the Boolean semiring *)

Section ChartWithin.
Context {K : Type} {EK : Eqb K} {LK : EqbLaws K}.
Variable P : K -> Prop.

Lemma In_replace_key (c : Chart bool K) (k q : K) (v v' : bool) :
  In (q, v') (replace c k v) -> In (q, v') c \/ (q = k /\ v' = v).
Proof.
  induction c as [| [k' v0] c IH]; simpl.
  - intros [[= <- <-] | []]. now right.
  - destruct (beq_reflect k k') as [-> | _]; simpl.
    + intros [[= <- <-] | H]; [now right | left; now right].
    + intros [H | H]; [left; now left |].
      destruct (IH H); [left; now right | now right].
Qed.

Lemma get_true_In (c : Chart bool K) (k : K) :
  get c k = true -> In (k, true) c.
Proof.
  induction c as [| [k' v] c IH]; simpl; [discriminate |].
  destruct (beq_reflect k k') as [-> | _]; intros H.
  - left. now rewrite H.
  - right. now apply IH.
Qed.

Lemma chart_within_get (c : Chart bool K) (k : K) :
  chart_within P c -> get c k = true -> P k.
Proof. intros Hc Hk. apply (Hc k true); [now apply get_true_In | reflexivity]. Qed.

Lemma chart_within_set (c : Chart bool K) (k : K) (v : bool) :
  chart_within P c -> (v = true -> P k) -> chart_within P (set c k v).
Proof.
  intros Hc Hv q v' Hin Hv'. unfold set in Hin.
  destruct (weq v zero).
  - apply In_delete in Hin. eapply Hc; eassumption.
  - apply In_replace_key in Hin as [Hin | [-> ->]]; [| now apply Hv].
    eapply Hc; eassumption.
Qed.

Lemma chart_within_incr (c : Chart bool K) (k : K) (v : bool) :
  chart_within P c -> (v = true -> P k) -> chart_within P (incr c k v).
Proof.
  intros Hc Hv. unfold incr. apply chart_within_set; [exact Hc |].
  intros H. apply orb_prop in H as [H | H]; [| now apply Hv].
  now apply chart_within_get with (c := c).
Qed.

Lemma chart_within_popitem (c c' : Chart bool K) (u : K) (v : bool) :
  chart_within P c -> popitem c = Some ((u, v), c') ->
  (v = true -> P u) /\ chart_within P c'.
Proof.
  unfold popitem. intros Hc H.
  destruct (rev c) as [| kv l] eqn:E; [discriminate |].
  injection H as -> <-.
  assert (Hc' : c = rev l ++ [(u, v)]).
  { rewrite <- (rev_involutive c), E. reflexivity. }
  subst c. split.
  - intros Hv. apply (Hc u v); [| exact Hv].
    apply in_or_app. right. now left.
  - intros k x Hin Hx. apply (Hc k x); [| exact Hx].
    apply in_or_app. now left.
Qed.
End ChartWithin.

Lemma fold_left_andb {A} (f : A -> bool) (l : list A) (a : bool) :
  fold_left (fun W x => W && f x) l a = true ->
  a = true /\ forall x, In x l -> f x = true.
Proof.
  revert a. induction l as [| x l IH]; intros a H; simpl in H.
  - split; [exact H | intros x []].
  - apply IH in H as [Ha Hl]. apply andb_prop in Ha as [Ha Hx].
    split; [exact Ha |]. intros y [<- | Hy]; auto.
Qed.

Lemma In_enumerate {A} (x : A) (l : list A) (n : nat) :
  In x l -> exists j, In (j, x) (combine (seq n (List.length l)) l).
Proof.
  revert n. induction l as [| y l IH]; intros n; [intros [] |].
  intros [-> | H].
  - exists n. now left.
  - destruct (IH (S n) H) as [j Hj]. exists j. now right.
Qed.

Lemma In_routing {R} {SR : Semiring R} (g : CFG R) (u : Symbol)
  (r : Rule R) (k : nat) :
  In (r, k) (routing g u) -> In r (cfg_rules g).
Proof.
  unfold routing. rewrite in_flat_map. intros [r' [Hr' H]].
  rewrite in_flat_map in H. destruct H as [[j b] [_ H]].
  destruct (beq b u); [| contradiction].
  destruct H as [[= <- _] | []]. exact Hr'.
Qed.

Section AgendaBoolean.
Variable g : CFG bool.
Variable P : Symbol -> Prop.
Hypothesis P_terminal : forall a, In a (cfg_V g) -> P a.
Hypothesis P_rule :
  forall r, In r (cfg_rules g) -> w r = true ->
            (forall b, In b (body r) -> P b) -> P (head r).

Lemma delta_product_within (old : Chart bool Symbol) (u : Symbol)
  (v : bool) (r : Rule bool) (k : nat) :
  chart_within P old -> (v = true -> P u) -> In r (cfg_rules g) ->
  delta_product old u v (get old u ⊕ v) r k = true -> P (head r).
Proof.
  intros Hold Hv Hr H. unfold delta_product in H.
  set (factor := fun jb : nat * Symbol =>
         if beq u (snd jb) then
           if Nat.ltb (fst jb) k then get old u ⊕ v
           else if Nat.eqb (fst jb) k then v else get old u
         else get old (snd jb)).
  rewrite fold_left_ext with (f' := fun W jb => W && factor jb) in H.
  2:{ intros W [j b]. unfold factor. simpl.
      destruct (beq u b); [| reflexivity].
      destruct (Nat.ltb j k); [reflexivity |].
      destruct (Nat.eqb j k); reflexivity. }
  apply fold_left_andb in H as [Hw Hf].
  apply P_rule; [exact Hr | exact Hw |].
  intros b Hb. destruct (In_enumerate b (body r) 0 Hb) as [j Hj].
  specialize (Hf _ Hj). unfold factor in Hf. simpl in Hf.
  assert (Hu : get old u = true -> P u)
    by (apply chart_within_get; exact Hold).
  destruct (beq_reflect u b) as [<- | _].
  - destruct (Nat.ltb j k).
    + apply orb_prop in Hf as [Hf | Hf]; auto.
    + destruct (Nat.eqb j k); auto.
  - now apply chart_within_get with (c := old).
Qed.

Lemma agenda_loop_within (iters : nat) (old change : Chart bool Symbol) :
  chart_within P old -> chart_within P change ->
  chart_within P (agenda_loop g iters old change).
Proof.
  revert old change. induction iters as [| n IH]; intros old change Ho Hc;
    cbn [agenda_loop]; [exact Ho |].
  destruct (popitem change) as [[[u v] change'] |] eqn:E; [| exact Ho].
  destruct (chart_within_popitem Hc E) as [Hv Hc'].
  destruct (converged (get old u) (get old u ⊕ v)); [now apply IH |].
  apply IH.
  - apply chart_within_set; [exact Ho |].
    intros H. apply orb_prop in H as [H | H]; [| now apply Hv].
    now apply chart_within_get with (c := old).
  - apply fold_left_inv; [exact Hc' |].
    intros ch [r k] Hin Hch. apply chart_within_incr; [exact Hch |].
    apply delta_product_within; auto.
    eapply In_routing; eassumption.
Qed.

Lemma agenda_within (n : nat) (x : Symbol) :
  get (agenda_with g n) x = true -> P x.
Proof.
  apply chart_within_get. unfold agenda_with.
  apply agenda_loop_within; [intros k v [] |].
  apply fold_left_inv.
  - apply fold_left_inv; [intros k v [] |].
    intros ch a Ha Hch. apply chart_within_incr; auto.
  - intros ch r Hr Hch. destruct (nullary r) eqn:En; [| exact Hch].
    apply chart_within_incr; [exact Hch |]. intros Hw.
    apply P_rule; [exact Hr | exact Hw |].
    unfold nullary in En. apply Nat.eqb_eq in En.
    destruct (body r); [intros b [] | discriminate].
Qed.
End AgendaBoolean.


Lemma fold_left_andb_true (vs : list bool) :
  Forall (fun v => v = true) vs -> fold_left andb vs true = true.
Proof. induction 1 as [| v vs -> _ IH]; simpl; auto. Qed.

(** A node over children that all have weight [true], under a rule of
    weight [true]. *)
Lemma derives_true_node (g : CFG bool) (Q : Tree bool -> Prop)
  (r : Rule bool) :
  In r (cfg_rules g) -> w r = true ->
  (forall b, In b (body r) ->
             exists d, derives g d true /\ label d = b /\ Q d) ->
  exists ys,
    derives g (Derivation (as_drule r) (head r) ys) true
    /\ body r = map label ys /\ Forall Q ys.
Proof.
  intros Hr Hw Hb.
  assert (H : exists ys,
             Forall2 (fun b d => derives g d true /\ label d = b /\ Q d)
                     (body r) ys).
  { apply Forall2_exists with (P := fun _ => True).
    - apply Forall_forall. intros b Hin _. now apply Hb.
    - apply Forall_forall. auto. }
  destruct H as [ys Hys]. exists ys.
  assert (Hl : body r = map label ys).
  { clear - Hys. induction Hys as [| b d bs ds [_ [<- _]] _ IH]; simpl;
      [reflexivity | now rewrite IH]. }
  assert (HQ : Forall Q ys).
  { clear - Hys. induction Hys as [| b d bs ds [_ [_ H]] _ IH];
      constructor; auto. }
  assert (Hd : Forall2 (derives g) ys (map (fun _ => true) ys)).
  { clear - Hys. induction Hys as [| b d bs ds [H _] _ IH]; simpl;
      constructor; auto. }
  split; [| split; [exact Hl | exact HQ]].
  assert (E : fold_left times (map (fun _ : Tree bool => true) ys) (w r)
             = true).
  { rewrite Hw. apply fold_left_andb_true.
    apply Forall_forall. intros v Hv. apply in_map_iff in Hv as [_ [<- _]].
    reflexivity. }
  rewrite <- E at 1.
  apply dr_node with (p := r); auto.
Qed.

(** X26.  Over the Boolean semiring the agenda marks no symbol without a
    reason: whatever the number of iterations allowed, a symbol that the
    chart maps to [true] is the root of a derivation of the grammar all
    of whose rules have weight [true]. *)
Theorem agenda_boolean_sound (g : CFG bool) (n : nat) (x : Symbol) :
  get (agenda_with g n) x = true ->
  exists d, derives g d true /\ label d = x.
Proof.
  apply (@agenda_within g
           (fun x => exists d, derives g d true /\ label d = x)).
  - intros a Ha. exists (Leaf a). split; [| reflexivity].
    change true with (@one bool Boolean). now apply dr_leaf.
  - intros r Hr Hw Hb.
    destruct (@derives_true_node g (fun _ => True) r Hr Hw) as [ys [Hd _]].
    + intros b Hin. destruct (Hb b Hin) as [d [H1 H2]]. exists d. auto.
    + eexists. split; [exact Hd | reflexivity].
Qed.

Lemma agenda_boolean_sound_witness :
  exists d, derives g_Sa d true /\ label d = Str "S".
Proof. apply (@agenda_boolean_sound g_Sa 10 (Str "S")). reflexivity. Defined.

(** X27.  Over the Boolean semiring [null_weight] marks only symbols that
    derive the empty string: a symbol that it maps to [true] is the root
    of a derivation of the grammar, with rules of weight [true], whose
    yield is empty. *)
Theorem null_weight_boolean_sound (g : CFG bool) (x : Symbol) :
  get (null_weight g) x = true ->
  exists d, derives g d true /\ label d = x /\ Yield d = [].
Proof.
  unfold null_weight, agenda.
  set (ecfg := fold_left _ (cfg_rules g) (spawn_V g [])).
  assert (He : cfg_V ecfg = []
               /\ forall r, In r (cfg_rules ecfg) -> In r (cfg_rules g)).
  { apply fold_left_inv with
      (P := fun e : CFG bool =>
              cfg_V e = [] /\ forall r, In r (cfg_rules e) -> In r (cfg_rules g)).
    - split; [reflexivity | intros r []].
    - intros e p Hp [HV Hsub].
      destruct (negb (existsb (is_terminal g) (body p))); [| auto].
      split.
      + unfold add_, add. destruct (weq (w p) zero); exact HV.
      + intros r Hin. apply In_rules_add_ in Hin as [Hin | ->]; auto.
        now rewrite mkRule_eta. }
  destruct He as [HV Hsub].
  apply (@agenda_within ecfg
           (fun x => exists d, derives g d true /\ label d = x
                               /\ Yield d = [])).
  - rewrite HV. intros a [].
  - intros r Hr Hw Hb.
    destruct (@derives_true_node g (fun d => Yield d = []) r (Hsub r Hr) Hw)
      as [ys [Hd [_ HY]]].
    + intros b Hin. destruct (Hb b Hin) as [d [H1 [H2 H3]]]. exists d. auto.
    + eexists. split; [exact Hd |]. split; [reflexivity |].
      cbn [Yield]. clear - HY.
      induction HY as [| y ys Hy _ IH]; simpl; [reflexivity |].
      now rewrite Hy, IH.
Qed.

Lemma null_weight_boolean_sound_witness :
  exists d, derives g_eps d true /\ label d = Str "A" /\ Yield d = [].
Proof. apply (@null_weight_boolean_sound g_eps (Str "A")). reflexivity. Defined.


(** ** The CKY recognizer *)

Lemma substring_split (s : list Symbol) (i j k : nat) :
  i <= j <= k -> substring s i j ++ substring s j k = substring s i k.
Proof.
  intros H. unfold substring.
  replace (skipn j s) with (skipn (j - i) (skipn i s))
    by (rewrite skipn_skipn; f_equal; lia).
  replace (k - i) with ((j - i) + (k - j)) by lia.
  generalize (skipn i s) as t, (j - i) as a, (k - j) as b. clear.
  intros t a. revert t. induction a as [| a IH]; intros t b; [reflexivity |].
  destruct t as [| x t]; simpl.
  - now destruct b.
  - now rewrite IH.
Qed.

Lemma substring_one (s : list Symbol) (i : nat) (a : Symbol) :
  nth_error s i = Some a -> substring s i (i + 1) = [a].
Proof.
  unfold substring. replace (i + 1 - i) with 1 by lia.
  revert i. induction s as [| x s IH]; intros [| i]; simpl;
    try discriminate.
  - now intros [= ->].
  - apply IH.
Qed.

Lemma In_combine_seq {A} (l : list A) (n i : nat) (a : A) :
  In (i, a) (combine (seq n (List.length l)) l) <->
  n <= i /\ nth_error l (i - n) = Some a.
Proof.
  revert n. induction l as [| x l IH]; intros n; simpl.
  - split; [intros [] |]. intros [_ H]. now destruct (i - n).
  - rewrite IH. split.
    + intros [[= <- <-] | [Hle H]].
      * split; [lia |]. now rewrite Nat.sub_diag.
      * split; [lia |]. replace (i - n) with (S (i - S n)) by lia. exact H.
    + intros [Hle H]. destruct (Nat.eq_dec n i) as [<- | Hn].
      * left. rewrite Nat.sub_diag in H. simpl in H. congruence.
      * right. split; [lia |].
        replace (i - n) with (S (i - S n)) in H by lia. exact H.
Qed.

Lemma sum_over_true {A} (f : A -> bool) (l : list A) :
  sum_over l f = true <-> exists x, In x l /\ f x = true.
Proof.
  unfold sum_over. induction l as [| x l IH]; simpl.
  - split; [discriminate | intros [x [[] _]]].
  - rewrite orb_true_iff, IH. split.
    + intros [H | [y [Hy Hf]]]; [exists x; auto | exists y; auto].
    + intros [y [[<- | Hy] Hf]]; [now left | right; exists y; auto].
Qed.

Lemma unary_on_body {R} (a : Symbol) (r : Rule R) :
  unary_on a r = true <-> body r = [a].
Proof.
  unfold unary_on. destruct (body r) as [| b [| c l]];
    try (split; discriminate).
  destruct (beq_reflect a b) as [-> | Hn]; split; try tauto; try discriminate.
  intros [= ->]. now contradiction Hn.
Qed.

Lemma binary_body {R} (r : Rule R) :
  binary r = true <-> exists Y Z, body r = [Y; Z].
Proof.
  unfold binary. destruct (body r) as [| b [| c [| e l]]]; simpl;
    split; try discriminate; try (intros [Y [Z H]]; discriminate).
  - intros _. eauto.
  - reflexivity.
Qed.

Section CKYBoolean.
Variable g : CFG bool.
Variable s : list Symbol.
Hypothesis Hcnf : forall r, In r (cfg_rules g) -> cnf_rule g r = true.

(** The three kinds of nodes that the chart stands for. *)
Lemma spans_nullary (r : Rule bool) (i : nat) :
  In r (cfg_rules g) -> nullary r = true -> w r = true ->
  spans g s (i, cfg_S g, i).
Proof.
  intros Hr Hn Hw. unfold nullary in Hn. apply Nat.eqb_eq in Hn.
  pose proof (Hcnf r Hr) as Hc. unfold cnf_rule in Hc.
  destruct (body r) as [| y l] eqn:Hb; [| discriminate].
  pose proof (proj1 (beq_eq (head r) (cfg_S g)) Hc) as Hh.
  exists (Derivation (as_drule r) (cfg_S g) []).
  split; [reflexivity |]. split; [| split; [reflexivity |]].
  - rewrite <- Hw. apply dr_node with (p := r) (vs := []); auto.
  - unfold substring. now rewrite Nat.sub_diag.
Qed.

Lemma spans_unary (r : Rule bool) (i : nat) (a : Symbol) :
  In r (cfg_rules g) -> body r = [a] -> w r = true ->
  nth_error s i = Some a ->
  spans g s (i, head r, i + 1).
Proof.
  intros Hr Hb Hw Ha.
  pose proof (Hcnf r Hr) as Hc. unfold cnf_rule in Hc. rewrite Hb in Hc.
  apply mem_In in Hc.
  exists (Derivation (as_drule r) (head r) [Leaf a]).
  split; [reflexivity |]. split; [| split; [reflexivity |]].
  - replace true with (fold_left times [@one bool Boolean] (w r))
      by (simpl; now rewrite Hw).
    apply dr_node with (p := r);
      [exact Hr | reflexivity | now rewrite Hb |].
    constructor; [now apply dr_leaf | constructor].
  - simpl. symmetry. now apply substring_one.
Qed.

Lemma spans_binary (r : Rule bool) (i j k : nat) (Y Z : Symbol) :
  In r (cfg_rules g) -> body r = [Y; Z] -> w r = true ->
  i <= j <= k ->
  spans g s (i, Y, j) -> spans g s (j, Z, k) ->
  spans g s (i, head r, k).
Proof.
  intros Hr Hb Hw Hijk [dy [_ [Hdy [Hly Hyy]]]] [dz [_ [Hdz [Hlz Hyz]]]].
  exists (Derivation (as_drule r) (head r) [dy; dz]).
  split; [reflexivity |]. split; [| split; [reflexivity |]].
  - replace true with (fold_left times [true; true] (w r))
      by (simpl; now rewrite Hw).
    apply dr_node with (p := r);
      [exact Hr | reflexivity | rewrite Hb; simpl; now rewrite Hly, Hlz
      | repeat constructor; assumption].
  - simpl. rewrite app_nil_r, Hyy, Hyz. now apply substring_split.
Qed.

Variable terminal : list (Symbol * list (Rule bool)).
Hypothesis Hterminal :
  forall a, dl_get terminal a = List.filter (unary_on a) (cfg_rules g).

Lemma cky_nullary_sound : chart_within (spans g s) (cky_nullary g s).
Proof.
  unfold cky_nullary. apply fold_left_inv; [intros k v [] |].
  intros c i _ Hc. apply chart_within_incr; [exact Hc |].
  intros H. apply sum_over_true in H as [r [Hr Hw]].
  apply filter_In in Hr as [Hr Hn]. now apply spans_nullary with (r := r).
Qed.

Lemma cky_preterminal_sound : chart_within (spans g s) (cky_preterminal g s terminal).
Proof.
  unfold cky_preterminal. apply fold_left_inv; [apply cky_nullary_sound |].
  intros c [i a] Hin Hc. apply In_combine_seq in Hin as [_ Hin].
  rewrite Nat.sub_0_r in Hin.
  apply fold_left_inv; [exact Hc |].
  intros c' r Hr Hc'. rewrite Hterminal in Hr.
  apply filter_In in Hr as [Hr Hu]. apply unary_on_body in Hu.
  apply chart_within_incr; [exact Hc' |].
  intros Hw. now apply spans_unary with (a := a).
Qed.

Lemma cky_span_sound (c : Chart bool (nat * Symbol * nat)) (span : nat) :
  chart_within (spans g s) c -> chart_within (spans g s) (cky_span g s c span).
Proof.
  intros Hc. unfold cky_span. apply fold_left_inv; [exact Hc |].
  intros c1 i _ Hc1. apply fold_left_inv; [exact Hc1 |].
  intros c2 j Hj Hc2. apply in_seq in Hj.
  apply fold_left_inv; [exact Hc2 |].
  intros c3 r Hr Hc3. apply filter_In in Hr as [Hr _].
  unfold cky_rule. destruct (body r) as [| Y [| Z [| e l]]] eqn:Hb;
    try exact Hc3.
  apply chart_within_incr; [exact Hc3 |].
  intros H. apply andb_prop in H as [H HZ]. apply andb_prop in H as [Hw HY].
  apply spans_binary with (j := j) (Y := Y) (Z := Z); auto; [lia | |].
  - now apply (chart_within_get (P := spans g s)) with (c := c3).
  - now apply (chart_within_get (P := spans g s)) with (c := c3).
Qed.

Lemma cky_spans_sound (l : list nat) (c : Chart bool (nat * Symbol * nat)) :
  chart_within (spans g s) c ->
  chart_within (spans g s) (fold_left (cky_span g s) l c).
Proof.
  intros Hc. apply fold_left_inv; [exact Hc |].
  intros c' sp _. apply cky_span_sound.
Qed.
End CKYBoolean.


Section ChartLe.
Context {K : Type} {EK : Eqb K} {LK : EqbLaws K}.

Lemma chart_le_refl (c : Chart bool K) : chart_le c c.
Proof. intros q H. exact H. Qed.

Lemma chart_le_trans (c1 c2 c3 : Chart bool K) :
  chart_le c1 c2 -> chart_le c2 c3 -> chart_le c1 c3.
Proof. intros H1 H2 q H. apply H2, H1, H. Qed.

Lemma chart_le_incr (c : Chart bool K) (k : K) (v : bool) :
  chart_le c (incr c k v).
Proof.
  intros q H. rewrite get_incr.
  destruct (beq_reflect q k) as [<- | _]; [| exact H].
  rewrite H. reflexivity.
Qed.

Lemma get_incr_true (c : Chart bool K) (k : K) :
  get (incr c k true) k = true.
Proof. rewrite get_incr, beq_refl. apply orb_true_r. Qed.

(** A loop whose steps only add to the chart. *)
Lemma fold_le {B} (f : Chart bool K -> B -> Chart bool K) (l : list B)
  (c : Chart bool K) :
  (forall c x, chart_le c (f c x)) -> chart_le c (fold_left f l c).
Proof.
  intros Hf. revert c. induction l as [| x l IH]; intros c; simpl.
  - apply chart_le_refl.
  - eapply chart_le_trans; [apply Hf | apply IH].
Qed.

(** What one iteration establishes from facts that only grow, the whole
    loop establishes. *)
Lemma fold_hit {B} (f : Chart bool K -> B -> Chart bool K) (l : list B)
  (x : B) (Q : Chart bool K -> Prop) (q : K) (c : Chart bool K) :
  (forall c x, chart_le c (f c x)) ->
  (forall c c', chart_le c c' -> Q c -> Q c') ->
  In x l -> Q c ->
  (forall c, Q c -> get (f c x) q = true) ->
  get (fold_left f l c) q = true.
Proof.
  intros Hf HQ Hin Hc Hx. revert c Hc.
  induction l as [| y l IH]; intros c Hc; [contradiction |].
  simpl. destruct Hin as [-> | Hin].
  - apply (fold_le f l (f c x) Hf). now apply Hx.
  - apply IH; [exact Hin |]. eapply HQ; [apply Hf | exact Hc].
Qed.
End ChartLe.

Lemma app_inv_length {A} (a a' b b' : list A) :
  List.length a = List.length a' -> a ++ b = a' ++ b' -> a = a' /\ b = b'.
Proof.
  revert a'. induction a as [| x a IH]; intros [| x' a'] Hl H;
    try discriminate.
  - auto.
  - simpl in *. injection H as -> H. injection Hl as Hl.
    destruct (IH a' Hl H) as [-> ->]. auto.
Qed.

Lemma length_substring (s : list Symbol) (i k : nat) :
  k <= List.length s -> List.length (substring s i k) = k - i.
Proof.
  intros H. unfold substring. rewrite length_firstn, length_skipn. lia.
Qed.

Lemma substring_one_inv (s : list Symbol) (i : nat) (a : Symbol) :
  substring s i (i + 1) = [a] -> nth_error s i = Some a.
Proof.
  unfold substring. replace (i + 1 - i) with 1 by lia.
  revert i. induction s as [| x s IH]; intros [| i]; simpl;
    try discriminate.
  - now intros [= ->].
  - apply IH.
Qed.

Lemma fold_left_andb_all (vs : list bool) (a : bool) :
  fold_left andb vs a = true -> a = true /\ Forall (fun v => v = true) vs.
Proof.
  revert a. induction vs as [| v vs IH]; intros a H; simpl in H.
  - auto.
  - apply IH in H as [Ha Hvs]. apply andb_prop in Ha as [Ha Hv].
    split; [exact Ha | now constructor].
Qed.

Section CKYComplete.
Variable g : CFG bool.
Variable s : list Symbol.
Hypothesis Hcnf : forall r, In r (cfg_rules g) -> cnf_rule g r = true.
Hypothesis Hheads : forall p, In p (cfg_rules g) -> ~ In (head p) (cfg_V g).
Variable terminal : list (Symbol * list (Rule bool)).
Hypothesis Hterminal :
  forall a, dl_get terminal a = List.filter (unary_on a) (cfg_rules g).

Lemma Forall2_all_true (ys : list (Tree bool)) (vs : list bool) :
  Forall2 (derives g) ys vs -> Forall (fun v => v = true) vs ->
  Forall (fun y => derives g y true) ys.
Proof.
  induction 1 as [| y v ys vs Hy _ IH]; intros Hvs; constructor.
  - inversion Hvs; subst. exact Hy.
  - apply IH. now inversion Hvs.
Qed.

(** The root of a derivation of weight [true]. *)
Lemma node_inv_gen (d : Tree bool) (v : bool) :
  derives g d v ->
  forall r0 X ys, d = Derivation r0 X ys -> v = true ->
  exists p, In p (cfg_rules g) /\ head p = X /\ body p = map label ys
            /\ w p = true /\ Forall (fun y => derives g y true) ys.
Proof.
  intros H. destruct H as [a Ha | r x ys' p vs Hp Hh Hb Hys];
    intros r0 X ys Ed Ev; [discriminate |].
  injection Ed as -> -> ->.
  apply fold_left_andb_all in Ev as [Hw Hvs].
  exists p. repeat (split; [assumption || reflexivity |]).
  eapply Forall2_all_true; eassumption.
Qed.

Lemma node_inv (r0 : Rule (option bool)) (X : Symbol)
  (ys : list (Tree bool)) :
  derives g (Derivation r0 X ys) true ->
  exists p, In p (cfg_rules g) /\ head p = X /\ body p = map label ys
            /\ w p = true /\ Forall (fun y => derives g y true) ys.
Proof. intros H. now apply (node_inv_gen H) with (r0 := r0). Qed.

(** A node is never labelled by a terminal. *)
Lemma node_nonterminal (d : Tree bool) (v : bool) :
  derives g d v -> In (label d) (cfg_V g) -> exists a, d = Leaf a.
Proof.
  intros H HV. destruct d as [a | r x ys]; [eauto |].
  inversion H; subst.
  match goal with
  | Hp : In ?p (cfg_rules g) |- _ => exfalso; now apply (Hheads p Hp)
  end.
Qed.

Lemma leaf_terminal (d : Tree bool) (v : bool) :
  derives g d v -> ~ In (label d) (cfg_V g) -> isDerivation d = true.
Proof.
  intros H HV. destruct d as [a | r x ys]; [| reflexivity].
  inversion H; subst. now contradiction HV.
Qed.

Lemma yield_nonempty (d : Tree bool) :
  derives g d true ->
  (isDerivation d = true -> label d <> cfg_S g) ->
  Yield d <> [].
Proof.
  induction d as [a | r x ys IH] using Tree_ind_nested; intros Hd Hl;
    [discriminate |].
  specialize (Hl eq_refl). simpl in Hl.
  destruct (node_inv Hd) as [p [Hp [Hh [Hb [Hw Hys]]]]].
  pose proof (Hcnf p Hp) as Hc. unfold cnf_rule in Hc.
  destruct ys as [| y [| z [| e l]]]; simpl in Hb; rewrite Hb in Hc.
  - exfalso. apply Hl. rewrite <- Hh.
    now apply (proj1 (beq_eq (head p) (cfg_S g))).
  - inversion Hys as [| ? ? Hy _]; subst.
    destruct (node_nonterminal Hy) as [a ->]; [now apply mem_In |].
    discriminate.
  - cbn [forallb] in Hc. apply andb_prop in Hc as [HY _].
    apply andb_prop in HY as [_ HY]. apply negb_true_iff in HY.
    inversion Hys as [| ? ? Hy _]; subst.
    inversion IH as [| ? ? IHy _]; subst.
    cbn [Yield flat_map]. intros E. apply app_eq_nil in E as [E _].
    revert E. apply IHy; [exact Hy |].
    intros _ Heq. rewrite Heq, beq_refl in HY. discriminate.
  - discriminate.
Qed.

(** The shape of a node by the width of its yield. *)
Lemma node_cases (d : Tree bool) (X : Symbol) (i k : nat) :
  isDerivation d = true -> derives g d true -> label d = X ->
  Yield d = substring s i k -> i < k -> k <= List.length s ->
  exists p, In p (cfg_rules g) /\ head p = X /\ w p = true
    /\ ((exists a, body p = [a] /\ k = i + 1 /\ nth_error s i = Some a)
        \/ (exists Y Z y z j,
              body p = [Y; Z] /\ i < j < k
              /\ isDerivation y = true /\ derives g y true /\ label y = Y
              /\ Yield y = substring s i j
              /\ isDerivation z = true /\ derives g z true /\ label z = Z
              /\ Yield z = substring s j k)).
Proof.
  intros Hnode Hd Hl HY Hik Hk.
  destruct d as [a | r0 x ys]; [discriminate |]. simpl in Hl. subst x.
  destruct (node_inv Hd) as [p [Hp [Hh [Hb [Hw Hys]]]]].
  exists p. split; [exact Hp |]. split; [exact Hh |]. split; [exact Hw |].
  pose proof (length_substring s i Hk) as Hlen. rewrite <- HY in Hlen.
  pose proof (Hcnf p Hp) as Hc. unfold cnf_rule in Hc.
  destruct ys as [| y [| z [| e l]]]; simpl in Hb; rewrite Hb in Hc.
  - simpl in Hlen. lia.
  - left. inversion Hys as [| ? ? Hy _]; subst.
    destruct (node_nonterminal Hy) as [a Ea]; [now apply mem_In |].
    subst y. simpl in *. exists a. split; [exact Hb |].
    assert (k = i + 1) by lia. subst k. split; [reflexivity |].
    apply substring_one_inv. now symmetry.
  - right. cbn [forallb] in Hc. rewrite andb_true_r in Hc.
    apply andb_prop in Hc as [HcY HcZ].
    apply andb_prop in HcY as [HYn HYs]. apply andb_prop in HcZ as [HZn HZs].
    apply negb_true_iff in HYs, HZs.
    unfold is_nonterminal, is_terminal in HYn, HZn.
    apply negb_true_iff in HYn, HZn.
    inversion Hys as [| ? ? Hy Hys']; subst.
    inversion Hys' as [| ? ? Hz _]; subst.
    assert (HyN : isDerivation y = true).
    { apply leaf_terminal with (v := true); [exact Hy |].
      now apply mem_false. }
    assert (HzN : isDerivation z = true).
    { apply leaf_terminal with (v := true); [exact Hz |].
      now apply mem_false. }
    assert (Hye : Yield y <> []).
    { apply yield_nonempty; [exact Hy |]. intros _ E.
      rewrite E, beq_refl in HYs. discriminate. }
    assert (Hze : Yield z <> []).
    { apply yield_nonempty; [exact Hz |]. intros _ E.
      rewrite E, beq_refl in HZs. discriminate. }
    cbn [Yield flat_map] in HY, Hlen. rewrite app_nil_r in HY, Hlen.
    rewrite length_app in Hlen.
    assert (Hly : List.length (Yield y) <> 0)
      by (destruct (Yield y); [congruence | discriminate]).
    assert (Hlz : List.length (Yield z) <> 0)
      by (destruct (Yield z); [congruence | discriminate]).
    set (j := i + List.length (Yield y)).
    assert (Hj : i < j < k) by (unfold j; lia).
    rewrite <- (@substring_split s i j k) in HY by lia.
    apply app_inv_length in HY as [HY1 HY2].
    2:{ rewrite length_substring by lia. unfold j. lia. }
    exists (label y), (label z), y, z, j.
    repeat (split; [assumption || reflexivity || lia |]). exact HY2.
  - simpl in Hc. discriminate.
Qed.

Lemma filled_le (c c' : Chart bool (nat * Symbol * nat)) (m : nat) :
  chart_le c c' -> filled g s c m -> filled g s c' m.
Proof.
  intros Hle H i X k d H1 H2 H3 H4 H5 H6 H7. apply Hle.
  now apply (H i X k d).
Qed.

Lemma cky_rule_le (i j k : nat) (c : Chart bool (nat * Symbol * nat))
  (r : Rule bool) : chart_le c (cky_rule i j k c r).
Proof.
  unfold cky_rule. destruct (body r) as [| Y [| Z [| e l]]];
    try apply chart_le_refl.
  apply chart_le_incr.
Qed.

Lemma cky_span_le (c : Chart bool (nat * Symbol * nat)) (span : nat) :
  chart_le c (cky_span g s c span).
Proof.
  unfold cky_span. apply fold_le. intros c1 i.
  apply fold_le. intros c2 j. apply fold_le. intros c3 r.
  apply cky_rule_le.
Qed.

Lemma cky_preterminal_filled : filled g s (cky_preterminal g s terminal) 1.
Proof.
  intros i X k d Hnode Hd Hl HY Hik Hk Hm.
  destruct (@node_cases d X i k Hnode Hd Hl HY Hik Hk)
    as [p [Hp [Hh [Hw [[a [Hb [-> Ha]]] | H]]]]].
  2:{ destruct H as [Y [Z [y [z [j [_ [Hj _]]]]]]]. lia. }
  unfold cky_preterminal.
  apply fold_hit with (x := (i, a)) (Q := fun _ => True); auto.
  - intros c [i' a']. apply fold_le. intros c' r. apply chart_le_incr.
  - apply In_combine_seq. split; [lia |]. now rewrite Nat.sub_0_r.
  - intros c _.
    apply fold_hit with (x := p) (Q := fun _ => True); auto.
    + intros c' r. apply chart_le_incr.
    + rewrite Hterminal. apply filter_In. split; [exact Hp |].
      now apply unary_on_body.
    + intros c' _. rewrite Hw, Hh. apply get_incr_true.
Qed.

Lemma cky_span_filled (c : Chart bool (nat * Symbol * nat)) (m : nat) :
  1 <= m -> filled g s c m -> filled g s (cky_span g s c (S m)) (S m).
Proof.
  intros Hm Hc i X k d Hnode Hd Hl HY Hik Hk Hw.
  destruct (Nat.le_gt_cases (k - i) m) as [Hle | Hgt].
  { apply (cky_span_le c (S m)). now apply (Hc i X k d). }
  assert (Ek : k = i + S m) by lia.
  destruct (@node_cases d X i k Hnode Hd Hl HY Hik Hk)
    as [p [Hp [Hh [Hwp [[a [Hb [Hk1 Ha]]] | H]]]]]; [lia |].
  destruct H as [Y [Z [y [z [j [Hb [Hj [Hy1 [Hy2 [Hy3 [Hy4
                 [Hz1 [Hz2 [Hz3 Hz4]]]]]]]]]]]]]].
  assert (HgY : get c (i, Y, j) = true)
    by (apply (Hc i Y j y); auto; lia).
  assert (HgZ : get c (j, Z, k) = true)
    by (apply (Hc j Z k z); auto; lia).
  set (Q := fun c' : Chart bool (nat * Symbol * nat) =>
              get c' (i, Y, j) = true /\ get c' (j, Z, k) = true).
  assert (HQ : forall c1 c2, chart_le c1 c2 -> Q c1 -> Q c2).
  { intros c1 c2 Hle [H1 H2]. split; now apply Hle. }
  unfold cky_span.
  apply fold_hit with (x := i) (Q := Q); auto.
  - intros c1 i'. apply fold_le. intros c2 j'. apply fold_le. intros c3 r.
    apply cky_rule_le.
  - apply in_seq. lia.
  - now split.
  - intros c1 Hc1.
    apply fold_hit with (x := j) (Q := Q); auto.
    + intros c2 j'. apply fold_le. intros c3 r. apply cky_rule_le.
    + apply in_seq. lia.
    + intros c2 Hc2.
      apply fold_hit with (x := p) (Q := Q); auto.
      * intros c3 r. apply cky_rule_le.
      * apply filter_In. split; [exact Hp |]. apply binary_body. eauto.
      * intros c3 [H1 H2]. unfold cky_rule. rewrite Hb.
        rewrite <- Ek, H1, H2, Hwp, Hh. apply get_incr_true.
Qed.

Lemma cky_spans_filled (n a : nat) (c : Chart bool (nat * Symbol * nat)) :
  1 <= a -> filled g s c (Nat.max 1 (a - 1)) ->
  filled g s (fold_left (cky_span g s) (seq a n) c) (Nat.max 1 (a + n - 1)).
Proof.
  revert a c. induction n as [| n IH]; intros a c Ha Hc.
  - simpl. now rewrite Nat.add_0_r.
  - cbn [seq fold_left].
    replace (a + S n - 1) with (S a + n - 1) by lia.
    apply IH; [lia |].
    replace (Nat.max 1 (S a - 1)) with a by lia.
    destruct (Nat.eq_dec a 1) as [-> | Hne].
    + apply filled_le with (c := c); [apply cky_span_le | exact Hc].
    + replace a with (S (a - 1)) by lia.
      apply cky_span_filled; [lia |].
      replace (Nat.max 1 (a - 1)) with (a - 1) in Hc by lia. exact Hc.
Qed.
End CKYComplete.


Lemma substring_full (s : list Symbol) :
  substring s 0 (List.length s) = s.
Proof.
  unfold substring. rewrite Nat.sub_0_r. simpl. apply firstn_all.
Qed.

Lemma empty_yield_nullary (g : CFG bool) (d : Tree bool) :
  (forall r, In r (cfg_rules g) -> cnf_rule g r = true) ->
  (forall p, In p (cfg_rules g) -> ~ In (head p) (cfg_V g)) ->
  isDerivation d = true -> derives g d true -> label d = cfg_S g ->
  Yield d = [] ->
  exists p, In p (cfg_rules g) /\ nullary p = true /\ w p = true.
Proof.
  intros Hcnf Hheads Hnode Hd Hl HY.
  destruct d as [a | r0 x ys]; [discriminate |].
  destruct (node_inv Hd) as [p [Hp [Hh [Hb [Hw Hys]]]]].
  exists p. split; [exact Hp |]. split; [| exact Hw].
  pose proof (Hcnf p Hp) as Hc. unfold cnf_rule in Hc. unfold nullary.
  destruct ys as [| y [| z [| e l]]]; simpl in Hb; rewrite Hb in *.
  - reflexivity.
  - exfalso. inversion Hys as [| ? ? Hy _]; subst.
    assert (HV : In (label y) (cfg_V g)) by now apply mem_In.
    destruct (@node_nonterminal g Hheads y true Hy HV) as [a Ea].
    subst y. discriminate.
  - exfalso. cbn [forallb] in Hc. apply andb_prop in Hc as [HcY _].
    apply andb_prop in HcY as [_ HYs]. apply negb_true_iff in HYs.
    inversion Hys as [| ? ? Hy _]; subst.
    cbn [Yield flat_map] in HY. apply app_eq_nil in HY as [HY _].
    revert HY. apply (yield_nonempty Hcnf Hheads Hy).
    intros _ E. rewrite E, beq_refl in HYs. discriminate.
  - discriminate.
Qed.

(** X28.  The CKY recognizer is correct over the Boolean semiring.  On a
    grammar in Chomsky normal form [__call__] returns, and leaves the
    counter of fresh names alone; when it returns [true] the input is the
    yield of a derivation of the start symbol whose rules all have weight
    [true]; and, when no rule has a terminal for its head, it returns
    [true] for the yield of every such derivation. *)
Theorem call_boolean_correct (g : CFG bool) (s : list Symbol) (i : nat) :
  in_cnf g = Ok true ->
  exists b,
    call g s i = Ok (b, i)
    /\ (b = true ->
        exists d, isDerivation d = true /\ derives g d true
                  /\ label d = cfg_S g /\ Yield d = s)
    /\ ((forall p, In p (cfg_rules g) -> ~ In (head p) (cfg_V g)) ->
        forall d, isDerivation d = true -> derives g d true ->
                  label d = cfg_S g -> Yield d = s -> b = true).
Proof.
  intros Hin.
  pose proof (in_cnf_rules_form g _ Hin) as Hcnf.
  destruct (cnf_parts g Hin) as [terminal [Hparts Hget]].
  destruct (call_in_cnf g s i Hin Hparts) as [c [_ [Hcall Hc]]].
  change c with c in Hc.
  assert (Ec : c = fold_left (cky_span g s) (seq 1 (List.length s))
                             (cky_preterminal g s terminal))
    by (rewrite Hc; reflexivity).
  clear Hc. exists (get c (0, cfg_S g, List.length s)).
  split; [exact Hcall |]. split.
  - intros Hb.
    assert (Hs : spans g s (0, cfg_S g, List.length s)).
    { apply (chart_within_get (P := spans g s)) with (c := c);
        [| exact Hb].
      rewrite Ec. apply cky_spans_sound.
      now apply cky_preterminal_sound. }
    unfold spans in Hs. now rewrite substring_full in Hs.
  - intros Hheads d Hnode Hd Hl HY.
    destruct s as [| a s'].
    + destruct (empty_yield_nullary Hcnf Hheads Hnode Hd Hl HY)
        as [p [Hp [Hn Hw]]].
      rewrite Ec. cbn [List.length seq fold_left].
      unfold cky_preterminal, cky_nullary.
      cbn [List.length seq combine fold_left Nat.add].
      rewrite get_incr, (beq_refl (0, cfg_S g, 0)). cbn [get].
      apply orb_true_iff. right. apply sum_over_true.
      exists p. split; [| exact Hw]. apply filter_In. auto.
    + rewrite Ec.
      pose proof (@cky_spans_filled g (a :: s') Hcnf Hheads
                    (List.length (a :: s')) 1
                    (cky_preterminal g (a :: s') terminal)
                    (le_n 1)) as Hf.
      assert (Hpre : filled g (a :: s')
                       (cky_preterminal g (a :: s') terminal) 1).
      { apply cky_preterminal_filled; assumption. }
      apply (Hf Hpre 0 (cfg_S g) (List.length (a :: s')) d); auto;
        [now rewrite substring_full | simpl; lia ..].
Qed.

Lemma call_boolean_correct_witness :
  exists b,
    call g_Sa [Str "a"] 0 = Ok (b, 0)
    /\ (b = true ->
        exists d, isDerivation d = true /\ derives g_Sa d true
                  /\ label d = cfg_S g_Sa /\ Yield d = [Str "a"])
    /\ ((forall p, In p (cfg_rules g_Sa) -> ~ In (head p) (cfg_V g_Sa)) ->
        forall d, isDerivation d = true -> derives g_Sa d true ->
                  label d = cfg_S g_Sa -> Yield d = [Str "a"] -> b = true).
Proof. apply call_boolean_correct. reflexivity. Defined.


(** ** The rules of the speculation transformation *)

Section SpeculationRules.
Context {R : Type} {SR : Semiring R} {L : SemiringLaws R}.

Lemma In_add_iff (a : CFG R) (w0 : R) (h : Symbol) (b : list Symbol)
  (r : Rule R) :
  In r (cfg_rules (add_ a w0 h b))
  <-> In r (cfg_rules a) \/ (w0 <> zero /\ r = mkRule w0 h b).
Proof.
  rewrite rules_add_, in_app_iff.
  destruct (weq w0 zero) eqn:E.
  - apply weq_true in E. simpl. intuition.
  - apply weq_false in E. simpl. intuition.
Qed.

(** A loop each of whose steps adds the rules [Q x]. *)
Lemma In_fold_rules {B} (f : CFG R -> B -> CFG R) (Q : B -> Rule R -> Prop)
  (l : list B) (a : CFG R) (r : Rule R) :
  (forall a x r, In r (cfg_rules (f a x)) <-> In r (cfg_rules a) \/ Q x r) ->
  In r (cfg_rules (fold_left f l a))
  <-> In r (cfg_rules a) \/ exists x, In x l /\ Q x r.
Proof.
  intros Hf. revert a. induction l as [| x l IH]; intros a; simpl.
  - split; [now left | intros [H | [x [[] _]]]; exact H].
  - rewrite IH, Hf. split.
    + intros [[H | H] | [y [Hy H]]]; eauto.
    + intros [H | [y [[<- | Hy] H]]]; eauto.
Qed.

Variable g : CFG R.
Variable Xs : list Symbol.
Variable Ps : list (Rule R).
Variable id : Z.
Variable filter : bool.

Lemma Speculation_rules_spec (r : Rule R) :
  In r (cfg_rules (Speculation_rules g Xs Ps id filter))
  <-> w r <> zero /\ spec_rule g Xs Ps id filter r.
Proof.
  unfold Speculation_rules. cbv zeta.
  rewrite In_fold_rules with
    (Q := fun Y r =>
            exists X, In X Xs /\ one <> zero
                      /\ r = mkRule one Y [_frozen g id X; _slash g id Y X]).
  2:{ intros a Y r0.
      rewrite In_fold_rules with
        (Q := fun X r =>
                one <> zero
                /\ r = mkRule one Y [_frozen g id X; _slash g id Y X]).
      - reflexivity.
      - intros a' X r1. apply In_add_iff. }
  rewrite In_fold_rules with
    (Q := fun Y r => one <> zero /\ r = mkRule one Y [_frozen g id Y]).
  2:{ intros a Y r0. apply In_add_iff. }
  rewrite In_fold_rules with
    (Q := fun p r =>
            (~ In p Ps /\ w p <> zero
             /\ r = mkRule (w p) (_frozen g id (head p)) (body p))
            \/ (In p Ps
                /\ exists b0 rest,
                     body p = b0 :: rest /\ w p <> zero
                     /\ ((exists X,
                            In X (if filter then Xs
                                  else set_union (cfg_N g) (cfg_V g))
                            /\ r = mkRule (w p) (_slash g id (head p) X)
                                          (_slash g id b0 X :: rest))
                         \/ (~ In b0 Xs
                             /\ r = mkRule (w p) (_frozen g id (head p))
                                           (_frozen g id b0 :: rest))))).
  2:{ intros a p r0.
      destruct (mem p Ps) eqn:EP; cbn [negb].
      - apply mem_In in EP.
        destruct (body p) as [| b0 rest] eqn:Eb.
        + split; [now left |].
          intros [H | [[Hn _] | [_ [b [l [Hb _]]]]]];
            [exact H | contradiction | discriminate].
        + assert (Hin : forall r1,
                    In r1 (cfg_rules
                             (fold_left
                                (fun self X =>
                                   add_ self (w p) (_slash g id (head p) X)
                                        (_slash g id b0 X :: rest))
                                (if filter then Xs
                                 else set_union (cfg_N g) (cfg_V g)) a))
                    <-> In r1 (cfg_rules a)
                        \/ exists X,
                             In X (if filter then Xs
                                   else set_union (cfg_N g) (cfg_V g))
                             /\ w p <> zero
                             /\ r1 = mkRule (w p) (_slash g id (head p) X)
                                            (_slash g id b0 X :: rest)).
          { intros r1.
            apply In_fold_rules with
              (Q := fun X r2 =>
                      w p <> zero
                      /\ r2 = mkRule (w p) (_slash g id (head p) X)
                                     (_slash g id b0 X :: rest)).
            intros a' X r2. apply In_add_iff. }
          destruct (mem b0 Xs) eqn:EX; cbn [negb].
          * apply mem_In in EX. rewrite Hin. split.
            -- intros [H | [X [HX [Hw Hr]]]]; [now left |].
               right. right. split; [exact EP |].
               exists b0, rest. split; [reflexivity |].
               split; [exact Hw |]. left. eauto.
            -- intros [H | [[Hn _] | [_ [b [l [Hb [Hw H]]]]]]];
                 [now left | contradiction |].
               injection Hb as <- <-.
               destruct H as [[X [HX Hr]] | [Hn _]]; [| contradiction].
               right. eauto.
          * apply mem_false in EX. rewrite In_add_iff, Hin. split.
            -- intros [[H | [X [HX [Hw Hr]]]] | [Hw Hr]]; [now left | |].
               ++ right. right. split; [exact EP |].
                  exists b0, rest. split; [reflexivity |].
                  split; [exact Hw |]. left. eauto.
               ++ right. right. split; [exact EP |].
                  exists b0, rest. split; [reflexivity |].
                  split; [exact Hw |]. right. auto.
            -- intros [H | [[Hn _] | [_ [b [l [Hb [Hw H]]]]]]];
                 [left; now left | contradiction |].
               injection Hb as <- <-.
               destruct H as [[X [HX Hr]] | [_ Hr]].
               ++ left. right. eauto.
               ++ right. auto.
      - apply mem_false in EP. rewrite In_add_iff. split.
        + intros [H | [Hw Hr]]; [now left | right; left; auto].
        + intros [H | [[_ [Hw Hr]] | [HP _]]];
            [now left | right; auto | contradiction]. }
  rewrite In_fold_rules with
    (Q := fun X r => one <> zero /\ r = mkRule one (_slash g id X X) []).
  2:{ intros a X r0. apply In_add_iff. }
  cbn [new_CFG cfg_rules].
  split.
  - intros [[[[[] | [X [HX [Hw ->]]]] | [p [Hp H]]] | [Y [HY [Hw ->]]]]
            | [Y [HY [X [HX [Hw ->]]]]]].
    + split; [exact Hw | now constructor].
    + destruct H as [[Hn [Hw ->]] | [HP [b0 [rest [Hb [Hw H]]]]]].
      * split; [exact Hw | now constructor].
      * destruct H as [[X [HX ->]] | [Hn ->]].
        -- split; [exact Hw | now apply sr_slash_rec].
        -- split; [exact Hw | now apply sr_frozen_rec].
    + apply In_set_diff in HY as [HY Hn].
      split; [exact Hw | now constructor].
    + split; [exact Hw | now constructor].
  - intros [Hw H]. destruct H as [X HX | p Hp Hn | p b0 rest X Hp HP Hb HX
                                 | p b0 rest Hp HP Hb Hn | Y HY Hn | Y X HY HX];
      cbn [w] in Hw.
    + left. left. left. right. eauto.
    + left. left. right. exists p. split; [exact Hp |]. left. auto.
    + left. left. right. exists p. split; [exact Hp |]. right.
      split; [exact HP |]. exists b0, rest. split; [exact Hb |].
      split; [exact Hw |]. left. eauto.
    + left. left. right. exists p. split; [exact Hp |]. right.
      split; [exact HP |]. exists b0, rest. split; [exact Hb |].
      split; [exact Hw |]. right. auto.
    + left. right. exists Y. split; [| auto].
      apply In_set_diff. auto.
    + right. exists Y. split; [exact HY |]. eauto.
Qed.

Lemma Speculation_S : cfg_S (Speculation_rules g Xs Ps id filter) = cfg_S g.
Proof.
  unfold Speculation_rules. cbv zeta.
  rewrite fold_S.
  2:{ intros a X. apply fold_S. intros a' Y. apply cfg_S_add_. }
  rewrite fold_S by (intros; apply cfg_S_add_).
  rewrite fold_S.
  2:{ intros a p. destruct (negb (mem p Ps)); [apply cfg_S_add_ |].
      destruct (body p) as [| b0 rest]; [reflexivity |].
      destruct (negb (mem b0 Xs)); [rewrite cfg_S_add_ |];
        (apply fold_S; intros; apply cfg_S_add_). }
  rewrite fold_S by (intros; apply cfg_S_add_).
  reflexivity.
Qed.

(** X29.  [speculate] fails the assertion of the constructor unless every
    rule of [Ps] is a rule of the grammar with a nonempty body; otherwise
    it returns a grammar with the same start symbol whose rules are
    exactly the rules of nonzero weight of the six kinds of the
    speculation transformation: the slash and frozen base cases, the
    slash and frozen recursive cases, and the two kinds of recovery
    rules. *)
Theorem speculate_rules :
  ((forall p, In p Ps -> In p (cfg_rules g) /\ body p <> []) ->
   exists G',
     speculate g Xs (Some Ps) filter id = Ok G'
     /\ cfg_S G' = cfg_S g
     /\ forall r, In r (cfg_rules G')
                  <-> w r <> zero /\ spec_rule g Xs Ps id filter r)
  /\ (~ (forall p, In p Ps -> In p (cfg_rules g) /\ body p <> []) ->
      speculate g Xs (Some Ps) filter id = Raise AssertionError).
Proof.
  unfold speculate, Speculation. split.
  - intros H. exists (Speculation_rules g Xs Ps id filter).
    assert (Hc : ctor_asserts g Ps = true).
    { unfold ctor_asserts. apply andb_true_intro. split.
      - unfold subset. apply forallb_forall. intros p Hp.
        apply mem_In. now apply H.
      - apply forallb_forall. intros p Hp.
        destruct (H p Hp) as [_ Hb]. now destruct (body p). }
    rewrite Hc. split; [reflexivity |]. split; [apply Speculation_S |].
    apply Speculation_rules_spec.
  - intros H. destruct (ctor_asserts g Ps) eqn:Hc; [| reflexivity].
    exfalso. apply H. intros p Hp.
    apply ctor_asserts_rules in Hc as [H1 H2]. auto.
Qed.
End SpeculationRules.

Lemma speculate_rules_witness :
  exists G',
    speculate g_left [Str "a"] (Some [rule_Sa]) true 0 = Ok G'
    /\ cfg_S G' = cfg_S g_left
    /\ forall r, In r (cfg_rules G')
                 <-> w r <> zero
                     /\ spec_rule g_left [Str "a"] [rule_Sa] 0 true r.
Proof.
  apply (proj1 (@speculate_rules bool Boolean Boolean_laws g_left
                  [Str "a"] [rule_Sa] 0 true)).
  intros p [<- | []]. split; [in_list | discriminate].
Defined.

